(** * A shallow embedding of the chess rules engine (ChessEngine.ts) and of
      the opponent's move selection (AIOpponent.ts)

    Positions are pairs of integers, the board is the array of arrays of the
    source, read with the semantics of [state.board[row]?.[col]].  The
    read-only operations of the engine (move generation, attack detection,
    status detection, validation) are pure functions over a snapshot of the
    game state.  [executeMove], which deep-copies the board and then mutates
    the copy, is modelled over an explicit object store further down. *)

From Stdlib Require Import ZArith Lia Bool Sorted.
From Stdlib Require String Ascii DecimalString.
From stdpp Require Import base list.

Open Scope Z_scope.

(** ** Data model (types/chess.ts) *)

Inductive PieceType := pawn | knight | bishop | rook | queen | king.
Inductive PieceColor := white | black.
Inductive PromotionType := promoQueen | promoRook | promoBishop | promoKnight.

Record Position := mkPosition { row : Z; col : Z }.

Record Piece := mkPiece {
  type : PieceType;
  color : PieceColor;
  position : Position;
  hasMoved : bool
}.

(** The optional flags [isEnPassant?] and [isCastling?] are only ever tested
    for truthiness, so an absent flag is [false]. *)
Record Move := mkMove {
  from : Position;
  to : Position;
  piece : Piece;
  capturedPiece : option Piece;
  isEnPassant : bool;
  isCastling : bool;
  promotionType : option PromotionType
}.

Abbreviation Board := (list (list (option Piece))).

(** The fields [isAIThinking], [status] and [winner] of the interface belong
    to the controller; the engine neither reads nor writes them.

    [moveCount] is a JavaScript number that holds a count, modelled as an
    integer.  The addition [state.moveCount + 1] of [executeMove] is the
    addition of integers for a count from 0 to below 2^53, the range in
    which JavaScript adds one exactly; what is stated about the new count is
    stated for counts of that range. *)
Record GameState := mkGameState {
  board : Board;
  currentTurn : PieceColor;
  moveHistory : list Move;
  capturedPieces : list Piece;
  isCheck : bool;
  isCheckmate_flag : bool;
  isStalemate_flag : bool;
  moveCount : Z;
  lastMove : option Move
}.

Definition PieceType_eqb (a b : PieceType) : bool :=
  match a, b with
  | pawn, pawn | knight, knight | bishop, bishop
  | rook, rook | queen, queen | king, king => true
  | _, _ => false
  end.

Definition PieceColor_eqb (a b : PieceColor) : bool :=
  match a, b with
  | white, white | black, black => true
  | _, _ => false
  end.

Definition positionsEqual (pos1 pos2 : Position) : bool :=
  (row pos1 =? row pos2) && (col pos1 =? col pos2).

Definition oppositeColor (c : PieceColor) : PieceColor :=
  match c with white => black | black => white end.

Definition promotedType (p : PromotionType) : PieceType :=
  match p with
  | promoQueen => queen | promoRook => rook
  | promoBishop => bishop | promoKnight => knight
  end.

(** [arr[i]] on a JavaScript array: [undefined] below zero and beyond the
    length. *)
Definition jsIndex {A} (l : list A) (i : Z) : option A :=
  if i <? 0 then None else l !! Z.to_nat i.

(** [board[row]?.[col]] *)
Definition cell (b : Board) (r c : Z) : option Piece :=
  match jsIndex b r with
  | Some cells => match jsIndex cells c with Some x => x | None => None end
  | None => None
  end.

Definition isPositionOnBoard (pos : Position) : bool :=
  (0 <=? row pos) && (row pos <=? 7) && (0 <=? col pos) && (col pos <=? 7).

(** [board[r][c] = v] on the 8 by 8 board.  Every destination the move
    generator hands to the simulation has its row on the board; a column
    outside 0..7 (possible only for an en-passant square computed from a
    [lastMove] that is itself off the board) makes JavaScript store the piece
    outside the 64 cells that the engine scans, which for those 64 cells is
    the same as not storing it. *)
Definition setCell (b : Board) (r c : Z) (v : option Piece) : Board :=
  if isPositionOnBoard (mkPosition r c) then
    match b !! Z.to_nat r with
    | Some cells => <[Z.to_nat r := <[Z.to_nat c := v]> cells]> b
    | None => b
    end
  else b.

(** The type guards of types/chess.ts: a position is valid when both
    coordinates are integers in 0..7, a board when it has eight rows of
    eight cells, each empty or holding a valid piece. *)
Definition isValidPosition (pos : Position) : bool :=
  (0 <=? row pos) && (row pos <=? 7) && (0 <=? col pos) && (col pos <=? 7).

Definition isValidPiece (p : Piece) : bool := isValidPosition (position p).

Definition isValidBoard (b : Board) : bool :=
  (length b =? 8)%nat
  && forallb (fun cells =>
       (length cells =? 8)%nat
       && forallb (fun c => match c with
                            | Some p => isValidPiece p
                            | None => true
                            end) cells) b.

(** The index range of the loops [for (let i = 0; i < 8; i++)]. *)
Definition range8 : list Z := [0; 1; 2; 3; 4; 5; 6; 7].

(** A loop that returns from its body at the first hit. *)
Fixpoint firstSome {A B} (f : A -> option B) (l : list A) : option B :=
  match l with
  | [] => None
  | x :: l' => match f x with Some y => Some y | None => firstSome f l' end
  end.

(** ** Move generator *)

Definition pawnDirection (c : PieceColor) : Z :=
  match c with white => -1 | black => 1 end.

Definition getEnPassantMoves (pawn_ : Piece) (state : GameState) : list Position :=
  let correctRank := match color pawn_ with white => 3 | black => 4 end in
  if negb (row (position pawn_) =? correctRank) then []
  else match lastMove state with
  | None => []
  | Some lastMove_ =>
    if negb (PieceType_eqb (type (piece lastMove_)) pawn)
       || PieceColor_eqb (color (piece lastMove_)) (color pawn_) then []
    else
      let rowDiff := Z.abs (row (to lastMove_) - row (from lastMove_)) in
      if negb (rowDiff =? 2) then []
      else
        let opponentPawnCol := col (to lastMove_) in
        let colDiff := Z.abs (opponentPawnCol - col (position pawn_)) in
        if (colDiff =? 1) && (row (to lastMove_) =? row (position pawn_)) then
          let direction := pawnDirection (color pawn_) in
          [mkPosition (row (position pawn_) + direction) opponentPawnCol]
        else []
  end.

Definition isEmptyCell (b : Board) (pos : Position) : bool :=
  match cell b (row pos) (col pos) with Some _ => false | None => true end.

Definition getPawnMoves (piece_ : Piece) (state : GameState) : list Position :=
  let r := row (position piece_) in
  let c := col (position piece_) in
  let direction := pawnDirection (color piece_) in
  let forwardOne := mkPosition (r + direction) c in
  let forward :=
    if isPositionOnBoard forwardOne && isEmptyCell (board state) forwardOne then
      forwardOne ::
      (if negb (hasMoved piece_) then
         let forwardTwo := mkPosition (r + direction * 2) c in
         if isPositionOnBoard forwardTwo && isEmptyCell (board state) forwardTwo
         then [forwardTwo] else []
       else [])
    else [] in
  let captureLeft := mkPosition (r + direction) (c - 1) in
  let captureRight := mkPosition (r + direction) (c + 1) in
  let captures :=
    flat_map (fun capturePos =>
      if isPositionOnBoard capturePos then
        match cell (board state) (row capturePos) (col capturePos) with
        | Some targetPiece =>
            if negb (PieceColor_eqb (color targetPiece) (color piece_))
            then [capturePos] else []
        | None => []
        end
      else []) [captureLeft; captureRight] in
  forward ++ captures ++ getEnPassantMoves piece_ state.

(** The body shared by the knight and king loops: step to the offset square
    if it is on the board and empty or held by the other colour. *)
Definition offsetMoves (offsets : list (Z * Z)) (piece_ : Piece)
    (state : GameState) : list Position :=
  flat_map (fun offset =>
    let newPos := mkPosition (row (position piece_) + fst offset)
                             (col (position piece_) + snd offset) in
    if isPositionOnBoard newPos then
      match cell (board state) (row newPos) (col newPos) with
      | None => [newPos]
      | Some targetPiece =>
          if negb (PieceColor_eqb (color targetPiece) (color piece_))
          then [newPos] else []
      end
    else []) offsets.

Definition knightOffsets : list (Z * Z) :=
  [(-2, -1); (-2, 1); (-1, -2); (-1, 2); (1, -2); (1, 2); (2, -1); (2, 1)].

Definition kingOffsets : list (Z * Z) :=
  [(-1, -1); (-1, 0); (-1, 1); (0, -1); (0, 1); (1, -1); (1, 0); (1, 1)].

Definition getKnightMoves (piece_ : Piece) (state : GameState) : list Position :=
  offsetMoves knightOffsets piece_ state.

(** The [while] loop of [getSlidingMoves], unrolled over [fuel] iterations
    starting at the square [(currentRow, currentCol)]. *)
Fixpoint slide (fuel : nat) (piece_ : Piece) (direction : Z * Z)
    (state : GameState) (currentRow currentCol : Z) : list Position :=
  match fuel with
  | O => []
  | S fuel' =>
    if isPositionOnBoard (mkPosition currentRow currentCol) then
      match cell (board state) currentRow currentCol with
      | None =>
          mkPosition currentRow currentCol ::
          slide fuel' piece_ direction state
                (currentRow + fst direction) (currentCol + snd direction)
      | Some targetPiece =>
          if negb (PieceColor_eqb (color targetPiece) (color piece_))
          then [mkPosition currentRow currentCol]
          else []
      end
    else []
  end.

(** Eight iterations exhaust any ray on the board (lemma [slide_fuel]). *)
Definition getSlidingMoves (piece_ : Piece) (direction : Z * Z)
    (state : GameState) : list Position :=
  slide 8 piece_ direction state
        (row (position piece_) + fst direction)
        (col (position piece_) + snd direction).

Definition bishopDirections : list (Z * Z) := [(-1, -1); (-1, 1); (1, -1); (1, 1)].
Definition rookDirections : list (Z * Z) := [(-1, 0); (1, 0); (0, -1); (0, 1)].
Definition queenDirections : list (Z * Z) :=
  [(-1, -1); (-1, 0); (-1, 1); (0, -1); (0, 1); (1, -1); (1, 0); (1, 1)].

Definition getBishopMoves (piece_ : Piece) (state : GameState) : list Position :=
  flat_map (fun direction => getSlidingMoves piece_ direction state) bishopDirections.

Definition getRookMoves (piece_ : Piece) (state : GameState) : list Position :=
  flat_map (fun direction => getSlidingMoves piece_ direction state) rookDirections.

Definition getQueenMoves (piece_ : Piece) (state : GameState) : list Position :=
  flat_map (fun direction => getSlidingMoves piece_ direction state) queenDirections.

Definition getBasicKingMoves (piece_ : Piece) (state : GameState) : list Position :=
  offsetMoves kingOffsets piece_ state.

Definition getPseudoLegalMovesForAttack (piece_ : Piece) (state : GameState)
    : list Position :=
  match type piece_ with
  | pawn => getPawnMoves piece_ state
  | knight => getKnightMoves piece_ state
  | bishop => getBishopMoves piece_ state
  | rook => getRookMoves piece_ state
  | queen => getQueenMoves piece_ state
  | king => getBasicKingMoves piece_ state
  end.

(** [byColor] is the colour under attack; the attackers are the other colour. *)
Definition isPositionUnderAttack (position_ : Position) (byColor : PieceColor)
    (state : GameState) : bool :=
  let opponentColor := oppositeColor byColor in
  existsb (fun r =>
    existsb (fun c =>
      match cell (board state) r c with
      | Some piece_ =>
          PieceColor_eqb (color piece_) opponentColor
          && existsb (fun move => positionsEqual move position_)
                     (getPseudoLegalMovesForAttack piece_ state)
      | None => false
      end) range8) range8.

Definition backRankOf (c : PieceColor) : Z :=
  match c with white => 7 | black => 0 end.

Definition isUnmovedRookOf (c : PieceColor) (x : option Piece) : bool :=
  match x with
  | Some r => PieceType_eqb (type r) rook && PieceColor_eqb (color r) c
              && negb (hasMoved r)
  | None => false
  end.

Definition getCastlingMoves (king_ : Piece) (state : GameState) : list Position :=
  if hasMoved king_ then []
  else if isPositionUnderAttack (position king_) (color king_) state then []
  else
    let backRank := backRankOf (color king_) in
    if negb (row (position king_) =? backRank) || negb (col (position king_) =? 4)
    then []
    else
      let kingside :=
        if isUnmovedRookOf (color king_) (cell (board state) backRank 7) then
          if isEmptyCell (board state) (mkPosition backRank 5)
             && isEmptyCell (board state) (mkPosition backRank 6) then
            if negb (isPositionUnderAttack (mkPosition backRank 5) (color king_) state)
            then [mkPosition backRank 6] else []
          else []
        else [] in
      let queenside :=
        if isUnmovedRookOf (color king_) (cell (board state) backRank 0) then
          if isEmptyCell (board state) (mkPosition backRank 1)
             && isEmptyCell (board state) (mkPosition backRank 2)
             && isEmptyCell (board state) (mkPosition backRank 3) then
            if negb (isPositionUnderAttack (mkPosition backRank 3) (color king_) state)
            then [mkPosition backRank 2] else []
          else []
        else [] in
      kingside ++ queenside.

Definition getKingMoves (piece_ : Piece) (state : GameState) : list Position :=
  offsetMoves kingOffsets piece_ state ++ getCastlingMoves piece_ state.

Definition getPseudoLegalMoves (piece_ : Piece) (state : GameState)
    : list Position :=
  match type piece_ with
  | pawn => getPawnMoves piece_ state
  | knight => getKnightMoves piece_ state
  | bishop => getBishopMoves piece_ state
  | rook => getRookMoves piece_ state
  | queen => getQueenMoves piece_ state
  | king => getKingMoves piece_ state
  end.

Definition withBoard (state : GameState) (b : Board) : GameState :=
  mkGameState b (currentTurn state) (moveHistory state) (capturedPieces state)
    (isCheck state) (isCheckmate_flag state) (isStalemate_flag state)
    (moveCount state) (lastMove state).

Definition withPosition (p : Piece) (pos : Position) : Piece :=
  mkPiece (type p) (color p) pos (hasMoved p).

(** The simulation works on a deep copy, so the snapshot it is given stays
    as it is; the piece stored at [to] is the object whose [position] is
    overwritten afterwards. *)
Definition applyMoveToState (from_ to_ : Position) (state : GameState)
    : GameState :=
  match cell (board state) (row from_) (col from_) with
  | None => state
  | Some piece_ =>
      let b1 := setCell (board state) (row to_) (col to_)
                        (Some (withPosition piece_ to_)) in
      let b2 := setCell b1 (row from_) (col from_) None in
      withBoard state b2
  end.

Definition findKing (color_ : PieceColor) (state : GameState) : option Position :=
  firstSome (fun r =>
    firstSome (fun c =>
      match cell (board state) r c with
      | Some piece_ =>
          if PieceType_eqb (type piece_) king && PieceColor_eqb (color piece_) color_
          then Some (mkPosition r c) else None
      | None => None
      end) range8) range8.

Definition wouldLeaveKingInCheck (from_ to_ : Position) (state : GameState) : bool :=
  let tempState := applyMoveToState from_ to_ state in
  match findKing (currentTurn state) tempState with
  | None => true
  | Some kingPos => isPositionUnderAttack kingPos (currentTurn state) tempState
  end.

Definition getValidMoves (position_ : Position) (state : GameState)
    : list Position :=
  match cell (board state) (row position_) (col position_) with
  | None => []
  | Some piece_ =>
      if negb (PieceColor_eqb (color piece_) (currentTurn state)) then []
      else
        List.filter (fun toPos => negb (wouldLeaveKingInCheck position_ toPos state))
                    (getPseudoLegalMoves piece_ state)
  end.

(** ** Status detector *)

Definition isPawnPromotion (from_ to_ : Position) (state : GameState) : bool :=
  match cell (board state) (row from_) (col from_) with
  | None => false
  | Some piece_ =>
      if negb (PieceType_eqb (type piece_) pawn) then false
      else
        let promotionRank := match color piece_ with white => 0 | black => 7 end in
        row to_ =? promotionRank
  end.

Definition isInCheck (color_ : PieceColor) (state : GameState) : bool :=
  match findKing color_ state with
  | None => false
  | Some kingPos => isPositionUnderAttack kingPos color_ state
  end.

Definition getAllLegalMoves (color_ : PieceColor) (state : GameState) : list Move :=
  flat_map (fun r =>
    flat_map (fun c =>
      match cell (board state) r c with
      | Some piece_ =>
          if PieceColor_eqb (color piece_) color_ then
            map (fun toPos =>
                   mkMove (mkPosition r c) toPos piece_ None false false None)
                (getValidMoves (mkPosition r c) state)
          else []
      | None => []
      end) range8) range8.

Definition hasAnyLegalMoves (color_ : PieceColor) (state : GameState) : bool :=
  existsb (fun r =>
    existsb (fun c =>
      match cell (board state) r c with
      | Some piece_ =>
          PieceColor_eqb (color piece_) color_
          && (0 <? Z.of_nat (length (getValidMoves (mkPosition r c) state)))
      | None => false
      end) range8) range8.

Definition isCheckmate (color_ : PieceColor) (state : GameState) : bool :=
  if negb (isInCheck color_ state) then false
  else negb (hasAnyLegalMoves color_ state).

Definition isStalemate (state : GameState) : bool :=
  let currentColor := currentTurn state in
  if isInCheck currentColor state then false
  else negb (hasAnyLegalMoves currentColor state).

(** ** Validation *)

Definition isValidMove (move : Move) (state : GameState) : bool :=
  match cell (board state) (row (from move)) (col (from move)) with
  | None => false
  | Some piece_ =>
    if negb (PieceColor_eqb (color piece_) (currentTurn state)) then false
    else if negb (PieceType_eqb (type piece_) (type (piece move)))
            || negb (PieceColor_eqb (color piece_) (color (piece move))) then false
    else
      let validMoves := getValidMoves (from move) state in
      let isDestinationValid :=
        existsb (fun validMove => positionsEqual validMove (to move)) validMoves in
      if negb isDestinationValid then false
      else if isCastling move
              && negb (PieceType_eqb (type piece_) king
                       && (Z.abs (col (to move) - col (from move)) =? 2))
      then false
      else if isEnPassant move
              && negb (PieceType_eqb (type piece_) pawn
                       && negb (col (to move) =? col (from move))
                       && isEmptyCell (board state) (to move))
      then false
      else match promotionType move with
           | Some _ => isPawnPromotion (from move) (to move) state
           | None => true
           end
  end.

(** ** Move executor, over an object store

    [executeMove] clones the board and then assigns to the clone's row arrays
    and to fields of the cloned piece objects; several of its variables
    ([piece], [rook], [capturedPiece], the board cells) may refer to one and
    the same object.  The store below keeps the objects that the method
    assigns to: piece objects, row arrays, captured-piece arrays (copied,
    then pushed to) and game-state objects (created, then the three status
    flags assigned).  Positions, moves, the outer board array and the history
    array are never assigned to after their creation and are kept as values;
    a move refers to its pieces by location. *)

Abbreviation loc := nat.

Record MoveRef := mkMoveRef {
  mfrom : Position;
  mto : Position;
  mpiece : loc;
  mcapturedPiece : option loc;
  misEnPassant : bool;
  misCastling : bool;
  mpromotionType : option PromotionType
}.

Record StateObj := mkStateObj {
  sboard : list loc;
  scurrentTurn : PieceColor;
  smoveHistory : list MoveRef;
  scapturedPieces : loc;
  sisCheck : bool;
  sisCheckmate : bool;
  sisStalemate : bool;
  smoveCount : Z;
  slastMove : option MoveRef
}.

Inductive Obj :=
| OPiece (p : Piece)
| OCells (cells : list (option loc))
| OPieces (ps : list loc)
| OState (s : StateObj).

Abbreviation Heap := (list Obj).

(** *** Reading a snapshot off the store *)

Definition snapPiece (h : Heap) (l : loc) : option Piece :=
  match h !! l with Some (OPiece p) => Some p | _ => None end.

Definition snapCell (h : Heap) (c : option loc) : option (option Piece) :=
  match c with
  | None => Some None
  | Some l => match snapPiece h l with Some p => Some (Some p) | None => None end
  end.

Definition snapCells (h : Heap) (l : loc) : option (list (option Piece)) :=
  match h !! l with
  | Some (OCells cells) => mapM (snapCell h) cells
  | _ => None
  end.

Definition snapBoard (h : Heap) (rows : list loc) : option Board :=
  mapM (snapCells h) rows.

Definition snapPieces (h : Heap) (l : loc) : option (list Piece) :=
  match h !! l with
  | Some (OPieces ps) => mapM (snapPiece h) ps
  | _ => None
  end.

Definition snapMove (h : Heap) (m : MoveRef) : option Move :=
  match snapPiece h (mpiece m), snapCell h (mcapturedPiece m) with
  | Some p, Some cp =>
      Some (mkMove (mfrom m) (mto m) p cp (misEnPassant m) (misCastling m)
                   (mpromotionType m))
  | _, _ => None
  end.

Definition snapLastMove (h : Heap) (m : option MoveRef) : option (option Move) :=
  match m with
  | None => Some None
  | Some m' => match snapMove h m' with Some x => Some (Some x) | None => None end
  end.

Definition snapStateObj (h : Heap) (s : StateObj) : option GameState :=
  match snapBoard h (sboard s), mapM (snapMove h) (smoveHistory s),
        snapPieces h (scapturedPieces s), snapLastMove h (slastMove s) with
  | Some b, Some hist, Some caps, Some lm =>
      Some (mkGameState b (scurrentTurn s) hist caps (sisCheck s)
              (sisCheckmate s) (sisStalemate s) (smoveCount s) lm)
  | _, _, _, _ => None
  end.

Definition snapState (h : Heap) (l : loc) : option GameState :=
  match h !! l with
  | Some (OState s) => snapStateObj h s
  | _ => None
  end.

(** *** Store-passing computations; [None] is a thrown exception (or a
    reference of the wrong type, which the TypeScript types exclude). *)

Definition M (A : Type) : Type := Heap -> option (A * Heap).

#[global] Instance M_ret : MRet M := fun A a h => Some (a, h).
#[global] Instance M_bind : MBind M := fun A B f m h =>
  match m h with
  | Some (a, h') => f a h'
  | None => None
  end.

Definition throw {A} : M A := fun _ => None.

Definition alloc (o : Obj) : M loc := fun h => Some (length h, h ++ [o]).

Definition getPiece (l : loc) : M Piece := fun h =>
  match h !! l with Some (OPiece p) => Some (p, h) | _ => None end.

Definition setPiece (l : loc) (p : Piece) : M unit := fun h =>
  match h !! l with
  | Some (OPiece _) => Some (tt, <[l := OPiece p]> h)
  | _ => None
  end.

Definition getCells (l : loc) : M (list (option loc)) := fun h =>
  match h !! l with Some (OCells cs) => Some (cs, h) | _ => None end.

Definition setCells (l : loc) (cs : list (option loc)) : M unit := fun h =>
  match h !! l with
  | Some (OCells _) => Some (tt, <[l := OCells cs]> h)
  | _ => None
  end.

Definition getPieces (l : loc) : M (list loc) := fun h =>
  match h !! l with Some (OPieces ps) => Some (ps, h) | _ => None end.

Definition setPieces (l : loc) (ps : list loc) : M unit := fun h =>
  match h !! l with
  | Some (OPieces _) => Some (tt, <[l := OPieces ps]> h)
  | _ => None
  end.

Definition getState (l : loc) : M StateObj := fun h =>
  match h !! l with Some (OState s) => Some (s, h) | _ => None end.

Definition setState (l : loc) (s : StateObj) : M unit := fun h =>
  match h !! l with
  | Some (OState _) => Some (tt, <[l := OState s]> h)
  | _ => None
  end.

Definition snapshot (l : loc) : M GameState := fun h =>
  match snapState h l with Some s => Some (s, h) | None => None end.

Fixpoint forM {A B} (f : A -> M B) (l : list A) : M (list B) :=
  match l with
  | [] => mret []
  | x :: l' => y ← f x; ys ← forM f l'; mret (y :: ys)
  end.

(** [piece ? { ...piece, position: { ...piece.position } } : null] *)
Definition copyCell (c : option loc) : M (option loc) :=
  match c with
  | None => mret None
  | Some l => p ← getPiece l; l' ← alloc (OPiece p); mret (Some l')
  end.

Definition copyRow (r : loc) : M loc :=
  cells ← getCells r; cells' ← forM copyCell cells; alloc (OCells cells').

Definition copyBoard (rows : list loc) : M (list loc) := forM copyRow rows.

(** [newBoard[r]?.[c]] *)
Definition boardGet (rows : list loc) (r c : Z) : M (option loc) :=
  match jsIndex rows r with
  | None => mret None
  | Some rl =>
      cells ← getCells rl;
      mret (match jsIndex cells c with Some x => x | None => None end)
  end.

(** [newBoard[r]![c]]: a [TypeError] when the row is missing. *)
Definition boardGetStrict (rows : list loc) (r c : Z) : M (option loc) :=
  match jsIndex rows r with
  | None => throw
  | Some rl =>
      cells ← getCells rl;
      mret (match jsIndex cells c with Some x => x | None => None end)
  end.

(** [newBoard[r]![c] = v]: a [TypeError] when the row is missing; a column
    outside 0..7 lands outside the cells of the board (see [setCell]). *)
Definition boardSet (rows : list loc) (r c : Z) (v : option loc) : M unit :=
  match jsIndex rows r with
  | None => throw
  | Some rl =>
      cells ← getCells rl;
      if (0 <=? c) && (c <=? 7)
      then setCells rl (<[Z.to_nat c := v]> cells)
      else mret tt
  end.

Definition setPosition (l : loc) (pos : Position) : M unit :=
  p ← getPiece l; setPiece l (mkPiece (type p) (color p) pos (hasMoved p)).

Definition setHasMoved (l : loc) (b : bool) : M unit :=
  p ← getPiece l; setPiece l (mkPiece (type p) (color p) (position p) b).

Definition setType (l : loc) (t : PieceType) : M unit :=
  p ← getPiece l; setPiece l (mkPiece t (color p) (position p) (hasMoved p)).

(** The rook relocation of the castling branch. *)
Definition moveRook (newBoard : list loc) (backRank fromCol toCol : Z) : M unit :=
  rook_ ← boardGetStrict newBoard backRank fromCol;
  match rook_ with
  | Some rk =>
      _ ← boardSet newBoard backRank toCol (Some rk);
      _ ← boardSet newBoard backRank fromCol None;
      _ ← setPosition rk (mkPosition backRank toCol);
      setHasMoved rk true
  | None => mret tt
  end.

Definition executeMoveH (move : MoveRef) (st : loc) : M loc :=
  state ← getState st;
  newBoard ← copyBoard (sboard state);
  piece_ ← boardGet newBoard (row (mfrom move)) (col (mfrom move));
  match piece_ with
  | None => throw
  | Some pc =>
    targetPiece ← boardGet newBoard (row (mto move)) (col (mto move));
    capturedPiece_ ←
      (if misEnPassant move then
         let capturedPawnRow := row (mfrom move) in
         let capturedPawnCol := col (mto move) in
         cp ← boardGet newBoard capturedPawnRow capturedPawnCol;
         match cp with
         | Some _ =>
             _ ← boardSet newBoard capturedPawnRow capturedPawnCol None; mret cp
         | None => mret cp
         end
       else mret targetPiece);
    _ ← boardSet newBoard (row (mto move)) (col (mto move)) (Some pc);
    _ ← boardSet newBoard (row (mfrom move)) (col (mfrom move)) None;
    _ ← setPosition pc (mto move);
    _ ← setHasMoved pc true;
    _ ← (if misCastling move then
           p ← getPiece pc;
           let backRank := backRankOf (color p) in
           let isKingside := col (mto move) =? 6 in
           if isKingside then moveRook newBoard backRank 7 5
           else moveRook newBoard backRank 0 3
         else mret tt);
    _ ← (match mpromotionType move with
         | Some t => setType pc (promotedType t)
         | None => mret tt
         end);
    oldCaptured ← getPieces (scapturedPieces state);
    newCapturedPieces ← alloc (OPieces oldCaptured);
    _ ← (match capturedPiece_ with
         | Some c => setPieces newCapturedPieces (oldCaptured ++ [c])
         | None => mret tt
         end);
    let newTurn := oppositeColor (scurrentTurn state) in
    let executedMove :=
      mkMoveRef (mfrom move) (mto move) (mpiece move) capturedPiece_
                (misEnPassant move) (misCastling move) (mpromotionType move) in
    let newMoveHistory := smoveHistory state ++ [executedMove] in
    let newStateObj :=
      mkStateObj newBoard newTurn newMoveHistory newCapturedPieces
                 false false false (smoveCount state + 1) (Some executedMove) in
    newState ← alloc (OState newStateObj);
    s1 ← snapshot newState;
    let o1 := mkStateObj newBoard newTurn newMoveHistory newCapturedPieces
                (isInCheck newTurn s1) false false
                (smoveCount state + 1) (Some executedMove) in
    _ ← setState newState o1;
    s2 ← snapshot newState;
    let o2 := mkStateObj newBoard newTurn newMoveHistory newCapturedPieces
                (isInCheck newTurn s1) (isCheckmate newTurn s2) false
                (smoveCount state + 1) (Some executedMove) in
    _ ← setState newState o2;
    s3 ← snapshot newState;
    let o3 := mkStateObj newBoard newTurn newMoveHistory newCapturedPieces
                (isInCheck newTurn s1) (isCheckmate newTurn s2) (isStalemate s3)
                (smoveCount state + 1) (Some executedMove) in
    _ ← setState newState o3;
    mret newState
  end.

(** *** Laying a snapshot out in the store *)

Definition loadCell (c : option Piece) : M (option loc) :=
  match c with
  | None => mret None
  | Some p => l ← alloc (OPiece p); mret (Some l)
  end.

Definition loadRow (cells : list (option Piece)) : M loc :=
  cs ← forM loadCell cells; alloc (OCells cs).

Definition loadMove (m : Move) : M MoveRef :=
  p ← alloc (OPiece (piece m));
  cp ← loadCell (capturedPiece m);
  mret (mkMoveRef (from m) (to m) p cp (isEnPassant m) (isCastling m)
                  (promotionType m)).

Definition loadLastMove (m : option Move) : M (option MoveRef) :=
  match m with
  | None => mret None
  | Some m' => r ← loadMove m'; mret (Some r)
  end.

Definition loadState (s : GameState) : M loc :=
  rows ← forM loadRow (board s);
  hist ← forM loadMove (moveHistory s);
  caps ← forM (fun p => alloc (OPiece p)) (capturedPieces s);
  capsArr ← alloc (OPieces caps);
  lm ← loadLastMove (lastMove s);
  alloc (OState (mkStateObj rows (currentTurn s) hist capsArr (isCheck s)
                   (isCheckmate_flag s) (isStalemate_flag s) (moveCount s) lm)).

(** [executeMove] as a function of snapshots: since the method never assigns
    to an object that existed before the call, its result depends on the
    snapshot of its arguments only. *)
Definition executeMove (move : Move) (state : GameState) : option GameState :=
  match (st ← loadState state; mv ← loadMove move;
         st' ← executeMoveH mv st; snapshot st') [] with
  | Some (s', _) => Some s'
  | None => None
  end.

(** ** Initial position *)

Definition backRankTypes : list PieceType :=
  [rook; knight; bishop; queen; king; bishop; knight; rook].

Definition createInitialBoard : Board :=
  [ map (fun '(c, t) => Some (mkPiece t black (mkPosition 0 c) false))
        (zip range8 backRankTypes);
    map (fun c => Some (mkPiece pawn black (mkPosition 1 c) false)) range8;
    replicate 8 None; replicate 8 None; replicate 8 None; replicate 8 None;
    map (fun c => Some (mkPiece pawn white (mkPosition 6 c) false)) range8;
    map (fun '(c, t) => Some (mkPiece t white (mkPosition 7 c) false))
        (zip range8 backRankTypes) ].

Definition initializeGame : GameState :=
  mkGameState createInitialBoard white [] [] false false false 0 None.

(** ** Notions used to state the properties *)

(** No cell of the board holds a king of colour [c]. *)
Definition kingless (c : PieceColor) (s : GameState) : Prop :=
  forall r k p, cell (board s) r k = Some p -> type p = king -> color p <> c.

(** The candidate moves of the piece on [position_]: the destinations that
    [getValidMoves] submits to the self-check filter, which are the
    pseudo-legal moves of that piece when it belongs to the side to move. *)
Definition filterCandidates (position_ : Position) (state : GameState)
    : list Position :=
  match cell (board state) (row position_) (col position_) with
  | None => []
  | Some piece_ =>
      if negb (PieceColor_eqb (color piece_) (currentTurn state)) then []
      else getPseudoLegalMoves piece_ state
  end.

(** The conditions under which [pawn_] may capture en passant after the
    move [lm], as the specification words them. *)
Definition enPassantEligible (pawn_ : Piece) (lm : Move) : Prop :=
  row (position pawn_) = match color pawn_ with white => 3 | black => 4 end /\
  type (piece lm) = pawn /\
  color (piece lm) <> color pawn_ /\
  Z.abs (row (to lm) - row (from lm)) = 2 /\
  Z.abs (col (to lm) - col (position pawn_)) = 1 /\
  row (to lm) = row (position pawn_).

(** The square behind the pawn that has just arrived by [lm], seen in the
    direction of travel of [pawn_]. *)
Definition squareBehind (pawn_ : Piece) (lm : Move) : Position :=
  mkPosition (row (to lm) + pawnDirection (color pawn_)) (col (to lm)).

(** [m] agrees with an entry of the legal-move list of the side to move:
    same source, same destination, a mover of the same type and colour. *)
Definition listedAsLegal (m : Move) (s : GameState) : Prop :=
  exists m', In m' (getAllLegalMoves (currentTurn s) s) /\
             from m' = from m /\ to m' = to m /\
             type (piece m') = type (piece m) /\
             color (piece m') = color (piece m).

(** Every special-move flag that [m] asserts matches the board: a castling
    flag goes with a king moving two files, an en-passant flag with a pawn
    changing file onto an empty square, a promotion type with a pawn on the
    source and a destination on the last rank of its colour (row 0 for
    white, row 7 for black). *)
Definition flagsMatchBoard (m : Move) (s : GameState) : Prop :=
  (isCastling m = true ->
     exists p, cell (board s) (row (from m)) (col (from m)) = Some p /\
               type p = king /\ Z.abs (col (to m) - col (from m)) = 2) /\
  (isEnPassant m = true ->
     exists p, cell (board s) (row (from m)) (col (from m)) = Some p /\
               type p = pawn /\ col (to m) <> col (from m) /\
               cell (board s) (row (to m)) (col (to m)) = None) /\
  (promotionType m <> None ->
     exists p, cell (board s) (row (from m)) (col (from m)) = Some p /\
               type p = pawn /\
               row (to m) = match color p with white => 0 | black => 7 end).

(** Castling toward the rook on column [rookCol] (0 or 7): the king steps
    two files toward it and passes over the square next to its own. *)
Definition castlingStep (rookCol : Z) : Z := if rookCol =? 7 then 1 else -1.

Definition castlingDestination (king_ : Piece) (rookCol : Z) : Position :=
  mkPosition (row (position king_))
             (col (position king_) + 2 * castlingStep rookCol).

Definition transitSquare (king_ : Piece) (rookCol : Z) : Position :=
  mkPosition (row (position king_)) (col (position king_) + castlingStep rookCol).

(** The castling conditions as the specification lists them. *)
Definition castlingRuleHolds (king_ : Piece) (rookCol : Z) (s : GameState) : Prop :=
  hasMoved king_ = false /\
  (exists r, cell (board s) (backRankOf (color king_)) rookCol = Some r /\
             type r = rook /\ color r = color king_ /\ hasMoved r = false) /\
  (forall k, Z.min (col (position king_)) rookCol < k
             < Z.max (col (position king_)) rookCol ->
             cell (board s) (backRankOf (color king_)) k = None) /\
  isPositionUnderAttack (position king_) (color king_) s = false /\
  isPositionUnderAttack (transitSquare king_ rookCol) (color king_) s = false.

(** ** Notions used to reason about the object store *)

Definition kindOf (o : Obj) : nat :=
  match o with OPiece _ => 0 | OCells _ => 1 | OPieces _ => 2 | OState _ => 3 end%nat.

Definition pieceLoc (h : Heap) (l : loc) : Prop :=
  exists p, h !! l = Some (OPiece p).

(** From [h] to [h']: the objects below [n] are the same, no object
    disappears and no object changes its kind. *)
Definition evolves (n : nat) (h h' : Heap) : Prop :=
  (n <= length h)%nat /\
  (forall l, (l < n)%nat -> h' !! l = h !! l) /\
  (forall l o, h !! l = Some o ->
               exists o', h' !! l = Some o' /\ kindOf o' = kindOf o).

(** A cell that is empty or refers to a piece object created at or after [n]. *)
Definition freshCell (n : nat) (h : Heap) (c : option loc) : Prop :=
  match c with
  | Some l => (n <= l)%nat /\ pieceLoc h l
  | None => True
  end.

Definition rowLoc (n : nat) (h : Heap) (l : loc) : Prop :=
  (n <= l)%nat /\ exists cs, h !! l = Some (OCells cs).

(** Every row array created at or after [n] holds fresh cells only. *)
Definition freshRows (n : nat) (h : Heap) : Prop :=
  forall l cs, (n <= l)%nat -> h !! l = Some (OCells cs) ->
               Forall (freshCell n h) cs.

(** [newBoard[r]?.[c]] as a function of the store. *)
Definition cellLoc (h : Heap) (rows : list loc) (r c : Z) : option loc :=
  match jsIndex rows r with
  | Some rl =>
      match h !! rl with
      | Some (OCells cs) => match jsIndex cs c with Some x => x | None => None end
      | _ => None
      end
  | None => None
  end.

(** The invariant of [executeMove] for the objects created since the store
    had [n] objects. *)
Definition goodStore (n : nat) (h : Heap) : Prop :=
  (n <= length h)%nat /\ freshRows n h.

(** Every object of [h] is an object of [h']. *)
Definition extends (h h' : Heap) : Prop :=
  forall l o, h !! l = Some o -> h' !! l = Some o.

(** Two stores that differ at most in the contents of state objects. *)
Definition sameButStates (h h' : Heap) : Prop :=
  forall l, h' !! l = h !! l \/
            exists o o', h !! l = Some (OState o) /\ h' !! l = Some (OState o').

(** What the deep copy establishes for a cell and for a row. *)
Definition copiedCell (n : nat) (h : Heap) (c c' : option loc) : Prop :=
  (exists v, snapCell h c = Some v /\ snapCell h c' = Some v) /\ freshCell n h c'.

Definition copiedRow (n : nat) (h : Heap) (l l' : loc) : Prop :=
  (exists v, snapCells h l = Some v /\ snapCells h l' = Some v) /\ rowLoc n h l'.

(** ** Opponent (AIOpponent.ts): move selection

    The scores are IEEE doubles produced by the minimax search over the
    successor position and, in easy mode, perturbed by [Math.random]; the
    selection below is stated for an arbitrary score type, an arbitrary
    scoring of the candidates and an arbitrary comparison, so that nothing
    proved about it depends on floating-point arithmetic or on the random
    source.

    The search promise settles inside its own executor, before
    [Promise.race] is reached, while the timer callback can only run in a
    later task; the race therefore always yields the move chosen by the
    search, which is the result modelled here. *)

Inductive DifficultyMode := easy | hard.

Record AIConfig := mkAIConfig {
  difficulty : DifficultyMode;
  maxThinkingTime : Z
}.

(** [None] stands for the exception that [executeMove] throws. *)
Definition wouldResultInCheckmate (move : Move) (state : GameState) : option bool :=
  match executeMove move state with
  | Some newState =>
      let opponentColor := oppositeColor (color (piece move)) in
      Some (isCheckmate opponentColor newState)
  | None => None
  end.

(** [arr.filter (x => !pred x)] for a predicate that may throw. *)
Fixpoint filterNot {A} (pred : A -> option bool) (l : list A) : option (list A) :=
  match l with
  | [] => Some []
  | x :: l' =>
      match pred x, filterNot pred l' with
      | Some b, Some r => Some (if b then r else x :: r)
      | _, _ => None
      end
  end.

Section Opponent.

Variable Score : Type.

(** [searchScore d i s]: the score given to the [i]-th candidate, whose
    successor position is [s]: the minimax value at depth 2 (easy) or 3
    (hard), plus the random perturbation in easy mode. *)
Variable searchScore : DifficultyMode -> nat -> GameState -> Score.

(** [scoreGt x y]: the comparator [(a, b) => b.score - a.score] is
    positive for [a.score = y] and [b.score = x]. *)
Variable scoreGt : Score -> Score -> bool.

(** [Math.floor(Math.random() * n)] *)
Variable randomBelow : nat -> nat.

Fixpoint scoreMoves (d : DifficultyMode) (state : GameState) (i : nat)
    (legalMoves : list Move) : option (list (Move * Score)) :=
  match legalMoves with
  | [] => Some []
  | move :: rest =>
      match executeMove move state, scoreMoves d state (S i) rest with
      | Some newState, Some r => Some ((move, searchScore d i newState) :: r)
      | _, _ => None
      end
  end.

(** [Array.prototype.sort] is stable: an element stays ahead of the
    later ones unless the comparator puts one of them first. *)
Fixpoint insertByScore (x : Move * Score) (l : list (Move * Score))
    : list (Move * Score) :=
  match l with
  | [] => [x]
  | y :: l' =>
      if scoreGt (snd y) (snd x) then y :: insertByScore x l' else x :: l
  end.

Definition sortByScore (l : list (Move * Score)) : list (Move * Score) :=
  foldr insertByScore [] l.

Definition withoutCheckmates (state : GameState)
    (movesWithScores : list (Move * Score)) : option (list (Move * Score)) :=
  filterNot (fun ms => wouldResultInCheckmate (fst ms) state) movesWithScores.

Definition generateMove (state : GameState) (config : AIConfig) : option Move :=
  let legalMoves := getAllLegalMoves black state in
  if (length legalMoves =? 0)%nat then None
  else
    match scoreMoves (difficulty config) state 0 legalMoves with
    | None => None
    | Some scored =>
      let movesWithScores := sortByScore scored in
      let candidateMoves :=
        match difficulty config with
        | easy =>
            match withoutCheckmates state movesWithScores with
            | Some nonCheckmate =>
                Some (if (0 <? length nonCheckmate)%nat then nonCheckmate
                      else movesWithScores)
            | None => None
            end
        | hard =>
            if moveCount state <? 10 then
              match withoutCheckmates state movesWithScores with
              | Some nonCheckmate =>
                  Some (if (0 <? length nonCheckmate)%nat then nonCheckmate
                        else movesWithScores)
              | None => None
              end
            else Some movesWithScores
        end in
      match candidateMoves with
      | None => None
      | Some [] => legalMoves !! randomBelow (length legalMoves)
      | Some (best :: _) => Some (fst best)
      end
    end.

End Opponent.

(** ** Positions used as test cases *)

Definition emptyBoard : Board := replicate 8 (replicate 8 None).

Definition place (p : Piece) (b : Board) : Board :=
  setCell b (row (position p)) (col (position p)) (Some p).

Definition positionOf (turn : PieceColor) (pieces : list Piece)
    (last : option Move) : GameState :=
  let history := match last with Some m => [m] | None => [] end in
  mkGameState (foldr place emptyBoard pieces) turn history [] false false false
              (Z.of_nat (length history)) last.

Definition pieceAt (t : PieceType) (c : PieceColor) (r k : Z) (moved : bool) : Piece :=
  mkPiece t c (mkPosition r k) moved.

Definition plainMove (from_ to_ : Position) (p : Piece) : Move :=
  mkMove from_ to_ p None false false None.

(** White king e5, white pawn d5, black rook a5, black pawn still on c7;
    black to move. *)
Definition beforeDoubleStep : GameState :=
  positionOf black
    [pieceAt king white 3 4 true; pieceAt pawn white 3 3 true;
     pieceAt pawn black 1 2 false; pieceAt rook black 3 0 true;
     pieceAt king black 0 7 true]
    None.

Definition blackDoubleStep : Move :=
  plainMove (mkPosition 1 2) (mkPosition 3 2) (pieceAt pawn black 1 2 false).

(** The position after black has played c7-c5, as [executeMove] returns it. *)
Definition pinnedEnPassant : GameState :=
  Eval vm_compute in
    match executeMove blackDoubleStep beforeDoubleStep with
    | Some s => s
    | None => beforeDoubleStep
    end.

Definition enPassantCapture : Move :=
  mkMove (mkPosition 3 3) (mkPosition 2 2) (pieceAt pawn white 3 3 true)
         None true false None.

(** The same pawns without the rook and with the kings at home. *)
Definition enPassantReady : GameState :=
  positionOf white
    [pieceAt king white 7 4 true; pieceAt pawn white 3 3 true;
     pieceAt pawn black 3 2 true; pieceAt king black 0 4 true]
    (Some (plainMove (mkPosition 1 2) (mkPosition 3 2) (pieceAt pawn black 1 2 false))).

(** White may castle short as far as the castling rule goes, but a black
    rook on g8 covers g1. *)
Definition castleIntoCheck : GameState :=
  positionOf white
    [pieceAt king white 7 4 false; pieceAt rook white 7 7 false;
     pieceAt rook black 0 6 true; pieceAt king black 0 0 true]
    None.

(** White may castle on either side. *)
Definition castleReady : GameState :=
  positionOf white
    [pieceAt king white 7 4 false; pieceAt rook white 7 7 false;
     pieceAt rook white 7 0 false; pieceAt king black 0 4 true]
    None.

(** Back-rank mate: black king g8 behind its pawns, white rook on e8. *)
Definition backRankMate : GameState :=
  positionOf black
    [pieceAt king black 0 6 true; pieceAt pawn black 1 5 false;
     pieceAt pawn black 1 6 false; pieceAt pawn black 1 7 false;
     pieceAt rook white 0 4 true; pieceAt king white 7 4 true]
    None.

(** Black king a8, white queen c7, white king c6: black to move has no
    move and is not in check. *)
Definition queenStalemate : GameState :=
  positionOf black
    [pieceAt king black 0 0 true; pieceAt queen white 1 2 true;
     pieceAt king white 2 2 true]
    None.

(** Black to move can mate with the rook on a1 or play something else. *)
Definition mateInOne : GameState :=
  positionOf black
    [pieceAt king white 7 6 true; pieceAt pawn white 6 5 false;
     pieceAt pawn white 6 6 false; pieceAt pawn white 6 7 false;
     pieceAt rook black 0 0 true; pieceAt king black 0 6 true]
    None.

(** White to move while the black king stands in check from the rook. *)
Definition offTurnCheck : GameState :=
  positionOf white
    [pieceAt king black 0 4 true; pieceAt rook white 3 4 true;
     pieceAt king white 7 0 true]
    None.

(** White has pawns and a rook but no king. *)
Definition kinglessWhite : GameState :=
  positionOf white
    [pieceAt rook white 7 0 false; pieceAt pawn white 6 3 false;
     pieceAt king black 0 4 true]
    None.

(** The same position with black to move: the kingless side is not on turn. *)
Definition kinglessWhiteOffTurn : GameState :=
  positionOf black
    [pieceAt rook white 7 0 false; pieceAt pawn white 6 3 false;
     pieceAt king black 0 4 true]
    None.

(** The checkmate exclusion applies in easy mode, and in hard mode during
    the first ten moves. *)
Definition exclusionApplies (config : AIConfig) (state : GameState) : bool :=
  match difficulty config with
  | easy => true
  | hard => moveCount state <? 10
  end.

(** The initial position laid out in a store, together with the move e2-e4. *)
Definition kingPawnTwo : Move :=
  plainMove (mkPosition 6 4) (mkPosition 4 4) (pieceAt pawn white 6 4 false).

Definition openingLoad : option (loc * MoveRef * Heap) :=
  (st ← loadState initializeGame; mv ← loadMove kingPawnTwo; mret (st, mv)) [].

Definition openingHeap : Heap :=
  match openingLoad with Some (_, h) => h | None => [] end.

Definition openingState : loc :=
  match openingLoad with Some ((st, _), _) => st | None => 0%nat end.

Definition openingMove : MoveRef :=
  match openingLoad with
  | Some ((_, mv), _) => mv
  | None => mkMoveRef (mkPosition 0 0) (mkPosition 0 0) 0%nat None false false None
  end.

(** ** Fixtures of the repository's test-suite (tests/engine) *)

Definition fixture (turn : PieceColor) (b : Board) (last : option Move) : GameState :=
  mkGameState b turn [] [] false false false 0 last.

Definition clearCells (squares : list (Z * Z)) (b : Board) : Board :=
  foldr (fun sq b' => setCell b' (fst sq) (snd sq) None) b squares.

(** 'should allow en passant capture when conditions are met' *)
Definition testEnPassant : GameState :=
  let blackPawn := pieceAt pawn black 3 5 false in
  fixture white
    (place (pieceAt pawn white 3 4 true)
       (place blackPawn (clearCells [(6, 4); (1, 5)] createInitialBoard)))
    (Some (plainMove (mkPosition 1 5) (mkPosition 3 5) blackPawn)).

(** 'should allow kingside castling when conditions are met' *)
Definition testCastleKingside : GameState :=
  fixture white (clearCells [(7, 5); (7, 6)] createInitialBoard) None.

(** 'should allow queenside castling when conditions are met' *)
Definition testCastleQueenside : GameState :=
  fixture white (clearCells [(7, 1); (7, 2); (7, 3)] createInitialBoard) None.

(** 'should not allow castling if king is in check' *)
Definition testCastleInCheck : GameState :=
  fixture white
    (place (pieceAt rook black 5 4 true)
       (clearCells [(7, 5); (7, 6); (6, 4)] createInitialBoard))
    None.

(** 'should not allow castling if king passes through check' *)
Definition testCastleThroughCheck : GameState :=
  fixture white
    (place (pieceAt rook black 5 5 true)
       (clearCells [(7, 5); (7, 6); (6, 5)] createInitialBoard))
    None.

(** 'should not allow castling if king ends in check' *)
Definition testCastleEndsInCheck : GameState :=
  fixture white
    (place (pieceAt rook black 5 6 true)
       (clearCells [(7, 5); (7, 6); (6, 6)] createInitialBoard))
    None.

(** 'should allow black to castle' *)
Definition testCastleBlack : GameState :=
  fixture black (clearCells [(0, 5); (0, 6)] createInitialBoard) None.

(** 'should filter out moves that would leave king in check' *)
Definition testPinnedRook : GameState :=
  fixture white
    (foldr place emptyBoard
       [pieceAt king white 4 4 true; pieceAt rook white 5 4 true;
        pieceAt rook black 7 4 true])
    None.

(** 'should detect checkmate - back rank mate' *)
Definition testBackRankMate : GameState :=
  fixture white
    (foldr place emptyBoard
       [pieceAt king white 7 6 true; pieceAt pawn white 6 5 true;
        pieceAt pawn white 6 6 true; pieceAt pawn white 6 7 true;
        pieceAt rook black 7 0 true; pieceAt king black 0 4 false])
    None.

(** 'should detect stalemate when king has no moves but is not in check' *)
Definition testStalemate : GameState :=
  fixture white
    (foldr place emptyBoard
       [pieceAt king white 7 7 true; pieceAt queen black 5 6 true;
        pieceAt king black 0 0 false])
    None.

(** [expect(moves).toContainEqual(pos)] *)
Definition listed (pos : Position) (l : list Position) : bool :=
  existsb (fun m => positionsEqual m pos) l.

(** ** Notions used to state further properties of the engine *)

(** The [k]-th square from [pos] in direction [d]. *)
Definition rayStep (pos : Position) (d : Z * Z) (k : Z) : Position :=
  mkPosition (row pos + k * fst d) (col pos + k * snd d).

(** Every piece records the square it stands on. *)
Definition positionsAgree (b : Board) : Prop :=
  forall r k p, cell b r k = Some p -> position p = mkPosition r k.

(** Eight rows of eight cells. *)
Definition eightByEight (b : Board) : Prop :=
  length b = 8%nat /\ Forall (fun cells => length cells = 8%nat) b.

(** [(r, k)] comes before [(r', k')] in the order in which the double
    loops scan the board. *)
Definition scannedBefore (r k r' k' : Z) : Prop :=
  r < r' \/ (r = r' /\ k < k').

(** ** [executeMove] as a function of snapshots

    The piece that arrives on the destination: relocated, marked as moved
    and, if the move asks for it, promoted. *)
Definition arrivedPiece (m : Move) (p : Piece) : Piece :=
  mkPiece (match promotionType m with
           | Some t => promotedType t
           | None => type p
           end) (color p) (to m) true.

(** The piece that [executeMove] records as captured: for an en-passant
    move the one beside the mover, on the mover's row and the destination's
    column; otherwise the one on the destination. *)
Definition capturedBy (m : Move) (b : Board) : option Piece :=
  if isEnPassant m then cell b (row (from m)) (col (to m))
  else cell b (row (to m)) (col (to m)).

(** The rook relocation of the castling branch, on a snapshot. *)
Definition rookHop (b : Board) (backRank fromCol toCol : Z) : Board :=
  match cell b backRank fromCol with
  | Some rk =>
      setCell (setCell b backRank toCol
                 (Some (mkPiece (type rk) (color rk)
                                (mkPosition backRank toCol) true)))
              backRank fromCol None
  | None => b
  end.

Definition boardAfter (m : Move) (b : Board) (p : Piece) : Board :=
  let b1 :=
    if isEnPassant m then
      match cell b (row (from m)) (col (to m)) with
      | Some _ => setCell b (row (from m)) (col (to m)) None
      | None => b
      end
    else b in
  let b2 := setCell b1 (row (to m)) (col (to m)) (Some (arrivedPiece m p)) in
  let b3 := setCell b2 (row (from m)) (col (from m)) None in
  if isCastling m then
    if col (to m) =? 6 then rookHop b3 (backRankOf (color p)) 7 5
    else rookHop b3 (backRankOf (color p)) 0 3
  else b3.

(** The move as it is stored in the history and as [lastMove]. *)
Definition executedMove (m : Move) (b : Board) : Move :=
  mkMove (from m) (to m) (piece m) (capturedBy m b) (isEnPassant m)
         (isCastling m) (promotionType m).

Definition withFlags (s : GameState) (check mate stale : bool) : GameState :=
  mkGameState (board s) (currentTurn s) (moveHistory s) (capturedPieces s)
    check mate stale (moveCount s) (lastMove s).

(** The state that [executeMove] returns for the move [m] of the piece [p]:
    the three status flags are computed one after the other, each from the
    state that holds the flags computed so far.  The new count is the old
    one plus one as integers, which is the code's addition for counts from
    0 to below 2^53 (see [GameState]). *)
Definition stateAfter (m : Move) (s : GameState) (p : Piece) : GameState :=
  let newTurn := oppositeColor (currentTurn s) in
  let em := executedMove m (board s) in
  let s0 :=
    mkGameState (boardAfter m (board s) p) newTurn (moveHistory s ++ [em])
      (capturedPieces s ++ match capturedBy m (board s) with
                           | Some c => [c]
                           | None => []
                           end)
      false false false (moveCount s + 1) (Some em) in
  let check := isInCheck newTurn s0 in
  let s1 := withFlags s0 check false false in
  let mate := isCheckmate newTurn s1 in
  let s2 := withFlags s0 check mate false in
  withFlags s0 check mate (isStalemate s2).

(** *** The board of a state in the store *)

Definition rowOfEight (h : Heap) (rl : loc) : Prop :=
  exists cs, h !! rl = Some (OCells cs) /\ length cs = 8%nat.

(** The rows [rows] of the store [h] hold the board [b]: eight distinct
    row arrays of eight cells, no piece object on two squares, and every
    square reads as in [b]. *)
Definition represents (h : Heap) (rows : list loc) (b : Board) : Prop :=
  length rows = 8%nat /\ NoDup rows /\ Forall (rowOfEight h) rows /\
  (forall r c l, cellLoc h rows r c = Some l -> pieceLoc h l) /\
  (forall r c r' c' l, cellLoc h rows r c = Some l ->
                       cellLoc h rows r' c' = Some l -> r = r' /\ c = c') /\
  (forall r c, cell b r c = match cellLoc h rows r c with
                            | Some l => snapPiece h l
                            | None => None
                            end) /\
  eightByEight b.

(** From [h] to [h']: piece objects and row arrays are as they were. *)
Definition boardUntouched (h h' : Heap) : Prop :=
  forall l o, h !! l = Some o -> (kindOf o <= 1)%nat -> h' !! l = Some o.

(** Two states with the same board, side to move and last move: they may
    differ in the history, the captured pieces, the move count and the
    three status flags. *)
Definition sameGame (s1 s2 : GameState) : Prop :=
  board s1 = board s2 /\ currentTurn s1 = currentTurn s2 /\
  lastMove s1 = lastMove s2.

(** A state as the engine produces them: a valid board on which every
    piece records its own square, and a last move that ended on the board. *)
Definition wellFormed (s : GameState) : Prop :=
  isValidBoard (board s) = true /\ positionsAgree (board s) /\
  (forall lm, lastMove s = Some lm -> isValidPosition (to lm) = true).

(** The states of a game: the initial position, and every state that
    [executeMove] returns for a move that [isValidMove] accepts. *)
Inductive reachable : GameState -> Prop :=
| reachable_start : reachable initializeGame
| reachable_step (s : GameState) (m : Move) (s' : GameState) :
    reachable s -> isValidMove m s = true -> executeMove m s = Some s' ->
    reachable s'.

(** Two boards that hold the same pieces, except that a piece of colour
    [c] may stand for another piece of colour [c] of the same type. *)
Definition sameSquaresFor (c : PieceColor) (b1 b2 : Board) : Prop :=
  forall r k,
    cell b1 r k = cell b2 r k \/
    exists p q, cell b1 r k = Some p /\ cell b2 r k = Some q /\
                color p = c /\ color q = c /\ type p = type q.

(** ** Further positions and moves used as examples *)

(** The opening position after e2-e4, as [executeMove] returns it. *)
Definition afterKingPawnTwo : GameState :=
  stateAfter kingPawnTwo initializeGame (pieceAt pawn white 6 4 false).

(** White castles short in [castleReady]. *)
Definition castleShort : Move :=
  mkMove (mkPosition 7 4) (mkPosition 7 6) (pieceAt king white 7 4 false)
         None false true None.

(** A white pawn on a7 with a black rook on b8 to capture. *)
Definition promotionReady : GameState :=
  positionOf white
    [pieceAt king white 7 4 true; pieceAt pawn white 1 0 true;
     pieceAt rook black 0 1 true; pieceAt king black 0 7 true]
    None.

Definition promoteByCapture : Move :=
  mkMove (mkPosition 1 0) (mkPosition 0 1) (pieceAt pawn white 1 0 true)
         None false false (Some promoQueen).

(** The knight move b1-c3 of the opening position. *)
Definition queenKnightOut : Move :=
  plainMove (mkPosition 7 1) (mkPosition 5 2) (pieceAt knight white 7 1 false).

(** The position [mateInOne] late in a game, after twelve moves. *)
Definition lateMateInOne : GameState :=
  mkGameState (board mateInOne) black [] [] false false false 12 None.

(** ** Algebraic notation (types/chess.ts)

    A string is a sequence of one-byte characters.  The template literal
    of [positionToAlgebraic] prints a number in decimal and a missing array
    element as the word [undefined]. *)

Module Algebraic.
Import String Ascii DecimalString.

Definition showNumber (z : Z) : string := NilZero.string_of_int (Z.to_int z).

Definition files : list ascii :=
  ["a"%char; "b"%char; "c"%char; "d"%char; "e"%char; "f"%char; "g"%char; "h"%char].

Definition positionToAlgebraic (pos : Position) : string :=
  let rank := 8 - row pos in
  match jsIndex files (col pos) with
  | Some file => String file (showNumber rank)
  | None => append "undefined" (showNumber rank)
  end.

(** [files.indexOf(file)], counting from [i]: the index of the first
    occurrence, or -1. *)
Fixpoint indexOf (x : ascii) (l : list ascii) (i : Z) : Z :=
  match l with
  | [] => -1
  | y :: l' => if Ascii.eqb y x then i else indexOf x l' (i + 1)
  end.

(** [parseInt(rank, 10)] for a string of one character: the value of a
    decimal digit, [NaN] (here [None]) for any other character. *)
Definition parseDigit (c : ascii) : option Z :=
  let n := Z.of_nat (nat_of_ascii c) in
  if (48 <=? n) && (n <=? 57) then Some (n - 48) else None.

(** A string of two characters has a first and a second character that
    are both truthy, so the test [!file || !rank] never fires. *)
Definition algebraicToPosition (algebraic : string) : option Position :=
  match algebraic with
  | String file (String rank EmptyString) =>
      let col := indexOf file files 0 in
      match parseDigit rank with
      | None => None
      | Some d =>
          let row := 8 - d in
          if (col =? -1) || (row <? 0) || (row >? 7) then None
          else Some (mkPosition row col)
      end
  | _ => None
  end.

End Algebraic.

(** ** Opponent (AIOpponent.ts): the search

    [minimax] works on numbers: the evaluation of a position (a sum of
    doubles), the constants [-Infinity], [Infinity], [-10000], [10000] and
    [0], [Math.max], [Math.min] and the comparison [<=].  The search is
    stated for an arbitrary type of scores with these operations, so that
    what is proved about it holds for any evaluation function and does not
    depend on floating-point arithmetic.  The depth is a natural number:
    [generateMove] starts the recursion at 2 or 3 and every call passes
    [depth - 1] on. *)

Section Search.

Variable Score : Type.
Variable evaluatePosition : GameState -> Score.
Variable negInfinity : Score.
Variable posInfinity : Score.
(** [-10000], [10000] and [0] *)
Variable lost : Score.
Variable won : Score.
Variable drawn : Score.
Variable scoreMax : Score -> Score -> Score.
Variable scoreMin : Score -> Score -> Score.
(** [scoreLe x y]: [x <= y] *)
Variable scoreLe : Score -> Score -> bool.

(** The body of [for (const move of legalMoves)] of the maximizing player,
    with [search] standing for the recursive call at [depth - 1]. *)
Fixpoint maxLoop (search : GameState -> Score -> Score -> option Score)
    (state : GameState) (legalMoves : list Move) (maxEval alpha beta : Score)
    : option Score :=
  match legalMoves with
  | [] => Some maxEval
  | move :: rest =>
      match executeMove move state with
      | None => None
      | Some newState =>
          match search newState alpha beta with
          | None => None
          | Some evaluation =>
              let maxEval' := scoreMax maxEval evaluation in
              let alpha' := scoreMax alpha evaluation in
              if scoreLe beta alpha' then Some maxEval'
              else maxLoop search state rest maxEval' alpha' beta
          end
      end
  end.

Fixpoint minLoop (search : GameState -> Score -> Score -> option Score)
    (state : GameState) (legalMoves : list Move) (minEval alpha beta : Score)
    : option Score :=
  match legalMoves with
  | [] => Some minEval
  | move :: rest =>
      match executeMove move state with
      | None => None
      | Some newState =>
          match search newState alpha beta with
          | None => None
          | Some evaluation =>
              let minEval' := scoreMin minEval evaluation in
              let beta' := scoreMin beta evaluation in
              if scoreLe beta' alpha then Some minEval'
              else minLoop search state rest minEval' alpha beta'
          end
      end
  end.

(** The value returned when the search stops at [state]. *)
Definition leafScore (state : GameState) (maximizingPlayer : bool) : Score :=
  if isCheckmate_flag state then (if maximizingPlayer then lost else won)
  else if isStalemate_flag state then drawn
  else evaluatePosition state.

Fixpoint minimax (depth : nat) (state : GameState) (alpha beta : Score)
    (maximizingPlayer : bool) : option Score :=
  match depth with
  | O => Some (leafScore state maximizingPlayer)
  | S depth' =>
      if isCheckmate_flag state || isStalemate_flag state
      then Some (leafScore state maximizingPlayer)
      else
        let color_ := if maximizingPlayer then black else white in
        let legalMoves := getAllLegalMoves color_ state in
        if (length legalMoves =? 0)%nat then
          if isInCheck color_ state
          then Some (if maximizingPlayer then lost else won)
          else Some drawn
        else if maximizingPlayer then
          maxLoop (fun s a b => minimax depth' s a b false) state legalMoves
                  negInfinity alpha beta
        else
          minLoop (fun s a b => minimax depth' s a b true) state legalMoves
                  posInfinity alpha beta
  end.

(** [x] and [y] compare as equal. *)
Definition sameScore (x y : Score) : Prop := scoreLe x y = true /\ scoreLe y x = true.

(** A score strictly between the two infinities. *)
Definition finiteScore (x : Score) : Prop :=
  scoreLe x negInfinity = false /\ scoreLe posInfinity x = false.

(** How the value [w] returned for the window from [alpha] to [beta]
    relates to the value [v] returned for the full window: it is the same
    when [v] lies inside the window, and lies on the same side of the
    window as [v] otherwise. *)
Definition withinWindow (alpha beta v w : Score) : Prop :=
  (scoreLe v alpha = true -> scoreLe w alpha = true) /\
  (scoreLe beta v = true -> scoreLe beta w = true) /\
  (scoreLe v alpha = false -> scoreLe beta v = false -> sameScore v w).

End Search.

(** An evaluation used to run the search on examples: the number of moves
    played, cut off at 100. *)
Definition boundedCount (s : GameState) : Z := Z.max (-100) (Z.min 100 (moveCount s)).

(** ** Game controller (controller/GameController.ts)

    The controller holds one game-state object and a difficulty, and calls
    its subscribers whenever it has changed the state.  The model follows
    one call of a method from its start to the settlement of the promise it
    returns, with no other call of the controller in between, and with
    subscribers that only look at the state they are given.  The list
    [notified] records, in order, the state that each call of
    [notifyStateChange] passed to the subscribers, as it was at that call.
    The opponent is the one modelled above, so the timer of [generateMove]
    never fires before the search has finished. *)

Module Controller.

Inductive GameStatus : Type := active | check | checkmate | stalemate | resigned.

(** The game-state object: the fields that the engine reads and writes,
    and the three optional fields that only the controller writes
    ([None]: the field is absent). *)
Record GameStateObject := mkGameStateObject {
  engineState : GameState;
  isAIThinking : option bool;
  status : option GameStatus;
  winner : option PieceColor
}.

(** The object that [initializeGame] and [executeMove] return: it has none
    of the optional fields. *)
Definition fromEngine (s : GameState) : GameStateObject :=
  mkGameStateObject s None None None.

Record GameController := mkGameController {
  gameState : GameStateObject;
  difficulty : DifficultyMode;
  notified : list GameStateObject
}.

(** How the promise of an [async] method is settled. *)
Inductive Settled : Type := fulfilled | rejected.

(** [new GameController()] *)
Definition newController : GameController :=
  mkGameController (fromEngine initializeGame) easy [].

Definition getGameState (c : GameController) : GameStateObject := gameState c.

Definition notifyStateChange (c : GameController) : GameController :=
  mkGameController (gameState c) (difficulty c) (notified c ++ [gameState c]).

Definition setGameState (g : GameStateObject) (c : GameController) : GameController :=
  mkGameController g (difficulty c) (notified c).

(** [this.gameState.isAIThinking = b] *)
Definition setIsAIThinking (b : bool) (c : GameController) : GameController :=
  let g := gameState c in
  setGameState (mkGameStateObject (engineState g) (Some b) (status g) (winner g)) c.

Definition startNewGame (d : DifficultyMode) (c : GameController) : GameController :=
  notifyStateChange (mkGameController (fromEngine initializeGame) d (notified c)).

Definition resignGame (c : GameController) : GameController :=
  let g := gameState c in
  notifyStateChange
    (setGameState (mkGameStateObject (engineState g) (isAIThinking g)
                                     (Some resigned) (Some black)) c).

(** A state in which the controller waits for the player: it is well
    formed, its checkmate and stalemate flags are the detectors' values for
    the side to move, and white is to move unless one of the two flags is
    set. *)
Definition awaitingPlayer (s : GameState) : Prop :=
  wellFormed s /\
  isCheckmate_flag s = isCheckmate (currentTurn s) s /\
  isStalemate_flag s = isStalemate s /\
  (currentTurn s = white \/ isCheckmate_flag s || isStalemate_flag s = true).

Section Play.

Variable Score : Type.
Variable searchScore : DifficultyMode -> nat -> GameState -> Score.
Variable scoreGt : Score -> Score -> bool.
Variable randomBelow : nat -> nat.

(** The [catch] branch clears the flag on the state object the controller
    holds at that moment, notifies, and throws the error again. *)
Definition requestAIMove (c : GameController) : Settled * GameController :=
  let c1 := notifyStateChange (setIsAIThinking true c) in
  let maxThinkingTime := match difficulty c1 with easy => 2000 | hard => 3000 end in
  let config := mkAIConfig (difficulty c1) maxThinkingTime in
  match generateMove Score searchScore scoreGt randomBelow
                     (engineState (gameState c1)) config with
  | None => (rejected, notifyStateChange (setIsAIThinking false c1))
  | Some aiMove =>
      match executeMove aiMove (engineState (gameState c1)) with
      | None => (rejected, notifyStateChange (setIsAIThinking false c1))
      | Some s' =>
          (fulfilled,
           notifyStateChange (setIsAIThinking false (setGameState (fromEngine s') c1)))
      end
  end.

Definition handlePlayerMove (move : Move) (c : GameController)
    : Settled * GameController :=
  if negb (isValidMove move (engineState (gameState c))) then (fulfilled, c)
  else
    match executeMove move (engineState (gameState c)) with
    | None => (rejected, c)
    | Some s' =>
        let c1 := notifyStateChange (setGameState (fromEngine s') c) in
        if isCheckmate_flag s' || isStalemate_flag s' then (fulfilled, c1)
        else requestAIMove c1
    end.

(** The controllers that a program can get: a new one, and what the public
    methods make of it. *)
Inductive inPlay : GameController -> Prop :=
| inPlay_new : inPlay newController
| inPlay_startNewGame (d : DifficultyMode) (c : GameController) :
    inPlay c -> inPlay (startNewGame d c)
| inPlay_handlePlayerMove (move : Move) (c : GameController) :
    inPlay c -> inPlay (snd (handlePlayerMove move c))
| inPlay_requestAIMove (c : GameController) :
    inPlay c -> inPlay (snd (requestAIMove c))
| inPlay_resignGame (c : GameController) :
    inPlay c -> inPlay (resignGame c).

End Play.

End Controller.

(** The king's step from e1 to g1 in [castleReady], as [getAllLegalMoves]
    lists it. *)
Definition kingTwoFiles : Move :=
  plainMove (mkPosition 7 4) (mkPosition 7 6) (pieceAt king white 7 4 false).

(** * Properties *)

(** ** Bookkeeping about equality tests, loops and cells *)

Lemma PieceType_eqb_eq (a b : PieceType) : PieceType_eqb a b = true <-> a = b.
Proof. destruct a, b; simpl; split; intro H; congruence. Qed.

Lemma PieceColor_eqb_eq (a b : PieceColor) : PieceColor_eqb a b = true <-> a = b.
Proof. destruct a, b; simpl; split; intro H; congruence. Qed.

Lemma PieceColor_eqb_neq (a b : PieceColor) : PieceColor_eqb a b = false <-> a <> b.
Proof. destruct a, b; simpl; split; intro H; congruence. Qed.

Lemma PieceColor_eqb_opposite (a b : PieceColor) :
  PieceColor_eqb a (oppositeColor b) = negb (PieceColor_eqb a b).
Proof. destruct a, b; reflexivity. Qed.

Lemma positionsEqual_eq (p q : Position) : positionsEqual p q = true <-> p = q.
Proof.
  destruct p as [r1 c1], q as [r2 c2]; unfold positionsEqual; simpl.
  rewrite andb_true_iff, !Z.eqb_eq. split.
  - intros [-> ->]; reflexivity.
  - intros H; injection H; auto.
Qed.

Lemma existsb_positionsEqual (pos : Position) (l : list Position) :
  existsb (fun m => positionsEqual m pos) l = true <-> In pos l.
Proof.
  rewrite existsb_exists. split.
  - intros (x & Hx & E). apply positionsEqual_eq in E. subst. exact Hx.
  - intros H. exists pos. split; [exact H | apply positionsEqual_eq; reflexivity].
Qed.

Lemma in_range8 (z : Z) : In z range8 <-> 0 <= z <= 7.
Proof. unfold range8; simpl. lia. Qed.

Lemma existsb_false_iff {A} (f : A -> bool) (l : list A) :
  existsb f l = false <-> forall x, In x l -> f x = false.
Proof.
  induction l as [|a l IH]; simpl.
  - split; [intros _ x [] | reflexivity].
  - rewrite orb_false_iff, IH. split.
    + intros [Ha Hl] x [<- | Hx]; auto.
    + intros H; split; [apply H; auto | intros x Hx; apply H; auto].
Qed.

Lemma flat_map_nil_iff {A B} (f : A -> list B) (l : list A) :
  flat_map f l = [] <-> forall x, In x l -> f x = [].
Proof.
  induction l as [|a l IH]; simpl.
  - split; [intros _ x [] | reflexivity].
  - split.
    + intros H. apply app_eq_nil in H as [Ha Hl].
      intros x [<- | Hx]; [exact Ha | apply IH; assumption].
    + intros H. rewrite (H a) by auto. simpl. apply IH. intros x Hx; apply H; auto.
Qed.

Lemma firstSome_None_iff {A B} (f : A -> option B) (l : list A) :
  firstSome f l = None <-> forall x, In x l -> f x = None.
Proof.
  induction l as [|a l IH]; simpl.
  - split; [intros _ x [] | reflexivity].
  - destruct (f a) eqn:E.
    + split; [discriminate | intros H; rewrite <- E; apply H; auto].
    + rewrite IH. split.
      * intros H x [<- | Hx]; auto.
      * intros H x Hx; apply H; auto.
Qed.

Lemma firstSome_Some {A B} (f : A -> option B) (l : list A) (y : B) :
  firstSome f l = Some y -> exists x, In x l /\ f x = Some y.
Proof.
  induction l as [|a l IH]; simpl; [discriminate|].
  destruct (f a) eqn:E.
  - intros [= <-]. exists a; auto.
  - intros H. destruct (IH H) as (x & Hx & Hf). exists x; auto.
Qed.

(** Scanning the 64 squares finds an attacker exactly when one of them holds
    a piece of the other colour that can step onto the square. *)
Lemma isPositionUnderAttack_iff (pos : Position) (c : PieceColor) (s : GameState) :
  isPositionUnderAttack pos c s = true <->
  exists r k p, 0 <= r <= 7 /\ 0 <= k <= 7 /\ cell (board s) r k = Some p /\
                color p = oppositeColor c /\
                In pos (getPseudoLegalMovesForAttack p s).
Proof.
  unfold isPositionUnderAttack. rewrite existsb_exists. split.
  - intros (r & Hr & H). apply existsb_exists in H as (k & Hk & H).
    destruct (cell (board s) r k) as [p|] eqn:E; [|discriminate].
    apply andb_true_iff in H as [Hc Hm].
    exists r, k, p. rewrite <- !in_range8.
    repeat split; auto.
    + apply PieceColor_eqb_eq; exact Hc.
    + apply existsb_positionsEqual; exact Hm.
  - intros (r & k & p & Hr & Hk & E & Hc & Hm).
    exists r. split; [apply in_range8; exact Hr|].
    apply existsb_exists. exists k. split; [apply in_range8; exact Hk|].
    rewrite E. apply andb_true_iff. split.
    + apply PieceColor_eqb_eq; exact Hc.
    + apply existsb_positionsEqual; exact Hm.
Qed.

Lemma findKing_None_iff (c : PieceColor) (s : GameState) :
  findKing c s = None <->
  forall r k p, 0 <= r <= 7 -> 0 <= k <= 7 -> cell (board s) r k = Some p ->
                type p = king -> color p <> c.
Proof.
  unfold findKing. rewrite firstSome_None_iff. split.
  - intros H r k p Hr Hk E Ht Hc.
    specialize (H r (proj2 (in_range8 r) Hr)).
    rewrite firstSome_None_iff in H.
    specialize (H k (proj2 (in_range8 k) Hk)).
    rewrite E, Ht, Hc in H. simpl in H.
    assert (PieceColor_eqb c c = true) by (apply PieceColor_eqb_eq; reflexivity).
    rewrite H0 in H. discriminate.
  - intros H r Hr. apply firstSome_None_iff. intros k Hk.
    destruct (cell (board s) r k) as [p|] eqn:E; [|reflexivity].
    destruct (PieceType_eqb (type p) king) eqn:Et; [|reflexivity].
    destruct (PieceColor_eqb (color p) c) eqn:Ec; [|reflexivity].
    exfalso. apply PieceType_eqb_eq in Et. apply PieceColor_eqb_eq in Ec.
    apply (H r k p); auto; apply in_range8; assumption.
Qed.

Lemma findKing_Some (c : PieceColor) (s : GameState) (pos : Position) :
  findKing c s = Some pos ->
  exists p, cell (board s) (row pos) (col pos) = Some p /\ type p = king /\
            color p = c /\ 0 <= row pos <= 7 /\ 0 <= col pos <= 7.
Proof.
  unfold findKing. intros H.
  apply firstSome_Some in H as (r & Hr & H).
  apply firstSome_Some in H as (k & Hk & H).
  destruct (cell (board s) r k) as [p|] eqn:E; [|discriminate].
  destruct (PieceType_eqb (type p) king) eqn:Et; [|discriminate].
  destruct (PieceColor_eqb (color p) c) eqn:Ec; [|discriminate].
  injection H as <-. simpl. exists p.
  apply PieceType_eqb_eq in Et. apply PieceColor_eqb_eq in Ec.
  apply in_range8 in Hr, Hk. auto.
Qed.

Lemma cell_setCell_cases (b : Board) (r c : Z) (v : option Piece) (r' c' : Z) :
  cell (setCell b r c v) r' c' = cell b r' c' \/ cell (setCell b r c v) r' c' = v.
Proof.
  unfold setCell.
  destruct (isPositionOnBoard (mkPosition r c)); [|left; reflexivity].
  destruct (b !! Z.to_nat r) as [cells|] eqn:Er; [|left; reflexivity].
  unfold cell, jsIndex.
  destruct (r' <? 0); [left; reflexivity|].
  destruct (decide (Z.to_nat r = Z.to_nat r')) as [e|n].
  - rewrite <- e.
    rewrite list_lookup_insert_eq by (eapply lookup_lt_Some; eassumption).
    rewrite Er.
    destruct (c' <? 0); [left; reflexivity|].
    destruct (decide (Z.to_nat c = Z.to_nat c')) as [e'|n'].
    + rewrite <- e'.
      destruct (cells !! Z.to_nat c) eqn:Ec.
      * rewrite list_lookup_insert_eq by (eapply lookup_lt_Some; eassumption).
        right; reflexivity.
      * rewrite list_insert_ge by (apply lookup_ge_None; assumption).
        rewrite Ec. left; reflexivity.
    + rewrite list_lookup_insert_ne by assumption. left; reflexivity.
  - rewrite list_lookup_insert_ne by assumption. left; reflexivity.
Qed.

(** The simulated move puts no piece on the board that was not there
    before, up to its recorded position. *)
Lemma applyMoveToState_cell (from_ to_ : Position) (s : GameState) (r c : Z) (p : Piece) :
  cell (board (applyMoveToState from_ to_ s)) r c = Some p ->
  exists r0 c0 p0, cell (board s) r0 c0 = Some p0 /\
                   type p = type p0 /\ color p = color p0.
Proof.
  unfold applyMoveToState.
  destruct (cell (board s) (row from_) (col from_)) as [q|] eqn:Ef.
  - simpl. intros H.
    destruct (cell_setCell_cases
                (setCell (board s) (row to_) (col to_) (Some (withPosition q to_)))
                (row from_) (col from_) None r c) as [E|E];
      rewrite E in H; [|discriminate].
    destruct (cell_setCell_cases (board s) (row to_) (col to_)
                (Some (withPosition q to_)) r c) as [E'|E']; rewrite E' in H.
    + exists r, c, p; auto.
    + injection H as <-. exists (row from_), (col from_), q; auto.
  - intros H. exists r, c, p; auto.
Qed.


Lemma kingless_findKing (c : PieceColor) (s : GameState) :
  kingless c s -> findKing c s = None.
Proof.
  intros H. apply findKing_None_iff. intros r k p _ _. apply H.
Qed.

Lemma kingless_applyMoveToState (c : PieceColor) (s : GameState) (from_ to_ : Position) :
  kingless c s -> kingless c (applyMoveToState from_ to_ s).
Proof.
  intros H r k p E Ht.
  destruct (applyMoveToState_cell _ _ _ _ _ _ E) as (r0 & c0 & p0 & E0 & Et & Ec).
  rewrite Ec. apply (H r0 c0 p0 E0). congruence.
Qed.

Lemma hasAnyLegalMoves_false_iff (c : PieceColor) (s : GameState) :
  hasAnyLegalMoves c s = false <-> getAllLegalMoves c s = [].
Proof.
  unfold hasAnyLegalMoves, getAllLegalMoves.
  rewrite existsb_false_iff, flat_map_nil_iff.
  apply forall_proper; intros r. apply forall_proper; intros Hr.
  rewrite existsb_false_iff, flat_map_nil_iff.
  apply forall_proper; intros k. apply forall_proper; intros Hk.
  destruct (cell (board s) r k) as [p|]; [|tauto].
  destruct (PieceColor_eqb (color p) c); simpl; [|tauto].
  destruct (getValidMoves (mkPosition r k) s) as [|x l]; [tauto|].
  cbn [length map]. rewrite Nat2Z.inj_succ.
  assert (E : (0 <? Z.succ (Z.of_nat (length l))) = true) by (apply Z.ltb_lt; lia).
  rewrite E. split; intro; discriminate.
Qed.

Lemma getValidMoves_wrong_turn (pos : Position) (s : GameState) (p : Piece) :
  cell (board s) (row pos) (col pos) = Some p -> color p <> currentTurn s ->
  getValidMoves pos s = [].
Proof.
  intros E Hc. unfold getValidMoves. rewrite E.
  apply PieceColor_eqb_neq in Hc. rewrite Hc. reflexivity.
Qed.

Lemma getAllLegalMoves_off_turn (c : PieceColor) (s : GameState) :
  c <> currentTurn s -> getAllLegalMoves c s = [].
Proof.
  intros Hc. unfold getAllLegalMoves.
  apply flat_map_nil_iff; intros r _. apply flat_map_nil_iff; intros k _.
  destruct (cell (board s) r k) as [p|] eqn:E; [|reflexivity].
  destruct (PieceColor_eqb (color p) c) eqn:Ec; [|reflexivity].
  apply PieceColor_eqb_eq in Ec.
  rewrite (getValidMoves_wrong_turn (mkPosition r k) s p); auto. congruence.
Qed.

Lemma filter_all_false {A} (f : A -> bool) (l : list A) :
  (forall x, In x l -> f x = false) -> List.filter f l = [].
Proof.
  induction l as [|a l IH]; simpl; intros H; [reflexivity|].
  rewrite (H a) by auto. apply IH. intros x Hx; apply H; auto.
Qed.

(** ** Status detection *)

Lemma isCheckmate_off_turn (s : GameState) (c : PieceColor) :
  c <> currentTurn s -> isCheckmate c s = isInCheck c s.
Proof.
  intros H. unfold isCheckmate.
  rewrite (proj2 (hasAnyLegalMoves_false_iff c s) (getAllLegalMoves_off_turn c s H)).
  destruct (isInCheck c s); reflexivity.
Qed.

(** C2, as the code has it: checkmate of a colour implies that this colour
    is in check and has no legal move (for a colour that is not to move,
    checkmate is the same as check); stalemate implies that the side to move
    is not in check and has no legal move; the side to move is never both
    checkmated and stalemated. *)
Theorem check_checkmate_stalemate_consistent (s : GameState) (c : PieceColor) :
  (isCheckmate c s = true ->
     isInCheck c s = true /\ getAllLegalMoves c s = []) /\
  (c <> currentTurn s -> isCheckmate c s = isInCheck c s) /\
  (isStalemate s = true ->
     isInCheck (currentTurn s) s = false /\
     getAllLegalMoves (currentTurn s) s = []) /\
  (isCheckmate (currentTurn s) s = true -> isStalemate s = true -> False).
Proof.
  split; [|split; [apply isCheckmate_off_turn|]];
    unfold isCheckmate, isStalemate.
  - intros H. destruct (isInCheck c s); simpl in H; [|discriminate].
    split; [reflexivity|].
    apply hasAnyLegalMoves_false_iff. apply negb_true_iff. exact H.
  - split.
    + intros H.
      destruct (isInCheck (currentTurn s) s); simpl in H; [discriminate|].
      split; [reflexivity|].
      apply hasAnyLegalMoves_false_iff. apply negb_true_iff. exact H.
    + destruct (isInCheck (currentTurn s) s); simpl; intros; discriminate.
Qed.

Lemma check_checkmate_stalemate_consistent_witness :
  (isCheckmate black backRankMate = true /\
   isInCheck black backRankMate = true /\
   getAllLegalMoves black backRankMate = []) /\
  isCheckmate black offTurnCheck = isInCheck black offTurnCheck /\
  (isStalemate queenStalemate = true /\
   isInCheck black queenStalemate = false /\
   getAllLegalMoves black queenStalemate = []).
Proof.
  assert (M : isCheckmate black backRankMate = true) by (vm_compute; reflexivity).
  assert (T : isStalemate queenStalemate = true) by (vm_compute; reflexivity).
  split; [|split].
  - split; [exact M|].
    exact (proj1 (check_checkmate_stalemate_consistent backRankMate black) M).
  - apply (proj1 (proj2 (check_checkmate_stalemate_consistent offTurnCheck black))).
    discriminate.
  - split; [exact T|].
    exact (proj1 (proj2 (proj2 (check_checkmate_stalemate_consistent
                                  queenStalemate black))) T).
Defined.

(** Black is not to move and stands in check: [isCheckmate] answers true
    for black although white, the side to move, has legal moves. *)
Lemma checkmate_off_turn_side_to_move_has_moves :
  currentTurn offTurnCheck = white /\
  isCheckmate black offTurnCheck = true /\
  getAllLegalMoves (currentTurn offTurnCheck) offTurnCheck <> [].
Proof.
  split; [reflexivity|]. split; [vm_compute; reflexivity|].
  vm_compute. discriminate.
Qed.

Lemma jsIndex_Some_range {A} (l : list A) (i : Z) (x : A) :
  jsIndex l i = Some x -> 0 <= i < Z.of_nat (length l).
Proof.
  unfold jsIndex. destruct (i <? 0) eqn:E; [discriminate|].
  intros H. apply lookup_lt_Some in H. apply Z.ltb_ge in E. lia.
Qed.

Lemma jsIndex_In {A} (l : list A) (i : Z) (x : A) : jsIndex l i = Some x -> In x l.
Proof.
  unfold jsIndex. destruct (i <? 0); [discriminate|].
  intros H. apply list_elem_of_In. eapply list_elem_of_lookup_2; eassumption.
Qed.

Lemma isValidBoard_length (b : Board) : isValidBoard b = true -> length b = 8%nat.
Proof.
  unfold isValidBoard. intros H. apply andb_true_iff in H as [H _].
  apply Nat.eqb_eq; exact H.
Qed.

Lemma isValidBoard_row (b : Board) (cells : list (option Piece)) :
  isValidBoard b = true -> In cells b -> length cells = 8%nat.
Proof.
  unfold isValidBoard. intros H Hin. apply andb_true_iff in H as [_ H].
  rewrite forallb_forall in H. specialize (H cells Hin).
  apply andb_true_iff in H as [H _]. apply Nat.eqb_eq; exact H.
Qed.

(** On a valid board only the 64 squares hold anything. *)
Lemma cell_in_window (b : Board) (r k : Z) (p : Piece) :
  isValidBoard b = true -> cell b r k = Some p -> 0 <= r <= 7 /\ 0 <= k <= 7.
Proof.
  intros V. unfold cell.
  destruct (jsIndex b r) as [cells|] eqn:Er; [|discriminate].
  destruct (jsIndex cells k) as [x|] eqn:Ek; [|discriminate].
  intros _.
  apply jsIndex_Some_range in Er as Hr. apply jsIndex_Some_range in Ek.
  apply jsIndex_In in Er.
  rewrite (isValidBoard_length b V) in Hr.
  rewrite (isValidBoard_row b cells V Er) in Ek. lia.
Qed.

Lemma findKing_None_kingless (c : PieceColor) (s : GameState) :
  isValidBoard (board s) = true -> findKing c s = None -> kingless c s.
Proof.
  intros V H r k p E. destruct (cell_in_window _ _ _ _ V E).
  revert E. apply findKing_None_iff; assumption.
Qed.

(** ** A side without a king *)

Lemma getValidMoves_filterCandidates (pos : Position) (s : GameState) :
  getValidMoves pos s =
  List.filter (fun toPos => negb (wouldLeaveKingInCheck pos toPos s))
              (filterCandidates pos s).
Proof.
  unfold getValidMoves, filterCandidates.
  destruct (cell (board s) (row pos) (col pos)) as [p|]; [|reflexivity].
  destruct (negb (PieceColor_eqb (color p) (currentTurn s))); reflexivity.
Qed.

Lemma filterCandidates_on_turn (pos : Position) (s : GameState) (p : Piece)
    (t : Position) :
  cell (board s) (row pos) (col pos) = Some p -> In t (filterCandidates pos s) ->
  color p = currentTurn s /\ In t (getPseudoLegalMoves p s).
Proof.
  unfold filterCandidates. intros ->.
  destruct (PieceColor_eqb (color p) (currentTurn s)) eqn:E; simpl; [|intros []].
  apply PieceColor_eqb_eq in E. auto.
Qed.

(** C10: when no king of colour [c] stands on the board, [c] is not in
    check; none of the pieces of [c] has a valid move; [c] has no legal
    move; and if [c] is to move, the self-check filter answers true on every
    pseudo-legal move of every piece of [c] (it looks for the king of the
    side to move), and the position counts as stalemate. *)
Theorem kingless_side_has_no_moves (s : GameState) (c : PieceColor) :
  kingless c s ->
  isInCheck c s = false /\
  (forall pos p,
     cell (board s) (row pos) (col pos) = Some p -> color p = c ->
     getValidMoves pos s = []) /\
  getAllLegalMoves c s = [] /\
  (c = currentTurn s ->
   (forall pos p to_,
      cell (board s) (row pos) (col pos) = Some p -> color p = c ->
      In to_ (getPseudoLegalMoves p s) ->
      wouldLeaveKingInCheck pos to_ s = true) /\
   isStalemate s = true).
Proof.
  intros K.
  assert (C : isInCheck c s = false).
  { unfold isInCheck. rewrite (kingless_findKing c s K). reflexivity. }
  assert (W : c = currentTurn s -> forall pos to_,
              wouldLeaveKingInCheck pos to_ s = true).
  { intros Ht pos to_. unfold wouldLeaveKingInCheck.
    assert (N : findKing (currentTurn s) (applyMoveToState pos to_ s) = None).
    { apply findKing_None_iff. intros r k q _ _.
      apply (kingless_applyMoveToState _ _ pos to_). rewrite <- Ht. exact K. }
    rewrite N. reflexivity. }
  assert (G : forall pos p,
              cell (board s) (row pos) (col pos) = Some p -> color p = c ->
              getValidMoves pos s = []).
  { intros pos p E Hc. rewrite getValidMoves_filterCandidates.
    apply filter_all_false. intros x Hx.
    destruct (filterCandidates_on_turn pos s p x E Hx) as [Ht _].
    rewrite (W (eq_trans (eq_sym Hc) Ht) pos x). reflexivity. }
  assert (L : getAllLegalMoves c s = []).
  { unfold getAllLegalMoves.
    apply flat_map_nil_iff; intros r _. apply flat_map_nil_iff; intros k _.
    destruct (cell (board s) r k) as [p|] eqn:E; [|reflexivity].
    destruct (PieceColor_eqb (color p) c) eqn:Ec; [|reflexivity].
    apply PieceColor_eqb_eq in Ec.
    rewrite (G (mkPosition r k) p E Ec). reflexivity. }
  split; [exact C|]. split; [exact G|]. split; [exact L|].
  intros Ht. split.
  - intros pos p to_ _ _ _. apply W, Ht.
  - unfold isStalemate. rewrite <- Ht, C.
    apply negb_true_iff. apply hasAnyLegalMoves_false_iff. exact L.
Qed.

Lemma kingless_side_has_no_moves_witness :
  kingless white kinglessWhite /\
  isInCheck white kinglessWhite = false /\
  getValidMoves (mkPosition 7 0) kinglessWhite = [] /\
  getAllLegalMoves white kinglessWhite = [] /\
  wouldLeaveKingInCheck (mkPosition 7 0) (mkPosition 6 0) kinglessWhite = true /\
  isStalemate kinglessWhite = true.
Proof.
  assert (K : kingless white kinglessWhite).
  { apply findKing_None_kingless; vm_compute; reflexivity. }
  destruct (kingless_side_has_no_moves kinglessWhite white K)
    as (C & G & L & T).
  destruct (T eq_refl) as [W S].
  split; [exact K|]. split; [exact C|].
  split; [apply (G (mkPosition 7 0) (pieceAt rook white 7 0 false)); reflexivity|].
  split; [exact L|].
  split; [|exact S].
  apply (W (mkPosition 7 0) (pieceAt rook white 7 0 false) (mkPosition 6 0));
    [reflexivity | reflexivity | vm_compute; left; reflexivity].
Defined.

(** White has no king and black is to move: the self-check filter looks
    for the king of black, so for the pseudo-legal move a1-a2 of the white
    rook it answers false; the rook has no valid move all the same, because
    [getValidMoves] returns nothing for a piece of the side not to move. *)
Lemma kingless_off_turn_filter_answers_false :
  kingless white kinglessWhiteOffTurn /\
  currentTurn kinglessWhiteOffTurn = black /\
  cell (board kinglessWhiteOffTurn) 7 0 = Some (pieceAt rook white 7 0 false) /\
  In (mkPosition 6 0)
     (getPseudoLegalMoves (pieceAt rook white 7 0 false) kinglessWhiteOffTurn) /\
  wouldLeaveKingInCheck (mkPosition 7 0) (mkPosition 6 0) kinglessWhiteOffTurn = false /\
  getValidMoves (mkPosition 7 0) kinglessWhiteOffTurn = [].
Proof.
  split; [apply findKing_None_kingless; vm_compute; reflexivity|].
  split; [reflexivity|]. split; [reflexivity|].
  split; [vm_compute; left; reflexivity|].
  split; vm_compute; reflexivity.
Qed.

(** ** En passant *)

Lemma getEnPassantMoves_spec (pawn_ : Piece) (s : GameState) (d : Position) :
  In d (getEnPassantMoves pawn_ s) <->
  exists lm, lastMove s = Some lm /\ enPassantEligible pawn_ lm /\
             d = squareBehind pawn_ lm.
Proof.
  unfold getEnPassantMoves, enPassantEligible, squareBehind.
  destruct (row (position pawn_) =? match color pawn_ with white => 3 | black => 4 end)
    eqn:Erank; simpl.
  2:{ apply Z.eqb_neq in Erank. split; [intros [] | intros (lm & _ & (H & _) & _); contradiction]. }
  apply Z.eqb_eq in Erank.
  destruct (lastMove s) as [lm|]; [|split; [intros [] | intros (lm & H & _); discriminate]].
  destruct (PieceType_eqb (type (piece lm)) pawn) eqn:Et; simpl.
  2:{ split; [intros [] | intros (lm' & [= <-] & (_ & H & _) & _)].
      apply PieceType_eqb_eq in H. congruence. }
  apply PieceType_eqb_eq in Et.
  destruct (PieceColor_eqb (color (piece lm)) (color pawn_)) eqn:Ec; simpl.
  { apply PieceColor_eqb_eq in Ec.
    split; [intros [] | intros (lm' & [= <-] & (_ & _ & H & _) & _); contradiction]. }
  apply PieceColor_eqb_neq in Ec.
  destruct (Z.abs (row (to lm) - row (from lm)) =? 2) eqn:Ed; simpl.
  2:{ apply Z.eqb_neq in Ed.
      split; [intros [] | intros (lm' & [= <-] & (_ & _ & _ & H & _) & _); contradiction]. }
  apply Z.eqb_eq in Ed.
  destruct (Z.abs (col (to lm) - col (position pawn_)) =? 1) eqn:Ek; simpl.
  2:{ apply Z.eqb_neq in Ek.
      split; [intros [] | intros (lm' & [= <-] & (_ & _ & _ & _ & H & _) & _); contradiction]. }
  apply Z.eqb_eq in Ek.
  destruct (row (to lm) =? row (position pawn_)) eqn:Er; simpl.
  2:{ apply Z.eqb_neq in Er.
      split; [intros [] | intros (lm' & [= <-] & (_ & _ & _ & _ & _ & H) & _); contradiction]. }
  apply Z.eqb_eq in Er.
  split.
  - intros [<- | []]. exists lm.
    split; [reflexivity|]. split; [repeat split; assumption|].
    rewrite Er. reflexivity.
  - intros (lm' & [= <-] & _ & ->). left. rewrite Er. reflexivity.
Qed.



(** ** The ray loop and the rows of generated destinations *)

Lemma isPositionOnBoard_iff (pos : Position) :
  isPositionOnBoard pos = true <-> 0 <= row pos <= 7 /\ 0 <= col pos <= 7.
Proof.
  unfold isPositionOnBoard. rewrite !andb_true_iff, !Z.leb_le. lia.
Qed.

(** A ray that advances by a non-zero step of at most one square per axis
    leaves the board within eight iterations: more fuel changes nothing. *)
Lemma slide_fuel (n : nat) (p : Piece) (d : Z * Z) (s : GameState) :
  (fst d <> 0 \/ snd d <> 0) -> -1 <= fst d <= 1 -> -1 <= snd d <= 1 ->
  forall (fuel : nat) (r k : Z),
    (forall i : Z, Z.of_nat fuel <= i ->
       isPositionOnBoard (mkPosition (r + i * fst d) (k + i * snd d)) = false) ->
    slide (fuel + n) p d s r k = slide fuel p d s r k.
Proof.
  intros Hnz Hr Hk fuel. induction fuel as [|fuel IH]; intros r k Hout.
  - simpl. destruct n; [reflexivity|]. simpl.
    specialize (Hout 0 ltac:(simpl; lia)).
    rewrite !Z.mul_0_l, !Z.add_0_r in Hout. rewrite Hout. reflexivity.
  - simpl. destruct (isPositionOnBoard (mkPosition r k)); [|reflexivity].
    destruct (cell (board s) r k); [reflexivity|].
    f_equal. apply IH. intros i Hi.
    specialize (Hout (i + 1) ltac:(lia)).
    replace (r + fst d + i * fst d) with (r + (i + 1) * fst d) by lia.
    replace (k + snd d + i * snd d) with (k + (i + 1) * snd d) by lia.
    exact Hout.
Qed.

Lemma getSlidingMoves_fuel (n : nat) (p : Piece) (d : Z * Z) (s : GameState) :
  (fst d <> 0 \/ snd d <> 0) -> -1 <= fst d <= 1 -> -1 <= snd d <= 1 ->
  0 <= row (position p) <= 7 -> 0 <= col (position p) <= 7 ->
  slide (8 + n) p d s (row (position p) + fst d) (col (position p) + snd d)
  = getSlidingMoves p d s.
Proof.
  intros Hnz Hr Hk Hpr Hpk. unfold getSlidingMoves.
  apply slide_fuel; auto.
  intros i Hi. simpl in Hi.
  destruct (isPositionOnBoard _) eqn:E; [|reflexivity].
  apply isPositionOnBoard_iff in E. simpl in E. nia.
Qed.

Lemma slide_onBoard (fuel : nat) (p : Piece) (d : Z * Z) (s : GameState)
    (r k : Z) (x : Position) :
  In x (slide fuel p d s r k) -> isPositionOnBoard x = true.
Proof.
  revert r k. induction fuel as [|fuel IH]; intros r k; simpl; [intros []|].
  destruct (isPositionOnBoard (mkPosition r k)) eqn:E; [|intros []].
  destruct (cell (board s) r k) as [t|].
  - destruct (negb (PieceColor_eqb (color t) (color p))); [|intros []].
    intros [<- | []]. exact E.
  - intros [<- | H]; [exact E | eapply IH; eassumption].
Qed.

Lemma offsetMoves_onBoard (offs : list (Z * Z)) (p : Piece) (s : GameState)
    (x : Position) :
  In x (offsetMoves offs p s) -> isPositionOnBoard x = true.
Proof.
  unfold offsetMoves. rewrite in_flat_map. intros (o & _ & H).
  destruct (isPositionOnBoard _) eqn:E; [|destruct H].
  destruct (cell (board s) _ _) as [t|].
  - destruct (negb (PieceColor_eqb (color t) (color p))); [|destruct H].
    destruct H as [<- | []]. exact E.
  - destruct H as [<- | []]. exact E.
Qed.

Lemma slidingMoves_onBoard (dirs : list (Z * Z)) (p : Piece) (s : GameState)
    (x : Position) :
  In x (flat_map (fun d => getSlidingMoves p d s) dirs) -> isPositionOnBoard x = true.
Proof.
  rewrite in_flat_map. intros (d & _ & H). eapply slide_onBoard; exact H.
Qed.

Lemma getCastlingMoves_onBoard (p : Piece) (s : GameState) (x : Position) :
  In x (getCastlingMoves p s) -> isPositionOnBoard x = true.
Proof.
  unfold getCastlingMoves.
  destruct (hasMoved p); [intros []|].
  destruct (isPositionUnderAttack (position p) (color p) s); [intros []|].
  destruct (_ || _); [intros []|].
  intros H. apply in_app_or in H.
  destruct H as [H|H];
    repeat match type of H with
           | In _ (if ?b then _ else _) => destruct b
           | In _ [] => destruct H
           | In _ [_] => destruct H as [<- | []]
           end; destruct (color p); reflexivity.
Qed.

(** Every destination handed to the self-check simulation has its row on
    the board. *)
Lemma getPseudoLegalMoves_row (p : Piece) (s : GameState) (x : Position) :
  In x (getPseudoLegalMoves p s) -> 0 <= row x <= 7.
Proof.
  unfold getPseudoLegalMoves.
  assert (B : isPositionOnBoard x = true -> 0 <= row x <= 7).
  { intros H. apply isPositionOnBoard_iff in H. tauto. }
  destruct (type p).
  - unfold getPawnMoves. intros H.
    apply in_app_or in H as [H|H]; [|apply in_app_or in H as [H|H]].
    + destruct (_ && _) eqn:E1 in H; [|destruct H].
      apply andb_true_iff in E1 as [E1 _].
      destruct H as [<- | H]; [apply B; exact E1|].
      destruct (negb (hasMoved p)); [|destruct H].
      destruct (_ && _) eqn:E2 in H; [|destruct H].
      apply andb_true_iff in E2 as [E2 _].
      destruct H as [<- | []]. apply B; exact E2.
    + apply in_flat_map in H as (cp & _ & H).
      destruct (isPositionOnBoard cp) eqn:E; [|destruct H].
      destruct (cell _ _ _) as [t|]; [|destruct H].
      destruct (negb _); [|destruct H].
      destruct H as [<- | []]. apply B; exact E.
    + apply getEnPassantMoves_spec in H as (lm & _ & (Hr & _ & _ & _ & _ & Hrow) & ->).
      unfold squareBehind; simpl. rewrite Hrow, Hr.
      destruct (color p); simpl; lia.
  - intros H; apply B; eapply offsetMoves_onBoard; exact H.
  - intros H; apply B; eapply slidingMoves_onBoard; exact H.
  - intros H; apply B; eapply slidingMoves_onBoard; exact H.
  - intros H; apply B; eapply slidingMoves_onBoard; exact H.
  - unfold getKingMoves. intros H. apply in_app_or in H as [H|H]; apply B.
    + eapply offsetMoves_onBoard; exact H.
    + eapply getCastlingMoves_onBoard; exact H.
Qed.

(** ** Validation *)

Lemma getAllLegalMoves_In (c : PieceColor) (s : GameState) (m : Move) :
  In m (getAllLegalMoves c s) <->
  exists r k p t, 0 <= r <= 7 /\ 0 <= k <= 7 /\ cell (board s) r k = Some p /\
                  color p = c /\ In t (getValidMoves (mkPosition r k) s) /\
                  m = plainMove (mkPosition r k) t p.
Proof.
  unfold getAllLegalMoves. rewrite in_flat_map. split.
  - intros (r & Hr & H). apply in_flat_map in H as (k & Hk & H).
    destruct (cell (board s) r k) as [p|] eqn:E; [|destruct H].
    destruct (PieceColor_eqb (color p) c) eqn:Ec; [|destruct H].
    apply in_map_iff in H as (t & <- & Ht).
    exists r, k, p, t. apply in_range8 in Hr, Hk. apply PieceColor_eqb_eq in Ec.
    repeat split; auto; lia.
  - intros (r & k & p & t & Hr & Hk & E & Hc & Ht & Hm).
    exists r. split; [apply in_range8; exact Hr|].
    apply in_flat_map. exists k. split; [apply in_range8; exact Hk|].
    rewrite E. apply PieceColor_eqb_eq in Hc. rewrite Hc.
    apply in_map_iff. exists t. split; [symmetry; exact Hm | exact Ht].
Qed.

Lemma listedAsLegal_inv (m : Move) (s : GameState) :
  listedAsLegal m s ->
  exists p, cell (board s) (row (from m)) (col (from m)) = Some p /\
            color p = currentTurn s /\ type p = type (piece m) /\
            color p = color (piece m) /\ In (to m) (getValidMoves (from m) s).
Proof.
  intros (m' & Hin & Hf & Hto & Ht & Hc).
  apply getAllLegalMoves_In in Hin as (r & k & q & t & _ & _ & Eq & Hcq & Hv & Hm).
  subst m'. simpl in *. rewrite <- Hf, <- Hto. exists q. simpl.
  repeat split; auto.
Qed.

(** [isPawnPromotion] in terms of the board: a pawn stands on the source
    and the destination lies on the last rank of its colour. *)
Lemma isPawnPromotion_iff (from_ to_ : Position) (s : GameState) :
  isPawnPromotion from_ to_ s = true <->
  exists p, cell (board s) (row from_) (col from_) = Some p /\
            type p = pawn /\
            row to_ = match color p with white => 0 | black => 7 end.
Proof.
  unfold isPawnPromotion.
  destruct (cell (board s) (row from_) (col from_)) as [p|].
  - destruct (PieceType_eqb (type p) pawn) eqn:Et; simpl.
    + apply PieceType_eqb_eq in Et. rewrite Z.eqb_eq. split.
      * intros H. exists p. auto.
      * intros (q & [= <-] & _ & H). exact H.
    + split; [discriminate|]. intros (q & [= <-] & Hq & _).
      apply PieceType_eqb_eq in Hq. congruence.
  - split; [discriminate|]. intros (q & Hq & _). discriminate.
Qed.

Lemma isValidMove_true_iff (m : Move) (s : GameState) :
  isValidBoard (board s) = true ->
  (isValidMove m s = true <-> listedAsLegal m s /\ flagsMatchBoard m s).
Proof.
  intros V. unfold isValidMove.
  destruct (cell (board s) (row (from m)) (col (from m))) as [p|] eqn:E.
  2:{ split; [discriminate|]. intros [H _].
      apply listedAsLegal_inv in H as (q & Eq & _). congruence. }
  destruct (PieceColor_eqb (color p) (currentTurn s)) eqn:Ec; simpl.
  2:{ split; [discriminate|]. intros [H _].
      apply listedAsLegal_inv in H as (q & Eq & Hc & _).
      apply PieceColor_eqb_neq in Ec. congruence. }
  apply PieceColor_eqb_eq in Ec.
  destruct (PieceType_eqb (type p) (type (piece m))) eqn:Et; simpl.
  2:{ split; [discriminate|]. intros [H _].
      apply listedAsLegal_inv in H as (q & Eq & _ & Ht & _).
      assert (q = p) by congruence. subst q.
      apply PieceType_eqb_eq in Ht. congruence. }
  apply PieceType_eqb_eq in Et.
  destruct (PieceColor_eqb (color p) (color (piece m))) eqn:Ecm; simpl.
  2:{ split; [discriminate|]. intros [H _].
      apply listedAsLegal_inv in H as (q & Eq & _ & _ & Hc' & _).
      assert (q = p) by congruence. subst q.
      apply PieceColor_eqb_eq in Hc'. congruence. }
  apply PieceColor_eqb_eq in Ecm.
  destruct (existsb (fun v => positionsEqual v (to m))
                    (getValidMoves (from m) s)) eqn:Ed; simpl.
  2:{ split; [discriminate|]. intros [H _].
      apply listedAsLegal_inv in H as (q & _ & _ & _ & _ & Hv).
      apply existsb_positionsEqual in Hv. congruence. }
  unfold listedAsLegal, flagsMatchBoard. rewrite E.
  destruct (from m) as [fr fk] eqn:Ef. simpl in E |- *.
  apply existsb_positionsEqual in Ed.
  assert (L : exists m', In m' (getAllLegalMoves (currentTurn s) s) /\
                from m' = mkPosition fr fk /\ to m' = to m /\
                type (piece m') = type (piece m) /\
                color (piece m') = color (piece m)).
  { exists (plainMove (mkPosition fr fk) (to m) p). simpl. repeat split; auto.
    destruct (cell_in_window _ _ _ _ V E).
    apply getAllLegalMoves_In. exists fr, fk, p, (to m). repeat split; auto; lia. }
  assert (F1 : (isCastling m
                && negb (PieceType_eqb (type p) king
                         && (Z.abs (col (to m) - fk) =? 2))) = false <->
               (isCastling m = true ->
                exists q, Some p = Some q /\ type q = king /\
                          Z.abs (col (to m) - fk) = 2)).
  { destruct (isCastling m); simpl.
    - rewrite negb_false_iff, andb_true_iff, PieceType_eqb_eq, Z.eqb_eq. split.
      + intros [H1 H2] _. exists p; auto.
      + intros H. destruct (H eq_refl) as (q & [= <-] & H1 & H2). auto.
    - split; [discriminate | reflexivity]. }
  assert (F2 : (isEnPassant m
                && negb (PieceType_eqb (type p) pawn
                         && negb (col (to m) =? fk)
                         && isEmptyCell (board s) (to m))) = false <->
               (isEnPassant m = true ->
                exists q, Some p = Some q /\ type q = pawn /\ col (to m) <> fk /\
                          cell (board s) (row (to m)) (col (to m)) = None)).
  { unfold isEmptyCell. destruct (isEnPassant m); simpl.
    - rewrite negb_false_iff, !andb_true_iff, PieceType_eqb_eq, negb_true_iff,
              Z.eqb_neq.
      split.
      + intros [[H1 H2] H3] _. exists p. repeat split; auto.
        destruct (cell (board s) (row (to m)) (col (to m))); [discriminate|reflexivity].
      + intros H. destruct (H eq_refl) as (q & [= <-] & H1 & H2 & H3).
        rewrite H3. auto.
    - split; [discriminate | reflexivity]. }
  destruct (isCastling m && _) eqn:E1.
  { split; [discriminate|]. intros [_ (H & _)]. apply F1 in H. discriminate. }
  destruct (isEnPassant m && _) eqn:E2.
  { split; [discriminate|]. intros [_ (_ & H & _)]. apply F2 in H. discriminate. }
  assert (C1 := proj1 F1 eq_refl). assert (C2 := proj1 F2 eq_refl).
  assert (F3 : isPawnPromotion (mkPosition fr fk) (to m) s = true <->
               exists q, Some p = Some q /\ type q = pawn /\
                         row (to m) = match color q with white => 0 | black => 7 end).
  { rewrite isPawnPromotion_iff. cbn [row col]. rewrite E. tauto. }
  destruct (promotionType m) as [t|].
  - split.
    + intros H. split; [exact L|].
      split; [exact C1|]. split; [exact C2|]. intros _. apply F3, H.
    + intros [_ (_ & _ & H)]. apply F3, H. discriminate.
  - split; [|reflexivity]. intros _. split; [exact L|].
    split; [exact C1|]. split; [exact C2|]. intros H; congruence.
Qed.

(** C4: on a valid board the validator accepts a move exactly when it is
    listed among the legal moves of the side to move and its special-move
    flags match the board, and it answers [false] on every other move. *)
Theorem isValidMove_accepts_exactly_legal (m : Move) (s : GameState) :
  isValidBoard (board s) = true ->
  (isValidMove m s = true <-> listedAsLegal m s /\ flagsMatchBoard m s) /\
  (isValidMove m s = false <-> ~ (listedAsLegal m s /\ flagsMatchBoard m s)).
Proof.
  intros V. pose proof (isValidMove_true_iff m s V) as H. split; [exact H|].
  destruct (isValidMove m s).
  - split; [discriminate|]. intros N. exfalso. apply N, H. reflexivity.
  - split; [|reflexivity]. intros _ N. apply H in N. discriminate.
Qed.

Lemma isValidMove_accepts_exactly_legal_witness :
  isValidMove enPassantCapture enPassantReady = true /\
  listedAsLegal enPassantCapture enPassantReady /\
  flagsMatchBoard enPassantCapture enPassantReady.
Proof.
  assert (V : isValidBoard (board enPassantReady) = true) by (vm_compute; reflexivity).
  assert (T : isValidMove enPassantCapture enPassantReady = true)
    by (vm_compute; reflexivity).
  split; [exact T|].
  exact (proj1 (proj1 (isValidMove_accepts_exactly_legal
                         enPassantCapture enPassantReady V)) T).
Defined.

(** ** Castling *)

Lemma offsetMoves_In (offs : list (Z * Z)) (p : Piece) (s : GameState) (x : Position) :
  In x (offsetMoves offs p s) ->
  exists o, In o offs /\ x = mkPosition (row (position p) + fst o)
                                        (col (position p) + snd o).
Proof.
  unfold offsetMoves. rewrite in_flat_map. intros (o & Ho & H). exists o.
  split; [exact Ho|].
  destruct (isPositionOnBoard _); [|destruct H].
  destruct (cell (board s) _ _) as [t|].
  - destruct (negb _); [|destruct H]. destruct H as [<- | []]. reflexivity.
  - destruct H as [<- | []]. reflexivity.
Qed.

Lemma kingOffsets_near (o : Z * Z) : In o kingOffsets -> -1 <= snd o <= 1.
Proof.
  unfold kingOffsets. simpl.
  intros H; repeat (destruct H as [<- | H]; [simpl; lia|]); destruct H.
Qed.

Lemma isUnmovedRookOf_iff (c : PieceColor) (x : option Piece) :
  isUnmovedRookOf c x = true <->
  exists r, x = Some r /\ type r = rook /\ color r = c /\ hasMoved r = false.
Proof.
  unfold isUnmovedRookOf. destruct x as [r|].
  - rewrite !andb_true_iff, PieceType_eqb_eq, PieceColor_eqb_eq, negb_true_iff.
    split.
    + intros [[H1 H2] H3]. exists r; auto.
    + intros (r' & [= <-] & H1 & H2 & H3); auto.
  - split; [discriminate | intros (r & H & _); discriminate].
Qed.

Lemma isEmptyCell_iff (b : Board) (pos : Position) :
  isEmptyCell b pos = true <-> cell b (row pos) (col pos) = None.
Proof.
  unfold isEmptyCell. destruct (cell b (row pos) (col pos)); split; congruence.
Qed.

(** What the castling generator yields for a king on its home square. *)
Lemma getCastlingMoves_home (king_ : Piece) (s : GameState) (rookCol : Z) :
  position king_ = mkPosition (backRankOf (color king_)) 4 ->
  rookCol = 0 \/ rookCol = 7 ->
  (In (castlingDestination king_ rookCol) (getCastlingMoves king_ s) <->
   castlingRuleHolds king_ rookCol s).
Proof.
  intros Hpos Hrook.
  unfold castlingRuleHolds, castlingDestination, transitSquare, castlingStep,
    getCastlingMoves.
  rewrite Hpos. simpl.
  destruct (hasMoved king_).
  { split; [intros [] | intros (H & _); discriminate]. }
  destruct (isPositionUnderAttack (mkPosition (backRankOf (color king_)) 4)
                                  (color king_) s) eqn:Ea.
  { split; [intros [] | intros (_ & _ & _ & H & _); discriminate]. }
  rewrite Z.eqb_refl. simpl.
  set (br := backRankOf (color king_)) in *.
  unfold isEmptyCell; simpl.
  destruct Hrook as [-> | ->]; simpl.
  - (* queenside *)
    rewrite in_app_iff.
    assert (NK : ~ In (mkPosition br 2)
                   (if isUnmovedRookOf (color king_) (cell (board s) br 7)
                    then if match cell (board s) br 5 with Some _ => false | None => true end
                            && match cell (board s) br 6 with Some _ => false | None => true end
                         then if negb (isPositionUnderAttack (mkPosition br 5) (color king_) s)
                              then [mkPosition br 6] else []
                         else []
                    else [])).
    { intros H.
      repeat match type of H with context [if ?b then _ else _] => destruct b end;
        simpl in H; try contradiction.
      destruct H as [H | H]; [discriminate | exact H]. }
    split.
    + intros [H | H]; [contradiction|]. clear NK.
      destruct (isUnmovedRookOf _ _) eqn:Er; [|destruct H].
      apply isUnmovedRookOf_iff in Er.
      destruct (cell (board s) br 1) eqn:E1; [destruct H|].
      destruct (cell (board s) br 2) eqn:E2; [destruct H|].
      destruct (cell (board s) br 3) eqn:E3; [destruct H|].
      simpl in H.
      destruct (isPositionUnderAttack (mkPosition br 3) (color king_) s) eqn:Et;
        [destruct H|].
      repeat split; auto.
      intros k Hk. assert (k = 1 \/ k = 2 \/ k = 3) as [-> | [-> | ->]] by lia;
        assumption.
    + intros (_ & Hr & He & _ & Ht). right. change (4 + -1) with 3 in Ht.
      apply isUnmovedRookOf_iff in Hr. rewrite Hr.
      rewrite (He 1), (He 2), (He 3) by lia. simpl. rewrite Ht. simpl. auto.
  - (* kingside *)
    rewrite in_app_iff.
    assert (NQ : ~ In (mkPosition br 6)
                   (if isUnmovedRookOf (color king_) (cell (board s) br 0)
                    then if match cell (board s) br 1 with Some _ => false | None => true end
                            && match cell (board s) br 2 with Some _ => false | None => true end
                            && match cell (board s) br 3 with Some _ => false | None => true end
                         then if negb (isPositionUnderAttack (mkPosition br 3) (color king_) s)
                              then [mkPosition br 2] else []
                         else []
                    else [])).
    { intros H.
      repeat match type of H with context [if ?b then _ else _] => destruct b end;
        simpl in H; try contradiction.
      destruct H as [H | H]; [discriminate | exact H]. }
    split.
    + intros [H | H]; [|contradiction]. clear NQ.
      destruct (isUnmovedRookOf _ _) eqn:Er; [|destruct H].
      apply isUnmovedRookOf_iff in Er.
      destruct (cell (board s) br 5) eqn:E1; [destruct H|].
      destruct (cell (board s) br 6) eqn:E2; [destruct H|].
      simpl in H.
      destruct (isPositionUnderAttack (mkPosition br 5) (color king_) s) eqn:Et;
        [destruct H|].
      repeat split; auto.
      intros k Hk. assert (k = 5 \/ k = 6) as [-> | ->] by lia; assumption.
    + intros (_ & Hr & He & _ & Ht). left. change (4 + 1) with 5 in Ht.
      apply isUnmovedRookOf_iff in Hr. rewrite Hr.
      rewrite (He 5), (He 6) by lia. simpl. rewrite Ht. simpl. auto.
Qed.

Lemma getCastlingMoves_away (king_ : Piece) (s : GameState) :
  position king_ <> mkPosition (backRankOf (color king_)) 4 ->
  getCastlingMoves king_ s = [].
Proof.
  intros H. unfold getCastlingMoves.
  destruct (hasMoved king_); [reflexivity|].
  destruct (isPositionUnderAttack _ _ _); [reflexivity|].
  destruct (row (position king_) =? backRankOf (color king_)) eqn:Er;
    [|reflexivity].
  destruct (col (position king_) =? 4) eqn:Ek; [|reflexivity].
  exfalso. apply H. apply Z.eqb_eq in Er, Ek.
  destruct (position king_); simpl in *; congruence.
Qed.

(** C5, as the code has it: for a king of the side to move on its home
    square, the square two files toward the rook is among its legal moves
    exactly when the castling conditions hold and the move passes the
    self-check filter; a king that is not on its home square is offered no
    castling move. *)
Theorem castling_gating (s : GameState) (king_ : Piece) (rookCol : Z) :
  cell (board s) (row (position king_)) (col (position king_)) = Some king_ ->
  type king_ = king ->
  color king_ = currentTurn s ->
  rookCol = 0 \/ rookCol = 7 ->
  (position king_ = mkPosition (backRankOf (color king_)) 4 ->
   (In (castlingDestination king_ rookCol) (getValidMoves (position king_) s) <->
    castlingRuleHolds king_ rookCol s /\
    wouldLeaveKingInCheck (position king_) (castlingDestination king_ rookCol) s
    = false)) /\
  (position king_ <> mkPosition (backRankOf (color king_)) 4 ->
   getCastlingMoves king_ s = []).
Proof.
  intros E Ht Hc Hrook. split; [|apply getCastlingMoves_away].
  intros Hpos. unfold getValidMoves. rewrite E.
  assert (Ec : PieceColor_eqb (color king_) (currentTurn s) = true)
    by (apply PieceColor_eqb_eq; exact Hc).
  rewrite Ec. simpl. rewrite filter_In, negb_true_iff.
  unfold getPseudoLegalMoves. rewrite Ht. unfold getKingMoves.
  rewrite in_app_iff, (getCastlingMoves_home king_ s rookCol Hpos Hrook).
  split.
  - intros [[H | H] W]; [|auto].
    exfalso. apply offsetMoves_In in H as (o & Ho & Hx).
    apply kingOffsets_near in Ho.
    apply (f_equal col) in Hx. unfold castlingDestination, castlingStep in Hx.
    simpl in Hx. destruct (rookCol =? 7); lia.
  - intros [H W]. auto.
Qed.

Lemma castling_gating_witness :
  In (mkPosition 7 6) (getValidMoves (mkPosition 7 4) castleReady) /\
  In (mkPosition 7 2) (getValidMoves (mkPosition 7 4) castleReady).
Proof.
  pose (k := pieceAt king white 7 4 false).
  assert (R : forall rookCol, rookCol = 0 \/ rookCol = 7 ->
              castlingRuleHolds k rookCol castleReady).
  { intros rookCol [-> | ->].
    - split; [reflexivity|]. split.
      { exists (pieceAt rook white 7 0 false). repeat split. }
      split; [|split; vm_compute; reflexivity].
      intros j Hj. simpl in Hj.
      assert (j = 1 \/ j = 2 \/ j = 3) as [-> | [-> | ->]] by lia; reflexivity.
    - split; [reflexivity|]. split.
      { exists (pieceAt rook white 7 7 false). repeat split. }
      split; [|split; vm_compute; reflexivity].
      intros j Hj. simpl in Hj.
      assert (j = 5 \/ j = 6) as [-> | ->] by lia; reflexivity. }
  split.
  - apply (proj1 (castling_gating castleReady k 7 eq_refl eq_refl eq_refl
                    (or_intror eq_refl)) eq_refl).
    split; [apply R; auto | vm_compute; reflexivity].
  - apply (proj1 (castling_gating castleReady k 0 eq_refl eq_refl eq_refl
                    (or_introl eq_refl)) eq_refl).
    split; [apply R; auto | vm_compute; reflexivity].
Defined.

(** The conditions listed in C5 hold for white's short castling here, yet
    the move is not legal: g1 is covered by the rook on g8. *)
Lemma castling_rule_without_destination_check :
  castlingRuleHolds (pieceAt king white 7 4 false) 7 castleIntoCheck /\
  cell (board castleIntoCheck) 7 4 = Some (pieceAt king white 7 4 false) /\
  currentTurn castleIntoCheck = white /\
  ~ In (castlingDestination (pieceAt king white 7 4 false) 7)
       (getValidMoves (mkPosition 7 4) castleIntoCheck).
Proof.
  split; [|split; [reflexivity | split; [reflexivity|]]].
  - split; [reflexivity|]. split.
    { exists (pieceAt rook white 7 7 false). repeat split. }
    split; [|split; vm_compute; reflexivity].
    intros j Hj. simpl in Hj.
    assert (j = 5 \/ j = 6) as [-> | ->] by lia; reflexivity.
  - vm_compute. intros H.
    repeat (destruct H as [H | H]; [discriminate|]). exact H.
Qed.

(** ** Attack coverage of pawns *)

Lemma attacked_by (s : GameState) (c : PieceColor) (p : Piece) (x : Position) :
  cell (board s) (row (position p)) (col (position p)) = Some p ->
  0 <= row (position p) <= 7 -> 0 <= col (position p) <= 7 ->
  color p = oppositeColor c ->
  In x (getPseudoLegalMovesForAttack p s) ->
  isPositionUnderAttack x c s = true.
Proof.
  intros E Hr Hk Hc Hx. apply isPositionUnderAttack_iff.
  exists (row (position p)), (col (position p)), p. auto.
Qed.

(** C9, as the code has it: a pawn of the other colour standing on the
    board covers the empty square straight ahead of it, and the second one
    if both are empty and it has not moved; an empty square diagonally ahead
    is among the squares it covers exactly when it is its en-passant
    destination; a king whose square is covered in this sense gets no
    castling move, and none toward a rook when the square next to it on that
    side is covered. *)
Theorem pawn_attack_coverage (s : GameState) (c : PieceColor) (p : Piece) :
  cell (board s) (row (position p)) (col (position p)) = Some p ->
  0 <= row (position p) <= 7 -> 0 <= col (position p) <= 7 ->
  type p = pawn -> color p = oppositeColor c ->
  let d := pawnDirection (color p) in
  let ahead := mkPosition (row (position p) + d) (col (position p)) in
  let ahead2 := mkPosition (row (position p) + d * 2) (col (position p)) in
  (isPositionOnBoard ahead = true -> cell (board s) (row ahead) (col ahead) = None ->
   isPositionUnderAttack ahead c s = true) /\
  (hasMoved p = false ->
   isPositionOnBoard ahead = true -> cell (board s) (row ahead) (col ahead) = None ->
   isPositionOnBoard ahead2 = true -> cell (board s) (row ahead2) (col ahead2) = None ->
   isPositionUnderAttack ahead2 c s = true) /\
  (forall dk, dk = -1 \/ dk = 1 ->
     let diag := mkPosition (row (position p) + d) (col (position p) + dk) in
     cell (board s) (row diag) (col diag) = None ->
     (In diag (getPseudoLegalMovesForAttack p s) <->
      In diag (getEnPassantMoves p s))) /\
  (forall king_,
     (isPositionUnderAttack (position king_) (color king_) s = true ->
      getCastlingMoves king_ s = []) /\
     (forall rookCol, rookCol = 0 \/ rookCol = 7 ->
        position king_ = mkPosition (backRankOf (color king_)) 4 ->
        isPositionUnderAttack (transitSquare king_ rookCol) (color king_) s = true ->
        ~ In (castlingDestination king_ rookCol) (getCastlingMoves king_ s))).
Proof.
  intros E Hr Hk Ht Hc d ahead ahead2.
  assert (A : getPseudoLegalMovesForAttack p s = getPawnMoves p s)
    by (unfold getPseudoLegalMovesForAttack; rewrite Ht; reflexivity).
  split; [|split; [|split]].
  - intros Hb He. apply (attacked_by s c p); auto.
    rewrite A. unfold getPawnMoves. fold d. fold ahead.
    unfold isEmptyCell. rewrite Hb, He. simpl. left; reflexivity.
  - intros Hm Hb He Hb2 He2. apply (attacked_by s c p); auto.
    rewrite A. unfold getPawnMoves. fold d. fold ahead. fold ahead2.
    unfold isEmptyCell. rewrite Hb, He, Hm, Hb2, He2. simpl.
    right; left; reflexivity.
  - intros dk Hdk diag He. rewrite A. unfold getPawnMoves. fold d.
    rewrite !in_app_iff. split; [|auto].
    intros [H | [H | H]]; [exfalso | exfalso | exact H].
    + destruct (_ && _) in H; [|destruct H].
      destruct H as [H | H].
      * apply (f_equal col) in H. simpl in H. lia.
      * destruct (negb (hasMoved p)); [|destruct H].
        destruct (_ && _) in H; [|destruct H].
        destruct H as [H | []]. apply (f_equal col) in H. simpl in H. lia.
    + apply in_flat_map in H as (cp & Hcp & H).
      destruct (isPositionOnBoard cp); [|destruct H].
      destruct (cell (board s) (row cp) (col cp)) as [t|] eqn:Et; [|destruct H].
      destruct (negb _); [|destruct H].
      destruct H as [<- | []]. congruence.
  - intros king_. split.
    + intros H. unfold getCastlingMoves. rewrite H.
      destruct (hasMoved king_); reflexivity.
    + intros rookCol Hrook Hpos H N.
      apply (getCastlingMoves_home king_ s rookCol Hpos Hrook) in N.
      destruct N as (_ & _ & _ & _ & N). congruence.
Qed.

Lemma pawn_attack_coverage_witness :
  isPositionUnderAttack (mkPosition 2 3) black enPassantReady = true /\
  (In (mkPosition 2 4)
      (getPseudoLegalMovesForAttack (pieceAt pawn white 3 3 true) enPassantReady) <->
   In (mkPosition 2 4)
      (getEnPassantMoves (pieceAt pawn white 3 3 true) enPassantReady)).
Proof.
  destruct (pawn_attack_coverage enPassantReady black (pieceAt pawn white 3 3 true)
              eq_refl ltac:(simpl; lia) ltac:(simpl; lia) eq_refl eq_refl)
    as (A1 & _ & D & _).
  split.
  - apply A1; reflexivity.
  - apply (D 1 (or_intror eq_refl)). reflexivity.
Defined.

(** The square c6 is empty and diagonally ahead of the white pawn on d5,
    and it counts as attacked: it is the pawn's en-passant destination. *)
Lemma empty_diagonal_attacked_en_passant :
  cell (board enPassantReady) 3 3 = Some (pieceAt pawn white 3 3 true) /\
  cell (board enPassantReady) 2 2 = None /\
  In (mkPosition 2 2)
     (getPseudoLegalMovesForAttack (pieceAt pawn white 3 3 true) enPassantReady) /\
  isPositionUnderAttack (mkPosition 2 2) black enPassantReady = true.
Proof.
  split; [reflexivity|]. split; [reflexivity|]. split.
  - vm_compute. auto.
  - vm_compute. reflexivity.
Qed.

(** ** The object store *)

Lemma bind_run {A B} (m : M A) (f : A -> M B) (h h' : Heap) (a : A) :
  m h = Some (a, h') -> (m ≫= f) h = f a h'.
Proof. intros H. unfold mbind, M_bind. rewrite H. reflexivity. Qed.

Lemma evolves_refl (n : nat) (h : Heap) : (n <= length h)%nat -> evolves n h h.
Proof. intros L. split; [exact L|]. split; [reflexivity|]. intros l o H. exists o; auto. Qed.

Lemma evolves_length (n : nat) (h h' : Heap) :
  evolves n h h' -> (length h <= length h')%nat.
Proof.
  intros (_ & _ & K). destruct (decide (length h = 0%nat)) as [->|N]; [lia|].
  destruct (lookup_lt_is_Some_2 h (length h - 1)) as [o Ho]; [lia|].
  destruct (K _ _ Ho) as (o' & Ho' & _). apply lookup_lt_Some in Ho'. lia.
Qed.

Lemma evolves_trans (n : nat) (h1 h2 h3 : Heap) :
  evolves n h1 h2 -> evolves n h2 h3 -> evolves n h1 h3.
Proof.
  intros (L1 & U1 & K1) (L2 & U2 & K2). split; [exact L1|]. split.
  - intros l Hl. rewrite U2, U1 by assumption. reflexivity.
  - intros l o H. destruct (K1 l o H) as (o' & H' & E').
    destruct (K2 l o' H') as (o'' & H'' & E''). exists o''.
    split; [assumption|congruence].
Qed.

Lemma evolves_app (n : nat) (h e : Heap) :
  (n <= length h)%nat -> evolves n h (h ++ e).
Proof.
  intros L. split; [exact L|]. split.
  - intros l Hl. apply lookup_app_l. lia.
  - intros l o H. exists o. split; [apply lookup_app_l_Some; exact H | reflexivity].
Qed.

Lemma evolves_insert (n : nat) (h : Heap) (l : loc) (o o' : Obj) :
  (n <= length h)%nat -> (n <= l)%nat -> h !! l = Some o -> kindOf o' = kindOf o ->
  evolves n h (<[l := o']> h).
Proof.
  intros L Hl Ho K. split; [exact L|]. split.
  - intros j Hj. apply list_lookup_insert_ne. lia.
  - intros j x Hx. destruct (decide (l = j)) as [<-|N].
    + exists o'. split; [apply list_lookup_insert_eq; eapply lookup_lt_Some; eassumption|].
      congruence.
    + exists x. split; [rewrite list_lookup_insert_ne by assumption; exact Hx | reflexivity].
Qed.

Lemma evolves_extends (h h' : Heap) : evolves (length h) h h' -> extends h h'.
Proof.
  intros (_ & U & _) l o H. rewrite U; [exact H|]. eapply lookup_lt_Some; eassumption.
Qed.

Lemma extends_app (h e : Heap) : extends h (h ++ e).
Proof. intros l o H. apply lookup_app_l_Some; exact H. Qed.

Lemma extends_prefix (h h' : Heap) : extends h h' -> exists e, h' = h ++ e.
Proof.
  intros X. exists (drop (length h) h').
  rewrite <- (take_drop (length h) h') at 1. f_equal.
  apply list_eq. intros i. destruct (h !! i) as [o|] eqn:E.
  - rewrite lookup_take_lt by (eapply lookup_lt_Some; eassumption). apply X; exact E.
  - apply lookup_ge_None in E. apply lookup_ge_None. rewrite length_take. lia.
Qed.

Lemma pieceLoc_evolves (n : nat) (h h' : Heap) (l : loc) :
  evolves n h h' -> pieceLoc h l -> pieceLoc h' l.
Proof.
  intros (_ & _ & K) [p H]. destruct (K _ _ H) as (o' & H' & E).
  destruct o'; try discriminate. eexists; eassumption.
Qed.

Lemma rowLoc_evolves (n : nat) (h h' : Heap) (l : loc) :
  evolves n h h' -> rowLoc n h l -> rowLoc n h' l.
Proof.
  intros (_ & _ & K) [Hl [cs H]]. split; [exact Hl|].
  destruct (K _ _ H) as (o' & H' & E).
  destruct o'; try discriminate. eexists; eassumption.
Qed.

Lemma rowLocs_evolves (n : nat) (h h' : Heap) (rows : list loc) :
  evolves n h h' -> Forall (rowLoc n h) rows -> Forall (rowLoc n h') rows.
Proof.
  intros E F. eapply Forall_impl; [exact F|]. intros l. apply rowLoc_evolves; exact E.
Qed.

Lemma freshCell_evolves (n : nat) (h h' : Heap) (c : option loc) :
  evolves n h h' -> freshCell n h c -> freshCell n h' c.
Proof.
  intros E. destruct c as [l|]; simpl; [|auto].
  intros [Hl Hp]. split; [exact Hl | eapply pieceLoc_evolves; eassumption].
Qed.

Lemma freshCells_evolves (n : nat) (h h' : Heap) (cs : list (option loc)) :
  evolves n h h' -> Forall (freshCell n h) cs -> Forall (freshCell n h') cs.
Proof.
  intros E F. eapply Forall_impl; [exact F|]. intros c. apply freshCell_evolves; exact E.
Qed.

Lemma goodStore_alloc (n : nat) (h : Heap) (o : Obj) :
  goodStore n h ->
  (forall cs, o = OCells cs -> Forall (freshCell n h) cs) ->
  goodStore n (h ++ [o]).
Proof.
  intros [L F] Ho. split; [rewrite length_app; lia|].
  intros l cs Hl H.
  apply (freshCells_evolves n h); [apply evolves_app; exact L|].
  destruct (decide (l < length h)%nat) as [Lt|Ge].
  - rewrite lookup_app_l in H by exact Lt. eapply F; eassumption.
  - rewrite lookup_app_r in H by lia.
    destruct (l - length h)%nat; simpl in H; [|discriminate].
    injection H as ->. apply Ho; reflexivity.
Qed.

Lemma goodStore_insert (n : nat) (h : Heap) (l : loc) (o o' : Obj) :
  goodStore n h -> (n <= l)%nat -> h !! l = Some o -> kindOf o' = kindOf o ->
  (forall cs, o' = OCells cs -> Forall (freshCell n h) cs) ->
  goodStore n (<[l := o']> h).
Proof.
  intros [L F] Hl Ho K Hc. split; [rewrite length_insert; exact L|].
  intros j cs Hj H.
  apply (freshCells_evolves n h); [eapply evolves_insert; eassumption|].
  destruct (decide (l = j)) as [<-|N].
  - rewrite list_lookup_insert_eq in H by (eapply lookup_lt_Some; eassumption).
    injection H as ->. apply Hc; reflexivity.
  - rewrite list_lookup_insert_ne in H by assumption. eapply F; eassumption.
Qed.

(** *** Primitive operations *)

Lemma alloc_spec (n : nat) (h : Heap) (o : Obj) :
  goodStore n h ->
  (forall cs, o = OCells cs -> Forall (freshCell n h) cs) ->
  alloc o h = Some (length h, h ++ [o]) /\ evolves n h (h ++ [o]) /\
  goodStore n (h ++ [o]) /\ (h ++ [o]) !! length h = Some o /\ (n <= length h)%nat.
Proof.
  intros G Ho. split; [reflexivity|]. split; [apply evolves_app; apply G|].
  split; [apply goodStore_alloc; assumption|].
  split; [|apply G]. rewrite lookup_app_r by lia.
  rewrite Nat.sub_diag. reflexivity.
Qed.

Lemma setPiece_spec (n : nat) (h : Heap) (l : loc) (p : Piece) :
  goodStore n h -> (n <= l)%nat -> pieceLoc h l ->
  exists h', setPiece l p h = Some (tt, h') /\ evolves n h h' /\ goodStore n h'.
Proof.
  intros G Hl [q Hq]. exists (<[l := OPiece p]> h). unfold setPiece. rewrite Hq.
  split; [reflexivity|]. split.
  - eapply evolves_insert; try eassumption; [apply G | reflexivity].
  - eapply goodStore_insert; try eassumption; [reflexivity | discriminate].
Qed.

Lemma updatePiece_spec (n : nat) (h : Heap) (l : loc) (f : Piece -> Piece) :
  goodStore n h -> (n <= l)%nat -> pieceLoc h l ->
  exists h', (p ← getPiece l; setPiece l (f p)) h = Some (tt, h') /\
             evolves n h h' /\ goodStore n h'.
Proof.
  intros G Hl Hp. destruct Hp as [q Hq].
  destruct (setPiece_spec n h l (f q) G Hl (ex_intro _ q Hq)) as (h' & R & E & G').
  exists h'. split; [|auto].
  erewrite bind_run; [exact R|]. unfold getPiece. rewrite Hq. reflexivity.
Qed.

Lemma setPosition_spec (n : nat) (h : Heap) (l : loc) (pos : Position) :
  goodStore n h -> (n <= l)%nat -> pieceLoc h l ->
  exists h', setPosition l pos h = Some (tt, h') /\ evolves n h h' /\ goodStore n h'.
Proof. apply (updatePiece_spec n h l (fun p => mkPiece (type p) (color p) pos (hasMoved p))). Qed.

Lemma setHasMoved_spec (n : nat) (h : Heap) (l : loc) (b : bool) :
  goodStore n h -> (n <= l)%nat -> pieceLoc h l ->
  exists h', setHasMoved l b h = Some (tt, h') /\ evolves n h h' /\ goodStore n h'.
Proof. apply (updatePiece_spec n h l (fun p => mkPiece (type p) (color p) (position p) b)). Qed.

Lemma setType_spec (n : nat) (h : Heap) (l : loc) (t : PieceType) :
  goodStore n h -> (n <= l)%nat -> pieceLoc h l ->
  exists h', setType l t h = Some (tt, h') /\ evolves n h h' /\ goodStore n h'.
Proof. apply (updatePiece_spec n h l (fun p => mkPiece t (color p) (position p) (hasMoved p))). Qed.

Lemma jsIndex_Forall {A} (P : A -> Prop) (l : list A) (i : Z) (x : A) :
  Forall P l -> jsIndex l i = Some x -> P x.
Proof.
  intros F H. apply jsIndex_In in H. rewrite Forall_forall in F. apply F.
  apply list_elem_of_In. exact H.
Qed.

Lemma cellLoc_fresh (n : nat) (h : Heap) (rows : list loc) (r c : Z) :
  goodStore n h -> Forall (rowLoc n h) rows -> freshCell n h (cellLoc h rows r c).
Proof.
  intros [_ F] R. unfold cellLoc.
  destruct (jsIndex rows r) as [rl|] eqn:Er; [|exact I].
  destruct (jsIndex_Forall _ _ _ _ R Er) as [Hl [cs Hcs]]. rewrite Hcs.
  destruct (jsIndex cs c) as [x|] eqn:Ec; [|exact I].
  apply (jsIndex_Forall _ _ _ _ (F _ _ Hl Hcs) Ec).
Qed.

Lemma boardGet_spec (n : nat) (h : Heap) (rows : list loc) (r c : Z) :
  Forall (rowLoc n h) rows ->
  boardGet rows r c h = Some (cellLoc h rows r c, h).
Proof.
  intros R. unfold boardGet, cellLoc.
  destruct (jsIndex rows r) as [rl|] eqn:Er; [|reflexivity].
  destruct (jsIndex_Forall _ _ _ _ R Er) as [Hl [cs Hcs]].
  erewrite bind_run; [|unfold getCells; rewrite Hcs; reflexivity].
  rewrite Hcs. reflexivity.
Qed.

Lemma boardGetStrict_spec (n : nat) (h : Heap) (rows : list loc) (r c : Z) :
  Forall (rowLoc n h) rows -> is_Some (jsIndex rows r) ->
  boardGetStrict rows r c h = Some (cellLoc h rows r c, h).
Proof.
  intros R [rl Er]. unfold boardGetStrict, cellLoc. rewrite Er.
  destruct (jsIndex_Forall _ _ _ _ R Er) as [Hl [cs Hcs]].
  erewrite bind_run; [|unfold getCells; rewrite Hcs; reflexivity].
  rewrite Hcs. reflexivity.
Qed.

Lemma boardSet_spec (n : nat) (h : Heap) (rows : list loc) (r c : Z) (v : option loc) :
  goodStore n h -> Forall (rowLoc n h) rows -> is_Some (jsIndex rows r) ->
  freshCell n h v ->
  exists h', boardSet rows r c v h = Some (tt, h') /\ evolves n h h' /\ goodStore n h'.
Proof.
  intros G R [rl Er] Hv. unfold boardSet. rewrite Er.
  destruct (jsIndex_Forall _ _ _ _ R Er) as [Hl [cs Hcs]].
  erewrite bind_run; [|unfold getCells; rewrite Hcs; reflexivity].
  destruct ((0 <=? c) && (c <=? 7)).
  - exists (<[rl := OCells (<[Z.to_nat c := v]> cs)]> h).
    unfold setCells. rewrite Hcs. split; [reflexivity|]. split.
    + eapply evolves_insert; try eassumption; [apply G | reflexivity].
    + eapply goodStore_insert; try eassumption; [reflexivity|].
      intros cs' [= <-]. apply Forall_insert; [|exact Hv].
      destruct G as [_ F]. eapply F; eassumption.
  - exists h. split; [reflexivity|]. split; [apply evolves_refl; apply G | exact G].
Qed.

(** *** Snapshots and growing stores *)

Lemma mapM_mono {A B} (f g : A -> option B) (l : list A) (k : list B) :
  (forall x y, f x = Some y -> g x = Some y) ->
  mapM f l = Some k -> mapM g l = Some k.
Proof.
  intros H E. apply mapM_Some in E. apply mapM_Some.
  eapply Forall2_impl; [exact E|]. exact H.
Qed.

Lemma snapPiece_extends (h h' : Heap) (l : loc) (p : Piece) :
  extends h h' -> snapPiece h l = Some p -> snapPiece h' l = Some p.
Proof.
  intros X. unfold snapPiece. destruct (h !! l) as [o|] eqn:E; [|discriminate].
  rewrite (X _ _ E). auto.
Qed.

Lemma snapCell_extends (h h' : Heap) (c : option loc) (v : option Piece) :
  extends h h' -> snapCell h c = Some v -> snapCell h' c = Some v.
Proof.
  intros X. destruct c as [l|]; simpl; [|auto].
  destruct (snapPiece h l) as [p|] eqn:E; [|discriminate].
  rewrite (snapPiece_extends _ _ _ _ X E). auto.
Qed.

Lemma snapCells_extends (h h' : Heap) (l : loc) (v : list (option Piece)) :
  extends h h' -> snapCells h l = Some v -> snapCells h' l = Some v.
Proof.
  intros X. unfold snapCells. destruct (h !! l) as [o|] eqn:E; [|discriminate].
  rewrite (X _ _ E). destruct o; try discriminate.
  apply mapM_mono. intros x y. apply snapCell_extends; exact X.
Qed.

Lemma snapBoard_extends (h h' : Heap) (rows : list loc) (b : Board) :
  extends h h' -> snapBoard h rows = Some b -> snapBoard h' rows = Some b.
Proof.
  intros X. apply mapM_mono. intros x y. apply snapCells_extends; exact X.
Qed.

Lemma snapPieces_extends (h h' : Heap) (l : loc) (v : list Piece) :
  extends h h' -> snapPieces h l = Some v -> snapPieces h' l = Some v.
Proof.
  intros X. unfold snapPieces. destruct (h !! l) as [o|] eqn:E; [|discriminate].
  rewrite (X _ _ E). destruct o; try discriminate.
  apply mapM_mono. intros x y. apply snapPiece_extends; exact X.
Qed.

Lemma snapMove_extends (h h' : Heap) (m : MoveRef) (v : Move) :
  extends h h' -> snapMove h m = Some v -> snapMove h' m = Some v.
Proof.
  intros X. unfold snapMove.
  destruct (snapPiece h (mpiece m)) as [p|] eqn:Ep; [|discriminate].
  destruct (snapCell h (mcapturedPiece m)) as [c|] eqn:Ec; [|discriminate].
  rewrite (snapPiece_extends _ _ _ _ X Ep), (snapCell_extends _ _ _ _ X Ec). auto.
Qed.

Lemma snapLastMove_extends (h h' : Heap) (m : option MoveRef) (v : option Move) :
  extends h h' -> snapLastMove h m = Some v -> snapLastMove h' m = Some v.
Proof.
  intros X. destruct m as [m|]; simpl; [|auto].
  destruct (snapMove h m) as [x|] eqn:E; [|discriminate].
  rewrite (snapMove_extends _ _ _ _ X E). auto.
Qed.

Lemma snapStateObj_extends (h h' : Heap) (o : StateObj) (s : GameState) :
  extends h h' -> snapStateObj h o = Some s -> snapStateObj h' o = Some s.
Proof.
  intros X. unfold snapStateObj.
  destruct (snapBoard h (sboard o)) as [b|] eqn:Eb; [|discriminate].
  destruct (mapM (snapMove h) (smoveHistory o)) as [hist|] eqn:Eh; [|discriminate].
  destruct (snapPieces h (scapturedPieces o)) as [caps|] eqn:Ec; [|discriminate].
  destruct (snapLastMove h (slastMove o)) as [lm|] eqn:El; [|discriminate].
  rewrite (snapBoard_extends _ _ _ _ X Eb), (snapPieces_extends _ _ _ _ X Ec),
          (snapLastMove_extends _ _ _ _ X El).
  rewrite (mapM_mono (snapMove h) (snapMove h') _ _
             (fun x y => snapMove_extends h h' x y X) Eh).
  auto.
Qed.

Lemma snapState_extends (h h' : Heap) (l : loc) (s : GameState) :
  extends h h' -> snapState h l = Some s -> snapState h' l = Some s.
Proof.
  intros X. unfold snapState. destruct (h !! l) as [o|] eqn:E; [|discriminate].
  rewrite (X _ _ E). destruct o; try discriminate.
  apply snapStateObj_extends; exact X.
Qed.

(** Assigning to a state object leaves the snapshot of everything else as
    it is. *)
Lemma snapPiece_sameButStates (h h' : Heap) (l : loc) :
  sameButStates h h' -> snapPiece h' l = snapPiece h l.
Proof.
  intros X. unfold snapPiece.
  destruct (X l) as [-> | (o & o' & -> & ->)]; reflexivity.
Qed.

Lemma snapCell_sameButStates (h h' : Heap) (c : option loc) :
  sameButStates h h' -> snapCell h' c = snapCell h c.
Proof.
  intros X. destruct c as [l|]; simpl; [|reflexivity].
  rewrite (snapPiece_sameButStates _ _ l X). reflexivity.
Qed.

Lemma snapCells_sameButStates (h h' : Heap) (l : loc) :
  sameButStates h h' -> snapCells h' l = snapCells h l.
Proof.
  intros X. unfold snapCells.
  destruct (X l) as [-> | (o & o' & -> & ->)]; [|reflexivity].
  destruct (h !! l) as [[]|]; try reflexivity.
  apply mapM_ext. intros c. apply snapCell_sameButStates; exact X.
Qed.

Lemma snapMove_sameButStates (h h' : Heap) (m : MoveRef) :
  sameButStates h h' -> snapMove h' m = snapMove h m.
Proof.
  intros X. unfold snapMove.
  rewrite (snapPiece_sameButStates _ _ _ X), (snapCell_sameButStates _ _ _ X).
  reflexivity.
Qed.

Lemma snapStateObj_sameButStates (h h' : Heap) (o : StateObj) :
  sameButStates h h' -> snapStateObj h' o = snapStateObj h o.
Proof.
  intros X. unfold snapStateObj, snapBoard, snapPieces, snapLastMove.
  rewrite (mapM_ext (snapCells h') (snapCells h))
    by (intros l; apply snapCells_sameButStates; exact X).
  rewrite (mapM_ext (snapMove h') (snapMove h))
    by (intros m; apply snapMove_sameButStates; exact X).
  assert (E : match h' !! scapturedPieces o with
              | Some (OPieces ps) => mapM (snapPiece h') ps
              | _ => None
              end =
              match h !! scapturedPieces o with
              | Some (OPieces ps) => mapM (snapPiece h) ps
              | _ => None
              end).
  { destruct (X (scapturedPieces o)) as [-> | (o1 & o2 & -> & ->)]; [|reflexivity].
    destruct (h !! scapturedPieces o) as [[]|]; try reflexivity.
    apply mapM_ext. intros l. apply snapPiece_sameButStates; exact X. }
  rewrite E.
  destruct (slastMove o) as [m|]; [|reflexivity].
  rewrite (snapMove_sameButStates _ _ m X). reflexivity.
Qed.

Lemma sameButStates_insert (h : Heap) (l : loc) (o o' : StateObj) :
  h !! l = Some (OState o) -> sameButStates h (<[l := OState o']> h).
Proof.
  intros H j. destruct (decide (l = j)) as [<-|N].
  - right. exists o, o'. split; [exact H|].
    apply list_lookup_insert_eq. eapply lookup_lt_Some; eassumption.
  - left. apply list_lookup_insert_ne. exact N.
Qed.

(** A snapshot of a board and the cells it was read from. *)
Lemma snapBoard_cell (h : Heap) (rows : list loc) (b : Board) (r c : Z) :
  snapBoard h rows = Some b ->
  cell b r c = match cellLoc h rows r c with
               | Some l => snapPiece h l
               | None => None
               end /\
  (forall l, cellLoc h rows r c = Some l -> is_Some (snapPiece h l)).
Proof.
  intros H. apply mapM_Some in H. unfold cell, cellLoc, jsIndex.
  destruct (r <? 0); [split; [reflexivity | discriminate]|].
  destruct (rows !! Z.to_nat r) as [rl|] eqn:Er.
  - destruct (Forall2_lookup_l _ _ _ _ _ H Er) as (cells & Eb & Hs).
    rewrite Eb. unfold snapCells in Hs.
    destruct (h !! rl) as [[]|]; try discriminate.
    apply mapM_Some in Hs.
    destruct (c <? 0); [split; [reflexivity | discriminate]|].
    destruct (cells0 !! Z.to_nat c) as [x|] eqn:Ec.
    + destruct (Forall2_lookup_l _ _ _ _ _ Hs Ec) as (v & Ev & Hv).
      rewrite Ev. destruct x as [l|]; simpl in Hv.
      * destruct (snapPiece h l) as [p|] eqn:Ep; [|discriminate].
        injection Hv as <-. split; [reflexivity|]. intros l' [= <-].
        rewrite Ep. eauto.
      * injection Hv as <-. split; [reflexivity | discriminate].
    + assert (cells !! Z.to_nat c = None) as ->.
      { apply lookup_ge_None. apply lookup_ge_None in Ec.
        rewrite <- (Forall2_length _ _ _ Hs). exact Ec. }
      split; [reflexivity | discriminate].
  - assert (b !! Z.to_nat r = None) as ->.
    { apply lookup_ge_None. apply lookup_ge_None in Er.
      rewrite <- (Forall2_length _ _ _ H). exact Er. }
    split; [reflexivity | discriminate].
Qed.

Lemma snapBoard_length (h : Heap) (rows : list loc) (b : Board) :
  snapBoard h rows = Some b -> length rows = length b.
Proof. intros H. apply mapM_Some in H. eapply Forall2_length; eassumption. Qed.

(** A board of fresh, well-typed rows has a snapshot. *)
Lemma snapBoard_fresh (n : nat) (h : Heap) (rows : list loc) :
  goodStore n h -> Forall (rowLoc n h) rows -> is_Some (snapBoard h rows).
Proof.
  intros [_ F] R. apply mapM_is_Some.
  eapply Forall_impl; [exact R|]. intros rl [Hl [cs Hcs]]. simpl.
  unfold snapCells. rewrite Hcs. apply mapM_is_Some.
  eapply Forall_impl; [exact (F _ _ Hl Hcs)|].
  intros [l|]; simpl; [|eauto]. intros [_ [p Hp]].
  unfold snapPiece. rewrite Hp. eauto.
Qed.

(** *** Loops that only allocate *)

Section ForM.
Context {A B : Type} (f : A -> M B).
Variable Inv : Heap -> Prop.
Variable Pre : Heap -> A -> Prop.
Variable Post : Heap -> A -> B -> Prop.
Hypothesis Pre_app : forall h e x, Pre h x -> Pre (h ++ e) x.
Hypothesis Post_app : forall h e x y, Post h x y -> Post (h ++ e) x y.
Hypothesis f_spec : forall h x, Inv h -> Pre h x ->
  exists y e, f x h = Some (y, h ++ e) /\ Inv (h ++ e) /\ Post (h ++ e) x y.

Lemma forM_spec (l : list A) : forall h, Inv h -> Forall (Pre h) l ->
  exists ys e, forM f l h = Some (ys, h ++ e) /\ Inv (h ++ e) /\
               Forall2 (Post (h ++ e)) l ys.
Proof.
  induction l as [|x l IH]; intros h HI HP.
  - exists [], []. rewrite app_nil_r. simpl. repeat split; auto.
  - apply Forall_cons in HP as [Hx Hl].
    destruct (f_spec h x HI Hx) as (y & e1 & R1 & I1 & P1).
    assert (Hl' : Forall (Pre (h ++ e1)) l).
    { eapply Forall_impl; [exact Hl|]. intros a. apply Pre_app. }
    destruct (IH (h ++ e1) I1 Hl') as (ys & e2 & R2 & I2 & P2).
    exists (y :: ys), (e1 ++ e2). rewrite app_assoc.
    split; [|split; [exact I2|]].
    + simpl. erewrite bind_run by exact R1. erewrite bind_run by exact R2.
      reflexivity.
    + constructor; [apply Post_app; exact P1 | exact P2].
Qed.
End ForM.

Lemma Forall2_transfer {A B C} (f : A -> option C) (g : B -> option C)
    (l : list A) (l' : list B) (k : list C) :
  Forall2 (fun x y => f x = Some y) l k ->
  Forall2 (fun x x' => exists v, f x = Some v /\ g x' = Some v) l l' ->
  Forall2 (fun x' y => g x' = Some y) l' k.
Proof.
  intros H. revert l'. induction H as [|x y l k Hxy H IH]; intros l' H'.
  - inversion H'; constructor.
  - inversion H' as [|? x' ? l'' (v & Hv & Hg) H'']; subst.
    constructor; [congruence | apply IH; exact H''].
Qed.

Lemma pieceLoc_app (h e : Heap) (l : loc) : pieceLoc h l -> pieceLoc (h ++ e) l.
Proof. intros [p H]. exists p. apply lookup_app_l_Some; exact H. Qed.

Lemma freshCell_app (n : nat) (h e : Heap) (c : option loc) :
  freshCell n h c -> freshCell n (h ++ e) c.
Proof.
  destruct c as [l|]; simpl; [|auto]. intros [Hl Hp].
  split; [exact Hl | apply pieceLoc_app; exact Hp].
Qed.

Lemma rowLoc_app (n : nat) (h e : Heap) (l : loc) :
  rowLoc n h l -> rowLoc n (h ++ e) l.
Proof.
  intros [Hl [cs H]]. split; [exact Hl|]. exists cs.
  apply lookup_app_l_Some; exact H.
Qed.

(** *** The deep copy of the board *)

Lemma copyCell_spec (n : nat) (h : Heap) (c : option loc) :
  goodStore n h -> is_Some (snapCell h c) ->
  exists c' e, copyCell c h = Some (c', h ++ e) /\ goodStore n (h ++ e) /\
               copiedCell n (h ++ e) c c'.
Proof.
  intros G [v Hv]. destruct c as [l|]; simpl in *.
  - destruct (snapPiece h l) as [p|] eqn:Ep; [|discriminate].
    injection Hv as <-.
    assert (Hl : h !! l = Some (OPiece p)).
    { unfold snapPiece in Ep. destruct (h !! l) as [[]|]; congruence. }
    exists (Some (length h)), [OPiece p].
    destruct (alloc_spec n h (OPiece p) G ltac:(discriminate)) as (Ra & _ & G' & Lk & Ln).
    split; [|split; [exact G'|]].
    + erewrite bind_run; [|unfold getPiece; rewrite Hl; reflexivity].
      erewrite bind_run by exact Ra. reflexivity.
    + split.
      * exists (Some p). simpl.
        rewrite (snapPiece_extends h (h ++ [OPiece p]) l p (extends_app _ _) Ep).
        unfold snapPiece. rewrite Lk. auto.
      * simpl. split; [exact Ln | exists p; exact Lk].
  - exists None, []. rewrite app_nil_r. split; [reflexivity|]. split; [exact G|].
    split; [exists None; auto | exact I].
Qed.

Lemma copiedCell_app (n : nat) (h e : Heap) (c c' : option loc) :
  copiedCell n h c c' -> copiedCell n (h ++ e) c c'.
Proof.
  intros [(v & H1 & H2) F]. split; [|apply freshCell_app; exact F].
  exists v.
  split; [apply (snapCell_extends h _ _ _ (extends_app _ _) H1)
         | apply (snapCell_extends h _ _ _ (extends_app _ _) H2)].
Qed.

Lemma copiedRow_app (n : nat) (h e : Heap) (l l' : loc) :
  copiedRow n h l l' -> copiedRow n (h ++ e) l l'.
Proof.
  intros [(v & H1 & H2) F]. split; [|apply rowLoc_app; exact F].
  exists v.
  split; [apply (snapCells_extends h _ _ _ (extends_app _ _) H1)
         | apply (snapCells_extends h _ _ _ (extends_app _ _) H2)].
Qed.

Lemma is_Some_snapCell_app (h e : Heap) (c : option loc) :
  is_Some (snapCell h c) -> is_Some (snapCell (h ++ e) c).
Proof. intros [v H]. exists v. apply (snapCell_extends h _ _ _ (extends_app _ _) H). Qed.

Lemma is_Some_snapCells_app (h e : Heap) (l : loc) :
  is_Some (snapCells h l) -> is_Some (snapCells (h ++ e) l).
Proof. intros [v H]. exists v. apply (snapCells_extends h _ _ _ (extends_app _ _) H). Qed.

Lemma copyRow_spec (n : nat) (h : Heap) (rl : loc) :
  goodStore n h -> is_Some (snapCells h rl) ->
  exists rl' e, copyRow rl h = Some (rl', h ++ e) /\ goodStore n (h ++ e) /\
                copiedRow n (h ++ e) rl rl'.
Proof.
  intros G [v Hv]. unfold snapCells in Hv.
  destruct (h !! rl) as [[ | cells | | ]|] eqn:Hrl; try discriminate.
  assert (Pre : Forall (fun c => is_Some (snapCell h c)) cells).
  { apply (mapM_is_Some_1 (snapCell h)). rewrite Hv. eauto. }
  destruct (forM_spec copyCell (goodStore n) (fun h c => is_Some (snapCell h c))
              (copiedCell n) is_Some_snapCell_app (copiedCell_app n)
              (copyCell_spec n) cells h G Pre) as (cells' & e1 & R1 & G1 & C1).
  set (h1 := h ++ e1) in *.
  assert (F1 : Forall (freshCell n h1) cells').
  { clear -C1. induction C1 as [|? ? ? ? [_ ?]]; constructor; auto. }
  destruct (alloc_spec n h1 (OCells cells') G1) as (Ra & _ & G2 & Lk & Ln).
  { intros cs [= <-]. exact F1. }
  exists (length h1), (e1 ++ [OCells cells']). rewrite app_assoc. fold h1.
  split; [|split; [exact G2|]].
  - unfold copyRow.
    erewrite bind_run; [|unfold getCells; rewrite Hrl; reflexivity].
    erewrite bind_run by exact R1. exact Ra.
  - assert (X : extends h (h1 ++ [OCells cells'])).
    { unfold h1. rewrite <- app_assoc. apply extends_app. }
    assert (Hv' : snapCells (h1 ++ [OCells cells']) rl = Some v).
    { apply (snapCells_extends h _ rl v X). unfold snapCells. rewrite Hrl. exact Hv. }
    split; [|split; [exact Ln | exists cells'; exact Lk]].
    exists v. split; [exact Hv'|].
    unfold snapCells. rewrite Lk. apply mapM_Some.
    apply (Forall2_transfer (snapCell (h1 ++ [OCells cells'])) _ cells cells' v).
    + apply mapM_Some. apply (mapM_mono (snapCell h)); [|exact Hv].
      intros x y. apply snapCell_extends. exact X.
    + eapply Forall2_impl; [exact C1|]. intros c c' [(w & H1 & H2) _].
      exists w.
      split; [apply (snapCell_extends h1 _ _ _ (extends_app _ _) H1)
             | apply (snapCell_extends h1 _ _ _ (extends_app _ _) H2)].
Qed.

Lemma copyBoard_spec (n : nat) (h : Heap) (rows : list loc) (b : Board) :
  goodStore n h -> snapBoard h rows = Some b ->
  exists rows' e, copyBoard rows h = Some (rows', h ++ e) /\ goodStore n (h ++ e) /\
                  Forall (rowLoc n (h ++ e)) rows' /\
                  snapBoard (h ++ e) rows' = Some b.
Proof.
  intros G Hb.
  assert (Pre : Forall (fun l => is_Some (snapCells h l)) rows).
  { apply (mapM_is_Some_1 (snapCells h)). unfold snapBoard in Hb. rewrite Hb. eauto. }
  destruct (forM_spec copyRow (goodStore n) (fun h l => is_Some (snapCells h l))
              (copiedRow n) is_Some_snapCells_app (copiedRow_app n)
              (copyRow_spec n) rows h G Pre) as (rows' & e & R & G' & C).
  exists rows', e. split; [exact R|]. split; [exact G'|]. split.
  - clear -C. induction C as [|? ? ? ? [_ ?]]; constructor; auto.
  - apply mapM_Some.
    apply (Forall2_transfer (snapCells (h ++ e)) _ rows rows' b).
    + apply mapM_Some. apply (snapBoard_extends h _ _ _ (extends_app _ _) Hb).
    + eapply Forall2_impl; [exact C|]. intros l l' [H _]. exact H.
Qed.

(** *** Laying out a snapshot and reading it back *)

Lemma loadCell_spec (h : Heap) (c : option Piece) :
  exists c' e, loadCell c h = Some (c', h ++ e) /\ snapCell (h ++ e) c' = Some c.
Proof.
  destruct c as [p|]; simpl.
  - exists (Some (length h)), [OPiece p]. split; [reflexivity|].
    simpl. unfold snapPiece. rewrite lookup_app_r by lia.
    rewrite Nat.sub_diag. reflexivity.
  - exists None, []. rewrite app_nil_r. split; reflexivity.
Qed.

Lemma forM_load {A B C} (f : A -> M B) (g : Heap -> B -> option C) (k : A -> C) :
  (forall h e y v, g h y = Some v -> g (h ++ e) y = Some v) ->
  (forall h x, exists y e, f x h = Some (y, h ++ e) /\ g (h ++ e) y = Some (k x)) ->
  forall l h, exists ys e, forM f l h = Some (ys, h ++ e) /\
                           mapM (g (h ++ e)) ys = Some (map k l).
Proof.
  intros Hg Hf l h.
  destruct (forM_spec f (fun _ => True) (fun _ _ => True)
              (fun h x y => g h y = Some (k x))
              ltac:(auto) ltac:(intros; apply Hg; assumption)
              ltac:(intros h0 x _ _; destruct (Hf h0 x) as (y & e & ? & ?);
                    exists y, e; auto)
              l h I ltac:(apply Forall_forall; auto))
    as (ys & e & R & _ & F).
  exists ys, e. split; [exact R|]. apply mapM_Some.
  clear R. induction F; simpl; constructor; auto.
Qed.

Lemma loadRow_spec (h : Heap) (cells : list (option Piece)) :
  exists rl e, loadRow cells h = Some (rl, h ++ e) /\
               snapCells (h ++ e) rl = Some cells.
Proof.
  destruct (forM_load loadCell snapCell id
              ltac:(intros; eapply snapCell_extends; [apply extends_app | eassumption])
              loadCell_spec cells h) as (cs & e & R & S).
  rewrite map_id in S.
  exists (length (h ++ e)), (e ++ [OCells cs]). rewrite app_assoc. split.
  - unfold loadRow. erewrite bind_run by exact R. reflexivity.
  - unfold snapCells. rewrite lookup_app_r by lia. rewrite Nat.sub_diag. simpl.
    apply (mapM_mono (snapCell (h ++ e))); [|exact S].
    intros x y. apply snapCell_extends, extends_app.
Qed.

Lemma loadPiece_spec (h : Heap) (p : Piece) :
  exists l e, alloc (OPiece p) h = Some (l, h ++ e) /\ snapPiece (h ++ e) l = Some p.
Proof.
  exists (length h), [OPiece p]. split; [reflexivity|].
  unfold snapPiece. rewrite lookup_app_r by lia. rewrite Nat.sub_diag. reflexivity.
Qed.

Lemma loadMove_spec (h : Heap) (m : Move) :
  exists mv e, loadMove m h = Some (mv, h ++ e) /\ snapMove (h ++ e) mv = Some m.
Proof.
  destruct (loadPiece_spec h (piece m)) as (l & e1 & R1 & S1).
  destruct (loadCell_spec (h ++ e1) (capturedPiece m)) as (cp & e2 & R2 & S2).
  exists (mkMoveRef (from m) (to m) l cp (isEnPassant m) (isCastling m)
                    (promotionType m)), (e1 ++ e2).
  rewrite app_assoc. split.
  - unfold loadMove. erewrite bind_run by exact R1.
    erewrite bind_run by exact R2. reflexivity.
  - unfold snapMove. simpl.
    rewrite (snapPiece_extends _ _ _ _ (extends_app (h ++ e1) e2) S1), S2.
    destruct m; reflexivity.
Qed.

Lemma loadLastMove_spec (h : Heap) (m : option Move) :
  exists mv e, loadLastMove m h = Some (mv, h ++ e) /\
               snapLastMove (h ++ e) mv = Some m.
Proof.
  destruct m as [m|]; simpl.
  - destruct (loadMove_spec h m) as (mv & e & R & S).
    exists (Some mv), e. split.
    + erewrite bind_run by exact R. reflexivity.
    + simpl. rewrite S. reflexivity.
  - exists None, []. rewrite app_nil_r. split; reflexivity.
Qed.

Lemma loadState_spec (h : Heap) (s : GameState) :
  exists st e, loadState s h = Some (st, h ++ e) /\ snapState (h ++ e) st = Some s.
Proof.
  destruct (forM_load loadRow snapCells id
              ltac:(intros; eapply snapCells_extends; [apply extends_app | eassumption])
              loadRow_spec (board s) h) as (rows & e1 & R1 & S1).
  rewrite map_id in S1.
  destruct (forM_load loadMove snapMove id
              ltac:(intros; eapply snapMove_extends; [apply extends_app | eassumption])
              loadMove_spec (moveHistory s) (h ++ e1)) as (hist & e2 & R2 & S2).
  rewrite map_id in S2.
  destruct (forM_load (fun p => alloc (OPiece p)) snapPiece id
              ltac:(intros; eapply snapPiece_extends; [apply extends_app | eassumption])
              loadPiece_spec (capturedPieces s) ((h ++ e1) ++ e2))
    as (caps & e3 & R3 & S3).
  rewrite map_id in S3.
  set (h3 := ((h ++ e1) ++ e2) ++ e3) in *.
  set (h4 := h3 ++ [OPieces caps]).
  destruct (loadLastMove_spec h4 (lastMove s)) as (lm & e5 & R5 & S5).
  set (h5 := h4 ++ e5) in *.
  set (o := mkStateObj rows (currentTurn s) hist (length h3) (isCheck s)
              (isCheckmate_flag s) (isStalemate_flag s) (moveCount s) lm).
  exists (length h5), (e1 ++ e2 ++ e3 ++ [OPieces caps] ++ e5 ++ [OState o]).
  assert (Eh : h ++ e1 ++ e2 ++ e3 ++ [OPieces caps] ++ e5 ++ [OState o]
               = h5 ++ [OState o]).
  { unfold h5, h4, h3. rewrite <- !app_assoc. reflexivity. }
  rewrite Eh. split.
  - unfold loadState. erewrite bind_run by exact R1.
    erewrite bind_run by exact R2. erewrite bind_run by exact R3.
    erewrite bind_run by reflexivity. fold h3. fold h4.
    erewrite bind_run by exact R5. reflexivity.
  - unfold snapState. rewrite lookup_app_r by lia. rewrite Nat.sub_diag. simpl.
    assert (X1 : extends (h ++ e1) (h5 ++ [OState o])).
    { unfold h5, h4, h3. rewrite <- !app_assoc. rewrite app_assoc. apply extends_app. }
    assert (X2 : extends ((h ++ e1) ++ e2) (h5 ++ [OState o])).
    { unfold h5, h4, h3. rewrite <- !(app_assoc ((h ++ e1) ++ e2)). apply extends_app. }
    assert (X3 : extends h3 (h5 ++ [OState o])).
    { unfold h5, h4. rewrite <- !(app_assoc h3). apply extends_app. }
    assert (X4 : extends h4 (h5 ++ [OState o])).
    { unfold h5. rewrite <- !(app_assoc h4). apply extends_app. }
    assert (X5 : extends h5 (h5 ++ [OState o])) by apply extends_app.
    unfold snapStateObj. simpl.
    rewrite (snapBoard_extends _ _ _ _ X1 S1).
    rewrite (mapM_mono _ (snapMove (h5 ++ [OState o])) _ _
               (fun x y => snapMove_extends _ _ x y X2) S2).
    assert (Sc : snapPieces (h5 ++ [OState o]) (length h3) = Some (capturedPieces s)).
    { apply (snapPieces_extends h4 _ _ _ X4). unfold snapPieces, h4.
      rewrite lookup_app_r by lia. rewrite Nat.sub_diag. simpl.
      apply (mapM_mono (snapPiece h3)); [|exact S3].
      intros x y. apply snapPiece_extends, extends_app. }
    rewrite Sc. rewrite (snapLastMove_extends _ _ _ _ X5 S5).
    destruct s; reflexivity.
Qed.

(** *** The steps of [executeMove] *)

Lemma skip_spec (n : nat) (h : Heap) :
  goodStore n h ->
  exists h', (mret tt : M unit) h = Some (tt, h') /\ evolves n h h' /\ goodStore n h'.
Proof.
  intros G. exists h. split; [reflexivity|].
  split; [apply evolves_refl; apply G | exact G].
Qed.

Lemma capture_spec (n : nat) (h : Heap) (rows : list loc) (move : MoveRef)
    (targetPiece : option loc) :
  goodStore n h -> Forall (rowLoc n h) rows ->
  is_Some (cellLoc h rows (row (mfrom move)) (col (mfrom move))) ->
  freshCell n h targetPiece ->
  exists cap h',
    (if misEnPassant move then
       let capturedPawnRow := row (mfrom move) in
       let capturedPawnCol := col (mto move) in
       cp ← boardGet rows capturedPawnRow capturedPawnCol;
       match cp with
       | Some _ =>
           _ ← boardSet rows capturedPawnRow capturedPawnCol None; mret cp
       | None => mret cp
       end
     else mret targetPiece) h = Some (cap, h') /\
    evolves n h h' /\ goodStore n h' /\ freshCell n h' cap.
Proof.
  intros G R Hfrom Ht. destruct (misEnPassant move).
  - cbv zeta. erewrite bind_run by (apply (boardGet_spec n); exact R).
    pose proof (cellLoc_fresh n h rows (row (mfrom move)) (col (mto move)) G R) as Hc.
    destruct (cellLoc h rows (row (mfrom move)) (col (mto move))) as [l|] eqn:E.
    + assert (Hrow : is_Some (jsIndex rows (row (mfrom move)))).
      { unfold cellLoc in Hfrom. destruct (jsIndex rows (row (mfrom move))); [eauto|].
        destruct Hfrom; discriminate. }
      destruct (boardSet_spec n h rows (row (mfrom move)) (col (mto move)) None
                  G R Hrow I) as (h' & Rs & Ev & G').
      exists (Some l), h'. erewrite bind_run by exact Rs.
      split; [reflexivity|]. split; [exact Ev|]. split; [exact G'|].
      eapply freshCell_evolves; eassumption.
    + exists None, h. split; [reflexivity|].
      split; [apply evolves_refl; apply G|]. split; [exact G | exact I].
  - exists targetPiece, h. split; [reflexivity|].
    split; [apply evolves_refl; apply G|]. split; [exact G | exact Ht].
Qed.

Lemma moveRook_spec (n : nat) (h : Heap) (rows : list loc) (backRank a b : Z) :
  goodStore n h -> Forall (rowLoc n h) rows -> is_Some (jsIndex rows backRank) ->
  exists h', moveRook rows backRank a b h = Some (tt, h') /\
             evolves n h h' /\ goodStore n h'.
Proof.
  intros G R Hrow. unfold moveRook.
  erewrite bind_run by (apply (boardGetStrict_spec n); assumption).
  pose proof (cellLoc_fresh n h rows backRank a G R) as Hc.
  destruct (cellLoc h rows backRank a) as [rk|]; [|apply skip_spec; exact G].
  destruct (boardSet_spec n h rows backRank b (Some rk) G R Hrow Hc)
    as (h1 & R1 & E1 & G1).
  apply (rowLocs_evolves _ _ _ _ E1) in R. apply (freshCell_evolves _ _ _ _ E1) in Hc.
  destruct (boardSet_spec n h1 rows backRank a None G1 R Hrow I)
    as (h2 & R2 & E2 & G2).
  apply (freshCell_evolves _ _ _ _ E2) in Hc. destruct Hc as [Hl Hp].
  destruct (setPosition_spec n h2 rk (mkPosition backRank b) G2 Hl Hp)
    as (h3 & R3 & E3 & G3).
  apply (pieceLoc_evolves _ _ _ _ E3) in Hp.
  destruct (setHasMoved_spec n h3 rk true G3 Hl Hp) as (h4 & R4 & E4 & G4).
  exists h4. erewrite bind_run by exact R1. erewrite bind_run by exact R2.
  erewrite bind_run by exact R3. split; [exact R4|]. split; [|exact G4].
  eapply evolves_trans; [|exact E4]. eapply evolves_trans; [|exact E3].
  eapply evolves_trans; eassumption.
Qed.

Lemma castling_spec (n : nat) (h : Heap) (rows : list loc) (move : MoveRef) (pc : loc) :
  goodStore n h -> Forall (rowLoc n h) rows -> length rows = 8%nat ->
  pieceLoc h pc ->
  exists h',
    (if misCastling move then
       p ← getPiece pc;
       let backRank := backRankOf (color p) in
       let isKingside := col (mto move) =? 6 in
       if isKingside then moveRook rows backRank 7 5
       else moveRook rows backRank 0 3
     else mret tt) h = Some (tt, h') /\
    evolves n h h' /\ goodStore n h'.
Proof.
  intros G R L [p Hp]. destruct (misCastling move); [|apply skip_spec; exact G].
  erewrite bind_run; [|unfold getPiece; rewrite Hp; reflexivity].
  cbv zeta.
  assert (Hrow : is_Some (jsIndex rows (backRankOf (color p)))).
  { unfold jsIndex. destruct (color p); simpl; apply lookup_lt_is_Some; lia. }
  destruct (col (mto move) =? 6); apply moveRook_spec; assumption.
Qed.

Lemma promotion_spec (n : nat) (h : Heap) (move : MoveRef) (pc : loc) :
  goodStore n h -> (n <= pc)%nat -> pieceLoc h pc ->
  exists h',
    (match mpromotionType move with
     | Some t => setType pc (promotedType t)
     | None => mret tt
     end) h = Some (tt, h') /\
    evolves n h h' /\ goodStore n h'.
Proof.
  intros G Hl Hp. destruct (mpromotionType move).
  - apply setType_spec; assumption.
  - apply skip_spec; exact G.
Qed.

Lemma snapPieces_inv (h : Heap) (l : loc) (v : list Piece) :
  snapPieces h l = Some v ->
  exists ps, h !! l = Some (OPieces ps) /\ Forall (pieceLoc h) ps.
Proof.
  unfold snapPieces. destruct (h !! l) as [[ | | ps | ]|] eqn:E; try discriminate.
  intros H. exists ps. split; [reflexivity|].
  assert (F : Forall (is_Some ∘ snapPiece h) ps).
  { apply mapM_is_Some_1. rewrite H. eauto. }
  eapply Forall_impl; [exact F|]. intros x [p Hx]. unfold snapPiece in Hx.
  destruct (h !! x) as [[q| | |]|] eqn:Ex; try discriminate. exists q; exact Ex.
Qed.

Lemma pieceLoc_snapPiece (h : Heap) (l : loc) : pieceLoc h l -> is_Some (snapPiece h l).
Proof. intros [p H]. unfold snapPiece. rewrite H. eauto. Qed.

Lemma freshCell_snapCell (n : nat) (h : Heap) (c : option loc) :
  freshCell n h c -> is_Some (snapCell h c).
Proof.
  destruct c as [l|]; simpl; [|eauto]. intros [_ Hp].
  destruct (pieceLoc_snapPiece h l Hp) as [p ->]. eauto.
Qed.

(** The snapshot of a state object whose parts have snapshots. *)
Lemma snapStateObj_new (n : nat) (h : Heap) (o : StateObj) :
  goodStore n h -> Forall (rowLoc n h) (sboard o) ->
  Forall (fun m => is_Some (snapMove h m)) (smoveHistory o) ->
  (exists ps, h !! scapturedPieces o = Some (OPieces ps) /\ Forall (pieceLoc h) ps) ->
  is_Some (snapLastMove h (slastMove o)) ->
  exists s, snapStateObj h o = Some s /\ currentTurn s = scurrentTurn o /\
            moveCount s = smoveCount o.
Proof.
  intros G R Hh (ps & Hc & Hps) [lm Hl]. unfold snapStateObj.
  destruct (snapBoard_fresh n h (sboard o) G R) as [b ->].
  destruct (mapM_is_Some_2 (snapMove h) (smoveHistory o) Hh) as [hist ->].
  assert (Sc : is_Some (snapPieces h (scapturedPieces o))).
  { unfold snapPieces. rewrite Hc. apply mapM_is_Some_2.
    eapply Forall_impl; [exact Hps|]. intros x. apply pieceLoc_snapPiece. }
  destruct Sc as [caps ->]. rewrite Hl.
  eexists. split; [reflexivity|]. split; reflexivity.
Qed.

Lemma oppositeColor_neq (c : PieceColor) : oppositeColor c <> c.
Proof. destruct c; discriminate. Qed.

Lemma pushCaptured_spec (n : nat) (h : Heap) (l : loc) (ps : list loc)
    (cap : option loc) :
  goodStore n h -> (n <= l)%nat -> h !! l = Some (OPieces ps) ->
  Forall (pieceLoc h) ps -> freshCell n h cap ->
  exists h' ps',
    (match cap with
     | Some c => setPieces l (ps ++ [c])
     | None => mret tt
     end) h = Some (tt, h') /\
    evolves n h h' /\ goodStore n h' /\
    h' !! l = Some (OPieces ps') /\ Forall (pieceLoc h') ps'.
Proof.
  intros G Hl Hps F Hc. destruct cap as [c|].
  - exists (<[l := OPieces (ps ++ [c])]> h), (ps ++ [c]).
    assert (Ev : evolves n h (<[l := OPieces (ps ++ [c])]> h)).
    { eapply evolves_insert; try eassumption; [apply G | reflexivity]. }
    unfold setPieces. rewrite Hps. split; [reflexivity|]. split; [exact Ev|].
    split; [eapply goodStore_insert; try eassumption; [reflexivity | discriminate]|].
    split; [apply list_lookup_insert_eq; eapply lookup_lt_Some; eassumption|].
    apply Forall_app. split.
    + eapply Forall_impl; [exact F|]. intros x. apply (pieceLoc_evolves _ _ _ _ Ev).
    + constructor; [|constructor]. destruct Hc as [_ Hc].
      apply (pieceLoc_evolves _ _ _ _ Ev). exact Hc.
  - exists h, ps. split; [reflexivity|].
    split; [apply evolves_refl; apply G|]. auto.
Qed.

Lemma setState_snapshot (h : Heap) (l : loc) (o o' : StateObj) :
  h !! l = Some (OState o) ->
  setState l o' h = Some (tt, <[l := OState o']> h) /\
  <[l := OState o']> h !! l = Some (OState o') /\
  forall x, snapStateObj (<[l := OState o']> h) x = snapStateObj h x.
Proof.
  intros H. split; [unfold setState; rewrite H; reflexivity|].
  split; [apply list_lookup_insert_eq; eapply lookup_lt_Some; eassumption|].
  intros x. apply snapStateObj_sameButStates. eapply sameButStates_insert. exact H.
Qed.

Lemma snapshot_run (h : Heap) (l : loc) (o : StateObj) (s : GameState) :
  h !! l = Some (OState o) -> snapStateObj h o = Some s ->
  snapshot l h = Some (s, h).
Proof. intros H E. unfold snapshot, snapState. rewrite H, E. reflexivity. Qed.

(** The tail of [executeMove]: the three status flags are computed from
    the new state and stored in it one after the other. *)
Lemma statusFlags_spec (n : nat) (h : Heap) (newState : loc)
    (newBoard : list loc) (newTurn : PieceColor) (newMoveHistory : list MoveRef)
    (newCapturedPieces : loc) (count : Z) (executedMove : MoveRef) :
  let o0 := mkStateObj newBoard newTurn newMoveHistory newCapturedPieces
              false false false count (Some executedMove) in
  goodStore n h -> (n <= newState)%nat -> h !! newState = Some (OState o0) ->
  Forall (rowLoc n h) newBoard ->
  Forall (fun m => is_Some (snapMove h m)) newMoveHistory ->
  (exists ps, h !! newCapturedPieces = Some (OPieces ps) /\ Forall (pieceLoc h) ps) ->
  is_Some (snapMove h executedMove) ->
  exists h' s',
    (s1 ← snapshot newState;
     let o1 := mkStateObj newBoard newTurn newMoveHistory newCapturedPieces
                 (isInCheck newTurn s1) false false count (Some executedMove) in
     _ ← setState newState o1;
     s2 ← snapshot newState;
     let o2 := mkStateObj newBoard newTurn newMoveHistory newCapturedPieces
                 (isInCheck newTurn s1) (isCheckmate newTurn s2) false
                 count (Some executedMove) in
     _ ← setState newState o2;
     s3 ← snapshot newState;
     let o3 := mkStateObj newBoard newTurn newMoveHistory newCapturedPieces
                 (isInCheck newTurn s1) (isCheckmate newTurn s2) (isStalemate s3)
                 count (Some executedMove) in
     _ ← setState newState o3;
     mret newState) h = Some (newState, h') /\
    evolves n h h' /\ snapState h' newState = Some s' /\
    currentTurn s' = newTurn /\ moveCount s' = count.
Proof.
  intros o0 G Hl H0 R Hh Hc [em Hm].
  assert (Any : forall f1 f2 f3,
            exists s, snapStateObj h (mkStateObj newBoard newTurn newMoveHistory
                                        newCapturedPieces f1 f2 f3 count
                                        (Some executedMove)) = Some s /\
                      currentTurn s = newTurn /\ moveCount s = count).
  { intros f1 f2 f3. apply (snapStateObj_new n); simpl; auto. rewrite Hm. eauto. }
  destruct (Any false false false) as (s1 & S1 & _).
  erewrite bind_run by (eapply snapshot_run; [exact H0 | exact S1]).
  cbv zeta.
  set (o1 := mkStateObj newBoard newTurn newMoveHistory newCapturedPieces
               (isInCheck newTurn s1) false false count (Some executedMove)).
  destruct (setState_snapshot h newState o0 o1 H0) as (W1 & L1 & X1).
  erewrite bind_run by exact W1.
  set (h1 := <[newState := OState o1]> h) in *.
  destruct (Any (isInCheck newTurn s1) false false) as (s2 & S2 & _).
  erewrite bind_run by (eapply snapshot_run; [exact L1 | rewrite X1; exact S2]).
  set (o2 := mkStateObj newBoard newTurn newMoveHistory newCapturedPieces
               (isInCheck newTurn s1) (isCheckmate newTurn s2) false count
               (Some executedMove)).
  destruct (setState_snapshot h1 newState o1 o2 L1) as (W2 & L2 & X2).
  erewrite bind_run by exact W2.
  set (h2 := <[newState := OState o2]> h1) in *.
  destruct (Any (isInCheck newTurn s1) (isCheckmate newTurn s2) false)
    as (s3 & S3 & _).
  erewrite bind_run
    by (eapply snapshot_run; [exact L2 | rewrite X2, X1; exact S3]).
  set (o3 := mkStateObj newBoard newTurn newMoveHistory newCapturedPieces
               (isInCheck newTurn s1) (isCheckmate newTurn s2) (isStalemate s3)
               count (Some executedMove)).
  destruct (setState_snapshot h2 newState o2 o3 L2) as (W3 & L3 & X3).
  erewrite bind_run by exact W3.
  set (h3 := <[newState := OState o3]> h2) in *.
  destruct (Any (isInCheck newTurn s1) (isCheckmate newTurn s2) (isStalemate s3))
    as (s4 & S4 & T4 & C4).
  exists h3, s4. split; [reflexivity|]. split.
  - assert (E1 : evolves n h h1).
    { eapply evolves_insert; try eassumption; [apply G | reflexivity]. }
    assert (E2 : evolves n h1 h2).
    { eapply evolves_insert; try eassumption; [|reflexivity].
      unfold h1. rewrite length_insert. apply G. }
    assert (E3 : evolves n h2 h3).
    { eapply evolves_insert; try eassumption; [|reflexivity].
      unfold h2, h1. rewrite !length_insert. apply G. }
    eapply evolves_trans; [|exact E3]. eapply evolves_trans; eassumption.
  - split; [|auto]. unfold snapState. rewrite L3, X3, X2, X1. exact S4.
Qed.

(** Facts about the objects in play are carried along each step. *)
Ltac advance Ev :=
  match type of Ev with
  | evolves ?n ?h ?h' =>
    repeat match goal with
    | H : Forall (rowLoc n h) _ |- _ => apply (rowLocs_evolves n h h' _ Ev) in H
    | H : pieceLoc h _ |- _ => apply (pieceLoc_evolves n h h' _ Ev) in H
    | H : freshCell n h _ |- _ => apply (freshCell_evolves n h h' _ Ev) in H
    | H : evolves n ?h0 h |- _ =>
        lazymatch H with Ev => fail | _ => idtac end;
        apply (fun X => evolves_trans n h0 h h' X Ev) in H
    end
  end.

Lemma snapMove_inv (h : Heap) (move : MoveRef) (m : Move) :
  snapMove h move = Some m ->
  mfrom move = from m /\ mto move = to m /\ pieceLoc h (mpiece move).
Proof.
  unfold snapMove. destruct (snapPiece h (mpiece move)) as [p|] eqn:Ep; [|discriminate].
  destruct (snapCell h (mcapturedPiece move)); [|discriminate].
  intros [= <-]. simpl. repeat split.
  unfold snapPiece in Ep. destruct (h !! mpiece move) as [[q| | |]|] eqn:E;
    try discriminate. exists q; exact E.
Qed.

(** [executeMove] returns whenever the source square holds a piece and the
    destination row exists; the new state has the turn flipped and the move
    count advanced, and every object of the old store is still there,
    unchanged. *)
Lemma executeMoveH_spec (h : Heap) (st : loc) (move : MoveRef) (s : GameState)
    (m : Move) (p : Piece) :
  snapState h st = Some s -> snapMove h move = Some m ->
  length (board s) = 8%nat ->
  cell (board s) (row (from m)) (col (from m)) = Some p ->
  0 <= row (to m) <= 7 ->
  exists st' h' s',
    executeMoveH move st h = Some (st', h') /\
    snapState h' st' = Some s' /\
    currentTurn s' = oppositeColor (currentTurn s) /\
    moveCount s' = moveCount s + 1 /\
    extends h h'.
Proof.
  intros Hs Hm L Hfrom Hto.
  destruct (snapMove_inv h move m Hm) as (Ef & Et & Hmp).
  rewrite <- Ef in Hfrom. rewrite <- Et in Hto. clear Ef Et.
  set (n := length h).
  assert (G : goodStore n h).
  { split; [unfold n; lia|]. intros l cs Hl Hc. apply lookup_lt_Some in Hc.
    unfold n in Hl. lia. }
  unfold snapState in Hs.
  destruct (h !! st) as [[| | |o]|] eqn:Hst; try discriminate.
  unfold snapStateObj in Hs.
  destruct (snapBoard h (sboard o)) as [b|] eqn:Eb; [|discriminate].
  destruct (mapM (snapMove h) (smoveHistory o)) as [hist|] eqn:Eh; [|discriminate].
  destruct (snapPieces h (scapturedPieces o)) as [caps|] eqn:Ecaps; [|discriminate].
  destruct (snapLastMove h (slastMove o)) as [lm|]; [|discriminate].
  injection Hs as <-. simpl in *.
  assert (Ev0 : evolves n h h) by (apply evolves_refl; unfold n; lia).
  unfold executeMoveH.
  erewrite bind_run by (unfold getState; rewrite Hst; reflexivity).
  (* the deep copy *)
  destruct (copyBoard_spec n h (sboard o) b G Eb) as (rows & e1 & Rc & G1 & R & Sb).
  erewrite bind_run by exact Rc.
  assert (Ev : evolves n h (h ++ e1)) by (apply evolves_app; unfold n; lia).
  advance Ev. clear G Ev. revert Rc G1 R Sb Ev0 Hmp. generalize (h ++ e1). intros h1.
  intros _ G R Sb Ev0 Hmp.
  assert (Lr : length rows = 8%nat).
  { rewrite (snapBoard_length _ _ _ Sb). exact L. }
  (* the moving piece and the target *)
  erewrite bind_run by (apply (boardGet_spec n); exact R).
  destruct (snapBoard_cell h1 rows b (row (mfrom move)) (col (mfrom move)) Sb)
    as [Ec _].
  rewrite Hfrom in Ec.
  pose proof (cellLoc_fresh n h1 rows (row (mfrom move)) (col (mfrom move)) G R) as Fpc.
  destruct (cellLoc h1 rows (row (mfrom move)) (col (mfrom move))) as [pc|] eqn:Epc;
    [|discriminate].
  assert (Hrowfrom : is_Some (jsIndex rows (row (mfrom move)))).
  { unfold cellLoc in Epc. destruct (jsIndex rows (row (mfrom move))); [eauto|discriminate]. }
  assert (Hrowto : is_Some (jsIndex rows (row (mto move)))).
  { unfold jsIndex. destruct (row (mto move) <? 0) eqn:X.
    - apply Z.ltb_lt in X. lia.
    - apply lookup_lt_is_Some. lia. }
  erewrite bind_run by (apply (boardGet_spec n); exact R).
  pose proof (cellLoc_fresh n h1 rows (row (mto move)) (col (mto move)) G R) as Ft.
  (* the capture *)
  destruct (capture_spec n h1 rows move _ G R ltac:(rewrite Epc; eauto) Ft)
    as (cap & h2 & R2 & E2 & G2 & Fcap).
  erewrite bind_run by exact R2.
  clear Ec Epc Sb Ft R2. advance E2. clear G E2.
  (* the relocation *)
  destruct (boardSet_spec n h2 rows (row (mto move)) (col (mto move)) (Some pc)
              G2 R Hrowto Fpc) as (h3 & R3 & E3 & G3).
  erewrite bind_run by exact R3. clear R3. advance E3. clear G2 E3.
  destruct (boardSet_spec n h3 rows (row (mfrom move)) (col (mfrom move)) None
              G3 R Hrowfrom I) as (h4 & R4 & E4 & G4).
  erewrite bind_run by exact R4. clear R4. advance E4. clear G3 E4.
  destruct Fpc as [Hpcl Hpc].
  destruct (setPosition_spec n h4 pc (mto move) G4 Hpcl Hpc) as (h5 & R5 & E5 & G5).
  erewrite bind_run by exact R5. clear R5. advance E5. clear G4 E5.
  destruct (setHasMoved_spec n h5 pc true G5 Hpcl Hpc) as (h6 & R6 & E6 & G6).
  erewrite bind_run by exact R6. clear R6. advance E6. clear G5 E6.
  (* castling and promotion *)
  destruct (castling_spec n h6 rows move pc G6 R Lr Hpc) as (h7 & R7 & E7 & G7).
  erewrite bind_run by exact R7. clear R7. advance E7. clear G6 E7.
  destruct (promotion_spec n h7 move pc G7 Hpcl Hpc) as (h8 & R8 & E8 & G8).
  erewrite bind_run by exact R8. clear R8. advance E8. clear G7 E8.
  (* the captured pieces *)
  destruct (snapPieces_inv h _ _ Ecaps) as (ps & Hps & Fps).
  assert (X8 : extends h h8) by (apply evolves_extends; exact Ev0).
  assert (Fps8 : Forall (pieceLoc h8) ps).
  { eapply Forall_impl; [exact Fps|]. intros x. apply (pieceLoc_evolves _ _ _ _ Ev0). }
  erewrite bind_run by (unfold getPieces; rewrite (X8 _ _ Hps); reflexivity).
  destruct (alloc_spec n h8 (OPieces ps) G8 ltac:(discriminate))
    as (R9 & E9 & G9 & L9 & N9).
  erewrite bind_run by exact R9. clear R9.
  assert (Fps9 : Forall (pieceLoc (h8 ++ [OPieces ps])) ps).
  { eapply Forall_impl; [exact Fps8|]. intros x. apply (pieceLoc_evolves _ _ _ _ E9). }
  advance E9. clear G8 X8 Fps8 E9.
  set (newCaps := length h8) in *. revert G9 L9 Fps9 R Hpc Fcap Ev0 Hmp.
  generalize (h8 ++ [OPieces ps]). intros h9 G9 L9 Fps9 R Hpc Fcap Ev0 Hmp.
  destruct (pushCaptured_spec n h9 newCaps ps cap G9 N9 L9 Fps9 Fcap)
    as (h10 & ps' & R10 & E10 & G10 & L10 & F10).
  erewrite bind_run by exact R10. clear R10. advance E10. clear G9 L9 Fps9 E10.
  (* the new state *)
  cbv zeta.
  set (executedMove := mkMoveRef (mfrom move) (mto move) (mpiece move) cap
                         (misEnPassant move) (misCastling move)
                         (mpromotionType move)).
  set (o0 := mkStateObj rows (oppositeColor (scurrentTurn o))
               (smoveHistory o ++ [executedMove]) newCaps false false false
               (smoveCount o + 1) (Some executedMove)).
  destruct (alloc_spec n h10 (OState o0) G10 ltac:(discriminate))
    as (R11 & E11 & G11 & L11 & N11).
  erewrite bind_run by exact R11. clear R11.
  assert (L10' : (h10 ++ [OState o0]) !! newCaps = Some (OPieces ps')).
  { apply lookup_app_l_Some. exact L10. }
  assert (F11 : Forall (pieceLoc (h10 ++ [OState o0])) ps').
  { eapply Forall_impl; [exact F10|]. intros x. apply (pieceLoc_evolves _ _ _ _ E11). }
  advance E11. clear G10 L10 F10 E11.
  set (newState := length h10) in *.
  revert G11 L11 L10' F11 R Hpc Fcap Ev0 Hmp.
  generalize (h10 ++ [OState o0]). intros h11 G11 L11 L10 F11 R Hpc Fcap Ev0 Hmp.
  assert (X11 : extends h h11) by (apply evolves_extends; exact Ev0).
  assert (Hem : is_Some (snapMove h11 executedMove)).
  { unfold snapMove, executedMove. simpl.
    destruct (pieceLoc_snapPiece _ _ Hmp) as [mp ->].
    destruct (freshCell_snapCell _ _ _ Fcap) as [cp ->]. eauto. }
  assert (Hh : Forall (fun x => is_Some (snapMove h11 x))
                      (smoveHistory o ++ [executedMove])).
  { apply Forall_app. split; [|constructor; [exact Hem | constructor]].
    assert (F : Forall (is_Some ∘ snapMove h) (smoveHistory o)).
    { apply mapM_is_Some_1. rewrite Eh. eauto. }
    eapply Forall_impl; [exact F|]. intros x [v Hv]. exists v.
    eapply snapMove_extends; eassumption. }
  destruct (statusFlags_spec n h11 newState rows (oppositeColor (scurrentTurn o))
              (smoveHistory o ++ [executedMove]) newCaps (smoveCount o + 1)
              executedMove G11 N11 L11 R Hh
              (ex_intro _ ps' (conj L10 F11)) Hem)
    as (h12 & s' & R12 & E12 & S12 & T12 & C12).
  exists newState, h12, s'. split; [exact R12|]. split; [exact S12|].
  split; [exact T12|]. split; [exact C12|].
  apply evolves_extends. eapply evolves_trans; eassumption.
Qed.

(** ** Executing a move *)

Lemma getValidMoves_row (pos : Position) (s : GameState) (t : Position) :
  In t (getValidMoves pos s) -> 0 <= row t <= 7.
Proof.
  unfold getValidMoves.
  destruct (cell (board s) (row pos) (col pos)) as [p|]; [|intros []].
  destruct (negb _); [intros []|].
  rewrite filter_In. intros [H _]. eapply getPseudoLegalMoves_row; eassumption.
Qed.

Lemma getValidMoves_source (pos : Position) (s : GameState) (t : Position) :
  In t (getValidMoves pos s) ->
  exists p, cell (board s) (row pos) (col pos) = Some p.
Proof.
  unfold getValidMoves.
  destruct (cell (board s) (row pos) (col pos)) as [p|]; [eauto | intros []].
Qed.

Lemma isValidMove_inv (m : Move) (s : GameState) :
  isValidMove m s = true -> In (to m) (getValidMoves (from m) s).
Proof.
  unfold isValidMove.
  destruct (cell (board s) (row (from m)) (col (from m))); [|discriminate].
  destruct (negb _); [discriminate|].
  destruct (_ || _); [discriminate|].
  destruct (existsb _ _) eqn:E; [|discriminate].
  intros _. apply existsb_positionsEqual. exact E.
Qed.

(** C3: for a store holding a valid state, with a move count from 0 to
    below 2^53 (where adding one is exact), and a legal move, [executeMove]
    returns a state whose turn differs from the input's and whose move count
    is one more; the store it leaves behind is the old store followed by
    newly created objects, so the input state and the move read as before. *)
Theorem executeMove_turn_count_frame (h : Heap) (st : loc) (move : MoveRef)
    (s : GameState) (m : Move) :
  snapState h st = Some s -> snapMove h move = Some m ->
  isValidBoard (board s) = true -> isValidMove m s = true ->
  0 <= moveCount s < 2 ^ 53 ->
  exists st' h' s',
    executeMoveH move st h = Some (st', h') /\
    snapState h' st' = Some s' /\
    currentTurn s' <> currentTurn s /\
    moveCount s' = moveCount s + 1 /\
    (exists created, h' = h ++ created) /\
    snapState h' st = Some s /\
    snapMove h' move = Some m.
Proof.
  intros Hs Hm V Hv _. apply isValidMove_inv in Hv.
  destruct (getValidMoves_source _ _ _ Hv) as [p Hp].
  destruct (executeMoveH_spec h st move s m p Hs Hm (isValidBoard_length _ V) Hp
              (getValidMoves_row _ _ _ Hv))
    as (st' & h' & s' & R & S' & T & C & X).
  exists st', h', s'. split; [exact R|]. split; [exact S'|].
  split; [rewrite T; apply oppositeColor_neq|]. split; [exact C|].
  split; [apply extends_prefix; exact X|].
  split; [eapply snapState_extends | eapply snapMove_extends]; eassumption.
Qed.

Lemma executeMove_turn_count_frame_witness :
  exists st' h' s',
    executeMoveH openingMove openingState openingHeap = Some (st', h') /\
    snapState h' st' = Some s' /\
    currentTurn s' <> currentTurn initializeGame /\
    moveCount s' = moveCount initializeGame + 1 /\
    (exists created, h' = openingHeap ++ created) /\
    snapState h' openingState = Some initializeGame /\
    snapMove h' openingMove = Some kingPawnTwo.
Proof.
  apply (executeMove_turn_count_frame openingHeap openingState openingMove
           initializeGame kingPawnTwo);
    first [vm_compute; reflexivity | simpl; lia].
Defined.

(** The method as a function of snapshots. *)
Lemma executeMove_total (m : Move) (s : GameState) (p : Piece) :
  length (board s) = 8%nat ->
  cell (board s) (row (from m)) (col (from m)) = Some p ->
  0 <= row (to m) <= 7 ->
  exists s', executeMove m s = Some s' /\
             currentTurn s' = oppositeColor (currentTurn s) /\
             moveCount s' = moveCount s + 1.
Proof.
  intros L Hp Ht.
  destruct (loadState_spec [] s) as (st & e1 & R1 & S1).
  destruct (loadMove_spec ([] ++ e1) m) as (mv & e2 & R2 & S2).
  assert (S1' : snapState (([] ++ e1) ++ e2) st = Some s).
  { eapply snapState_extends; [apply extends_app | exact S1]. }
  destruct (executeMoveH_spec _ st mv s m p S1' S2 L Hp Ht)
    as (st' & h' & s' & R & S' & T & C & _).
  exists s'. split; [|auto]. unfold executeMove.
  erewrite bind_run by exact R1. erewrite bind_run by exact R2.
  erewrite bind_run by exact R. unfold snapshot. rewrite S'. reflexivity.
Qed.

Lemma executeMove_legal (c : PieceColor) (m : Move) (s : GameState) :
  isValidBoard (board s) = true -> In m (getAllLegalMoves c s) ->
  is_Some (executeMove m s).
Proof.
  intros V H.
  apply getAllLegalMoves_In in H as (r & k & p & t & _ & _ & E & _ & Ht & ->).
  destruct (executeMove_total (plainMove (mkPosition r k) t p) s p
              (isValidBoard_length _ V) E (getValidMoves_row _ _ _ Ht))
    as (s' & R & _).
  rewrite R. eauto.
Qed.

(** ** The initial position *)

(** C7: white has exactly twenty legal moves in the initial position,
    sixteen by pawns and four by knights, and after each of them black has
    exactly twenty. *)
Theorem initial_position_twenty_moves :
  length (getAllLegalMoves white initializeGame) = 20%nat /\
  length (List.filter (fun m => PieceType_eqb (type (piece m)) pawn)
                      (getAllLegalMoves white initializeGame)) = 16%nat /\
  length (List.filter (fun m => PieceType_eqb (type (piece m)) knight)
                      (getAllLegalMoves white initializeGame)) = 4%nat /\
  forall m, In m (getAllLegalMoves white initializeGame) ->
    exists s', executeMove m initializeGame = Some s' /\
               length (getAllLegalMoves black s') = 20%nat.
Proof.
  split; [vm_compute; reflexivity|].
  split; [vm_compute; reflexivity|].
  split; [vm_compute; reflexivity|].
  assert (H : forallb (fun m =>
                match executeMove m initializeGame with
                | Some s' => (length (getAllLegalMoves black s') =? 20)%nat
                | None => false
                end) (getAllLegalMoves white initializeGame) = true)
    by (vm_compute; reflexivity).
  rewrite forallb_forall in H. intros m Hm. specialize (H m Hm).
  destruct (executeMove m initializeGame) as [s'|]; [|discriminate].
  exists s'. split; [reflexivity | apply Nat.eqb_eq; exact H].
Qed.

Lemma initial_position_twenty_moves_witness :
  exists s', executeMove kingPawnTwo initializeGame = Some s' /\
             length (getAllLegalMoves black s') = 20%nat.
Proof.
  apply (proj2 (proj2 (proj2 initial_position_twenty_moves))).
  vm_compute. do 9 right. left. reflexivity.
Defined.

(** ** Self-check and en passant *)

(** What the filter does establish: on the simulated board, where the
    mover alone has been relocated, the king of the side to move is not
    attacked. *)
Lemma valid_move_safe_in_simulation (pos t : Position) (s : GameState) :
  In t (getValidMoves pos s) ->
  isInCheck (currentTurn s) (applyMoveToState pos t s) = false.
Proof.
  rewrite getValidMoves_filterCandidates, filter_In, negb_true_iff.
  intros [_ H]. unfold wouldLeaveKingInCheck in H. unfold isInCheck.
  destruct (findKing (currentTurn s) (applyMoveToState pos t s)) as [kingPos|];
    [|discriminate].
  exact H.
Qed.

(** C1 fails at the pinned pawn: after black's c7-c5, executed by the
    engine itself, the capture d5xc6 en passant is offered as a legal move
    and accepted by the validator; white is not in check before it, and
    executing it leaves the white king attacked by the rook on a5. *)
Theorem enPassant_capture_exposes_king :
  isValidMove blackDoubleStep beforeDoubleStep = true /\
  executeMove blackDoubleStep beforeDoubleStep = Some pinnedEnPassant /\
  In (to enPassantCapture) (getValidMoves (from enPassantCapture) pinnedEnPassant) /\
  isValidMove enPassantCapture pinnedEnPassant = true /\
  isInCheck white pinnedEnPassant = false /\
  exists s', executeMove enPassantCapture pinnedEnPassant = Some s' /\
             isInCheck white s' = true.
Proof.
  split; [vm_compute; reflexivity|].
  split; [vm_compute; reflexivity|].
  split; [vm_compute; right; left; reflexivity|].
  split; [vm_compute; reflexivity|].
  split; [vm_compute; reflexivity|].
  destruct (executeMove enPassantCapture pinnedEnPassant) as [s'|] eqn:E;
    [|vm_compute in E; discriminate].
  exists s'. split; [reflexivity|].
  assert (H : match executeMove enPassantCapture pinnedEnPassant with
              | Some x => isInCheck white x
              | None => false
              end = true) by (vm_compute; reflexivity).
  rewrite E in H. exact H.
Qed.

(** ** The opponent's choice *)

Lemma filterNot_spec {A} (pred : A -> option bool) (l : list A) :
  (forall x, In x l -> is_Some (pred x)) ->
  exists r, filterNot pred l = Some r /\
            forall x, In x r <-> In x l /\ pred x = Some false.
Proof.
  induction l as [|a l IH]; intros H.
  - exists []. split; [reflexivity|]. simpl. tauto.
  - destruct IH as (r & Hr & Hin); [intros x Hx; apply H; right; exact Hx|].
    destruct (H a (or_introl eq_refl)) as [b Hb].
    simpl. rewrite Hb, Hr. destruct b.
    + exists r. split; [reflexivity|]. intros x. rewrite Hin. simpl.
      split; [tauto|]. intros [[<- | Hx] Hp]; [congruence | auto].
    + exists (a :: r). split; [reflexivity|]. intros x. simpl. rewrite Hin.
      split; [intros [<- | [? ?]]; auto | tauto].
Qed.

Section OpponentProperties.

Variable Score : Type.
Variable searchScore : DifficultyMode -> nat -> GameState -> Score.
Variable scoreGt : Score -> Score -> bool.
Variable randomBelow : nat -> nat.

Lemma scoreMoves_spec (d : DifficultyMode) (s : GameState) (l : list Move) :
  (forall m, In m l -> is_Some (executeMove m s)) ->
  forall i, exists scored, scoreMoves Score searchScore d s i l = Some scored /\
                           map fst scored = l.
Proof.
  induction l as [|m l IH]; intros H i.
  - exists []. split; reflexivity.
  - destruct (H m (or_introl eq_refl)) as [s' Hs'].
    destruct (IH (fun x Hx => H x (or_intror Hx)) (S i)) as (r & Hr & Hm).
    exists ((m, searchScore d i s') :: r). simpl. rewrite Hs', Hr.
    split; [reflexivity | simpl; rewrite Hm; reflexivity].
Qed.

Lemma insertByScore_In (x y : Move * Score) (l : list (Move * Score)) :
  In y (insertByScore Score scoreGt x l) <-> y = x \/ In y l.
Proof.
  induction l as [|a l IH]; simpl.
  - split; [intros [<- | []]; auto | intros [-> | []]; auto].
  - destruct (scoreGt (snd a) (snd x)); simpl; rewrite ?IH; intuition congruence.
Qed.

Lemma sortByScore_In (y : Move * Score) (l : list (Move * Score)) :
  In y (sortByScore Score scoreGt l) <-> In y l.
Proof.
  unfold sortByScore. induction l as [|a l IH]; simpl; [tauto|].
  rewrite insertByScore_In, IH. intuition congruence.
Qed.

Lemma In_fst_scored (scored : list (Move * Score)) (l : list Move) (ms : Move * Score) :
  map fst scored = l -> In ms scored -> In (fst ms) l.
Proof. intros <- H. apply in_map. exact H. Qed.

(** C8: when black has a legal move the opponent returns one of black's
    legal moves; while the exclusion applies (always in easy mode, before
    move 10 in hard mode) the returned move does not give checkmate as
    long as some legal move does not; once it no longer applies the
    returned move is the first of the candidates sorted by score. *)
Theorem generateMove_checkmate_exclusion (s : GameState) (config : AIConfig) :
  isValidBoard (board s) = true ->
  getAllLegalMoves black s <> [] ->
  exists move,
    generateMove Score searchScore scoreGt randomBelow s config = Some move /\
    In move (getAllLegalMoves black s) /\
    (exclusionApplies config s = true ->
     (exists m', In m' (getAllLegalMoves black s) /\
                 wouldResultInCheckmate m' s = Some false) ->
     wouldResultInCheckmate move s = Some false) /\
    (exclusionApplies config s = false ->
     exists scored sc rest,
       scoreMoves Score searchScore (difficulty config) s 0
                  (getAllLegalMoves black s) = Some scored /\
       sortByScore Score scoreGt scored = (move, sc) :: rest).
Proof.
  intros V NE. unfold generateMove.
  assert (Ex : forall m, In m (getAllLegalMoves black s) ->
                         is_Some (executeMove m s)).
  { intros m Hm. eapply executeMove_legal; eassumption. }
  generalize dependent (getAllLegalMoves black s). intros legal NE Ex.
  assert (Hm0 : exists m0, In m0 legal).
  { destruct legal as [|m0 ?]; [congruence|]. exists m0. left; reflexivity. }
  destruct Hm0 as [m0 Hm0].
  assert (Len : (length legal =? 0)%nat = false).
  { destruct legal; [congruence | reflexivity]. }
  rewrite Len.
  destruct (scoreMoves_spec (difficulty config) s legal Ex 0%nat)
    as (scored & Hsc & Hfst).
  rewrite Hsc.
  set (sorted := sortByScore Score scoreGt scored).
  assert (Hsorted : forall ms, In ms sorted -> In (fst ms) legal).
  { intros ms H. unfold sorted in H. apply (proj1 (sortByScore_In _ _)) in H.
    eapply In_fst_scored; eassumption. }
  assert (Hne : sorted <> []).
  { intros E.
    assert (exists sc, In (m0, sc) scored) as [sc Hin].
    { assert (Hm0' : In m0 (map fst scored)) by (rewrite Hfst; exact Hm0).
      apply in_map_iff in Hm0' as ([m sc] & <- & Hin). exists sc. exact Hin. }
    apply (proj2 (sortByScore_In _ _)) in Hin. fold sorted in Hin.
    rewrite E in Hin. destruct Hin. }
  assert (Hpred : forall ms, In ms sorted ->
                    is_Some (wouldResultInCheckmate (fst ms) s)).
  { intros ms H. unfold wouldResultInCheckmate.
    destruct (Ex (fst ms) (Hsorted ms H)) as [s' ->]. eauto. }
  destruct (filterNot_spec (fun ms => wouldResultInCheckmate (fst ms) s) sorted Hpred)
    as (nonCk & Hf & HnonCk).
  (* the two outcomes: filtered candidates, or all candidates *)
  assert (Filtered :
    exists move,
      match (match withoutCheckmates Score s sorted with
             | Some nonCheckmate =>
                 Some (if (0 <? length nonCheckmate)%nat then nonCheckmate
                       else sorted)
             | None => None
             end) with
      | None => None
      | Some [] => legal !! randomBelow (length legal)
      | Some (best :: _) => Some (fst best)
      end = Some move /\
      In move legal /\
      ((exists m', In m' legal /\ wouldResultInCheckmate m' s = Some false) ->
       wouldResultInCheckmate move s = Some false)).
  { unfold withoutCheckmates. rewrite Hf.
    destruct nonCk as [|best rest] eqn:En.
    - simpl. destruct sorted as [|best rest] eqn:Es; [congruence|].
      exists (fst best). split; [reflexivity|].
      split; [apply Hsorted; left; reflexivity|].
      intros (m' & Hm' & Hck). exfalso.
      assert (exists sc, In (m', sc) (best :: rest)) as [sc Hin].
      { assert (Hm1 : In m' (map fst scored)) by (rewrite Hfst; exact Hm').
        apply in_map_iff in Hm1 as ([m sc] & E & Hin). simpl in E. subst m.
        exists sc. rewrite <- Es. apply (proj2 (sortByScore_In _ _)). exact Hin. }
      apply (proj2 (HnonCk (m', sc))). split; [exact Hin | exact Hck].
    - simpl. exists (fst best). split; [reflexivity|].
      destruct (proj1 (HnonCk best) (or_introl eq_refl)) as [Hin Hck].
      split; [apply Hsorted; exact Hin | intros _; exact Hck]. }
  assert (Unfiltered :
    exists move,
      match Some sorted with
      | None => None
      | Some [] => legal !! randomBelow (length legal)
      | Some (best :: _) => Some (fst best)
      end = Some move /\
      In move legal /\
      exists sc rest, sorted = (move, sc) :: rest).
  { destruct sorted as [|[mv sc] rest] eqn:Es; [congruence|].
    exists mv. split; [reflexivity|].
    split; [apply (Hsorted (mv, sc)); left; reflexivity|].
    exists sc, rest. reflexivity. }
  unfold exclusionApplies.
  destruct (difficulty config) eqn:Ed.
  - destruct Filtered as (move & R & Hin & Hck). exists move.
    split; [exact R|]. split; [exact Hin|].
    split; [intros _; exact Hck | discriminate].
  - destruct (moveCount s <? 10).
    + destruct Filtered as (move & R & Hin & Hck). exists move.
      split; [exact R|]. split; [exact Hin|].
      split; [intros _; exact Hck | discriminate].
    + destruct Unfiltered as (move & R & Hin & sc & rest & Hs). exists move.
      split; [exact R|]. split; [exact Hin|].
      split; [discriminate|]. intros _. exists scored, sc, rest.
      split; [reflexivity | exact Hs].
Qed.

End OpponentProperties.

Lemma generateMove_checkmate_exclusion_witness :
  exists move,
    generateMove Z (fun _ _ _ => 0) Z.gtb (fun _ => 0%nat) mateInOne
                 (mkAIConfig easy 2000) = Some move /\
    In move (getAllLegalMoves black mateInOne) /\
    wouldResultInCheckmate move mateInOne = Some false.
Proof.
  destruct (generateMove_checkmate_exclusion Z (fun _ _ _ => 0) Z.gtb
              (fun _ => 0%nat) mateInOne (mkAIConfig easy 2000)
              ltac:(vm_compute; reflexivity) ltac:(vm_compute; discriminate))
    as (move & R & Hin & Hck & _).
  exists move. split; [exact R|]. split; [exact Hin|].
  apply Hck; [reflexivity|].
  exists (plainMove (mkPosition 0 0) (mkPosition 1 0) (pieceAt rook black 0 0 true)).
  split; [vm_compute; left; reflexivity | vm_compute; reflexivity].
Defined.

(** ** The repository's test cases on the embedding *)

Example test_enPassant_offered :
  listed (mkPosition 2 5) (getValidMoves (mkPosition 3 4) testEnPassant) = true.
Proof. vm_compute. reflexivity. Qed.

Example test_castling_offered :
  listed (mkPosition 7 6) (getValidMoves (mkPosition 7 4) testCastleKingside) = true /\
  listed (mkPosition 7 2) (getValidMoves (mkPosition 7 4) testCastleQueenside) = true /\
  listed (mkPosition 0 6) (getValidMoves (mkPosition 0 4) testCastleBlack) = true.
Proof. vm_compute. auto. Qed.

Example test_castling_refused :
  listed (mkPosition 7 6) (getValidMoves (mkPosition 7 4) testCastleInCheck) = false /\
  listed (mkPosition 7 6) (getValidMoves (mkPosition 7 4) testCastleThroughCheck) = false /\
  listed (mkPosition 7 6) (getValidMoves (mkPosition 7 4) testCastleEndsInCheck) = false.
Proof. vm_compute. auto. Qed.

Example test_pinned_rook :
  forallb (fun m => col m =? 4) (getValidMoves (mkPosition 5 4) testPinnedRook) = true /\
  listed (mkPosition 6 4) (getValidMoves (mkPosition 5 4) testPinnedRook) = true /\
  listed (mkPosition 7 4) (getValidMoves (mkPosition 5 4) testPinnedRook) = true.
Proof. vm_compute. auto. Qed.

Example test_backRankMate : isCheckmate white testBackRankMate = true.
Proof. vm_compute. reflexivity. Qed.

Example test_stalemate : isStalemate testStalemate = true.
Proof. vm_compute. reflexivity. Qed.

(** ** Further properties of the move generator *)

Lemma getEnPassantMoves_col (p : Piece) (s : GameState) (x : Position) :
  In x (getEnPassantMoves p s) ->
  exists lm, lastMove s = Some lm /\ col x = col (to lm).
Proof.
  intros H. apply getEnPassantMoves_spec in H as (lm & E & _ & ->).
  exists lm. split; [exact E | reflexivity].
Qed.

Lemma getPawnMoves_cases (p : Piece) (s : GameState) (x : Position) :
  In x (getPawnMoves p s) ->
  let r := row (position p) in
  let c := col (position p) in
  let d := pawnDirection (color p) in
  (x = mkPosition (r + d) c /\ isPositionOnBoard x = true
   /\ cell (board s) (r + d) c = None) \/
  (x = mkPosition (r + d * 2) c /\ isPositionOnBoard x = true
   /\ hasMoved p = false
   /\ cell (board s) (r + d) c = None /\ cell (board s) (r + d * 2) c = None) \/
  ((x = mkPosition (r + d) (c - 1) \/ x = mkPosition (r + d) (c + 1))
   /\ isPositionOnBoard x = true
   /\ exists t, cell (board s) (row x) (col x) = Some t /\ color t <> color p) \/
  In x (getEnPassantMoves p s).
Proof.
  cbv zeta. unfold getPawnMoves. intros H.
  apply in_app_or in H as [H|H]; [|apply in_app_or in H as [H|H]].
  - destruct (_ && _) eqn:E1 in H; [|destruct H].
    apply andb_true_iff in E1 as [E1 E1'].
    apply isEmptyCell_iff in E1'. simpl in E1'.
    destruct H as [<- | H]; [left; auto|].
    destruct (hasMoved p) eqn:Em; [destruct H|]. simpl in H.
    destruct (_ && _) eqn:E2 in H; [|destruct H].
    apply andb_true_iff in E2 as [E2 E2'].
    apply isEmptyCell_iff in E2'. simpl in E2'.
    destruct H as [<- | []]. right; left. auto.
  - apply in_flat_map in H as (cp & Hcp & H).
    destruct (isPositionOnBoard cp) eqn:E; [|destruct H].
    destruct (cell _ _ _) as [t|] eqn:Et; [|destruct H].
    destruct (negb _) eqn:Ec; [|destruct H].
    destruct H as [<- | []]. right; right; left.
    apply negb_true_iff, PieceColor_eqb_neq in Ec.
    split; [|split; [exact E | exists t; auto]].
    destruct Hcp as [<- | [<- | []]]; auto.
  - right; right; right. exact H.
Qed.

Lemma slide_In (fuel : nat) (p : Piece) (d : Z * Z) (s : GameState) (x : Position) :
  forall r k,
  In x (slide fuel p d s r k) <->
  exists j, 0 <= j < Z.of_nat fuel /\
    x = mkPosition (r + j * fst d) (k + j * snd d) /\
    (forall i, 0 <= i < j ->
       isPositionOnBoard (mkPosition (r + i * fst d) (k + i * snd d)) = true /\
       cell (board s) (r + i * fst d) (k + i * snd d) = None) /\
    isPositionOnBoard x = true /\
    (forall q, cell (board s) (row x) (col x) = Some q -> color q <> color p).
Proof.
  induction fuel as [|fuel IH]; intros r k.
  - simpl. split; [intros [] | intros (j & Hj & _); lia].
  - cbn [slide]. split.
    + destruct (isPositionOnBoard (mkPosition r k)) eqn:On; [|intros []].
      destruct (cell (board s) r k) as [t|] eqn:Et.
      * destruct (negb _) eqn:Ec; [|intros []].
        apply negb_true_iff, PieceColor_eqb_neq in Ec.
        intros [<- | []]. exists 0.
        split; [lia|]. rewrite !Z.mul_0_l, !Z.add_0_r.
        split; [reflexivity|]. split; [intros i Hi; lia|].
        split; [exact On|]. simpl. intros q Hq. congruence.
      * intros [<- | H].
        -- exists 0. split; [lia|]. rewrite !Z.mul_0_l, !Z.add_0_r.
           split; [reflexivity|]. split; [intros i Hi; lia|].
           split; [exact On|]. simpl. intros q Hq. congruence.
        -- apply IH in H as (j & Hj & -> & Hmid & Hon & Hq).
           exists (j + 1). split; [lia|].
           split; [f_equal; lia|]. split.
           ++ intros i Hi. destruct (Z.eq_dec i 0) as [->|Hi0].
              ** rewrite !Z.mul_0_l, !Z.add_0_r. auto.
              ** specialize (Hmid (i - 1) ltac:(lia)).
                 replace (r + fst d + (i - 1) * fst d) with (r + i * fst d) in Hmid by lia.
                 replace (k + snd d + (i - 1) * snd d) with (k + i * snd d) in Hmid by lia.
                 exact Hmid.
           ++ split; [exact Hon | exact Hq].
    + intros (j & Hj & -> & Hmid & Hon & Hq).
      destruct (Z.eq_dec j 0) as [->|Hj0].
      * rewrite !Z.mul_0_l, !Z.add_0_r in *. rewrite Hon. simpl in Hq.
        destruct (cell (board s) r k) as [t|] eqn:Et.
        -- specialize (Hq t eq_refl). apply PieceColor_eqb_neq in Hq.
           rewrite Hq. simpl. auto.
        -- left; reflexivity.
      * destruct (Hmid 0 ltac:(lia)) as [On0 E0].
        rewrite !Z.mul_0_l, !Z.add_0_r in On0, E0. rewrite On0, E0.
        right. apply IH. exists (j - 1). split; [lia|].
        split; [f_equal; lia|]. split.
        -- intros i Hi. specialize (Hmid (i + 1) ltac:(lia)).
           replace (r + (i + 1) * fst d) with (r + fst d + i * fst d) in Hmid by lia.
           replace (k + (i + 1) * snd d) with (k + snd d + i * snd d) in Hmid by lia.
           exact Hmid.
        -- split; [exact Hon | exact Hq].
Qed.

(** X11: a sliding piece reaches exactly the squares of a ray that lie on the
    board behind empty squares only, and that are empty themselves or held
    by the other colour: it never jumps over a piece and never lands on a
    piece of its own colour. *)
Theorem sliding_moves_follow_open_rays (p : Piece) (d : Z * Z) (s : GameState)
    (x : Position) :
  (fst d <> 0 \/ snd d <> 0) -> -1 <= fst d <= 1 -> -1 <= snd d <= 1 ->
  (In x (getSlidingMoves p d s) <->
   exists n, 1 <= n /\ x = rayStep (position p) d n /\
     isPositionOnBoard x = true /\
     (forall i, 1 <= i < n ->
        isPositionOnBoard (rayStep (position p) d i) = true /\
        cell (board s) (row (rayStep (position p) d i))
                       (col (rayStep (position p) d i)) = None) /\
     (forall q, cell (board s) (row x) (col x) = Some q -> color q <> color p)).
Proof.
  intros Hnz Hr Hk. unfold getSlidingMoves. rewrite slide_In. unfold rayStep. split.
  - intros (j & Hj & -> & Hmid & Hon & Hq). exists (j + 1).
    split; [lia|]. split; [f_equal; lia|]. split.
    { exact Hon. }
    split; [|exact Hq].
    intros i Hi. specialize (Hmid (i - 1) ltac:(lia)). simpl.
    replace (row (position p) + fst d + (i - 1) * fst d)
      with (row (position p) + i * fst d) in Hmid by lia.
    replace (col (position p) + snd d + (i - 1) * snd d)
      with (col (position p) + i * snd d) in Hmid by lia.
    exact Hmid.
  - intros (n & Hn & -> & Hon & Hmid & Hq). exists (n - 1).
    assert (Hn8 : n <= 8).
    { destruct (Z.eq_dec n 1) as [->|N1]; [lia|].
      destruct (Hmid 1 ltac:(lia)) as [On1 _].
      apply isPositionOnBoard_iff in On1, Hon. simpl in On1, Hon. nia. }
    split; [simpl; lia|]. split; [f_equal; lia|]. split.
    + intros i Hi. specialize (Hmid (i + 1) ltac:(lia)). simpl in Hmid.
      replace (row (position p) + (i + 1) * fst d)
        with (row (position p) + fst d + i * fst d) in Hmid by lia.
      replace (col (position p) + (i + 1) * snd d)
        with (col (position p) + snd d + i * snd d) in Hmid by lia.
      exact Hmid.
    + split; [exact Hon | exact Hq].
Qed.

Lemma offsetMoves_target (offs : list (Z * Z)) (p : Piece) (s : GameState)
    (x : Position) :
  In x (offsetMoves offs p s) ->
  forall q, cell (board s) (row x) (col x) = Some q -> color q <> color p.
Proof.
  unfold offsetMoves. rewrite in_flat_map. intros (o & _ & H).
  destruct (isPositionOnBoard _); [|destruct H].
  destruct (cell (board s) _ _) as [t|] eqn:Et.
  - destruct (negb _) eqn:Ec; [|destruct H]. destruct H as [<- | []].
    apply negb_true_iff, PieceColor_eqb_neq in Ec. simpl in Et |- *.
    intros q Hq. congruence.
  - destruct H as [<- | []]. simpl in Et |- *. intros q Hq. congruence.
Qed.

Lemma slidingMoves_target (dirs : list (Z * Z)) (p : Piece) (s : GameState)
    (x : Position) :
  In x (flat_map (fun d => getSlidingMoves p d s) dirs) ->
  forall q, cell (board s) (row x) (col x) = Some q -> color q <> color p.
Proof.
  rewrite in_flat_map. intros (d & _ & H). unfold getSlidingMoves in H.
  apply slide_In in H as (j & _ & _ & _ & _ & Hq). exact Hq.
Qed.

Lemma getCastlingMoves_target (p : Piece) (s : GameState) (x : Position) :
  In x (getCastlingMoves p s) -> cell (board s) (row x) (col x) = None.
Proof.
  unfold getCastlingMoves.
  destruct (hasMoved p); [intros []|].
  destruct (isPositionUnderAttack (position p) (color p) s); [intros []|].
  destruct (_ || _); [intros []|].
  intros H. apply in_app_or in H. destruct H as [H|H].
  - destruct (isUnmovedRookOf _ _); [|destruct H].
    destruct (_ && _) eqn:E in H; [|destruct H].
    destruct (negb _); [|destruct H]. destruct H as [<- | []].
    apply andb_true_iff in E as [_ E]. apply isEmptyCell_iff in E. exact E.
  - destruct (isUnmovedRookOf _ _); [|destruct H].
    destruct (_ && _) eqn:E in H; [|destruct H].
    destruct (negb _); [|destruct H]. destruct H as [<- | []].
    apply andb_true_iff in E as [E _]. apply andb_true_iff in E as [_ E].
    apply isEmptyCell_iff in E. exact E.
Qed.

(** What the generator yields for any piece: a square on the board that is
    empty or held by the other colour, or (for a pawn) the en-passant
    square computed from the last move. *)
Lemma getPseudoLegalMoves_target (p : Piece) (s : GameState) (x : Position) :
  In x (getPseudoLegalMoves p s) ->
  (isPositionOnBoard x = true /\
   forall q, cell (board s) (row x) (col x) = Some q -> color q <> color p) \/
  (type p = pawn /\ In x (getEnPassantMoves p s)).
Proof.
  unfold getPseudoLegalMoves. destruct (type p) eqn:Et.
  - intros H. apply getPawnMoves_cases in H. cbv zeta in H.
    destruct H as [(-> & On & E) | [(-> & On & _ & _ & E) | [(_ & On & t & E & Hc) | H]]].
    + left. split; [exact On|]. simpl. intros q Hq. congruence.
    + left. split; [exact On|]. simpl. intros q Hq. congruence.
    + left. split; [exact On|]. intros q Hq. congruence.
    + right. auto.
  - intros H. left. split; [eapply offsetMoves_onBoard | eapply offsetMoves_target]; exact H.
  - intros H. left. split; [eapply slidingMoves_onBoard | eapply slidingMoves_target]; exact H.
  - intros H. left. split; [eapply slidingMoves_onBoard | eapply slidingMoves_target]; exact H.
  - intros H. left. split; [eapply slidingMoves_onBoard | eapply slidingMoves_target]; exact H.
  - unfold getKingMoves. intros H. apply in_app_or in H as [H|H]; left.
    + split; [eapply offsetMoves_onBoard | eapply offsetMoves_target]; exact H.
    + split; [eapply getCastlingMoves_onBoard; exact H|].
      apply getCastlingMoves_target in H. intros q Hq. congruence.
Qed.

Lemma getValidMoves_pseudoLegal (pos : Position) (s : GameState) (p : Piece)
    (t : Position) :
  cell (board s) (row pos) (col pos) = Some p -> In t (getValidMoves pos s) ->
  color p = currentTurn s /\ In t (getPseudoLegalMoves p s) /\
  wouldLeaveKingInCheck pos t s = false.
Proof.
  intros E. unfold getValidMoves. rewrite E.
  destruct (PieceColor_eqb (color p) (currentTurn s)) eqn:Ec; simpl; [|intros []].
  apply PieceColor_eqb_eq in Ec. rewrite filter_In, negb_true_iff. tauto.
Qed.

(** X12: every destination that [getValidMoves] returns lies on the board,
    provided the destination column of the last move does (the en-passant
    square takes its column from there). *)
Theorem getValidMoves_on_board (pos : Position) (s : GameState) (t : Position) :
  (forall lm, lastMove s = Some lm -> 0 <= col (to lm) <= 7) ->
  In t (getValidMoves pos s) -> isPositionOnBoard t = true.
Proof.
  intros Hlm H.
  destruct (getValidMoves_source _ _ _ H) as [p E].
  destruct (getValidMoves_pseudoLegal pos s p t E H) as (_ & Hp & _).
  pose proof (getPseudoLegalMoves_row p s t Hp) as Hr.
  destruct (getPseudoLegalMoves_target p s t Hp) as [[On _] | [_ Hep]]; [exact On|].
  apply getEnPassantMoves_col in Hep as (lm & El & Ec).
  apply isPositionOnBoard_iff. rewrite Ec. split; [exact Hr | exact (Hlm lm El)].
Qed.

(** X13: a legal destination never holds a piece of the mover's colour,
    unless it is the en-passant square of a pawn. *)
Theorem getValidMoves_never_onto_own_piece (pos : Position) (s : GameState)
    (p : Piece) (t : Position) :
  cell (board s) (row pos) (col pos) = Some p -> In t (getValidMoves pos s) ->
  (forall q, cell (board s) (row t) (col t) = Some q -> color q <> color p) \/
  (type p = pawn /\ In t (getEnPassantMoves p s)).
Proof.
  intros E H.
  destruct (getValidMoves_pseudoLegal pos s p t E H) as (_ & Hp & _).
  destruct (getPseudoLegalMoves_target p s t Hp) as [[_ Hq] | Hep]; [left | right]; auto.
Qed.

(** X14: the short-circuiting search of [hasAnyLegalMoves] and the full
    enumeration of [getAllLegalMoves] agree on whether a colour has a move. *)
Theorem hasAnyLegalMoves_iff_some_legal_move (c : PieceColor) (s : GameState) :
  hasAnyLegalMoves c s = true <-> getAllLegalMoves c s <> [].
Proof.
  rewrite <- hasAnyLegalMoves_false_iff.
  destruct (hasAnyLegalMoves c s); split; congruence.
Qed.

Lemma firstSome_first {A B} (f : A -> option B) (l : list A) (y : B) :
  firstSome f l = Some y ->
  exists l1 x l2, l = l1 ++ x :: l2 /\ f x = Some y /\
                  forall z, In z l1 -> f z = None.
Proof.
  induction l as [|a l IH]; simpl; [discriminate|].
  destruct (f a) as [b|] eqn:E.
  - intros [= <-]. exists [], a, l. split; [reflexivity|]. split; [exact E|].
    intros z [].
  - intros H. destruct (IH H) as (l1 & x & l2 & -> & Hx & Hl1).
    exists (a :: l1), x, l2. split; [reflexivity|]. split; [exact Hx|].
    intros z [<- | Hz]; auto.
Qed.

Lemma range8_split (l1 l2 : list Z) (x z : Z) :
  range8 = l1 ++ x :: l2 -> 0 <= z < x -> In z l1.
Proof.
  unfold range8. intros E Hz.
  assert (Hx : In x range8) by (unfold range8; rewrite E; apply in_elt).
  apply in_range8 in Hx.
  destruct l1 as [|a0 l1]; injection E as ? E; subst; [lia|].
  destruct (Z.eq_dec z 0) as [->|?]; [left; reflexivity|right].
  destruct l1 as [|a1 l1]; injection E as ? E; subst; [lia|].
  destruct (Z.eq_dec z 1) as [->|?]; [left; reflexivity|right].
  destruct l1 as [|a2 l1]; injection E as ? E; subst; [lia|].
  destruct (Z.eq_dec z 2) as [->|?]; [left; reflexivity|right].
  destruct l1 as [|a3 l1]; injection E as ? E; subst; [lia|].
  destruct (Z.eq_dec z 3) as [->|?]; [left; reflexivity|right].
  destruct l1 as [|a4 l1]; injection E as ? E; subst; [lia|].
  destruct (Z.eq_dec z 4) as [->|?]; [left; reflexivity|right].
  destruct l1 as [|a5 l1]; injection E as ? E; subst; [lia|].
  destruct (Z.eq_dec z 5) as [->|?]; [left; reflexivity|right].
  destruct l1 as [|a6 l1]; injection E as ? E; subst; [lia|].
  destruct (Z.eq_dec z 6) as [->|?]; [left; reflexivity|right].
  destruct l1 as [|a7 l1]; injection E as ? E; subst; [lia|].
  destruct l1; discriminate.
Qed.

(** X15: [findKing] returns the first square, in scanning order, that holds a
    king of the colour asked for; it returns nothing exactly when none of
    the 64 squares holds one. *)
Theorem findKing_first_king (c : PieceColor) (s : GameState) :
  match findKing c s with
  | Some pos =>
      0 <= row pos <= 7 /\ 0 <= col pos <= 7 /\
      (exists p, cell (board s) (row pos) (col pos) = Some p /\
                 type p = king /\ color p = c) /\
      forall r k p, 0 <= r <= 7 -> 0 <= k <= 7 ->
                    scannedBefore r k (row pos) (col pos) ->
                    cell (board s) r k = Some p -> type p = king -> color p <> c
  | None =>
      forall r k p, 0 <= r <= 7 -> 0 <= k <= 7 ->
                    cell (board s) r k = Some p -> type p = king -> color p <> c
  end.
Proof.
  destruct (findKing c s) as [pos|] eqn:E; [|apply findKing_None_iff; exact E].
  destruct (findKing_Some c s pos E) as (p & Ep & Ht & Hc & Hr & Hk).
  split; [exact Hr|]. split; [exact Hk|]. split; [exists p; auto|].
  unfold findKing in E.
  apply firstSome_first in E as (l1 & r0 & l2 & Er & E & Hbefore).
  apply firstSome_first in E as (k1 & k0 & k2 & Ek & E & Hkbefore).
  destruct (cell (board s) r0 k0) as [p0|]; [|discriminate].
  destruct (_ && _); [|discriminate]. injection E as <-. cbn [row col] in *.
  intros r k q Hr' Hk' Hs Eq Hq Hqc.
  assert (None_at : forall k', 0 <= k' <= 7 ->
            (match cell (board s) r k' with
             | Some piece_ =>
                 if PieceType_eqb (type piece_) king && PieceColor_eqb (color piece_) c
                 then Some (mkPosition r k') else None
             | None => None
             end) = None -> k' <> k).
  { intros k' _ Hn ->. rewrite Eq in Hn.
    apply PieceType_eqb_eq in Hq. apply PieceColor_eqb_eq in Hqc.
    rewrite Hq, Hqc in Hn. discriminate. }
  destruct Hs as [Hlt | [-> Hlt]].
  - specialize (Hbefore r (range8_split l1 l2 r0 r Er ltac:(lia))).
    cbv beta in Hbefore. rewrite firstSome_None_iff in Hbefore.
    specialize (Hbefore k (proj2 (in_range8 k) Hk')).
    apply (None_at k Hk' Hbefore). reflexivity.
  - specialize (Hkbefore k (range8_split k1 k2 k0 k Ek ltac:(lia))).
    apply (None_at k Hk' Hkbefore). reflexivity.
Qed.

(** ** The executor, square by square *)

Lemma isValidBoard_eightByEight (b : Board) :
  isValidBoard b = true -> eightByEight b.
Proof.
  intros V. split; [apply isValidBoard_length; exact V|].
  apply Forall_forall. intros cells Hin.
  apply (isValidBoard_row b cells V). apply list_elem_of_In. exact Hin.
Qed.

Lemma eightByEight_row (b : Board) (r : Z) :
  eightByEight b -> 0 <= r <= 7 ->
  exists cells, b !! Z.to_nat r = Some cells /\ length cells = 8%nat.
Proof.
  intros [L F] Hr.
  destruct (lookup_lt_is_Some_2 b (Z.to_nat r) ltac:(lia)) as [cells E].
  exists cells. split; [exact E|].
  rewrite Forall_forall in F. apply F. eapply list_elem_of_lookup_2; exact E.
Qed.

Lemma eightByEight_setCell (b : Board) (r c : Z) (v : option Piece) :
  eightByEight b -> eightByEight (setCell b r c v).
Proof.
  intros [L F]. unfold setCell.
  destruct (isPositionOnBoard _); [|split; assumption].
  destruct (b !! Z.to_nat r) as [cells|] eqn:E; [|split; assumption].
  split; [rewrite length_insert; exact L|].
  apply Forall_insert; [exact F|]. rewrite length_insert.
  rewrite Forall_forall in F. apply F. eapply list_elem_of_lookup_2; exact E.
Qed.

(** Reading a square after a write, on a board of eight by eight. *)
Lemma cell_setCell_eq (b : Board) (r c : Z) (v : option Piece) (r' c' : Z) :
  eightByEight b ->
  cell (setCell b r c v) r' c'
  = if isPositionOnBoard (mkPosition r c) && (r' =? r) && (c' =? c)
    then v else cell b r' c'.
Proof.
  intros E8. unfold setCell.
  destruct (isPositionOnBoard (mkPosition r c)) eqn:On; [|reflexivity].
  apply isPositionOnBoard_iff in On. simpl in On. destruct On as [Hr Hc].
  destruct (eightByEight_row b r E8 Hr) as (cells & Er & Lc). rewrite Er.
  simpl. unfold cell, jsIndex.
  destruct (r' =? r) eqn:Err.
  - apply Z.eqb_eq in Err. subst r'.
    assert (X : (r <? 0) = false) by (apply Z.ltb_ge; lia). rewrite X.
    rewrite list_lookup_insert_eq by (eapply lookup_lt_Some; exact Er).
    rewrite Er. simpl.
    destruct (c' =? c) eqn:Ecc.
    + apply Z.eqb_eq in Ecc. subst c'.
      assert (Y : (c <? 0) = false) by (apply Z.ltb_ge; lia). rewrite Y.
      rewrite list_lookup_insert_eq by lia. reflexivity.
    + apply Z.eqb_neq in Ecc.
      destruct (c' <? 0) eqn:Y; [reflexivity|]. apply Z.ltb_ge in Y.
      rewrite list_lookup_insert_ne by lia. reflexivity.
  - apply Z.eqb_neq in Err. simpl.
    destruct (r' <? 0) eqn:X; [reflexivity|]. apply Z.ltb_ge in X.
    rewrite list_lookup_insert_ne by lia. reflexivity.
Qed.

Lemma cell_eightByEight (b : Board) (r c : Z) (p : Piece) :
  eightByEight b -> cell b r c = Some p -> 0 <= r <= 7 /\ 0 <= c <= 7.
Proof.
  intros [L F]. unfold cell.
  destruct (jsIndex b r) as [cells|] eqn:Er; [|discriminate].
  destruct (jsIndex cells c) as [x|] eqn:Ec; [|discriminate].
  intros _. apply jsIndex_Some_range in Er as Hr. apply jsIndex_Some_range in Ec.
  apply jsIndex_In in Er. rewrite Forall_forall in F.
  rewrite (F cells) in Ec by (apply list_elem_of_In; exact Er). lia.
Qed.

(** Two boards of eight by eight that read the same on every square are
    the same board. *)
Lemma board_ext (b1 b2 : Board) :
  eightByEight b1 -> eightByEight b2 ->
  (forall r c, 0 <= r <= 7 -> 0 <= c <= 7 -> cell b1 r c = cell b2 r c) ->
  b1 = b2.
Proof.
  intros E1 E2 H. apply list_eq. intros i.
  destruct (decide (i < 8)%nat) as [Hi|Hi].
  - destruct (eightByEight_row b1 (Z.of_nat i) E1 ltac:(lia)) as (c1 & X1 & L1).
    destruct (eightByEight_row b2 (Z.of_nat i) E2 ltac:(lia)) as (c2 & X2 & L2).
    rewrite Nat2Z.id in X1, X2. rewrite X1, X2. f_equal.
    apply list_eq. intros j.
    destruct (decide (j < 8)%nat) as [Hj|Hj].
    + specialize (H (Z.of_nat i) (Z.of_nat j) ltac:(lia) ltac:(lia)).
      unfold cell, jsIndex in H.
      assert (Zi : (Z.of_nat i <? 0) = false) by (apply Z.ltb_ge; lia).
      assert (Zj : (Z.of_nat j <? 0) = false) by (apply Z.ltb_ge; lia).
      rewrite Zi, !Nat2Z.id, X1, X2, Zj in H.
      destruct (lookup_lt_is_Some_2 c1 j ltac:(lia)) as [x1 Y1].
      destruct (lookup_lt_is_Some_2 c2 j ltac:(lia)) as [x2 Y2].
      rewrite Y1, Y2 in *. congruence.
    + rewrite !lookup_ge_None_2 by lia. reflexivity.
  - destruct E1 as [L1 _], E2 as [L2 _].
    rewrite !lookup_ge_None_2 by lia. reflexivity.
Qed.

(** *** Reading the steps of a run backwards *)

Lemma bind_inv {A B} (m : M A) (f : A -> M B) (h : Heap) (r : B * Heap) :
  (m ≫= f) h = Some r -> exists a h1, m h = Some (a, h1) /\ f a h1 = Some r.
Proof.
  unfold mbind, M_bind. destruct (m h) as [[a h1]|]; [|discriminate].
  intros H. exists a, h1. auto.
Qed.

Lemma ret_inv {A} (a b : A) (h h' : Heap) :
  (mret a : M A) h = Some (b, h') -> b = a /\ h' = h.
Proof. unfold mret, M_ret. intros [= <- <-]. auto. Qed.

Lemma getPiece_inv (l : loc) (h h' : Heap) (p : Piece) :
  getPiece l h = Some (p, h') -> h' = h /\ h !! l = Some (OPiece p).
Proof.
  unfold getPiece. destruct (h !! l) as [[q| | |]|]; try discriminate.
  intros [= <- <-]. auto.
Qed.

Lemma setPiece_inv (l : loc) (q : Piece) (h h' : Heap) :
  setPiece l q h = Some (tt, h') -> pieceLoc h l /\ h' = <[l := OPiece q]> h.
Proof.
  unfold setPiece. destruct (h !! l) as [[p| | |]|] eqn:E; try discriminate.
  intros [= <-]. split; [exists p; exact E | reflexivity].
Qed.

Lemma updatePiece_inv (l : loc) (f : Piece -> Piece) (h h' : Heap) :
  (p ← getPiece l; setPiece l (f p)) h = Some (tt, h') ->
  exists p, h !! l = Some (OPiece p) /\ h' = <[l := OPiece (f p)]> h.
Proof.
  intros H. apply bind_inv in H as (p & h1 & H1 & H).
  apply getPiece_inv in H1 as [-> E]. apply setPiece_inv in H as [_ ->].
  exists p. auto.
Qed.

Lemma getCells_inv (l : loc) (h h' : Heap) (cs : list (option loc)) :
  getCells l h = Some (cs, h') -> h' = h /\ h !! l = Some (OCells cs).
Proof.
  unfold getCells. destruct (h !! l) as [[| cs' | |]|]; try discriminate.
  intros [= <- <-]. auto.
Qed.

Lemma boardGet_inv (rows : list loc) (r c : Z) (h h' : Heap) (v : option loc) :
  boardGet rows r c h = Some (v, h') -> h' = h /\ v = cellLoc h rows r c.
Proof.
  unfold boardGet, cellLoc.
  destruct (jsIndex rows r) as [rl|] eqn:Er.
  - intros H. apply bind_inv in H as (cs & h1 & H1 & H).
    apply getCells_inv in H1 as [-> E]. apply ret_inv in H as [-> ->].
    rewrite E. auto.
  - intros H. apply ret_inv in H as [-> ->]. auto.
Qed.

Lemma boardGetStrict_inv (rows : list loc) (r c : Z) (h h' : Heap) (v : option loc) :
  boardGetStrict rows r c h = Some (v, h') -> h' = h /\ v = cellLoc h rows r c.
Proof.
  unfold boardGetStrict, cellLoc.
  destruct (jsIndex rows r) as [rl|] eqn:Er; [|discriminate].
  intros H. apply bind_inv in H as (cs & h1 & H1 & H).
  apply getCells_inv in H1 as [-> E]. apply ret_inv in H as [-> ->].
  rewrite E. auto.
Qed.

(** *** What a write to a piece object changes *)

Lemma cellLoc_setPiece (h : Heap) (l : loc) (p q : Piece) (rows : list loc) (r c : Z) :
  h !! l = Some (OPiece p) ->
  cellLoc (<[l := OPiece q]> h) rows r c = cellLoc h rows r c.
Proof.
  intros E. unfold cellLoc. destruct (jsIndex rows r) as [rl|]; [|reflexivity].
  destruct (decide (rl = l)) as [->|N].
  - rewrite list_lookup_insert_eq by (eapply lookup_lt_Some; exact E).
    rewrite E. reflexivity.
  - rewrite list_lookup_insert_ne by congruence. reflexivity.
Qed.

Lemma snapPiece_setPiece (h : Heap) (l : loc) (p q : Piece) (l' : loc) :
  h !! l = Some (OPiece p) ->
  snapPiece (<[l := OPiece q]> h) l'
  = if decide (l' = l) then Some q else snapPiece h l'.
Proof.
  intros E. unfold snapPiece. destruct (decide (l' = l)) as [->|N].
  - rewrite list_lookup_insert_eq by (eapply lookup_lt_Some; exact E). reflexivity.
  - rewrite list_lookup_insert_ne by congruence. reflexivity.
Qed.

Lemma rowOfEight_setPiece (h : Heap) (l : loc) (p q : Piece) (rl : loc) :
  h !! l = Some (OPiece p) -> rowOfEight h rl -> rowOfEight (<[l := OPiece q]> h) rl.
Proof.
  intros E (cs & Hcs & L). exists cs. split; [|exact L].
  rewrite list_lookup_insert_ne by congruence. exact Hcs.
Qed.

Lemma pieceLoc_setPiece (h : Heap) (l : loc) (p q : Piece) (l' : loc) :
  h !! l = Some (OPiece p) -> pieceLoc h l' -> pieceLoc (<[l := OPiece q]> h) l'.
Proof.
  intros E [x Hx]. destruct (decide (l' = l)) as [->|N].
  - exists q. apply list_lookup_insert_eq. eapply lookup_lt_Some; exact E.
  - exists x. rewrite list_lookup_insert_ne by congruence. exact Hx.
Qed.

(** *** What a write to a square changes *)

Lemma jsIndex_NoDup (rows : list loc) (r r' : Z) (rl : loc) :
  NoDup rows -> jsIndex rows r = Some rl -> jsIndex rows r' = Some rl -> r' = r.
Proof.
  intros N H1 H2.
  apply jsIndex_Some_range in H1 as R1. apply jsIndex_Some_range in H2 as R2.
  unfold jsIndex in H1, H2.
  destruct (r <? 0); [discriminate|]. destruct (r' <? 0); [discriminate|].
  pose proof (NoDup_lookup _ _ _ _ N H1 H2). lia.
Qed.

Lemma boardSet_inv (rows : list loc) (r c : Z) (v : option loc) (h h' : Heap) :
  length rows = 8%nat -> NoDup rows -> Forall (rowOfEight h) rows ->
  boardSet rows r c v h = Some (tt, h') ->
  0 <= r <= 7 /\
  Forall (rowOfEight h') rows /\
  (forall l, snapPiece h' l = snapPiece h l) /\
  (forall l, pieceLoc h l -> pieceLoc h' l) /\
  (forall r' c', cellLoc h' rows r' c'
                 = if isPositionOnBoard (mkPosition r c) && (r' =? r) && (c' =? c)
                   then v else cellLoc h rows r' c').
Proof.
  intros L N F. unfold boardSet.
  destruct (jsIndex rows r) as [rl|] eqn:Er; [|discriminate].
  apply jsIndex_Some_range in Er as Hr. rewrite L in Hr.
  intros H. apply bind_inv in H as (cs & h1 & H1 & H).
  apply getCells_inv in H1 as [-> Ecs].
  assert (Lcs : length cs = 8%nat).
  { rewrite Forall_forall in F.
    destruct (F rl) as (cs' & E' & L').
    - apply list_elem_of_In. eapply jsIndex_In; exact Er.
    - congruence. }
  split; [lia|].
  assert (On : isPositionOnBoard (mkPosition r c) = ((0 <=? c) && (c <=? 7))).
  { unfold isPositionOnBoard. simpl.
    assert ((0 <=? r) = true) as -> by (apply Z.leb_le; lia).
    assert ((r <=? 7) = true) as -> by (apply Z.leb_le; lia). reflexivity. }
  rewrite On. destruct ((0 <=? c) && (c <=? 7)) eqn:Ec.
  - unfold setCells in H. rewrite Ecs in H. injection H as <-.
    apply andb_true_iff in Ec as [Ec1 Ec2]. apply Z.leb_le in Ec1, Ec2.
    assert (Hlt : (rl < length h)%nat) by (eapply lookup_lt_Some; exact Ecs).
    split; [|split; [|split]].
    + eapply Forall_impl; [exact F|]. intros x (cs' & E' & L').
      destruct (decide (x = rl)) as [->|Nx].
      * exists (<[Z.to_nat c := v]> cs). split.
        -- apply list_lookup_insert_eq. exact Hlt.
        -- rewrite length_insert. exact Lcs.
      * exists cs'. split; [|exact L'].
        rewrite list_lookup_insert_ne by congruence. exact E'.
    + intros l. unfold snapPiece. destruct (decide (l = rl)) as [->|Nl].
      * rewrite list_lookup_insert_eq by exact Hlt. rewrite Ecs. reflexivity.
      * rewrite list_lookup_insert_ne by congruence. reflexivity.
    + intros l [p Hp]. exists p.
      rewrite list_lookup_insert_ne by congruence. exact Hp.
    + intros r' c'. simpl. unfold cellLoc.
      destruct (jsIndex rows r') as [rl'|] eqn:Er'.
      * destruct (decide (rl' = rl)) as [->|Nrl].
        -- pose proof (jsIndex_NoDup rows r r' rl N Er Er') as ->.
           rewrite Z.eqb_refl. simpl.
           rewrite list_lookup_insert_eq by exact Hlt. rewrite Ecs.
           unfold jsIndex. destruct (c' =? c) eqn:Ecc.
           ++ apply Z.eqb_eq in Ecc. subst c'.
              assert ((c <? 0) = false) as -> by (apply Z.ltb_ge; lia).
              rewrite list_lookup_insert_eq by lia. reflexivity.
           ++ apply Z.eqb_neq in Ecc.
              destruct (c' <? 0) eqn:Y; [reflexivity|]. apply Z.ltb_ge in Y.
              rewrite list_lookup_insert_ne by lia. reflexivity.
        -- rewrite list_lookup_insert_ne by congruence.
           destruct (r' =? r) eqn:Err; [|reflexivity].
           apply Z.eqb_eq in Err. subst r'. congruence.
      * destruct (r' =? r) eqn:Err; [|reflexivity].
        apply Z.eqb_eq in Err. subst r'. congruence.
  - apply ret_inv in H as [_ ->]. simpl.
    split; [exact F|]. split; [reflexivity|]. split; [auto|]. reflexivity.
Qed.

(** *** The board in the store, step by step *)

Lemma represents_range (h : Heap) (rows : list loc) (b : Board) (r c : Z) (l : loc) :
  represents h rows b -> cellLoc h rows r c = Some l -> 0 <= r <= 7 /\ 0 <= c <= 7.
Proof.
  intros (L & _ & F & _) H. unfold cellLoc in H.
  destruct (jsIndex rows r) as [rl|] eqn:Er; [|discriminate].
  apply jsIndex_Some_range in Er as Hr. rewrite L in Hr.
  rewrite Forall_forall in F.
  destruct (F rl) as (cs & Ecs & Lcs).
  { apply list_elem_of_In. eapply jsIndex_In; exact Er. }
  rewrite Ecs in H.
  destruct (jsIndex cs c) as [x|] eqn:Ec; [|discriminate].
  apply jsIndex_Some_range in Ec. lia.
Qed.

Lemma represents_piece (h : Heap) (rows : list loc) (b : Board) (r c : Z) (p : Piece) :
  represents h rows b -> cell b r c = Some p ->
  exists l, cellLoc h rows r c = Some l /\ h !! l = Some (OPiece p).
Proof.
  intros (_ & _ & _ & P & _ & C & _) H. rewrite C in H.
  destruct (cellLoc h rows r c) as [l|] eqn:E; [|discriminate].
  exists l. split; [reflexivity|]. destruct (P r c l E) as [q Hq].
  unfold snapPiece in H. rewrite Hq in H. congruence.
Qed.

Lemma represents_clear (h h' : Heap) (rows : list loc) (b : Board) (r c : Z) :
  represents h rows b -> boardSet rows r c None h = Some (tt, h') ->
  represents h' rows (setCell b r c None) /\
  (forall l, snapPiece h' l = snapPiece h l) /\
  (forall r' c', cellLoc h' rows r' c'
                 = if isPositionOnBoard (mkPosition r c) && (r' =? r) && (c' =? c)
                   then None else cellLoc h rows r' c').
Proof.
  intros (L & N & F & P & U & C & E8) H.
  destruct (boardSet_inv rows r c None h h' L N F H) as (Hr & F' & SP & PL & CL).
  split; [|split; [exact SP | exact CL]].
  split; [exact L|]. split; [exact N|]. split; [exact F'|]. split; [|split; [|split]].
  - intros r' c' l. rewrite CL. destruct (_ && _); [discriminate|].
    intros X. apply PL. eapply P; exact X.
  - intros r1 c1 r2 c2 l. rewrite !CL.
    destruct (_ && _); [discriminate|]. destruct (_ && _); [discriminate|]. apply U.
  - intros r' c'. rewrite cell_setCell_eq by exact E8. rewrite CL.
    destruct (_ && _); [reflexivity|]. rewrite C.
    destruct (cellLoc h rows r' c'); [rewrite SP|]; reflexivity.
  - apply eightByEight_setCell; exact E8.
Qed.

(** A piece object is moved from one square to another: first stored on
    the second square, then removed from the first. *)
Lemma represents_relocate (h h1 h2 : Heap) (rows : list loc) (b : Board)
    (r0 c0 r1 c1 : Z) (l : loc) :
  represents h rows b -> cellLoc h rows r0 c0 = Some l ->
  boardSet rows r1 c1 (Some l) h = Some (tt, h1) ->
  boardSet rows r0 c0 None h1 = Some (tt, h2) ->
  represents h2 rows (setCell (setCell b r1 c1 (cell b r0 c0)) r0 c0 None) /\
  (forall l', snapPiece h2 l' = snapPiece h l') /\
  (forall r c, cellLoc h2 rows r c
               = if (r =? r0) && (c =? c0) then None
                 else if isPositionOnBoard (mkPosition r1 c1) && (r =? r1) && (c =? c1)
                      then Some l
                      else cellLoc h rows r c).
Proof.
  intros R Hl H1 H2.
  pose proof (represents_range h rows b r0 c0 l R Hl) as On0.
  destruct R as (L & N & F & P & U & C & E8).
  destruct (boardSet_inv rows r1 c1 (Some l) h h1 L N F H1) as (Hr1 & F1 & SP1 & PL1 & CL1).
  destruct (boardSet_inv rows r0 c0 None h1 h2 L N F1 H2) as (Hr0 & F2 & SP2 & PL2 & CL2).
  assert (On0' : isPositionOnBoard (mkPosition r0 c0) = true).
  { apply isPositionOnBoard_iff. exact On0. }
  assert (CL : forall r c, cellLoc h2 rows r c
               = if (r =? r0) && (c =? c0) then None
                 else if isPositionOnBoard (mkPosition r1 c1) && (r =? r1) && (c =? c1)
                      then Some l
                      else cellLoc h rows r c).
  { intros r c. rewrite CL2, CL1, On0'. reflexivity. }
  assert (SP : forall l', snapPiece h2 l' = snapPiece h l').
  { intros l'. rewrite SP2, SP1. reflexivity. }
  split; [|split; [exact SP | exact CL]].
  split; [exact L|]. split; [exact N|]. split; [exact F2|]. split; [|split; [|split]].
  - intros r c x. rewrite CL. destruct (_ && _); [discriminate|].
    destruct (_ && _).
    + intros [= <-]. apply PL2, PL1. eapply P; exact Hl.
    + intros X. apply PL2, PL1. eapply P; exact X.
  - intros ra ca rb cb x. rewrite !CL.
    destruct ((ra =? r0) && (ca =? c0)) eqn:A0; [discriminate|].
    destruct ((rb =? r0) && (cb =? c0)) eqn:B0; [discriminate|].
    destruct (isPositionOnBoard (mkPosition r1 c1) && (ra =? r1) && (ca =? c1)) eqn:A1;
      destruct (isPositionOnBoard (mkPosition r1 c1) && (rb =? r1) && (cb =? c1)) eqn:B1.
    + intros _ _. apply andb_true_iff in A1 as [A1 A1c]. apply andb_true_iff in A1 as [_ A1r].
      apply andb_true_iff in B1 as [B1 B1c]. apply andb_true_iff in B1 as [_ B1r].
      apply Z.eqb_eq in A1c, A1r, B1c, B1r. lia.
    + intros [= <-] X. destruct (U _ _ _ _ _ Hl X) as [<- <-].
      rewrite !Z.eqb_refl in B0. discriminate.
    + intros X [= <-]. destruct (U _ _ _ _ _ Hl X) as [<- <-].
      rewrite !Z.eqb_refl in A0. discriminate.
    + apply U.
  - intros r c. rewrite cell_setCell_eq by (apply eightByEight_setCell; exact E8).
    rewrite cell_setCell_eq by exact E8. rewrite CL, On0'. simpl.
    destruct ((r =? r0) && (c =? c0)); [reflexivity|].
    destruct (_ && _).
    + rewrite SP, C, Hl. reflexivity.
    + rewrite C. destruct (cellLoc h rows r c); [rewrite SP|]; reflexivity.
  - apply eightByEight_setCell, eightByEight_setCell; exact E8.
Qed.

(** A field of a piece object is assigned to. *)
Lemma represents_mutate (h : Heap) (rows : list loc) (b : Board) (l : loc)
    (p q : Piece) :
  represents h rows b -> h !! l = Some (OPiece p) ->
  (forall r c, cellLoc h rows r c = Some l ->
               represents (<[l := OPiece q]> h) rows (setCell b r c (Some q))) /\
  ((forall r c, cellLoc h rows r c <> Some l) ->
   represents (<[l := OPiece q]> h) rows b).
Proof.
  intros R E.
  assert (Shape : length rows = 8%nat /\ NoDup rows /\
                  Forall (rowOfEight (<[l := OPiece q]> h)) rows /\
                  (forall r c x, cellLoc (<[l := OPiece q]> h) rows r c = Some x ->
                                 pieceLoc (<[l := OPiece q]> h) x) /\
                  (forall r c r' c' x,
                     cellLoc (<[l := OPiece q]> h) rows r c = Some x ->
                     cellLoc (<[l := OPiece q]> h) rows r' c' = Some x ->
                     r = r' /\ c = c')).
  { destruct R as (L & N & F & P & U & C & E8).
    split; [exact L|]. split; [exact N|]. split; [|split].
    - eapply Forall_impl; [exact F|]. intros x. apply (rowOfEight_setPiece h l p q x E).
    - intros r c x. rewrite (cellLoc_setPiece h l p q rows r c E). intros X.
      apply (pieceLoc_setPiece h l p q x E). eapply P; exact X.
    - intros r c r' c' x. rewrite !(cellLoc_setPiece h l p q rows _ _ E). apply U. }
  destruct Shape as (L' & N' & F' & P' & U').
  split.
  - intros r c Hl. pose proof (represents_range h rows b r c l R Hl) as On.
    destruct R as (L & N & F & P & U & C & E8).
    split; [exact L'|]. split; [exact N'|]. split; [exact F'|]. split; [exact P'|].
    split; [exact U'|]. split; [|apply eightByEight_setCell; exact E8].
    intros r' c'. rewrite cell_setCell_eq by exact E8.
    rewrite (cellLoc_setPiece h l p q rows r' c' E).
    assert (On' : isPositionOnBoard (mkPosition r c) = true)
      by (apply isPositionOnBoard_iff; exact On).
    rewrite On'. simpl. destruct ((r' =? r) && (c' =? c)) eqn:Same.
    + apply andb_true_iff in Same as [X Y]. apply Z.eqb_eq in X, Y. subst r' c'.
      rewrite Hl. rewrite (snapPiece_setPiece h l p q l E).
      destruct (decide (l = l)); [reflexivity | contradiction].
    + rewrite C. destruct (cellLoc h rows r' c') as [x|] eqn:Ex; [|reflexivity].
      rewrite (snapPiece_setPiece h l p q x E).
      destruct (decide (x = l)) as [->|]; [|reflexivity].
      destruct (U _ _ _ _ _ Hl Ex) as [<- <-]. rewrite !Z.eqb_refl in Same. discriminate.
  - intros Hnot. destruct R as (L & N & F & P & U & C & E8).
    split; [exact L'|]. split; [exact N'|]. split; [exact F'|]. split; [exact P'|].
    split; [exact U'|]. split; [|exact E8].
    intros r' c'. rewrite (cellLoc_setPiece h l p q rows r' c' E). rewrite C.
    destruct (cellLoc h rows r' c') as [x|] eqn:Ex; [|reflexivity].
    rewrite (snapPiece_setPiece h l p q x E).
    destruct (decide (x = l)) as [->|]; [|reflexivity].
    exfalso. exact (Hnot _ _ Ex).
Qed.

Lemma cellLoc_untouched (h h' : Heap) (rows : list loc) (r c : Z) :
  Forall (rowOfEight h) rows -> boardUntouched h h' ->
  cellLoc h' rows r c = cellLoc h rows r c.
Proof.
  intros F Q. unfold cellLoc.
  destruct (jsIndex rows r) as [rl|] eqn:Er; [|reflexivity].
  rewrite Forall_forall in F.
  destruct (F rl) as (cs & Ecs & _).
  { apply list_elem_of_In. eapply jsIndex_In; exact Er. }
  rewrite (Q rl _ Ecs) by (simpl; lia). rewrite Ecs. reflexivity.
Qed.

Lemma snapPiece_untouched (h h' : Heap) (l : loc) :
  boardUntouched h h' -> pieceLoc h l -> snapPiece h' l = snapPiece h l.
Proof.
  intros Q [p Hp]. unfold snapPiece.
  rewrite (Q l _ Hp) by (simpl; lia). rewrite Hp. reflexivity.
Qed.

Lemma represents_untouched (h h' : Heap) (rows : list loc) (b : Board) :
  represents h rows b -> boardUntouched h h' -> represents h' rows b.
Proof.
  intros (L & N & F & P & U & C & E8) Q.
  assert (CL : forall r c, cellLoc h' rows r c = cellLoc h rows r c).
  { intros r c. apply cellLoc_untouched; assumption. }
  split; [exact L|]. split; [exact N|]. split; [|split; [|split; [|split]]].
  - eapply Forall_impl; [exact F|]. intros rl (cs & Ecs & Lcs).
    exists cs. split; [|exact Lcs]. apply (Q rl _ Ecs). simpl; lia.
  - intros r c l. rewrite CL. intros X. destruct (P r c l X) as [p Hp].
    exists p. apply (Q l _ Hp). simpl; lia.
  - intros r c r' c' l. rewrite !CL. apply U.
  - intros r c. rewrite CL, C. destruct (cellLoc h rows r c) as [l|] eqn:E; [|reflexivity].
    symmetry. apply snapPiece_untouched; [exact Q|]. eapply P; exact E.
  - exact E8.
Qed.

Lemma boardUntouched_refl (h : Heap) : boardUntouched h h.
Proof. intros l o H _. exact H. Qed.

Lemma boardUntouched_trans (h1 h2 h3 : Heap) :
  boardUntouched h1 h2 -> boardUntouched h2 h3 -> boardUntouched h1 h3.
Proof. intros A B l o H K. apply B; [apply A|]; assumption. Qed.

Lemma boardUntouched_app (h e : Heap) : boardUntouched h (h ++ e).
Proof. intros l o H _. apply lookup_app_l_Some. exact H. Qed.

Lemma boardUntouched_insert (h : Heap) (l : loc) (o o' : Obj) :
  h !! l = Some o -> (2 <= kindOf o)%nat -> boardUntouched h (<[l := o']> h).
Proof.
  intros E K x ox Hx Kx. destruct (decide (x = l)) as [->|N].
  - rewrite E in Hx. injection Hx as <-. lia.
  - rewrite list_lookup_insert_ne by congruence. exact Hx.
Qed.

(** *** The deep copy creates a board of its own *)

Lemma copyCell_inv (c c' : option loc) (h h' : Heap) :
  copyCell c h = Some (c', h') ->
  (c = None /\ c' = None /\ h' = h) \/
  (exists l p, c = Some l /\ c' = Some (length h) /\ h' = h ++ [OPiece p]).
Proof.
  destruct c as [l|]; simpl.
  - intros H. apply bind_inv in H as (p & h1 & H1 & H).
    apply getPiece_inv in H1 as [-> _].
    apply bind_inv in H as (l' & h2 & H2 & H).
    unfold alloc in H2. injection H2 as <- <-.
    apply ret_inv in H as [-> ->]. right. exists l, p. auto.
  - intros H. apply ret_inv in H as [-> ->]. left. auto.
Qed.

Lemma copyCells_sep (cells : list (option loc)) :
  forall (h h' : Heap) (cells' : list (option loc)),
  forM copyCell cells h = Some (cells', h') ->
  (exists e, h' = h ++ e) /\
  (forall i l, cells' !! i = Some (Some l) -> (length h <= l < length h')%nat) /\
  (forall i j l, cells' !! i = Some (Some l) -> cells' !! j = Some (Some l) -> i = j).
Proof.
  induction cells as [|c cs IH]; intros h h' cells' H.
  - apply ret_inv in H as [-> ->]. split; [exists []; rewrite app_nil_r; reflexivity|].
    split; [intros i l X | intros i j l X]; rewrite lookup_nil in X; discriminate.
  - cbn [forM] in H. apply bind_inv in H as (y & h1 & H1 & H).
    apply bind_inv in H as (ys & h2 & H2 & H). apply ret_inv in H as [-> ->].
    destruct (IH _ _ _ H2) as ([e2 ->] & B2 & U2).
    assert (X1 : (exists e, h1 = h ++ e) /\
                 forall l, y = Some l -> (length h <= l < length h1)%nat).
    { apply copyCell_inv in H1 as [(_ & -> & ->) | (l0 & p & _ & -> & ->)].
      - split; [exists []; rewrite app_nil_r; reflexivity | discriminate].
      - split; [eexists; reflexivity|]. intros l [= <-].
        rewrite length_app. simpl. lia. }
    destruct X1 as ([e1 ->] & By).
    split; [exists (e1 ++ e2); rewrite app_assoc; reflexivity|].
    assert (Len : (length (h ++ e1) <= length ((h ++ e1) ++ e2))%nat)
      by (rewrite (length_app (h ++ e1)); lia).
    assert (Len0 : (length h <= length (h ++ e1))%nat) by (rewrite length_app; lia).
    split.
    + intros [|i] l X; simpl in X.
      * injection X as ->. specialize (By l eq_refl). lia.
      * specialize (B2 i l X). lia.
    + intros [|i] [|j] l X Y; simpl in X, Y.
      * reflexivity.
      * injection X as ->. specialize (By l eq_refl). specialize (B2 j l Y). lia.
      * injection Y as ->. specialize (By l eq_refl). specialize (B2 i l X). lia.
      * f_equal. eapply U2; eassumption.
Qed.

Lemma copyRow_inv (r rl : loc) (h h' : Heap) :
  copyRow r h = Some (rl, h') ->
  exists cells' h1, (exists e, h1 = h ++ e) /\ rl = length h1 /\
                    h' = h1 ++ [OCells cells'] /\
    (forall i l, cells' !! i = Some (Some l) -> (length h <= l < length h1)%nat) /\
    (forall i j l, cells' !! i = Some (Some l) -> cells' !! j = Some (Some l) -> i = j).
Proof.
  unfold copyRow. intros H. apply bind_inv in H as (cs & h0 & H0 & H).
  apply getCells_inv in H0 as [-> _].
  apply bind_inv in H as (cells' & h1 & H1 & H).
  unfold alloc in H. injection H as <- <-.
  destruct (copyCells_sep _ _ _ _ H1) as (E & B & U).
  exists cells', h1. auto.
Qed.

Lemma copyRows_sep (rows : list loc) :
  forall (h h' : Heap) (rows' : list loc),
  forM copyRow rows h = Some (rows', h') ->
  (exists e, h' = h ++ e) /\
  (forall i rl, rows' !! i = Some rl -> (length h <= rl < length h')%nat) /\
  (forall i rl cs j l, rows' !! i = Some rl -> h' !! rl = Some (OCells cs) ->
                       cs !! j = Some (Some l) -> (length h <= l < length h')%nat) /\
  (forall i i' rl, rows' !! i = Some rl -> rows' !! i' = Some rl -> i = i') /\
  (forall i i' rl rl' cs cs' j j' l,
     rows' !! i = Some rl -> h' !! rl = Some (OCells cs) -> cs !! j = Some (Some l) ->
     rows' !! i' = Some rl' -> h' !! rl' = Some (OCells cs') -> cs' !! j' = Some (Some l) ->
     i = i' /\ j = j').
Proof.
  induction rows as [|r rs IH]; intros h h' rows' H.
  - apply ret_inv in H as [-> ->]. split; [exists []; rewrite app_nil_r; reflexivity|].
    repeat split; intros; rewrite lookup_nil in *; discriminate.
  - cbn [forM] in H. apply bind_inv in H as (y & h1 & H1 & H).
    apply bind_inv in H as (ys & h2 & H2 & H). apply ret_inv in H as [-> ->].
    destruct (IH _ _ _ H2) as ([e2 ->] & RB & CB & RU & CU).
    apply copyRow_inv in H1 as (cells0 & ha & [ea ->] & -> & -> & B0 & U0).
    set (ha := h ++ ea) in *. set (h1 := ha ++ [OCells cells0]) in *.
    assert (La : (length h <= length ha)%nat) by (unfold ha; rewrite length_app; lia).
    assert (L1 : length h1 = S (length ha)) by (unfold h1; rewrite length_app; simpl; lia).
    assert (L2 : (length h1 <= length (h1 ++ e2))%nat) by (rewrite length_app; lia).
    assert (Row0 : (h1 ++ e2) !! length ha = Some (OCells cells0)).
    { apply lookup_app_l_Some. unfold h1. rewrite lookup_app_r by lia.
      rewrite Nat.sub_diag. reflexivity. }
    split.
    { exists (ea ++ [OCells cells0] ++ e2). unfold h1, ha.
      rewrite <- !app_assoc. reflexivity. }
    split; [|split; [|split]].
    + intros [|i] rl X; simpl in X.
      * injection X as <-. lia.
      * specialize (RB i rl X). lia.
    + intros [|i] rl cs j l X Y Z; simpl in X.
      * injection X as <-. rewrite Row0 in Y. injection Y as <-.
        specialize (B0 j l Z). lia.
      * specialize (CB i rl cs j l X Y Z). lia.
    + intros [|i] [|i'] rl X Y; simpl in X, Y.
      * reflexivity.
      * injection X as <-. specialize (RB i' _ Y). lia.
      * injection Y as <-. specialize (RB i _ X). lia.
      * f_equal. eapply RU; eassumption.
    + intros [|i] [|i'] rl rl' cs cs' j j' l X Y Z X' Y' Z'; simpl in X, X'.
      * injection X as <-. injection X' as <-.
        rewrite Row0 in Y, Y'. injection Y as <-. injection Y' as <-.
        split; [reflexivity | eapply U0; eassumption].
      * injection X as <-. rewrite Row0 in Y. injection Y as <-.
        specialize (B0 j l Z). specialize (CB i' rl' cs' j' l X' Y' Z'). lia.
      * injection X' as <-. rewrite Row0 in Y'. injection Y' as <-.
        specialize (B0 j' l Z'). specialize (CB i rl cs j l X Y Z). lia.
      * destruct (CU i i' rl rl' cs cs' j j' l X Y Z X' Y' Z') as [-> ->]. auto.
Qed.

Lemma snapCells_length (h : Heap) (rl : loc) (v : list (option Piece)) :
  snapCells h rl = Some v ->
  exists cs, h !! rl = Some (OCells cs) /\ length cs = length v.
Proof.
  unfold snapCells. destruct (h !! rl) as [[| cs | |]|]; try discriminate.
  intros H. exists cs. split; [reflexivity|].
  apply mapM_Some in H. eapply Forall2_length; exact H.
Qed.

Lemma snapBoard_rows (h : Heap) (rows : list loc) (b : Board) :
  snapBoard h rows = Some b -> eightByEight b -> Forall (rowOfEight h) rows.
Proof.
  intros H [_ F]. apply mapM_Some in H.
  apply Forall_forall. intros rl Hin.
  apply list_elem_of_lookup_1 in Hin as [i Hi].
  destruct (Forall2_lookup_l _ _ _ _ _ H Hi) as (cells & Eb & Hs).
  apply snapCells_length in Hs as (cs & Ecs & Lcs).
  exists cs. split; [exact Ecs|]. rewrite Lcs.
  rewrite Forall_forall in F. apply F. eapply list_elem_of_lookup_2; exact Eb.
Qed.

Lemma jsIndex_lookup {A} (l : list A) (i : Z) (x : A) :
  jsIndex l i = Some x -> l !! Z.to_nat i = Some x /\ 0 <= i.
Proof.
  unfold jsIndex. destruct (i <? 0) eqn:E; [discriminate|].
  apply Z.ltb_ge in E. auto.
Qed.

(** The copy of a board holds the same snapshot in objects of its own. *)
Lemma copyBoard_represents (h h1 : Heap) (rows rows' : list loc) (b : Board) :
  snapBoard h rows = Some b -> eightByEight b ->
  copyBoard rows h = Some (rows', h1) ->
  represents h1 rows' b /\ (exists e, h1 = h ++ e) /\
  (forall r c l, cellLoc h1 rows' r c = Some l -> (length h <= l)%nat).
Proof.
  intros Hb E8 Hc.
  assert (G : goodStore (length h) h).
  { split; [lia|]. intros l cs Hl Hcs. apply lookup_lt_Some in Hcs. lia. }
  destruct (copyBoard_spec (length h) h rows b G Hb) as (rows2 & e & Rc & _ & _ & Sb).
  rewrite Hc in Rc. injection Rc as E1 E2. subst rows2 h1.
  destruct (copyRows_sep rows h (h ++ e) rows' Hc) as (_ & RB & CB & RU & CU).
  pose proof (snapBoard_rows _ _ _ Sb E8) as F.
  assert (Cell : forall r c l, cellLoc (h ++ e) rows' r c = Some l ->
            exists rl cs, rows' !! Z.to_nat r = Some rl /\
                          (h ++ e) !! rl = Some (OCells cs) /\
                          cs !! Z.to_nat c = Some (Some l) /\ 0 <= r /\ 0 <= c).
  { intros r c l H. unfold cellLoc in H.
    destruct (jsIndex rows' r) as [rl|] eqn:Er; [|discriminate].
    apply jsIndex_lookup in Er as [Er Hr].
    destruct ((h ++ e) !! rl) as [[| cs | |]|] eqn:Ecs; try discriminate.
    destruct (jsIndex cs c) as [x|] eqn:Ec; [|discriminate].
    apply jsIndex_lookup in Ec as [Ec Hc']. subst x.
    exists rl, cs. auto. }
  split; [|split; [exists e; reflexivity|]].
  - split; [rewrite (snapBoard_length _ _ _ Sb); apply E8|].
    split; [apply NoDup_alt; intros i j x Hi Hj; eapply RU; eassumption|].
    split; [exact F|]. split; [|split; [|split; [|exact E8]]].
    + intros r c l H.
      destruct (snapBoard_cell _ _ _ r c Sb) as [_ Hp].
      destruct (Hp l H) as [p Ep]. unfold snapPiece in Ep.
      destruct ((h ++ e) !! l) as [[q| | |]|] eqn:El; try discriminate.
      exists q. exact El.
    + intros r c r' c' l H H'.
      destruct (Cell _ _ _ H) as (rl & cs & A1 & A2 & A3 & A4 & A5).
      destruct (Cell _ _ _ H') as (rl' & cs' & B1 & B2 & B3 & B4 & B5).
      destruct (CU _ _ _ _ _ _ _ _ _ A1 A2 A3 B1 B2 B3). lia.
    + intros r c. apply (snapBoard_cell _ _ _ r c Sb).
  - intros r c l H.
    destruct (Cell _ _ _ H) as (rl & cs & A1 & A2 & A3 & _).
    specialize (CB _ _ _ _ _ A1 A2 A3). lia.
Qed.

(** *** Writes to squares, as equations between boards *)

Lemma setCell_twice (b : Board) (r c : Z) (v w : option Piece) :
  eightByEight b -> setCell (setCell b r c v) r c w = setCell b r c w.
Proof.
  intros E8. apply board_ext; [repeat apply eightByEight_setCell; exact E8 ..|].
  intros r' c' _ _.
  rewrite !cell_setCell_eq by (repeat apply eightByEight_setCell; exact E8).
  destruct (_ && _); reflexivity.
Qed.

Lemma setCell_comm (b : Board) (r c r' c' : Z) (v w : option Piece) :
  eightByEight b -> (r <> r' \/ c <> c') ->
  setCell (setCell b r c v) r' c' w = setCell (setCell b r' c' w) r c v.
Proof.
  intros E8 D. apply board_ext; [repeat apply eightByEight_setCell; exact E8 ..|].
  intros x y _ _.
  rewrite !cell_setCell_eq by (repeat apply eightByEight_setCell; exact E8).
  destruct (isPositionOnBoard (mkPosition r' c') && (x =? r') && (y =? c')) eqn:A;
    destruct (isPositionOnBoard (mkPosition r c) && (x =? r) && (y =? c)) eqn:B;
    try reflexivity.
  apply andb_true_iff in A as [A Ac]. apply andb_true_iff in A as [_ Ar].
  apply andb_true_iff in B as [B Bc]. apply andb_true_iff in B as [_ Br].
  apply Z.eqb_eq in Ac, Ar, Bc, Br. lia.
Qed.

Lemma cell_setCell_other (b : Board) (r c : Z) (v : option Piece) (r' c' : Z) :
  eightByEight b -> (r' <> r \/ c' <> c) -> cell (setCell b r c v) r' c' = cell b r' c'.
Proof.
  intros E8 D. rewrite cell_setCell_eq by exact E8.
  destruct (_ && _) eqn:A; [|reflexivity].
  apply andb_true_iff in A as [A Ac]. apply andb_true_iff in A as [_ Ar].
  apply Z.eqb_eq in Ac, Ar. lia.
Qed.

Lemma cell_setCell_same (b : Board) (r c : Z) (v : option Piece) :
  eightByEight b -> isPositionOnBoard (mkPosition r c) = true ->
  cell (setCell b r c v) r c = v.
Proof.
  intros E8 On. rewrite cell_setCell_eq by exact E8.
  rewrite On, !Z.eqb_refl. reflexivity.
Qed.

Lemma eightByEight_rookHop (b : Board) (br fc tc : Z) :
  eightByEight b -> eightByEight (rookHop b br fc tc).
Proof.
  intros E8. unfold rookHop. destruct (cell b br fc); [|exact E8].
  repeat apply eightByEight_setCell. exact E8.
Qed.

Lemma rookHop_setCell_comm (b : Board) (br fc tc r c : Z) (v : option Piece) :
  eightByEight b -> (r <> br \/ c <> fc) -> (r <> br \/ c <> tc) ->
  setCell (rookHop b br fc tc) r c v = rookHop (setCell b r c v) br fc tc.
Proof.
  intros E8 D1 D2. unfold rookHop.
  rewrite (cell_setCell_other b r c v br fc E8) by lia.
  destruct (cell b br fc) as [rk|]; [|reflexivity].
  rewrite (setCell_comm _ br fc r c) by (try apply eightByEight_setCell; auto; lia).
  rewrite (setCell_comm b br tc r c) by (auto; lia). reflexivity.
Qed.

(** *** The steps of [executeMove] on the represented board *)

Lemma moveRook_represents (h h' : Heap) (rows : list loc) (b : Board)
    (br fc tc : Z) :
  represents h rows b -> 0 <= br <= 7 -> 0 <= tc <= 7 -> fc <> tc ->
  moveRook rows br fc tc h = Some (tt, h') ->
  represents h' rows (rookHop b br fc tc) /\
  (forall r c, (r <> br \/ c <> fc) -> (r <> br \/ c <> tc) ->
               cellLoc h' rows r c = cellLoc h rows r c) /\
  (forall l, cellLoc h rows br fc <> Some l -> snapPiece h' l = snapPiece h l).
Proof.
  intros R Hbr Htc Hne H. unfold moveRook in H.
  apply bind_inv in H as (rk_ & h0 & H0 & H).
  apply boardGetStrict_inv in H0 as [-> ->].
  pose proof R as (L & N & F & P & U & C & E8).
  unfold rookHop. rewrite C.
  destruct (cellLoc h rows br fc) as [rk|] eqn:Erk.
  2:{ apply ret_inv in H as [_ ->]. auto. }
  destruct (P _ _ _ Erk) as [q Hq].
  assert (Sq : snapPiece h rk = Some q) by (unfold snapPiece; rewrite Hq; reflexivity).
  rewrite Sq.
  apply bind_inv in H as ([] & h1 & H1 & H).
  apply bind_inv in H as ([] & h2 & H2 & H).
  destruct (represents_relocate h h1 h2 rows b br fc br tc rk R Erk H1 H2)
    as (R2 & SP2 & CL2).
  assert (On : isPositionOnBoard (mkPosition br tc) = true)
    by (apply isPositionOnBoard_iff; simpl; lia).
  assert (At2 : cellLoc h2 rows br tc = Some rk).
  { rewrite CL2, On, !Z.eqb_refl.
    assert ((tc =? fc) = false) as -> by (apply Z.eqb_neq; lia).
    rewrite andb_false_r. reflexivity. }
  apply bind_inv in H as ([] & h3 & H3 & H).
  apply updatePiece_inv in H3 as (q3 & E3 & ->).
  assert (q3 = q) as ->.
  { specialize (SP2 rk). unfold snapPiece in SP2. rewrite E3, Hq in SP2. congruence. }
  destruct (represents_mutate h2 rows _ rk q
              (mkPiece (type q) (color q) (mkPosition br tc) (hasMoved q)) R2 E3)
    as [R3 _].
  specialize (R3 br tc At2).
  apply updatePiece_inv in H as (q4 & E4 & ->).
  rewrite list_lookup_insert_eq in E4 by (eapply lookup_lt_Some; exact E3).
  injection E4 as <-. simpl.
  match type of R3 with represents ?h3 _ _ =>
    assert (E3' : h3 !! rk = Some (OPiece (mkPiece (type q) (color q)
                                            (mkPosition br tc) (hasMoved q))))
      by (apply list_lookup_insert_eq; eapply lookup_lt_Some; exact E3);
    assert (At3 : cellLoc h3 rows br tc = Some rk)
      by (rewrite (cellLoc_setPiece h2 rk q _ rows br tc E3); exact At2)
  end.
  destruct (represents_mutate _ rows _ rk _
              (mkPiece (type q) (color q) (mkPosition br tc) true) R3 E3')
    as [R4 _].
  specialize (R4 br tc At3).
  split; [|split].
  - rewrite C, Erk, Sq in R4.
    rewrite !setCell_twice in R4
      by (repeat apply eightByEight_setCell; exact E8).
    rewrite (setCell_comm _ br fc br tc) in R4
      by (try apply eightByEight_setCell; auto; lia).
    rewrite !setCell_twice in R4
      by (repeat apply eightByEight_setCell; exact E8).
    exact R4.
  - intros r c D1 D2.
    rewrite (cellLoc_setPiece _ rk _ _ rows r c E3').
    rewrite (cellLoc_setPiece h2 rk q _ rows r c E3). rewrite CL2.
    assert (A : (r =? br) && (c =? fc) = false).
    { apply andb_false_iff. rewrite !Z.eqb_neq. lia. }
    assert (B : (r =? br) && (c =? tc) = false).
    { apply andb_false_iff. rewrite !Z.eqb_neq. lia. }
    rewrite A, <- andb_assoc, B, andb_false_r. reflexivity.
  - intros l Hl.
    rewrite (snapPiece_setPiece _ rk _ _ l E3').
    destruct (decide (l = rk)) as [->|Nl]; [congruence|].
    rewrite (snapPiece_setPiece h2 rk q _ l E3).
    destruct (decide (l = rk)); [contradiction|]. apply SP2.
Qed.

Lemma cellLoc_lookup (h : Heap) (rows : list loc) (i j : nat) (rl : loc)
    (cs : list (option loc)) (x : option loc) :
  rows !! i = Some rl -> h !! rl = Some (OCells cs) -> cs !! j = Some x ->
  cellLoc h rows (Z.of_nat i) (Z.of_nat j) = x.
Proof.
  intros Hi Hrl Hj. unfold cellLoc, jsIndex.
  assert ((Z.of_nat i <? 0) = false) as -> by (apply Z.ltb_ge; lia).
  rewrite Nat2Z.id, Hi, Hrl.
  assert ((Z.of_nat j <? 0) = false) as -> by (apply Z.ltb_ge; lia).
  rewrite Nat2Z.id, Hj. reflexivity.
Qed.

(** The snapshot of a represented board is that board. *)
Lemma represents_snapBoard (h : Heap) (rows : list loc) (b : Board) :
  represents h rows b -> snapBoard h rows = Some b.
Proof.
  intros (L & N & F & P & U & C & E8).
  assert (S : is_Some (snapBoard h rows)).
  { apply mapM_is_Some. apply Forall_forall. intros rl Hin.
    apply list_elem_of_lookup_1 in Hin as [i Hi].
    rewrite Forall_forall in F.
    destruct (F rl (list_elem_of_lookup_2 _ _ _ Hi)) as (cs & Ecs & Lcs).
    simpl. unfold snapCells. rewrite Ecs. apply mapM_is_Some.
    apply Forall_forall. intros x Hx.
    apply list_elem_of_lookup_1 in Hx as [j Hj]. simpl.
    destruct x as [l|]; simpl; [|eauto].
    pose proof (cellLoc_lookup h rows i j rl cs _ Hi Ecs Hj) as X.
    destruct (P _ _ _ X) as [q Hq]. unfold snapPiece. rewrite Hq. eauto. }
  destruct S as [b' Hb']. rewrite Hb'. f_equal.
  apply board_ext; [|exact E8|].
  - split; [rewrite <- (snapBoard_length _ _ _ Hb'); exact L|].
    apply mapM_Some in Hb'. apply Forall_forall. intros cells Hin.
    apply list_elem_of_lookup_1 in Hin as [i Hi].
    destruct (Forall2_lookup_r _ _ _ _ _ Hb' Hi) as (rl & Hrl & Hs).
    apply snapCells_length in Hs as (cs & Ecs & Lcs). rewrite <- Lcs.
    rewrite Forall_forall in F.
    destruct (F rl (list_elem_of_lookup_2 _ _ _ Hrl)) as (cs' & Ecs' & Lcs').
    congruence.
  - intros r c _ _. rewrite C. apply (snapBoard_cell _ _ _ r c Hb').
Qed.

(** The capture: the piece beside the mover is taken off the board for an
    en-passant move, otherwise the piece on the destination is the one
    captured. *)
Lemma capture_represents (h1 h2 : Heap) (rows : list loc) (b : Board) (m : Move)
    (pc : loc) (cap : option loc) :
  represents h1 rows b ->
  cellLoc h1 rows (row (from m)) (col (from m)) = Some pc ->
  (row (to m) <> row (from m) \/ col (to m) <> col (from m)) ->
  (isEnPassant m = true -> col (to m) <> col (from m)) ->
  (if isEnPassant m then
     cp ← boardGet rows (row (from m)) (col (to m));
     match cp with
     | Some _ => _ ← boardSet rows (row (from m)) (col (to m)) None; mret cp
     | None => mret cp
     end
   else mret (cellLoc h1 rows (row (to m)) (col (to m)))) h1 = Some (cap, h2) ->
  represents h2 rows
    (if isEnPassant m then
       match cell b (row (from m)) (col (to m)) with
       | Some _ => setCell b (row (from m)) (col (to m)) None
       | None => b
       end
     else b) /\
  cellLoc h2 rows (row (from m)) (col (from m)) = Some pc /\
  (forall l, snapPiece h2 l = snapPiece h1 l) /\
  snapCell h2 cap = Some (capturedBy m b) /\
  cap <> Some pc /\
  (forall r c l, cap = Some l -> cellLoc h2 rows r c = Some l ->
                 r = row (to m) /\ c = col (to m)).
Proof.
  intros R Hpc Hne Hep H.
  pose proof R as (L & N & F & P & U & C & E8).
  unfold capturedBy. destruct (isEnPassant m) eqn:Eep.
  - specialize (Hep eq_refl).
    apply bind_inv in H as (cp & h0 & H0 & H).
    apply boardGet_inv in H0 as [-> ->]. rewrite C.
    destruct (cellLoc h1 rows (row (from m)) (col (to m))) as [c|] eqn:Ec.
    + apply bind_inv in H as ([] & h3 & H3 & H). apply ret_inv in H as [-> ->].
      destruct (represents_clear _ _ _ _ _ _ R H3) as (R2 & SP & CL).
      destruct (P _ _ _ Ec) as [q Hq].
      assert (Sq : snapPiece h1 c = Some q) by (unfold snapPiece; rewrite Hq; reflexivity).
      rewrite Sq. split; [exact R2|]. split; [|split; [exact SP|split; [|split]]].
      * rewrite CL.
        assert ((col (from m) =? col (to m)) = false) as ->
          by (apply Z.eqb_neq; lia).
        rewrite andb_false_r. exact Hpc.
      * simpl. rewrite SP, Sq. reflexivity.
      * intros [= ->]. destruct (U _ _ _ _ _ Ec Hpc) as [_ X]. lia.
      * intros r k l [= <-]. rewrite CL.
        destruct (_ && _) eqn:A; [discriminate|]. intros X.
        destruct (U _ _ _ _ _ Ec X) as [<- <-].
        pose proof (represents_range _ _ _ _ _ _ R Ec) as On.
        apply (proj2 (isPositionOnBoard_iff (mkPosition _ _))) in On.
        rewrite On, !Z.eqb_refl in A. discriminate.
    + apply ret_inv in H as [-> ->].
      split; [exact R|]. split; [exact Hpc|]. split; [reflexivity|].
      split; [reflexivity|]. split; [discriminate|]. intros r k l X. discriminate.
  - apply ret_inv in H as [-> ->].
    split; [exact R|]. split; [exact Hpc|]. split; [reflexivity|].
    split; [|split].
    + rewrite C. destruct (cellLoc h1 rows (row (to m)) (col (to m))) as [c|] eqn:Ec;
        [|reflexivity].
      simpl. destruct (P _ _ _ Ec) as [q Hq]. unfold snapPiece. rewrite Hq. reflexivity.
    + intros X. destruct (U _ _ _ _ _ X Hpc). lia.
    + intros r k l X Y. destruct (U _ _ _ _ _ X Y). auto.
Qed.

(** The relocation: the mover is stored on the destination, removed from
    the source, and its position and [hasMoved] fields are assigned. *)
Lemma relocation_represents (h2 h3 h4 h5 h6 : Heap) (rows : list loc) (b : Board)
    (pc : loc) (p : Piece) (from_ to_ : Position) :
  represents h2 rows b ->
  cellLoc h2 rows (row from_) (col from_) = Some pc ->
  h2 !! pc = Some (OPiece p) ->
  isPositionOnBoard to_ = true ->
  (row to_ <> row from_ \/ col to_ <> col from_) ->
  boardSet rows (row to_) (col to_) (Some pc) h2 = Some (tt, h3) ->
  boardSet rows (row from_) (col from_) None h3 = Some (tt, h4) ->
  setPosition pc to_ h4 = Some (tt, h5) ->
  setHasMoved pc true h5 = Some (tt, h6) ->
  represents h6 rows
    (setCell (setCell b (row to_) (col to_)
                (Some (mkPiece (type p) (color p) to_ true)))
             (row from_) (col from_) None) /\
  cellLoc h6 rows (row to_) (col to_) = Some pc /\
  h6 !! pc = Some (OPiece (mkPiece (type p) (color p) to_ true)) /\
  (forall l, l <> pc -> snapPiece h6 l = snapPiece h2 l) /\
  (forall r c l, cellLoc h6 rows r c = Some l ->
                 l = pc \/ (cellLoc h2 rows r c = Some l /\
                            (r <> row to_ \/ c <> col to_))).
Proof.
  intros R Hpc Ep On Hne H3 H4 H5 H6.
  pose proof R as (L & N & F & P & U & C & E8).
  destruct (represents_relocate h2 h3 h4 rows b _ _ _ _ pc R Hpc H3 H4)
    as (R4 & SP4 & CL4).
  assert (On' : isPositionOnBoard (mkPosition (row to_) (col to_)) = true) by exact On.
  assert (NotFrom : (row to_ =? row from_) && (col to_ =? col from_) = false).
  { apply andb_false_iff. rewrite !Z.eqb_neq. exact Hne. }
  assert (At4 : cellLoc h4 rows (row to_) (col to_) = Some pc).
  { rewrite CL4, NotFrom, On', !Z.eqb_refl. reflexivity. }
  assert (Sp : cell b (row from_) (col from_) = Some p).
  { rewrite C, Hpc. unfold snapPiece. rewrite Ep. reflexivity. }
  rewrite Sp in R4.
  apply updatePiece_inv in H5 as (p4 & E4 & ->).
  assert (p4 = p) as ->.
  { specialize (SP4 pc). unfold snapPiece in SP4. rewrite E4, Ep in SP4. congruence. }
  destruct (represents_mutate h4 rows _ pc p
              (mkPiece (type p) (color p) to_ (hasMoved p)) R4 E4) as [R5 _].
  specialize (R5 _ _ At4).
  apply updatePiece_inv in H6 as (p5 & E5 & ->).
  rewrite list_lookup_insert_eq in E5 by (eapply lookup_lt_Some; exact E4).
  injection E5 as <-. cbn [type color position hasMoved].
  match type of R5 with represents ?h5 _ _ =>
    assert (E5 : h5 !! pc = Some (OPiece (mkPiece (type p) (color p) to_ (hasMoved p))))
      by (apply list_lookup_insert_eq; eapply lookup_lt_Some; exact E4);
    assert (At5 : cellLoc h5 rows (row to_) (col to_) = Some pc)
      by (rewrite (cellLoc_setPiece h4 pc p _ rows _ _ E4); exact At4)
  end.
  destruct (represents_mutate _ rows _ pc _
              (mkPiece (type p) (color p) to_ true) R5 E5) as [R6 _].
  specialize (R6 _ _ At5).
  split; [|split; [|split; [|split]]].
  - rewrite !setCell_twice in R6 by (repeat apply eightByEight_setCell; exact E8).
    rewrite (setCell_comm _ (row from_) (col from_) (row to_) (col to_)) in R6
      by (try apply eightByEight_setCell; auto; lia).
    rewrite !setCell_twice in R6 by (repeat apply eightByEight_setCell; exact E8).
    exact R6.
  - rewrite (cellLoc_setPiece _ pc _ _ rows _ _ E5). exact At5.
  - apply list_lookup_insert_eq. rewrite length_insert. eapply lookup_lt_Some; exact E4.
  - intros l Nl. rewrite (snapPiece_setPiece _ pc _ _ l E5).
    destruct (decide (l = pc)); [contradiction|].
    rewrite (snapPiece_setPiece h4 pc p _ l E4).
    destruct (decide (l = pc)); [contradiction|]. apply SP4.
  - intros r c l. rewrite (cellLoc_setPiece _ pc _ _ rows _ _ E5).
    rewrite (cellLoc_setPiece h4 pc p _ rows _ _ E4). rewrite CL4.
    destruct ((r =? row from_) && (c =? col from_)); [discriminate|].
    rewrite On'. simpl.
    destruct ((r =? row to_) && (c =? col to_)) eqn:A.
    + intros [= <-]. left; reflexivity.
    + intros X. right. split; [exact X|].
      apply andb_false_iff in A. rewrite !Z.eqb_neq in A. exact A.
Qed.

Lemma flag_round (h h1 h2 : Heap) (l : loc) (o o' : StateObj) (s : GameState) :
  h !! l = Some (OState o) ->
  snapshot l h = Some (s, h1) -> setState l o' h1 = Some (tt, h2) ->
  snapStateObj h o = Some s /\ h2 !! l = Some (OState o') /\
  (forall x, snapStateObj h2 x = snapStateObj h x) /\
  (forall l' ox, h !! l' = Some ox -> l' <> l -> h2 !! l' = Some ox).
Proof.
  intros E S W. unfold snapshot, snapState in S. rewrite E in S.
  destruct (snapStateObj h o) as [s'|]; [|discriminate]. injection S as <- <-.
  destruct (setState_snapshot h l o o' E) as (W' & E' & X).
  rewrite W' in W. injection W as <-.
  split; [reflexivity|]. split; [exact E'|]. split; [exact X|].
  intros l' ox Hl N. rewrite list_lookup_insert_ne by congruence. exact Hl.
Qed.

(** The last part of [executeMove]: the captured pieces, the new state
    object and its three status flags. *)
Lemma finish_inv (h8 h' : Heap) (capsLoc : loc) (cap : option loc)
    (rows : list loc) (turn : PieceColor) (histR : list MoveRef) (em : MoveRef)
    (cnt : Z) (st' : loc) :
  (oldCaptured ← getPieces capsLoc;
   newCapturedPieces ← alloc (OPieces oldCaptured);
   _ ← (match cap with
        | Some c => setPieces newCapturedPieces (oldCaptured ++ [c])
        | None => mret tt
        end);
   newState ← alloc (OState (mkStateObj rows turn histR newCapturedPieces
                               false false false cnt (Some em)));
   s1 ← snapshot newState;
   _ ← setState newState
         (mkStateObj rows turn histR newCapturedPieces
            (isInCheck turn s1) false false cnt (Some em));
   s2 ← snapshot newState;
   _ ← setState newState
         (mkStateObj rows turn histR newCapturedPieces
            (isInCheck turn s1) (isCheckmate turn s2) false cnt (Some em));
   s3 ← snapshot newState;
   _ ← setState newState
         (mkStateObj rows turn histR newCapturedPieces
            (isInCheck turn s1) (isCheckmate turn s2) (isStalemate s3)
            cnt (Some em));
   mret newState) h8 = Some (st', h') ->
  exists ps newCaps s1 s2 s3,
    h8 !! capsLoc = Some (OPieces ps) /\
    extends h8 h' /\
    h' !! newCaps = Some (OPieces (ps ++ match cap with
                                         | Some c => [c]
                                         | None => []
                                         end)) /\
    snapStateObj h' (mkStateObj rows turn histR newCaps false false false
                       cnt (Some em)) = Some s1 /\
    snapStateObj h' (mkStateObj rows turn histR newCaps (isInCheck turn s1)
                       false false cnt (Some em)) = Some s2 /\
    snapStateObj h' (mkStateObj rows turn histR newCaps (isInCheck turn s1)
                       (isCheckmate turn s2) false cnt (Some em)) = Some s3 /\
    h' !! st' = Some (OState (mkStateObj rows turn histR newCaps
                                (isInCheck turn s1) (isCheckmate turn s2)
                                (isStalemate s3) cnt (Some em))).
Proof.
  intros H.
  apply bind_inv in H as (ps & h0 & H0 & H).
  unfold getPieces in H0.
  destruct (h8 !! capsLoc) as [[| | ps0 |]|] eqn:Ecaps; try discriminate.
  injection H0 as <- <-.
  apply bind_inv in H as (newCaps & h9 & H9 & H).
  unfold alloc in H9. injection H9 as <- <-.
  apply bind_inv in H as ([] & h10 & H10 & H).
  set (capL := match cap with Some c => [c] | None => [] end).
  assert (X10 : length h10 = S (length h8) /\
                h10 !! length h8 = Some (OPieces (ps0 ++ capL)) /\
                extends h8 h10).
  { unfold capL. destruct cap as [c|].
    - unfold setPieces in H10. rewrite lookup_app_r in H10 by lia.
      rewrite Nat.sub_diag in H10. simpl in H10. injection H10 as <-.
      split; [|split].
      + rewrite length_insert, length_app. simpl. lia.
      + apply list_lookup_insert_eq. rewrite length_app. simpl. lia.
      + intros l o Hl. apply lookup_lt_Some in Hl as Hlt.
        rewrite list_lookup_insert_ne by lia. apply lookup_app_l_Some. exact Hl.
    - apply ret_inv in H10 as [_ ->].
      split; [rewrite length_app; simpl; lia|]. split.
      + rewrite lookup_app_r by lia. rewrite Nat.sub_diag. simpl.
        rewrite app_nil_r. reflexivity.
      + apply extends_app. }
  destruct X10 as (L10 & C10 & X10).
  apply bind_inv in H as (newState & h11 & H11 & H).
  unfold alloc in H11. injection H11 as <- <-.
  match type of H with
  | context [h10 ++ [OState ?o]] =>
      assert (E11 : (h10 ++ [OState o]) !! length h10 = Some (OState o))
        by (rewrite lookup_app_r by lia; rewrite Nat.sub_diag; reflexivity)
  end.
  assert (X11 : extends h10 (h10 ++ [OState (mkStateObj rows turn histR (length h8)
                                            false false false cnt (Some em))]))
    by apply extends_app.
  revert E11 X11 H. generalize (h10 ++ [OState (mkStateObj rows turn histR (length h8)
                                            false false false cnt (Some em))]).
  intros h11 E11 X11 H.
  apply bind_inv in H as (s1 & h11' & S1 & H).
  apply bind_inv in H as ([] & h12 & W1 & H).
  destruct (flag_round _ _ _ _ _ _ _ E11 S1 W1) as (Es1 & E12 & Y1 & K1).
  apply bind_inv in H as (s2 & h12' & S2 & H).
  apply bind_inv in H as ([] & h13 & W2 & H).
  destruct (flag_round _ _ _ _ _ _ _ E12 S2 W2) as (Es2 & E13 & Y2 & K2).
  apply bind_inv in H as (s3 & h13' & S3 & H).
  apply bind_inv in H as ([] & h14 & W3 & H).
  destruct (flag_round _ _ _ _ _ _ _ E13 S3 W3) as (Es3 & E14 & Y3 & K3).
  apply ret_inv in H as [-> ->].
  exists ps0, (length h8), s1, s2, s3.
  split; [reflexivity|].
  assert (Keep : forall l o, h10 !! l = Some o -> h14 !! l = Some o).
  { intros l o Hl. apply lookup_lt_Some in Hl as Hlt.
    apply K3; [|lia]. apply K2; [|lia]. apply K1; [|lia]. apply X11. exact Hl. }
  split; [|split; [|split; [|split; [|split]]]].
  - intros l o Hl. apply Keep, X10. exact Hl.
  - apply Keep. exact C10.
  - rewrite Y3, Y2, Y1. exact Es1.
  - rewrite Y3, Y2. exact Es2.
  - rewrite Y3. exact Es3.
  - exact E14.
Qed.

Lemma setCell_overwrite_moved (b : Board) (r0 c0 r1 c1 : Z) (v w : option Piece) :
  eightByEight b -> (r1 <> r0 \/ c1 <> c0) ->
  setCell (setCell (setCell b r1 c1 v) r0 c0 None) r1 c1 w
  = setCell (setCell b r1 c1 w) r0 c0 None.
Proof.
  intros E8 D.
  rewrite (setCell_comm _ r0 c0 r1 c1) by (try apply eightByEight_setCell; auto; lia).
  rewrite setCell_twice by exact E8. reflexivity.
Qed.

Lemma snapMove_fields (h : Heap) (move : MoveRef) (m : Move) :
  snapMove h move = Some m ->
  mfrom move = from m /\ mto move = to m /\
  misEnPassant move = isEnPassant m /\ misCastling move = isCastling m /\
  mpromotionType move = promotionType m /\
  snapPiece h (mpiece move) = Some (piece m).
Proof.
  unfold snapMove. destruct (snapPiece h (mpiece move)) as [pm|]; [|discriminate].
  destruct (snapCell h (mcapturedPiece move)); [|discriminate].
  intros [= <-]. simpl. auto 10.
Qed.

(** [executeMove] over the store returns the state that [stateAfter]
    describes, whenever the mover leaves its square for another square of
    the board, an en-passant move changes column, and a castling move ends
    on the column where castling ends. *)
Lemma executeMoveH_exact (h : Heap) (st : loc) (move : MoveRef) (s : GameState)
    (m : Move) (p : Piece) :
  snapState h st = Some s -> snapMove h move = Some m ->
  eightByEight (board s) ->
  cell (board s) (row (from m)) (col (from m)) = Some p ->
  isPositionOnBoard (to m) = true ->
  (row (to m) <> row (from m) \/ col (to m) <> col (from m)) ->
  (isEnPassant m = true -> col (to m) <> col (from m)) ->
  (isCastling m = true -> col (to m) = 6 \/ col (to m) = 2) ->
  exists st' h', executeMoveH move st h = Some (st', h') /\
                 snapState h' st' = Some (stateAfter m s p) /\ extends h h'.
Proof.
  intros Hs Hm E8 Hfrom On Hne Hep Hcas.
  assert (Hto : 0 <= row (to m) <= 7) by (apply isPositionOnBoard_iff in On; tauto).
  destruct (executeMoveH_spec h st move s m p Hs Hm (proj1 E8) Hfrom Hto)
    as (st' & h' & s' & R & _ & _ & _ & X).
  exists st', h'. split; [exact R|]. split; [|exact X]. clear s'.
  destruct (snapMove_fields h move m Hm) as (Ff & Ft & Fe & Fc & Fp & Fpm).
  unfold snapState in Hs.
  destruct (h !! st) as [[| | |o]|] eqn:Hst; try discriminate.
  unfold snapStateObj in Hs.
  destruct (snapBoard h (sboard o)) as [b|] eqn:Eb; [|discriminate].
  destruct (mapM (snapMove h) (smoveHistory o)) as [hist|] eqn:Eh; [|discriminate].
  destruct (snapPieces h (scapturedPieces o)) as [caps|] eqn:Ecaps; [|discriminate].
  destruct (snapLastMove h (slastMove o)) as [lm|]; [|discriminate].
  injection Hs as <-. cbn [board] in *.
  (* the run, step by step *)
  unfold executeMoveH in R. rewrite Ff, Ft, Fe, Fc, Fp in R.
  apply bind_inv in R as (o' & h0 & G0 & R).
  unfold getState in G0. rewrite Hst in G0. injection G0 as <- <-.
  apply bind_inv in R as (rows & h1 & Hc & R).
  destruct (copyBoard_represents h h1 (sboard o) rows b Eb E8 Hc) as (R1 & _ & _).
  apply bind_inv in R as (pc_ & h1' & G1 & R). apply boardGet_inv in G1 as [-> ->].
  destruct (represents_piece _ _ _ _ _ _ R1 Hfrom) as (pc & Epc & Hpc).
  rewrite Epc in R.
  apply bind_inv in R as (tp & h1' & G2 & R). apply boardGet_inv in G2 as [-> ->].
  apply bind_inv in R as (cap & h2 & Hcap & R).
  destruct (capture_represents h1 h2 rows b m pc cap R1 Epc Hne Hep Hcap)
    as (R2 & Epc2 & SP2 & Scap & Ncap & Capat).
  assert (Hpc2 : h2 !! pc = Some (OPiece p)).
  { destruct R2 as (_ & _ & _ & P2 & _). destruct (P2 _ _ _ Epc2) as [q Hq].
    specialize (SP2 pc). unfold snapPiece in SP2. rewrite Hq, Hpc in SP2. congruence. }
  apply bind_inv in R as ([] & h3 & H3 & R).
  apply bind_inv in R as ([] & h4 & H4 & R).
  apply bind_inv in R as ([] & h5 & H5 & R).
  apply bind_inv in R as ([] & h6 & H6 & R).
  destruct (relocation_represents h2 h3 h4 h5 h6 rows _ pc p (from m) (to m)
              R2 Epc2 Hpc2 On Hne H3 H4 H5 H6) as (R6 & At6 & E6 & SP6 & CL6).
  set (B1 := if isEnPassant m then
               match cell b (row (from m)) (col (to m)) with
               | Some _ => setCell b (row (from m)) (col (to m)) None
               | None => b
               end
             else b) in *.
  assert (E81 : eightByEight B1) by apply R2.
  set (pB := mkPiece (type p) (color p) (to m) true) in *.
  assert (CapOff : forall l r c, cap = Some l -> cellLoc h6 rows r c <> Some l).
  { intros l r c -> Y. destruct (CL6 _ _ _ Y) as [-> | [Y2 D]]; [congruence|].
    destruct (Capat _ _ _ eq_refl Y2). lia. }
  (* castling *)
  apply bind_inv in R as ([] & h7 & H7 & R).
  set (B6 := setCell (setCell B1 (row (to m)) (col (to m)) (Some pB))
                     (row (from m)) (col (from m)) None) in *.
  assert (S7 : represents h7 rows
                 (if isCastling m then
                    if col (to m) =? 6 then rookHop B6 (backRankOf (color p)) 7 5
                    else rookHop B6 (backRankOf (color p)) 0 3
                  else B6) /\
               cellLoc h7 rows (row (to m)) (col (to m)) = Some pc /\
               snapPiece h7 pc = Some pB /\
               (forall l, cap = Some l -> snapPiece h7 l = snapPiece h6 l)).
  { assert (Sp6 : snapPiece h6 pc = Some pB)
      by (unfold snapPiece; rewrite E6; reflexivity).
    destruct (isCastling m) eqn:Ecas.
    - specialize (Hcas eq_refl).
      apply bind_inv in H7 as (q & h6' & G6 & H7).
      apply getPiece_inv in G6 as [-> G6]. rewrite E6 in G6. injection G6 as <-.
      cbv zeta in H7. cbn [color] in H7.
      assert (Hbr : 0 <= backRankOf (color p) <= 7) by (destruct (color p); simpl; lia).
      assert (NotPc : forall fc, fc <> col (to m) ->
                cellLoc h6 rows (backRankOf (color p)) fc <> Some pc).
      { intros fc Hfc Y. destruct R6 as (_ & _ & _ & _ & U6 & _).
        destruct (U6 _ _ _ _ _ Y At6). lia. }
      destruct (col (to m) =? 6) eqn:K.
      + apply Z.eqb_eq in K.
        destruct (moveRook_represents h6 h7 rows B6 _ 7 5 R6 Hbr ltac:(lia) ltac:(lia) H7)
          as (R7 & CL7 & SP7).
        split; [exact R7|]. split; [rewrite CL7 by lia; exact At6|].
        split; [rewrite SP7; [exact Sp6 | apply NotPc; lia]|].
        intros l Hl. apply SP7. apply CapOff. exact Hl.
      + apply Z.eqb_neq in K.
        destruct (moveRook_represents h6 h7 rows B6 _ 0 3 R6 Hbr ltac:(lia) ltac:(lia) H7)
          as (R7 & CL7 & SP7).
        split; [exact R7|]. split; [rewrite CL7 by lia; exact At6|].
        split; [rewrite SP7; [exact Sp6 | apply NotPc; lia]|].
        intros l Hl. apply SP7. apply CapOff. exact Hl.
    - apply ret_inv in H7 as [_ ->]. auto. }
  destruct S7 as (R7 & At7 & Sp7 & Cap7).
  (* promotion *)
  apply bind_inv in R as ([] & h8 & H8 & R).
  assert (S8 : represents h8 rows (boardAfter m b p) /\
               (forall l, cap = Some l -> snapPiece h8 l = snapPiece h7 l)).
  { assert (E7 : h7 !! pc = Some (OPiece pB)).
    { unfold snapPiece in Sp7. destruct (h7 !! pc) as [[q| | |]|]; congruence. }
    unfold boardAfter. fold B1. unfold arrivedPiece.
    destruct (promotionType m) as [t|] eqn:Epro.
    - apply updatePiece_inv in H8 as (q & G7 & ->).
      rewrite E7 in G7. injection G7 as <-. cbn [color position hasMoved pB].
      destruct (represents_mutate h7 rows _ pc pB
                  (mkPiece (promotedType t) (color p) (to m) true) R7 E7) as [R8 _].
      specialize (R8 _ _ At7). split.
      + destruct (isCastling m) eqn:Ecas.
        * specialize (Hcas eq_refl).
          destruct (col (to m) =? 6) eqn:K;
            [apply Z.eqb_eq in K | apply Z.eqb_neq in K];
            rewrite rookHop_setCell_comm in R8
              by (try (repeat apply eightByEight_setCell; exact E81); lia);
            unfold B6 in R8;
            rewrite setCell_overwrite_moved in R8 by (auto; lia);
            exact R8.
        * unfold B6 in R8.
          rewrite setCell_overwrite_moved in R8 by (auto; lia). exact R8.
      + intros l Hl. rewrite (snapPiece_setPiece h7 pc pB _ l E7).
        destruct (decide (l = pc)) as [->|]; [congruence | reflexivity].
    - apply ret_inv in H8 as [_ ->]. split; [exact R7 | reflexivity]. }
  destruct S8 as (R8 & Cap8).
  (* captured pieces, state object, status flags *)
  cbv zeta in R.
  apply finish_inv in R as (ps & newCaps & s1 & s2 & s3 & Gps & X8 & Ecap' & Es1 & Es2 & Es3 & Est).
  assert (Snap : forall f1 f2 f3,
            snapStateObj h'
              (mkStateObj rows (oppositeColor (scurrentTurn o))
                 (smoveHistory o ++
                  [mkMoveRef (from m) (to m) (mpiece move) cap (isEnPassant m)
                     (isCastling m) (promotionType m)])
                 newCaps f1 f2 f3 (smoveCount o + 1)
                 (Some (mkMoveRef (from m) (to m) (mpiece move) cap (isEnPassant m)
                          (isCastling m) (promotionType m))))
            = Some (mkGameState (boardAfter m b p) (oppositeColor (scurrentTurn o))
                      (hist ++ [executedMove m b])
                      (caps ++ match capturedBy m b with
                               | Some c => [c]
                               | None => []
                               end)
                      f1 f2 f3 (smoveCount o + 1) (Some (executedMove m b)))).
  { intros f1 f2 f3. unfold snapStateObj. cbn [sboard smoveHistory scapturedPieces slastMove
      scurrentTurn sisCheck sisCheckmate sisStalemate smoveCount].
    rewrite (snapBoard_extends h8 h' rows _ X8 (represents_snapBoard _ _ _ R8)).
    assert (Scap' : snapCell h' cap = Some (capturedBy m b)).
    { destruct cap as [c|].
      - simpl in Scap |- *.
        assert (Sc8 : snapPiece h8 c = snapPiece h2 c).
        { rewrite (Cap8 c eq_refl), (Cap7 c eq_refl). apply SP6. congruence. }
        destruct (snapPiece h2 c) as [q|] eqn:Eq; [|discriminate].
        rewrite (snapPiece_extends h8 h' c q X8 Sc8). exact Scap.
      - exact Scap. }
    assert (Sem : snapMove h' (mkMoveRef (from m) (to m) (mpiece move) cap
                                 (isEnPassant m) (isCastling m) (promotionType m))
                  = Some (executedMove m b)).
    { unfold snapMove. cbn [mpiece mcapturedPiece mfrom mto misEnPassant misCastling
        mpromotionType].
      rewrite (snapPiece_extends h h' _ _ X Fpm), Scap'. reflexivity. }
    assert (Sh : mapM (snapMove h')
                   (smoveHistory o ++
                    [mkMoveRef (from m) (to m) (mpiece move) cap (isEnPassant m)
                       (isCastling m) (promotionType m)])
                 = Some (hist ++ [executedMove m b])).
    { apply mapM_Some. apply Forall2_app.
      - apply mapM_Some.
        apply (mapM_mono (snapMove h) (snapMove h') _ _
                 (fun x y => snapMove_extends _ _ x y X) Eh).
      - constructor; [exact Sem | constructor]. }
    rewrite Sh.
    assert (Sc : snapPieces h' newCaps
                 = Some (caps ++ match capturedBy m b with
                                 | Some c => [c]
                                 | None => []
                                 end)).
    { unfold snapPieces. rewrite Ecap'.
      unfold snapPieces in Ecaps.
      destruct (h !! scapturedPieces o) as [[| | ps0 |]|] eqn:E0; try discriminate.
      assert (ps = ps0) as ->.
      { pose proof (X _ _ E0) as A. pose proof (X8 _ _ Gps) as B. congruence. }
      apply mapM_Some. apply Forall2_app.
      - apply mapM_Some.
        apply (mapM_mono (snapPiece h) (snapPiece h') _ _
                 (fun x y => snapPiece_extends _ _ x y X) Ecaps).
      - destruct cap as [c|]; simpl in Scap'.
        + destruct (snapPiece h' c) as [q|] eqn:Eq; [|discriminate].
          injection Scap' as <-. constructor; [exact Eq | constructor].
        + injection Scap' as <-. constructor. }
    rewrite Sc. cbn [snapLastMove]. rewrite Sem. reflexivity. }
  unfold snapState. rewrite Est, Snap.
  rewrite Snap in Es1, Es2, Es3. injection Es1 as <-. injection Es2 as <-.
  injection Es3 as <-. reflexivity.
Qed.

(** [executeMove] as a function of snapshots, in closed form. *)
Lemma executeMove_exact (m : Move) (s : GameState) (p : Piece) :
  eightByEight (board s) ->
  cell (board s) (row (from m)) (col (from m)) = Some p ->
  isPositionOnBoard (to m) = true ->
  (row (to m) <> row (from m) \/ col (to m) <> col (from m)) ->
  (isEnPassant m = true -> col (to m) <> col (from m)) ->
  (isCastling m = true -> col (to m) = 6 \/ col (to m) = 2) ->
  executeMove m s = Some (stateAfter m s p).
Proof.
  intros E8 Hp On Hne Hep Hcas.
  destruct (loadState_spec [] s) as (st & e1 & R1 & S1).
  destruct (loadMove_spec ([] ++ e1) m) as (mv & e2 & R2 & S2).
  assert (S1' : snapState (([] ++ e1) ++ e2) st = Some s).
  { eapply snapState_extends; [apply extends_app | exact S1]. }
  destruct (executeMoveH_exact _ st mv s m p S1' S2 E8 Hp On Hne Hep Hcas)
    as (st' & h' & R & S' & _).
  unfold executeMove.
  erewrite bind_run by exact R1. erewrite bind_run by exact R2.
  erewrite bind_run by exact R. unfold snapshot. rewrite S'. reflexivity.
Qed.

(** ** The engine reads the board, the side to move and the last move only *)

Lemma existsb_ext' {A} (f g : A -> bool) (l : list A) :
  (forall x, f x = g x) -> existsb f l = existsb g l.
Proof. intros H. induction l as [|a l IH]; simpl; [reflexivity|]. rewrite H, IH. reflexivity. Qed.

Lemma firstSome_ext {A B} (f g : A -> option B) (l : list A) :
  (forall x, f x = g x) -> firstSome f l = firstSome g l.
Proof. intros H. induction l as [|a l IH]; simpl; [reflexivity|]. rewrite H, IH. reflexivity. Qed.

Lemma filter_ext' {A} (f g : A -> bool) (l : list A) :
  (forall x, f x = g x) -> List.filter f l = List.filter g l.
Proof. intros H. induction l as [|a l IH]; simpl; [reflexivity|]. rewrite H, IH. reflexivity. Qed.

Section SameGame.

Variable s1 : GameState.
Variable s2 : GameState.
Hypothesis Same : sameGame s1 s2.

Lemma sameGame_board : board s1 = board s2.
Proof. apply Same. Qed.

Lemma sameGame_turn : currentTurn s1 = currentTurn s2.
Proof. apply Same. Qed.

Lemma sameGame_lastMove : lastMove s1 = lastMove s2.
Proof. apply Same. Qed.

Lemma getEnPassantMoves_same (p : Piece) :
  getEnPassantMoves p s1 = getEnPassantMoves p s2.
Proof. unfold getEnPassantMoves. rewrite sameGame_lastMove. reflexivity. Qed.

Lemma getPawnMoves_same (p : Piece) : getPawnMoves p s1 = getPawnMoves p s2.
Proof.
  unfold getPawnMoves. rewrite sameGame_board, getEnPassantMoves_same. reflexivity.
Qed.

Lemma offsetMoves_same (offs : list (Z * Z)) (p : Piece) :
  offsetMoves offs p s1 = offsetMoves offs p s2.
Proof. unfold offsetMoves. rewrite sameGame_board. reflexivity. Qed.

Lemma slide_same (fuel : nat) (p : Piece) (d : Z * Z) (r k : Z) :
  slide fuel p d s1 r k = slide fuel p d s2 r k.
Proof.
  revert r k. induction fuel as [|fuel IH]; intros r k; simpl; [reflexivity|].
  rewrite sameGame_board, IH. reflexivity.
Qed.

Lemma slidingMoves_same (dirs : list (Z * Z)) (p : Piece) :
  flat_map (fun d => getSlidingMoves p d s1) dirs
  = flat_map (fun d => getSlidingMoves p d s2) dirs.
Proof. apply flat_map_ext. intros d. apply slide_same. Qed.

Lemma getPseudoLegalMovesForAttack_same (p : Piece) :
  getPseudoLegalMovesForAttack p s1 = getPseudoLegalMovesForAttack p s2.
Proof.
  unfold getPseudoLegalMovesForAttack, getKnightMoves, getBishopMoves, getRookMoves,
    getQueenMoves, getBasicKingMoves.
  destruct (type p); auto using getPawnMoves_same, offsetMoves_same, slidingMoves_same.
Qed.

Lemma isPositionUnderAttack_same (pos : Position) (c : PieceColor) :
  isPositionUnderAttack pos c s1 = isPositionUnderAttack pos c s2.
Proof.
  unfold isPositionUnderAttack. rewrite sameGame_board.
  apply existsb_ext'; intros r. apply existsb_ext'; intros k.
  destruct (cell (board s2) r k) as [q|]; [|reflexivity].
  rewrite getPseudoLegalMovesForAttack_same. reflexivity.
Qed.

Lemma getCastlingMoves_same (p : Piece) :
  getCastlingMoves p s1 = getCastlingMoves p s2.
Proof.
  unfold getCastlingMoves. rewrite sameGame_board, !isPositionUnderAttack_same.
  reflexivity.
Qed.

Lemma getPseudoLegalMoves_same (p : Piece) :
  getPseudoLegalMoves p s1 = getPseudoLegalMoves p s2.
Proof.
  unfold getPseudoLegalMoves, getKnightMoves, getBishopMoves, getRookMoves,
    getQueenMoves, getKingMoves.
  destruct (type p); auto using getPawnMoves_same, offsetMoves_same, slidingMoves_same.
  rewrite offsetMoves_same, getCastlingMoves_same. reflexivity.
Qed.

Lemma findKing_same (c : PieceColor) : findKing c s1 = findKing c s2.
Proof. unfold findKing. rewrite sameGame_board. reflexivity. Qed.

Lemma isInCheck_same (c : PieceColor) : isInCheck c s1 = isInCheck c s2.
Proof.
  unfold isInCheck. rewrite findKing_same.
  destruct (findKing c s2); [apply isPositionUnderAttack_same | reflexivity].
Qed.

End SameGame.

Lemma sameGame_applyMoveToState (s1 s2 : GameState) (from_ to_ : Position) :
  sameGame s1 s2 -> sameGame (applyMoveToState from_ to_ s1) (applyMoveToState from_ to_ s2).
Proof.
  intros (Hb & Ht & Hl). unfold applyMoveToState. rewrite Hb.
  destruct (cell (board s2) (row from_) (col from_)); [|repeat split; assumption].
  repeat split; simpl; assumption.
Qed.

Lemma wouldLeaveKingInCheck_same (s1 s2 : GameState) (from_ to_ : Position) :
  sameGame s1 s2 ->
  wouldLeaveKingInCheck from_ to_ s1 = wouldLeaveKingInCheck from_ to_ s2.
Proof.
  intros Same. unfold wouldLeaveKingInCheck.
  pose proof (sameGame_applyMoveToState s1 s2 from_ to_ Same) as Same'.
  rewrite (sameGame_turn s1 s2 Same), (findKing_same _ _ Same').
  destruct (findKing _ _); [|reflexivity].
  apply isPositionUnderAttack_same. exact Same'.
Qed.

Lemma getValidMoves_same (s1 s2 : GameState) (pos : Position) :
  sameGame s1 s2 -> getValidMoves pos s1 = getValidMoves pos s2.
Proof.
  intros Same. unfold getValidMoves.
  rewrite (sameGame_board s1 s2 Same), (sameGame_turn s1 s2 Same).
  destruct (cell (board s2) (row pos) (col pos)) as [p|]; [|reflexivity].
  destruct (negb _); [reflexivity|].
  rewrite (getPseudoLegalMoves_same s1 s2 Same).
  apply filter_ext'. intros t. rewrite (wouldLeaveKingInCheck_same s1 s2 pos t Same).
  reflexivity.
Qed.

Lemma getAllLegalMoves_same (s1 s2 : GameState) (c : PieceColor) :
  sameGame s1 s2 -> getAllLegalMoves c s1 = getAllLegalMoves c s2.
Proof.
  intros Same. unfold getAllLegalMoves. rewrite (sameGame_board s1 s2 Same).
  apply flat_map_ext; intros r. apply flat_map_ext; intros k.
  rewrite (getValidMoves_same s1 s2 _ Same). reflexivity.
Qed.

Lemma hasAnyLegalMoves_same (s1 s2 : GameState) (c : PieceColor) :
  sameGame s1 s2 -> hasAnyLegalMoves c s1 = hasAnyLegalMoves c s2.
Proof.
  intros Same. unfold hasAnyLegalMoves. rewrite (sameGame_board s1 s2 Same).
  apply existsb_ext'; intros r. apply existsb_ext'; intros k.
  rewrite (getValidMoves_same s1 s2 _ Same). reflexivity.
Qed.

Lemma isCheckmate_same (s1 s2 : GameState) (c : PieceColor) :
  sameGame s1 s2 -> isCheckmate c s1 = isCheckmate c s2.
Proof.
  intros Same. unfold isCheckmate.
  rewrite (isInCheck_same s1 s2 Same), (hasAnyLegalMoves_same s1 s2 c Same).
  reflexivity.
Qed.

Lemma isStalemate_same (s1 s2 : GameState) :
  sameGame s1 s2 -> isStalemate s1 = isStalemate s2.
Proof.
  intros Same. unfold isStalemate.
  rewrite (sameGame_turn s1 s2 Same), (isInCheck_same s1 s2 Same),
    (hasAnyLegalMoves_same s1 s2 _ Same).
  reflexivity.
Qed.

Lemma sameGame_withFlags (s : GameState) (a b c : bool) : sameGame (withFlags s a b c) s.
Proof. repeat split. Qed.

Lemma sameGame_sym (s1 s2 : GameState) : sameGame s1 s2 -> sameGame s2 s1.
Proof. intros (A & B & C). repeat split; congruence. Qed.

Lemma sameGame_trans (s1 s2 s3 : GameState) :
  sameGame s1 s2 -> sameGame s2 s3 -> sameGame s1 s3.
Proof. intros (A & B & C) (A' & B' & C'). repeat split; congruence. Qed.

(** The flags of [stateAfter] fit the state that carries them. *)
Lemma stateAfter_flags (m : Move) (s : GameState) (p : Piece) :
  let s' := stateAfter m s p in
  isCheck s' = isInCheck (currentTurn s') s' /\
  isCheckmate_flag s' = isCheckmate (currentTurn s') s' /\
  isStalemate_flag s' = isStalemate s'.
Proof.
  cbv zeta. unfold stateAfter. cbv zeta.
  match goal with |- context [withFlags ?s0 ?c ?mt ?st] =>
    set (S0 := s0); set (Ck := isInCheck (oppositeColor (currentTurn s)) S0)
  end.
  set (Mt := isCheckmate (oppositeColor (currentTurn s)) (withFlags S0 Ck false false)).
  set (St := isStalemate (withFlags S0 Ck Mt false)).
  cbn [isCheck isCheckmate_flag isStalemate_flag currentTurn withFlags].
  change (currentTurn S0) with (oppositeColor (currentTurn s)).
  split; [|split].
  - unfold Ck. apply isInCheck_same. apply sameGame_sym, sameGame_withFlags.
  - unfold Mt. apply isCheckmate_same.
    eapply sameGame_trans; [apply sameGame_withFlags|].
    apply sameGame_sym, sameGame_withFlags.
  - unfold St. apply isStalemate_same.
    eapply sameGame_trans; [apply sameGame_withFlags|].
    apply sameGame_sym, sameGame_withFlags.
Qed.

Lemma snapStateObj_flags (h : Heap) (o : StateObj) (s : GameState) (a b c : bool) :
  snapStateObj h o = Some s ->
  snapStateObj h (mkStateObj (sboard o) (scurrentTurn o) (smoveHistory o)
                    (scapturedPieces o) a b c (smoveCount o) (slastMove o))
  = Some (withFlags s a b c).
Proof.
  unfold snapStateObj. cbn [sboard smoveHistory scapturedPieces slastMove scurrentTurn
    sisCheck sisCheckmate sisStalemate smoveCount].
  destruct (snapBoard h (sboard o)); [|discriminate].
  destruct (mapM (snapMove h) (smoveHistory o)); [|discriminate].
  destruct (snapPieces h (scapturedPieces o)); [|discriminate].
  destruct (snapLastMove h (slastMove o)); [|discriminate].
  intros [= <-]. reflexivity.
Qed.

(** Whatever the arguments, a state returned by [executeMove] over the
    store carries the flags that the detectors compute from it. *)
Lemma executeMoveH_flags (h h' : Heap) (st st' : loc) (move : MoveRef) (s' : GameState) :
  executeMoveH move st h = Some (st', h') -> snapState h' st' = Some s' ->
  isCheck s' = isInCheck (currentTurn s') s' /\
  isCheckmate_flag s' = isCheckmate (currentTurn s') s' /\
  isStalemate_flag s' = isStalemate s'.
Proof.
  intros R S'. unfold executeMoveH in R.
  apply bind_inv in R as (o & h0 & _ & R).
  apply bind_inv in R as (rows & h1 & _ & R).
  apply bind_inv in R as (pc_ & h1' & _ & R).
  destruct pc_ as [pc|]; [|discriminate].
  apply bind_inv in R as (tp & h1'' & _ & R).
  apply bind_inv in R as (cap & h2 & _ & R).
  apply bind_inv in R as ([] & h3 & _ & R).
  apply bind_inv in R as ([] & h4 & _ & R).
  apply bind_inv in R as ([] & h5 & _ & R).
  apply bind_inv in R as ([] & h6 & _ & R).
  apply bind_inv in R as ([] & h7 & _ & R).
  apply bind_inv in R as ([] & h8 & _ & R).
  cbv zeta in R.
  apply finish_inv in R as (ps & newCaps & s1 & s2 & s3 & _ & _ & _ & Es1 & Es2 & Es3 & Est).
  unfold snapState in S'. rewrite Est in S'.
  pose proof (snapStateObj_flags _ _ _ (isInCheck (oppositeColor (scurrentTurn o)) s1)
                false false Es1) as F2.
  cbn [sboard smoveHistory scapturedPieces slastMove scurrentTurn smoveCount] in F2.
  rewrite F2 in Es2. injection Es2 as <-.
  pose proof (snapStateObj_flags _ _ _ (isInCheck (oppositeColor (scurrentTurn o)) s1)
                (isCheckmate (oppositeColor (scurrentTurn o))
                   (withFlags s1 (isInCheck (oppositeColor (scurrentTurn o)) s1)
                      false false))
                false Es1) as F3.
  cbn [sboard smoveHistory scapturedPieces slastMove scurrentTurn smoveCount] in F3.
  rewrite F3 in Es3. injection Es3 as <-.
  match type of S' with snapStateObj _ (mkStateObj _ _ _ _ ?a ?b ?c _ _) = _ =>
    pose proof (snapStateObj_flags _ _ _ a b c Es1) as F4
  end.
  cbn [sboard smoveHistory scapturedPieces slastMove scurrentTurn smoveCount] in F4.
  rewrite F4 in S'. injection S' as <-.
  assert (T : currentTurn s1 = oppositeColor (scurrentTurn o)).
  { unfold snapStateObj in Es1.
    cbn [sboard smoveHistory scapturedPieces slastMove scurrentTurn
      sisCheck sisCheckmate sisStalemate smoveCount] in Es1.
    destruct (snapBoard h' rows); [|discriminate].
    destruct (mapM _ _); [|discriminate].
    destruct (snapPieces h' newCaps); [|discriminate].
    destruct (snapLastMove h' _); [|discriminate].
    injection Es1 as <-. reflexivity. }
  cbn [isCheck isCheckmate_flag isStalemate_flag currentTurn withFlags].
  rewrite T. split; [|split].
  - apply isInCheck_same. apply sameGame_sym, sameGame_withFlags.
  - apply isCheckmate_same.
    eapply sameGame_trans; [apply sameGame_withFlags|].
    apply sameGame_sym, sameGame_withFlags.
  - apply isStalemate_same.
    eapply sameGame_trans; [apply sameGame_withFlags|].
    apply sameGame_sym, sameGame_withFlags.
Qed.

Lemma executeMove_inv (m : Move) (s s' : GameState) :
  executeMove m s = Some s' ->
  exists h st mv st' h',
    snapState h st = Some s /\ snapMove h mv = Some m /\
    executeMoveH mv st h = Some (st', h') /\ snapState h' st' = Some s'.
Proof.
  unfold executeMove. intros H.
  destruct (loadState_spec [] s) as (st & e1 & R1 & S1).
  destruct (loadMove_spec ([] ++ e1) m) as (mv & e2 & R2 & S2).
  erewrite bind_run in H by exact R1. erewrite bind_run in H by exact R2.
  assert (S1' : snapState (([] ++ e1) ++ e2) st = Some s).
  { eapply snapState_extends; [apply extends_app | exact S1]. }
  destruct (executeMoveH mv st (([] ++ e1) ++ e2)) as [[st' h']|] eqn:R.
  - erewrite bind_run in H by exact R. unfold snapshot in H.
    destruct (snapState h' st') as [x|] eqn:Sx; [|discriminate].
    injection H as <-. exists (([] ++ e1) ++ e2), st, mv, st', h'. auto.
  - unfold mbind, M_bind in H. rewrite R in H. discriminate.
Qed.

(** X6: the three status flags of a state returned by [executeMove] are the
    values of the three detectors on that state, for the side that is to
    move in it; so a checkmate flag comes with the check flag, a stalemate
    flag excludes it, and the two never come together. *)
Theorem executeMove_flags_describe_result (m : Move) (s s' : GameState) :
  executeMove m s = Some s' ->
  isCheck s' = isInCheck (currentTurn s') s' /\
  isCheckmate_flag s' = isCheckmate (currentTurn s') s' /\
  isStalemate_flag s' = isStalemate s' /\
  (isCheckmate_flag s' = true -> isCheck s' = true) /\
  (isStalemate_flag s' = true -> isCheck s' = false).
Proof.
  intros H. apply executeMove_inv in H as (h & st & mv & st' & h' & _ & _ & R & S').
  destruct (executeMoveH_flags h h' st st' mv s' R S') as (A & B & C).
  split; [exact A|]. split; [exact B|]. split; [exact C|].
  rewrite A, B, C. unfold isCheckmate, isStalemate.
  destruct (isInCheck (currentTurn s') s'); simpl; split; congruence.
Qed.

Lemma snapStateObj_turn (h : Heap) (o : StateObj) (s : GameState) :
  snapStateObj h o = Some s ->
  currentTurn s = scurrentTurn o /\ moveCount s = smoveCount o.
Proof.
  unfold snapStateObj.
  destruct (snapBoard h (sboard o)); [|discriminate].
  destruct (mapM (snapMove h) (smoveHistory o)); [|discriminate].
  destruct (snapPieces h (scapturedPieces o)); [|discriminate].
  destruct (snapLastMove h (slastMove o)); [|discriminate].
  intros [= <-]. auto.
Qed.

(** Whatever the arguments, a state returned by [executeMove] has the
    other side to move and counts one move more. *)
Lemma executeMove_turn_count (m : Move) (s s' : GameState) :
  executeMove m s = Some s' ->
  currentTurn s' = oppositeColor (currentTurn s) /\ moveCount s' = moveCount s + 1.
Proof.
  intros H. apply executeMove_inv in H as (h & st & mv & st' & h' & Hs & _ & R & S').
  unfold executeMoveH in R.
  apply bind_inv in R as (o & h0 & G0 & R).
  unfold getState in G0.
  destruct (h !! st) as [[| | |o0]|] eqn:Hst; try discriminate.
  injection G0 as <- <-.
  unfold snapState in Hs. rewrite Hst in Hs.
  apply snapStateObj_turn in Hs as [Ht Hc].
  apply bind_inv in R as (rows & h1 & _ & R).
  apply bind_inv in R as (pc_ & h1' & _ & R).
  destruct pc_ as [pc|]; [|discriminate].
  apply bind_inv in R as (tp & h1'' & _ & R).
  apply bind_inv in R as (cap & h2 & _ & R).
  apply bind_inv in R as ([] & h3 & _ & R).
  apply bind_inv in R as ([] & h4 & _ & R).
  apply bind_inv in R as ([] & h5 & _ & R).
  apply bind_inv in R as ([] & h6 & _ & R).
  apply bind_inv in R as ([] & h7 & _ & R).
  apply bind_inv in R as ([] & h8 & _ & R).
  cbv zeta in R.
  apply finish_inv in R as (ps & newCaps & s1 & s2 & s3 & _ & _ & _ & _ & _ & _ & Est).
  unfold snapState in S'. rewrite Est in S'.
  apply snapStateObj_turn in S' as [Ht' Hc']. simpl in Ht', Hc'.
  rewrite Ht', Hc', Ht, Hc. auto.
Qed.

(** X18: for a move of the side to move, the opponent's look-ahead
    [wouldResultInCheckmate] returns the checkmate flag of the state that
    [executeMove] returns for that move. *)
Theorem wouldResultInCheckmate_is_checkmate_flag (m : Move) (s : GameState) (b : bool) :
  wouldResultInCheckmate m s = Some b -> color (piece m) = currentTurn s ->
  exists s', executeMove m s = Some s' /\ b = isCheckmate_flag s'.
Proof.
  unfold wouldResultInCheckmate. intros H Hc.
  destruct (executeMove m s) as [s'|] eqn:E; [|discriminate].
  injection H as <-. exists s'. split; [reflexivity|].
  destruct (executeMove_turn_count m s s' E) as [Ht _].
  apply executeMove_inv in E as (h & st & mv & st' & h' & _ & _ & R & S').
  destruct (executeMoveH_flags h h' st st' mv s' R S') as (_ & B & _).
  rewrite B, Ht, Hc. reflexivity.
Qed.

(** ** What [executeMove] does, case by case *)

Lemma board_stateAfter (m : Move) (s : GameState) (p : Piece) :
  board (stateAfter m s p) = boardAfter m (board s) p.
Proof. reflexivity. Qed.

Lemma capturedPieces_stateAfter (m : Move) (s : GameState) (p : Piece) :
  capturedPieces (stateAfter m s p)
  = capturedPieces s ++ match capturedBy m (board s) with
                        | Some c => [c]
                        | None => []
                        end.
Proof. reflexivity. Qed.

(** X1: a move without special flags puts the mover on the destination, with
    its position updated and marked as moved, empties the source, leaves
    every other square as it was, and records the piece that stood on the
    destination, if any, as captured. *)
Theorem executeMove_plain_move (m : Move) (s : GameState) (p : Piece) :
  isValidBoard (board s) = true ->
  cell (board s) (row (from m)) (col (from m)) = Some p ->
  isPositionOnBoard (to m) = true ->
  (row (to m) <> row (from m) \/ col (to m) <> col (from m)) ->
  isEnPassant m = false -> isCastling m = false -> promotionType m = None ->
  exists s',
    executeMove m s = Some s' /\
    cell (board s') (row (to m)) (col (to m))
      = Some (mkPiece (type p) (color p) (to m) true) /\
    cell (board s') (row (from m)) (col (from m)) = None /\
    (forall r c, (r <> row (from m) \/ c <> col (from m)) ->
                 (r <> row (to m) \/ c <> col (to m)) ->
                 cell (board s') r c = cell (board s) r c) /\
    capturedPieces s'
      = capturedPieces s ++ match cell (board s) (row (to m)) (col (to m)) with
                            | Some q => [q]
                            | None => []
                            end.
Proof.
  intros V Hp On Hne Eep Ecas Epro.
  pose proof (isValidBoard_eightByEight _ V) as E8.
  exists (stateAfter m s p). split.
  { apply executeMove_exact; auto; try lia; try congruence. }
  rewrite board_stateAfter, capturedPieces_stateAfter.
  unfold boardAfter, capturedBy, arrivedPiece. rewrite Eep, Ecas, Epro.
  pose proof (cell_eightByEight _ _ _ _ E8 Hp) as Hf.
  split; [|split; [|split; [|reflexivity]]].
  - rewrite cell_setCell_other by (try apply eightByEight_setCell; auto).
    apply cell_setCell_same; assumption.
  - apply cell_setCell_same; [apply eightByEight_setCell; exact E8|].
    apply isPositionOnBoard_iff. exact Hf.
  - intros r c D1 D2.
    rewrite !cell_setCell_other by (try apply eightByEight_setCell; auto).
    reflexivity.
Qed.

(** X2: a move flagged as en passant takes the piece beside the mover (on
    the mover's row, in the destination's column) off the board and records
    it as captured; the mover arrives on the destination and every other
    square stays as it was. *)
Theorem executeMove_en_passant (m : Move) (s : GameState) (p : Piece) :
  isValidBoard (board s) = true ->
  cell (board s) (row (from m)) (col (from m)) = Some p ->
  isPositionOnBoard (to m) = true ->
  isEnPassant m = true -> col (to m) <> col (from m) ->
  row (to m) <> row (from m) ->
  isCastling m = false ->
  exists s',
    executeMove m s = Some s' /\
    cell (board s') (row (from m)) (col (to m)) = None /\
    cell (board s') (row (to m)) (col (to m)) = Some (arrivedPiece m p) /\
    cell (board s') (row (from m)) (col (from m)) = None /\
    (forall r c, (r <> row (from m) \/ (c <> col (from m) /\ c <> col (to m))) ->
                 (r <> row (to m) \/ c <> col (to m)) ->
                 cell (board s') r c = cell (board s) r c) /\
    capturedPieces s'
      = capturedPieces s ++ match cell (board s) (row (from m)) (col (to m)) with
                            | Some q => [q]
                            | None => []
                            end.
Proof.
  intros V Hp On Eep Hcol Hrow Ecas.
  pose proof (isValidBoard_eightByEight _ V) as E8.
  exists (stateAfter m s p). split.
  { apply executeMove_exact; auto; try lia; try congruence. }
  rewrite board_stateAfter, capturedPieces_stateAfter.
  unfold boardAfter, capturedBy. rewrite Eep, Ecas.
  pose proof (cell_eightByEight _ _ _ _ E8 Hp) as Hf.
  assert (E81 : eightByEight
                  match cell (board s) (row (from m)) (col (to m)) with
                  | Some _ => setCell (board s) (row (from m)) (col (to m)) None
                  | None => board s
                  end).
  { destruct (cell (board s) (row (from m)) (col (to m)));
      [apply eightByEight_setCell|]; exact E8. }
  assert (On' : isPositionOnBoard (mkPosition (row (from m)) (col (to m))) = true).
  { apply isPositionOnBoard_iff in On. apply isPositionOnBoard_iff. simpl. lia. }
  split; [|split; [|split; [|split; [|reflexivity]]]].
  - rewrite !cell_setCell_other by (try apply eightByEight_setCell; auto; lia).
    destruct (cell (board s) (row (from m)) (col (to m))) eqn:E; [|exact E].
    apply cell_setCell_same; assumption.
  - rewrite cell_setCell_other by (try apply eightByEight_setCell; auto; lia).
    apply cell_setCell_same; assumption.
  - apply cell_setCell_same; [apply eightByEight_setCell; exact E81|].
    apply isPositionOnBoard_iff. exact Hf.
  - intros r c D1 D2.
    rewrite !cell_setCell_other by (try apply eightByEight_setCell; auto; lia).
    destruct (cell (board s) (row (from m)) (col (to m))); [|reflexivity].
    apply cell_setCell_other; [exact E8 | lia].
Qed.

(** X3: a move flagged as castling, of a king from its home square to the
    g-file or the c-file, also takes the rook from the corner on that side
    to the square the king has passed over, with its position updated and
    marked as moved; the two squares left are empty and every other square
    stays as it was. *)
Theorem executeMove_castling (m : Move) (s : GameState) (p rk : Piece)
    (rookFrom rookTo : Z) :
  isValidBoard (board s) = true ->
  cell (board s) (row (from m)) (col (from m)) = Some p ->
  isCastling m = true -> isEnPassant m = false ->
  row (from m) = backRankOf (color p) -> col (from m) = 4 ->
  row (to m) = backRankOf (color p) ->
  (col (to m) = 6 /\ rookFrom = 7 /\ rookTo = 5) \/
  (col (to m) = 2 /\ rookFrom = 0 /\ rookTo = 3) ->
  cell (board s) (backRankOf (color p)) rookFrom = Some rk ->
  exists s',
    executeMove m s = Some s' /\
    cell (board s') (row (to m)) (col (to m)) = Some (arrivedPiece m p) /\
    cell (board s') (backRankOf (color p)) rookTo
      = Some (mkPiece (type rk) (color rk)
                      (mkPosition (backRankOf (color p)) rookTo) true) /\
    cell (board s') (backRankOf (color p)) 4 = None /\
    cell (board s') (backRankOf (color p)) rookFrom = None /\
    (forall r c, (r <> backRankOf (color p) \/
                  (c <> 4 /\ c <> col (to m) /\ c <> rookFrom /\ c <> rookTo)) ->
                 cell (board s') r c = cell (board s) r c).
Proof.
  intros V Hp Ecas Eep Hfr Hfc Htr Side Hrk.
  pose proof (isValidBoard_eightByEight _ V) as E8.
  assert (Hbr : 0 <= backRankOf (color p) <= 7) by (destruct (color p); simpl; lia).
  assert (On : isPositionOnBoard (to m) = true).
  { apply isPositionOnBoard_iff. lia. }
  exists (stateAfter m s p). split.
  { apply executeMove_exact; auto; try lia; try congruence. }
  rewrite board_stateAfter. unfold boardAfter. rewrite Eep, Ecas.
  set (br := backRankOf (color p)) in *.
  set (B3 := setCell (setCell (board s) (row (to m)) (col (to m))
                        (Some (arrivedPiece m p)))
                     (row (from m)) (col (from m)) None).
  assert (E83 : eightByEight B3) by (repeat apply eightByEight_setCell; exact E8).
  assert (Rk3 : cell B3 br rookFrom = Some rk).
  { unfold B3. rewrite !cell_setCell_other by (try apply eightByEight_setCell; auto; lia).
    exact Hrk. }
  assert (Hop : (if col (to m) =? 6 then rookHop B3 br 7 5 else rookHop B3 br 0 3)
                = setCell (setCell B3 br rookTo
                             (Some (mkPiece (type rk) (color rk)
                                            (mkPosition br rookTo) true)))
                          br rookFrom None).
  { destruct Side as [(K & -> & ->) | (K & -> & ->)]; rewrite K; simpl;
      unfold rookHop; rewrite Rk3; reflexivity. }
  rewrite Hop.
  assert (OnT : isPositionOnBoard (mkPosition br rookTo) = true).
  { apply isPositionOnBoard_iff. simpl. lia. }
  assert (OnF : isPositionOnBoard (mkPosition br rookFrom) = true).
  { apply isPositionOnBoard_iff. simpl. lia. }
  assert (E8' : forall r c v, eightByEight (setCell (board s) r c v))
    by (intros; apply eightByEight_setCell; exact E8).
  split; [|split; [|split; [|split]]].
  - unfold B3.
    repeat rewrite cell_setCell_other by (try apply eightByEight_setCell; auto; lia).
    apply cell_setCell_same; assumption.
  - rewrite cell_setCell_other by (try apply eightByEight_setCell; auto; lia).
    apply cell_setCell_same; assumption.
  - rewrite (cell_setCell_other _ br rookFrom)
      by (try apply eightByEight_setCell; auto; lia).
    rewrite (cell_setCell_other _ br rookTo) by (auto; lia).
    unfold B3. rewrite <- Hfr, <- Hfc.
    apply cell_setCell_same; [apply E8'|].
    apply isPositionOnBoard_iff. simpl. lia.
  - apply cell_setCell_same; [apply eightByEight_setCell; exact E83 | exact OnF].
  - intros r c D.
    rewrite (cell_setCell_other _ br rookFrom)
      by (try apply eightByEight_setCell; auto; lia).
    rewrite (cell_setCell_other _ br rookTo) by (auto; lia).
    unfold B3.
    rewrite (cell_setCell_other _ (row (from m)) (col (from m))) by (auto; lia).
    rewrite (cell_setCell_other _ (row (to m)) (col (to m))) by (auto; lia).
    reflexivity.
Qed.

(** X4: a move that names a promotion type leaves on the destination a piece
    of that type, of the mover's colour, marked as moved. *)
Theorem executeMove_promotion (m : Move) (s : GameState) (p : Piece)
    (t : PromotionType) :
  isValidBoard (board s) = true ->
  cell (board s) (row (from m)) (col (from m)) = Some p ->
  isPositionOnBoard (to m) = true ->
  (row (to m) <> row (from m) \/ col (to m) <> col (from m)) ->
  (isEnPassant m = true -> col (to m) <> col (from m)) ->
  isCastling m = false ->
  promotionType m = Some t ->
  exists s',
    executeMove m s = Some s' /\
    cell (board s') (row (to m)) (col (to m))
      = Some (mkPiece (promotedType t) (color p) (to m) true).
Proof.
  intros V Hp On Hne Hep Ecas Epro.
  pose proof (isValidBoard_eightByEight _ V) as E8.
  exists (stateAfter m s p). split.
  { apply executeMove_exact; auto; try lia; try congruence. }
  rewrite board_stateAfter. unfold boardAfter, arrivedPiece. rewrite Ecas, Epro.
  assert (E81 : eightByEight
                  (if isEnPassant m
                   then match cell (board s) (row (from m)) (col (to m)) with
                        | Some _ => setCell (board s) (row (from m)) (col (to m)) None
                        | None => board s
                        end
                   else board s)).
  { destruct (isEnPassant m); [|exact E8].
    destruct (cell (board s) (row (from m)) (col (to m)));
      [apply eightByEight_setCell|]; exact E8. }
  rewrite cell_setCell_other by (try apply eightByEight_setCell; auto).
  apply cell_setCell_same; assumption.
Qed.

(** X5: the executed move, with its captured-piece field set to the piece
    actually captured, is appended to the history and becomes the last move;
    the history grows by exactly one entry. *)
Theorem executeMove_records_move (m : Move) (s : GameState) (p : Piece) :
  isValidBoard (board s) = true ->
  cell (board s) (row (from m)) (col (from m)) = Some p ->
  isPositionOnBoard (to m) = true ->
  (row (to m) <> row (from m) \/ col (to m) <> col (from m)) ->
  (isEnPassant m = true -> col (to m) <> col (from m)) ->
  (isCastling m = true -> col (to m) = 6 \/ col (to m) = 2) ->
  exists s',
    executeMove m s = Some s' /\
    moveHistory s' = moveHistory s ++ [executedMove m (board s)] /\
    lastMove s' = Some (executedMove m (board s)) /\
    capturedPiece (executedMove m (board s))
      = (if isEnPassant m then cell (board s) (row (from m)) (col (to m))
         else cell (board s) (row (to m)) (col (to m))) /\
    (moveCount s = Z.of_nat (length (moveHistory s)) ->
     moveCount s' = Z.of_nat (length (moveHistory s'))).
Proof.
  intros V Hp On Hne Hep Hcas.
  pose proof (isValidBoard_eightByEight _ V) as E8.
  exists (stateAfter m s p). split.
  { apply executeMove_exact; auto. }
  split; [reflexivity|]. split; [reflexivity|]. split; [reflexivity|].
  intros Hc. unfold stateAfter. cbn [moveCount moveHistory withFlags].
  rewrite length_app. simpl. lia.
Qed.

(** ** Well-formed states *)

Lemma getCastlingMoves_squares (p : Piece) (s : GameState) (x : Position) :
  In x (getCastlingMoves p s) ->
  position p = mkPosition (backRankOf (color p)) 4 /\
  row x = backRankOf (color p) /\ (col x = 6 \/ col x = 2).
Proof.
  unfold getCastlingMoves.
  destruct (hasMoved p); [intros []|].
  destruct (isPositionUnderAttack (position p) (color p) s); [intros []|].
  destruct (negb (row (position p) =? backRankOf (color p))
            || negb (col (position p) =? 4)) eqn:Home; [intros []|].
  apply orb_false_iff in Home as [H1 H2].
  apply negb_false_iff, Z.eqb_eq in H1, H2.
  assert (Hpos : position p = mkPosition (backRankOf (color p)) 4).
  { destruct (position p); simpl in *; congruence. }
  intros H. apply in_app_or in H.
  destruct H as [H|H];
    repeat match type of H with
           | In _ (if ?b then _ else _) => destruct b
           | In _ [] => destruct H
           | In _ [_] => destruct H as [<- | []]
           end; simpl; auto.
Qed.

Lemma knightOffsets_nonzero (o : Z * Z) : In o knightOffsets -> fst o <> 0.
Proof.
  unfold knightOffsets. simpl.
  intros H; repeat (destruct H as [<- | H]; [simpl; lia|]); destruct H.
Qed.

Lemma kingOffsets_nonzero (o : Z * Z) : In o kingOffsets -> fst o <> 0 \/ snd o <> 0.
Proof.
  unfold kingOffsets. simpl.
  intros H; repeat (destruct H as [<- | H]; [simpl; lia|]); destruct H.
Qed.

Lemma queenDirections_unit (d : Z * Z) :
  In d queenDirections ->
  (fst d <> 0 \/ snd d <> 0) /\ -1 <= fst d <= 1 /\ -1 <= snd d <= 1.
Proof.
  unfold queenDirections. simpl.
  intros H; repeat (destruct H as [<- | H]; [simpl; lia|]); destruct H.
Qed.

Lemma bishopDirections_queen (d : Z * Z) : In d bishopDirections -> In d queenDirections.
Proof.
  unfold bishopDirections, queenDirections. simpl.
  intros H; repeat (destruct H as [<- | H]; [tauto|]); destruct H.
Qed.

Lemma rookDirections_queen (d : Z * Z) : In d rookDirections -> In d queenDirections.
Proof.
  unfold rookDirections, queenDirections. simpl.
  intros H; repeat (destruct H as [<- | H]; [tauto|]); destruct H.
Qed.

Lemma slidingMoves_away (dirs : list (Z * Z)) (p : Piece) (s : GameState)
    (x : Position) :
  (forall d, In d dirs -> In d queenDirections) ->
  In x (flat_map (fun d => getSlidingMoves p d s) dirs) ->
  row x <> row (position p) \/ col x <> col (position p).
Proof.
  intros Hd H. apply in_flat_map in H as (d & Hin & H).
  destruct (queenDirections_unit d (Hd d Hin)) as (Hnz & Hr & Hk).
  unfold getSlidingMoves in H. apply slide_In in H as (j & Hj & -> & _).
  simpl. nia.
Qed.

(** No piece is offered its own square as a destination. *)
Lemma getPseudoLegalMoves_away (p : Piece) (s : GameState) (x : Position) :
  In x (getPseudoLegalMoves p s) ->
  row x <> row (position p) \/ col x <> col (position p).
Proof.
  unfold getPseudoLegalMoves. destruct (type p).
  - intros H. apply getPawnMoves_cases in H. cbv zeta in H.
    assert (D : pawnDirection (color p) <> 0) by (destruct (color p); simpl; lia).
    destruct H as [(-> & _) | [(-> & _) | [([-> | ->] & _) | H]]]; simpl; try lia.
    apply getEnPassantMoves_spec in H as (lm & _ & (_ & _ & _ & _ & _ & Hrow) & ->).
    unfold squareBehind. simpl. lia.
  - intros H. apply offsetMoves_In in H as (o & Ho & ->). simpl.
    apply knightOffsets_nonzero in Ho. lia.
  - apply slidingMoves_away. apply bishopDirections_queen.
  - apply slidingMoves_away. apply rookDirections_queen.
  - apply slidingMoves_away. auto.
  - unfold getKingMoves. intros H. apply in_app_or in H as [H|H].
    + apply offsetMoves_In in H as (o & Ho & ->). simpl.
      apply kingOffsets_nonzero in Ho. lia.
    + apply getCastlingMoves_squares in H as (Hpos & _ & Hc). rewrite Hpos. simpl. lia.
Qed.

(** A king that changes column by two is castling, and ends on the g-file
    or the c-file. *)
Lemma getKingMoves_two_columns (p : Piece) (s : GameState) (x : Position) :
  In x (getKingMoves p s) -> Z.abs (col x - col (position p)) = 2 ->
  col x = 6 \/ col x = 2.
Proof.
  unfold getKingMoves. intros H Habs. apply in_app_or in H as [H|H].
  - apply offsetMoves_In in H as (o & Ho & ->). simpl in Habs.
    apply kingOffsets_near in Ho. lia.
  - apply getCastlingMoves_squares in H. tauto.
Qed.

Lemma isValidBoard_iff (b : Board) :
  isValidBoard b = true <->
  eightByEight b /\ forall r c p, cell b r c = Some p -> isValidPiece p = true.
Proof.
  split.
  - intros V. split; [apply isValidBoard_eightByEight; exact V|].
    intros r c p H. unfold cell in H.
    destruct (jsIndex b r) as [cells|] eqn:Er; [|discriminate].
    destruct (jsIndex cells c) as [x|] eqn:Ec; [|discriminate]. subst x.
    apply jsIndex_In in Er, Ec.
    unfold isValidBoard in V. apply andb_true_iff in V as [_ V].
    rewrite forallb_forall in V. specialize (V cells Er).
    apply andb_true_iff in V as [_ V]. rewrite forallb_forall in V.
    exact (V (Some p) Ec).
  - intros [[L F] H]. unfold isValidBoard. apply andb_true_iff. split.
    + apply Nat.eqb_eq. exact L.
    + apply forallb_forall. intros cells Hin.
      apply list_elem_of_In, list_elem_of_lookup_1 in Hin as [i Hi].
      rewrite Forall_forall in F.
      pose proof (F cells (list_elem_of_lookup_2 _ _ _ Hi)) as Lc.
      apply andb_true_iff. split; [apply Nat.eqb_eq; exact Lc|].
      apply forallb_forall. intros x Hx.
      apply list_elem_of_In, list_elem_of_lookup_1 in Hx as [j Hj].
      destruct x as [p|]; [|reflexivity].
      apply (H (Z.of_nat i) (Z.of_nat j) p). unfold cell, jsIndex.
      assert ((Z.of_nat i <? 0) = false) as -> by (apply Z.ltb_ge; lia).
      assert ((Z.of_nat j <? 0) = false) as -> by (apply Z.ltb_ge; lia).
      rewrite !Nat2Z.id, Hi, Hj. reflexivity.
Qed.

(** A board of eight by eight on which every piece records its own square
    is a valid board. *)
Lemma positionsAgree_valid (b : Board) :
  eightByEight b -> positionsAgree b -> isValidBoard b = true.
Proof.
  intros E8 A. apply isValidBoard_iff. split; [exact E8|].
  intros r c p H. unfold isValidPiece. rewrite (A r c p H).
  apply isPositionOnBoard_iff. simpl. eapply cell_eightByEight; eassumption.
Qed.

Lemma positionsAgree_setCell (b : Board) (r c : Z) (v : option Piece) :
  eightByEight b -> positionsAgree b ->
  (forall p, v = Some p -> position p = mkPosition r c) ->
  positionsAgree (setCell b r c v).
Proof.
  intros E8 A Hv r' c' p. rewrite cell_setCell_eq by exact E8.
  destruct (_ && _) eqn:X.
  - intros ->. apply andb_true_iff in X as [X Y]. apply andb_true_iff in X as [_ X].
    apply Z.eqb_eq in X, Y. subst. apply Hv. reflexivity.
  - apply A.
Qed.

Lemma positionsAgree_rookHop (b : Board) (br fc tc : Z) :
  eightByEight b -> positionsAgree b -> positionsAgree (rookHop b br fc tc).
Proof.
  intros E8 A. unfold rookHop. destruct (cell b br fc) as [rk|]; [|exact A].
  apply positionsAgree_setCell; [apply eightByEight_setCell; exact E8 | | discriminate].
  apply positionsAgree_setCell; [exact E8 | exact A |].
  intros p [= <-]. reflexivity.
Qed.

Lemma eightByEight_boardAfter (m : Move) (b : Board) (p : Piece) :
  eightByEight b -> eightByEight (boardAfter m b p).
Proof.
  intros E8. unfold boardAfter.
  assert (E81 : eightByEight
                  (if isEnPassant m
                   then match cell b (row (from m)) (col (to m)) with
                        | Some _ => setCell b (row (from m)) (col (to m)) None
                        | None => b
                        end
                   else b)).
  { destruct (isEnPassant m); [|exact E8].
    destruct (cell b (row (from m)) (col (to m)));
      [apply eightByEight_setCell|]; exact E8. }
  destruct (isCastling m); [destruct (col (to m) =? 6)|];
    try apply eightByEight_rookHop; repeat apply eightByEight_setCell; exact E81.
Qed.

Lemma positionsAgree_boardAfter (m : Move) (b : Board) (p : Piece) :
  eightByEight b -> positionsAgree b -> positionsAgree (boardAfter m b p).
Proof.
  intros E8 A. unfold boardAfter.
  set (B1 := if isEnPassant m
             then match cell b (row (from m)) (col (to m)) with
                  | Some _ => setCell b (row (from m)) (col (to m)) None
                  | None => b
                  end
             else b).
  assert (E81 : eightByEight B1 /\ positionsAgree B1).
  { unfold B1. destruct (isEnPassant m); [|auto].
    destruct (cell b (row (from m)) (col (to m))); [|auto].
    split; [apply eightByEight_setCell; exact E8|].
    apply positionsAgree_setCell; [exact E8 | exact A | discriminate]. }
  destruct E81 as [E81 A1].
  assert (A3 : positionsAgree
                 (setCell (setCell B1 (row (to m)) (col (to m)) (Some (arrivedPiece m p)))
                          (row (from m)) (col (from m)) None)).
  { apply positionsAgree_setCell; [apply eightByEight_setCell; exact E81 | | discriminate].
    apply positionsAgree_setCell; [exact E81 | exact A1 |].
    intros q [= <-]. simpl. destruct (to m); reflexivity. }
  destruct (isCastling m); [destruct (col (to m) =? 6)|];
    try apply positionsAgree_rookHop;
    try (repeat apply eightByEight_setCell; exact E81); exact A3.
Qed.

(** What [isValidMove] guarantees about a move on a well-formed state. *)
Lemma isValidMove_wellFormed (m : Move) (s : GameState) :
  wellFormed s -> isValidMove m s = true ->
  exists p, cell (board s) (row (from m)) (col (from m)) = Some p /\
            color p = currentTurn s /\ type p = type (piece m) /\
            In (to m) (getValidMoves (from m) s) /\
            isPositionOnBoard (to m) = true /\
            (row (to m) <> row (from m) \/ col (to m) <> col (from m)) /\
            (isEnPassant m = true -> col (to m) <> col (from m)) /\
            (isCastling m = true -> col (to m) = 6 \/ col (to m) = 2).
Proof.
  intros (V & A & Hlm) H.
  apply (isValidMove_true_iff m s V) in H as [Hlisted (Fc & Fe & _)].
  apply listedAsLegal_inv in Hlisted as (p & Ep & Hturn & Htype & _ & Hin).
  exists p. split; [exact Ep|]. split; [exact Hturn|]. split; [exact Htype|].
  split; [exact Hin|].
  destruct (getValidMoves_pseudoLegal _ _ _ _ Ep Hin) as (_ & Hps & _).
  pose proof (A _ _ _ Ep) as Hpos.
  split; [|split; [|split]].
  - pose proof (getPseudoLegalMoves_row p s _ Hps) as Hr.
    destruct (getPseudoLegalMoves_target p s _ Hps) as [[On _] | [_ Hep]]; [exact On|].
    apply getEnPassantMoves_col in Hep as (lm & El & Ec).
    specialize (Hlm lm El). apply isPositionOnBoard_iff in Hlm.
    apply isPositionOnBoard_iff. rewrite Ec. tauto.
  - pose proof (getPseudoLegalMoves_away p s _ Hps) as D.
    rewrite Hpos in D. exact D.
  - intros E. destruct (Fe E) as (q & _ & _ & Hc & _). exact Hc.
  - intros E. destruct (Fc E) as (q & Eq & Hk & Habs).
    rewrite Ep in Eq. injection Eq as <-.
    unfold getPseudoLegalMoves in Hps. rewrite Hk in Hps.
    apply (getKingMoves_two_columns p s _ Hps). rewrite Hpos. exact Habs.
Qed.

Lemma wellFormed_stateAfter (m : Move) (s : GameState) (p : Piece) :
  wellFormed s -> isPositionOnBoard (to m) = true -> wellFormed (stateAfter m s p).
Proof.
  intros (V & A & _) On.
  pose proof (isValidBoard_eightByEight _ V) as E8.
  split; [|split].
  - rewrite board_stateAfter.
    apply positionsAgree_valid;
      [apply eightByEight_boardAfter | apply positionsAgree_boardAfter]; assumption.
  - rewrite board_stateAfter. apply positionsAgree_boardAfter; assumption.
  - intros lm [= <-]. exact On.
Qed.

(** X8: on a well-formed state, a move accepted by [isValidMove] is executed
    without an exception, and the state returned is well-formed again: a
    valid board, every piece recording the square it stands on, and a last
    move that ended on the board. *)
Theorem executeMove_keeps_state_well_formed (m : Move) (s : GameState) :
  wellFormed s -> isValidMove m s = true ->
  exists s', executeMove m s = Some s' /\ wellFormed s'.
Proof.
  intros W H.
  destruct (isValidMove_wellFormed m s W H)
    as (p & Ep & _ & _ & _ & On & Hne & Hep & Hcas).
  exists (stateAfter m s p). split.
  - apply executeMove_exact; auto.
    apply isValidBoard_eightByEight. apply W.
  - apply wellFormed_stateAfter; assumption.
Qed.

Lemma positionsAgree_check (b : Board) :
  eightByEight b ->
  forallb (fun r =>
    forallb (fun k =>
      match cell b r k with
      | Some p => positionsEqual (position p) (mkPosition r k)
      | None => true
      end) range8) range8 = true ->
  positionsAgree b.
Proof.
  intros E8 H r k p E.
  destruct (cell_eightByEight b r k p E8 E) as [Hr Hk].
  rewrite forallb_forall in H. specialize (H r (proj2 (in_range8 r) Hr)).
  rewrite forallb_forall in H. specialize (H k (proj2 (in_range8 k) Hk)).
  rewrite E in H. apply positionsEqual_eq. exact H.
Qed.

Lemma wellFormed_initializeGame : wellFormed initializeGame.
Proof.
  assert (V : isValidBoard (board initializeGame) = true) by (vm_compute; reflexivity).
  split; [exact V|]. split; [|discriminate].
  apply positionsAgree_check; [apply isValidBoard_eightByEight; exact V|].
  vm_compute. reflexivity.
Qed.

(** X9: every state of a game (the initial position followed by moves that
    [isValidMove] accepts and [executeMove] carries out) is well-formed,
    counts as many moves as its history holds, has white to move exactly
    after an even number of moves, has the last entry of the history as its
    last move, and carries the status flags that the detectors compute. *)
Theorem reachable_states_invariants (s : GameState) :
  reachable s ->
  wellFormed s /\
  moveCount s = Z.of_nat (length (moveHistory s)) /\
  currentTurn s = (if Z.even (moveCount s) then white else black) /\
  lastMove s = last (moveHistory s) /\
  isCheck s = isInCheck (currentTurn s) s /\
  isCheckmate_flag s = isCheckmate (currentTurn s) s /\
  isStalemate_flag s = isStalemate s.
Proof.
  induction 1 as [|s m s' _ IH Hv He].
  - split; [exact wellFormed_initializeGame|].
    repeat split; vm_compute; reflexivity.
  - destruct IH as (W & Hc & Ht & _ & _).
    destruct (isValidMove_wellFormed m s W Hv)
      as (p & Ep & _ & _ & _ & On & Hne & Hep & Hcas).
    rewrite (executeMove_exact m s p (isValidBoard_eightByEight _ (proj1 W))
               Ep On Hne Hep Hcas) in He.
    injection He as <-.
    split; [apply wellFormed_stateAfter; assumption|].
    split; [|split; [|split; [|apply stateAfter_flags]]].
    + unfold stateAfter. cbn [moveCount moveHistory withFlags].
      rewrite length_app. simpl. lia.
    + unfold stateAfter. cbn [moveCount currentTurn withFlags].
      rewrite Ht. replace (moveCount s + 1) with (Z.succ (moveCount s)) by lia.
      rewrite Z.even_succ, <- Z.negb_even.
      destruct (Z.even (moveCount s)); reflexivity.
    + unfold stateAfter. cbn [lastMove moveHistory withFlags].
      rewrite last_snoc. reflexivity.
Qed.

(** ** Moves as generated leave the mover's king safe *)

Lemma getPawnMoves_In (p : Piece) (s : GameState) (x : Position) :
  let r := row (position p) in
  let c := col (position p) in
  let d := pawnDirection (color p) in
  In x (getPawnMoves p s) <->
  (x = mkPosition (r + d) c /\ isPositionOnBoard x = true
   /\ cell (board s) (r + d) c = None) \/
  (x = mkPosition (r + d * 2) c /\ isPositionOnBoard x = true
   /\ isPositionOnBoard (mkPosition (r + d) c) = true
   /\ hasMoved p = false
   /\ cell (board s) (r + d) c = None /\ cell (board s) (r + d * 2) c = None) \/
  ((x = mkPosition (r + d) (c - 1) \/ x = mkPosition (r + d) (c + 1))
   /\ isPositionOnBoard x = true
   /\ exists t, cell (board s) (row x) (col x) = Some t /\ color t <> color p) \/
  In x (getEnPassantMoves p s).
Proof.
  cbv zeta. unfold getPawnMoves. rewrite !in_app_iff.
  set (r := row (position p)). set (c := col (position p)).
  set (d := pawnDirection (color p)).
  assert (Fwd : In x (if isPositionOnBoard (mkPosition (r + d) c)
                         && isEmptyCell (board s) (mkPosition (r + d) c)
                      then mkPosition (r + d) c ::
                           (if negb (hasMoved p)
                            then if isPositionOnBoard (mkPosition (r + d * 2) c)
                                    && isEmptyCell (board s) (mkPosition (r + d * 2) c)
                                 then [mkPosition (r + d * 2) c] else []
                            else [])
                      else []) <->
                (x = mkPosition (r + d) c /\ isPositionOnBoard x = true
                 /\ cell (board s) (r + d) c = None) \/
                (x = mkPosition (r + d * 2) c /\ isPositionOnBoard x = true
                 /\ isPositionOnBoard (mkPosition (r + d) c) = true
                 /\ hasMoved p = false
                 /\ cell (board s) (r + d) c = None
                 /\ cell (board s) (r + d * 2) c = None)).
  { unfold isEmptyCell. cbn [row col].
    destruct (isPositionOnBoard (mkPosition (r + d) c)) eqn:On1; simpl.
    2:{ split; [intros []|].
        intros [(-> & A & _) | (_ & _ & A & _)]; congruence. }
    destruct (cell (board s) (r + d) c) as [t1|] eqn:E1; simpl.
    { split; [intros []|].
      intros [(_ & _ & A) | (_ & _ & _ & _ & A & _)]; discriminate. }
    destruct (hasMoved p) eqn:Hm; simpl.
    { split.
      - intros [<- | []]. left. auto.
      - intros [(-> & _) | (_ & _ & _ & A & _)]; [left; reflexivity | discriminate]. }
    destruct (isPositionOnBoard (mkPosition (r + d * 2) c)) eqn:On2; simpl.
    2:{ split.
        - intros [<- | []]. left. auto.
        - intros [(-> & _) | (-> & A & _)]; [left; reflexivity | congruence]. }
    destruct (cell (board s) (r + d * 2) c) as [t2|] eqn:E2; simpl.
    { split.
      - intros [<- | []]. left. auto.
      - intros [(-> & _) | (_ & _ & _ & _ & _ & A)]; [left; reflexivity | discriminate]. }
    split.
    - intros [<- | [<- | []]]; [left; auto | right; auto 10].
    - intros [(-> & _) | (-> & _)]; [left; reflexivity | right; left; reflexivity]. }
  assert (Cap : In x (flat_map (fun capturePos =>
                   if isPositionOnBoard capturePos then
                     match cell (board s) (row capturePos) (col capturePos) with
                     | Some targetPiece =>
                         if negb (PieceColor_eqb (color targetPiece) (color p))
                         then [capturePos] else []
                     | None => []
                     end
                   else []) [mkPosition (r + d) (c - 1); mkPosition (r + d) (c + 1)]) <->
                ((x = mkPosition (r + d) (c - 1) \/ x = mkPosition (r + d) (c + 1))
                 /\ isPositionOnBoard x = true
                 /\ exists t, cell (board s) (row x) (col x) = Some t
                              /\ color t <> color p)).
  { rewrite in_flat_map. split.
    - intros (cp & Hcp & H).
      destruct (isPositionOnBoard cp) eqn:On; [|destruct H].
      destruct (cell (board s) (row cp) (col cp)) as [t|] eqn:Et; [|destruct H].
      destruct (negb (PieceColor_eqb (color t) (color p))) eqn:Ec; [|destruct H].
      destruct H as [<- | []].
      apply negb_true_iff, PieceColor_eqb_neq in Ec.
      split; [|split; [exact On | exists t; auto]].
      destruct Hcp as [<- | [<- | []]]; auto.
    - intros (Hx & On & t & Et & Hc). exists x. split.
      + destruct Hx as [-> | ->]; simpl; auto.
      + rewrite On, Et. apply PieceColor_eqb_neq in Hc. rewrite Hc. simpl. auto. }
  rewrite Fwd, Cap. tauto.
Qed.

Lemma offsetMoves_In_iff (offs : list (Z * Z)) (p : Piece) (s : GameState)
    (x : Position) :
  In x (offsetMoves offs p s) <->
  exists o, In o offs /\
            x = mkPosition (row (position p) + fst o) (col (position p) + snd o) /\
            isPositionOnBoard x = true /\
            forall q, cell (board s) (row x) (col x) = Some q -> color q <> color p.
Proof.
  unfold offsetMoves. rewrite in_flat_map. split.
  - intros (o & Ho & H). exists o. split; [exact Ho|].
    destruct (isPositionOnBoard _) eqn:On; [|destruct H].
    destruct (cell (board s) _ _) as [t|] eqn:Et.
    + destruct (negb _) eqn:Ec; [|destruct H]. destruct H as [<- | []].
      apply negb_true_iff, PieceColor_eqb_neq in Ec.
      split; [reflexivity|]. split; [exact On|]. intros q Hq. congruence.
    + destruct H as [<- | []].
      split; [reflexivity|]. split; [exact On|]. intros q Hq. congruence.
  - intros (o & Ho & -> & On & Hq). exists o. split; [exact Ho|].
    rewrite On. destruct (cell (board s) _ _) as [t|] eqn:Et.
    + specialize (Hq t eq_refl). apply PieceColor_eqb_neq in Hq. rewrite Hq. simpl. auto.
    + simpl. auto.
Qed.

Section SameSquares.

Variable c : PieceColor.
Variable s1 : GameState.
Variable s2 : GameState.
Hypothesis Alike : sameSquaresFor c (board s1) (board s2).

Lemma sameSquares_empty (r k : Z) :
  cell (board s1) r k = None -> cell (board s2) r k = None.
Proof.
  intros E. destruct (Alike r k) as [H | (p & q & H & _)]; congruence.
Qed.

Lemma sameSquares_other (att : Piece) (r k : Z) :
  color att <> c ->
  (forall q, cell (board s1) r k = Some q -> color q <> color att) ->
  forall q, cell (board s2) r k = Some q -> color q <> color att.
Proof.
  intros Hc H q Eq. destruct (Alike r k) as [E | (p' & q' & E1 & E2 & Hp & Hq & _)].
  - apply H. congruence.
  - rewrite E2 in Eq. injection Eq as <-. congruence.
Qed.

Lemma sameSquares_enemy (att : Piece) (r k : Z) :
  color att <> c ->
  (exists t, cell (board s1) r k = Some t /\ color t <> color att) ->
  exists t, cell (board s2) r k = Some t /\ color t <> color att.
Proof.
  intros Hc (t & Et & Ht). destruct (Alike r k) as [E | (p' & q' & E1 & E2 & Hp & Hq & _)].
  - exists t. split; congruence.
  - exists q'. split; [exact E2 | congruence].
Qed.

Lemma sameSquares_attacker (att : Piece) (r k : Z) :
  color att <> c -> cell (board s1) r k = Some att -> cell (board s2) r k = Some att.
Proof.
  intros Hc E. destruct (Alike r k) as [H | (p' & q' & E1 & _ & Hp & _)]; congruence.
Qed.

Lemma slidingMoves_transfer (dirs : list (Z * Z)) (att : Piece) (x : Position) :
  color att <> c ->
  In x (flat_map (fun d => getSlidingMoves att d s1) dirs) ->
  In x (flat_map (fun d => getSlidingMoves att d s2) dirs).
Proof.
  intros Hc. rewrite !in_flat_map. intros (d & Hd & H). exists d. split; [exact Hd|].
  unfold getSlidingMoves in *. apply slide_In in H as (j & Hj & -> & Hmid & On & Hq).
  apply slide_In. exists j. split; [exact Hj|]. split; [reflexivity|].
  split; [|split; [exact On|]].
  - intros i Hi. destruct (Hmid i Hi) as [A B]. split; [exact A|].
    apply sameSquares_empty. exact B.
  - apply sameSquares_other; assumption.
Qed.

Lemma offsetMoves_transfer (offs : list (Z * Z)) (att : Piece) (x : Position) :
  color att <> c -> In x (offsetMoves offs att s1) -> In x (offsetMoves offs att s2).
Proof.
  intros Hc. rewrite !offsetMoves_In_iff. intros (o & Ho & -> & On & Hq).
  exists o. split; [exact Ho|]. split; [reflexivity|]. split; [exact On|].
  apply sameSquares_other; assumption.
Qed.

(** What a piece of the other colour attacks on one board it attacks on
    the other, en-passant squares apart. *)
Lemma attackMoves_transfer (att : Piece) (x : Position) :
  color att <> c ->
  In x (getPseudoLegalMovesForAttack att s1) ->
  In x (getPseudoLegalMovesForAttack att s2) \/
  (type att = pawn /\ In x (getEnPassantMoves att s1)).
Proof.
  intros Hc. unfold getPseudoLegalMovesForAttack, getKnightMoves, getBishopMoves,
    getRookMoves, getQueenMoves, getBasicKingMoves.
  destruct (type att) eqn:Et;
    try (intros H; left;
         first [apply offsetMoves_transfer; assumption
               | apply slidingMoves_transfer; assumption]).
  intros H. apply getPawnMoves_In in H. cbv zeta in H.
  destruct H as [(-> & On & E) | [(-> & On & On1 & Hm & E1 & E2) | [(Hx & On & Ht) | H]]].
  - left. apply getPawnMoves_In. left. split; [reflexivity|]. split; [exact On|].
    apply sameSquares_empty. exact E.
  - left. apply getPawnMoves_In. right; left. split; [reflexivity|].
    split; [exact On|]. split; [exact On1|]. split; [exact Hm|].
    split; apply sameSquares_empty; assumption.
  - left. apply getPawnMoves_In. right; right; left. split; [exact Hx|].
    split; [exact On|]. apply sameSquares_enemy; assumption.
  - right. auto.
Qed.

Lemma findKing_transfer (c' : PieceColor) : findKing c' s1 = findKing c' s2.
Proof.
  unfold findKing. apply firstSome_ext; intros r. apply firstSome_ext; intros k.
  destruct (Alike r k) as [-> | (p & q & -> & -> & Hp & Hq & Ht)]; [reflexivity|].
  rewrite Ht, Hp, Hq. reflexivity.
Qed.

Lemma attack_transfer (x : Position) :
  isPositionUnderAttack x c s1 = true ->
  isPositionUnderAttack x c s2 = true \/
  exists r k att, cell (board s1) r k = Some att /\ color att = oppositeColor c /\
                  type att = pawn /\ In x (getEnPassantMoves att s1).
Proof.
  intros H. apply isPositionUnderAttack_iff in H as (r & k & att & Hr & Hk & E & Hc & Hin).
  assert (Hne : color att <> c).
  { rewrite Hc. apply oppositeColor_neq. }
  destruct (attackMoves_transfer att x Hne Hin) as [H | [Ht Hep]].
  - left. apply isPositionUnderAttack_iff. exists r, k, att.
    split; [exact Hr|]. split; [exact Hk|].
    split; [apply sameSquares_attacker; assumption|]. split; assumption.
  - right. exists r, k, att. auto.
Qed.

End SameSquares.

Lemma pawnDirection_opposite (a b : PieceColor) :
  a <> b -> pawnDirection a = - pawnDirection b.
Proof. destruct a, b; simpl; intros H; try reflexivity; contradiction. Qed.

(** X10: on a well-formed state, every move that [getAllLegalMoves] returns
    for the side to move can be executed as returned, and in the state that
    [executeMove] gives back the mover's king is not in check. *)
Theorem legal_moves_keep_own_king_safe (s : GameState) (m : Move) :
  wellFormed s -> In m (getAllLegalMoves (currentTurn s) s) ->
  exists s', executeMove m s = Some s' /\ isInCheck (currentTurn s) s' = false.
Proof.
  intros (V & A & Hlm) Hin.
  apply getAllLegalMoves_In in Hin as (r & k & p & t & Hr & Hk & Ep & Hc & Ht & ->).
  pose proof (isValidBoard_eightByEight _ V) as E8.
  destruct (getValidMoves_pseudoLegal (mkPosition r k) s p t Ep Ht) as (_ & Hps & _).
  pose proof (A _ _ _ Ep) as Hpos.
  assert (On : isPositionOnBoard t = true).
  { pose proof (getPseudoLegalMoves_row p s _ Hps) as Hrow.
    destruct (getPseudoLegalMoves_target p s _ Hps) as [[On _] | [_ Hep]]; [exact On|].
    apply getEnPassantMoves_col in Hep as (lm & El & Ec).
    specialize (Hlm lm El). apply isPositionOnBoard_iff in Hlm.
    apply isPositionOnBoard_iff. rewrite Ec. tauto. }
  assert (Hne : row t <> r \/ col t <> k).
  { pose proof (getPseudoLegalMoves_away p s _ Hps) as D. rewrite Hpos in D. exact D. }
  set (m := plainMove (mkPosition r k) t p).
  exists (stateAfter m s p). split.
  { apply executeMove_exact; auto; discriminate. }
  set (s' := stateAfter m s p).
  set (sim := applyMoveToState (mkPosition r k) t s).
  pose proof (valid_move_safe_in_simulation _ _ _ Ht) as Safe. fold sim in Safe.
  assert (Bs' : board s' = setCell (setCell (board s) (row t) (col t)
                                      (Some (mkPiece (type p) (color p) t true)))
                                   r k None) by reflexivity.
  assert (Bsim : board sim = setCell (setCell (board s) (row t) (col t)
                                        (Some (withPosition p t)))
                                     r k None).
  { unfold sim, applyMoveToState. cbn [row col]. rewrite Ep. reflexivity. }
  assert (Alike : sameSquaresFor (currentTurn s) (board s') (board sim)).
  { intros x y. rewrite Bs', Bsim.
    rewrite !cell_setCell_eq by (try apply eightByEight_setCell; exact E8).
    destruct (_ && _); [left; reflexivity|].
    destruct (_ && _); [|left; reflexivity].
    right. eexists _, _. split; [reflexivity|]. split; [reflexivity|]. simpl. auto. }
  unfold isInCheck in *.
  rewrite (findKing_transfer (currentTurn s) s' sim Alike).
  destruct (findKing (currentTurn s) sim) as [kp|] eqn:Ek; [|reflexivity].
  destruct (isPositionUnderAttack kp (currentTurn s) s') eqn:Att; [|reflexivity].
  exfalso.
  destruct (attack_transfer (currentTurn s) s' sim Alike kp Att)
    as [H | (x & y & att & Eatt & Hac & Hat & Hep)]; [congruence|].
  apply getEnPassantMoves_spec in Hep as (lm & El & (_ & Htp & Hcol & Hrows & _ & _) & Hkp).
  injection El as <-. cbn [executedMove piece plainMove m from to row col] in *.
  (* the mover is a pawn that has advanced by two rows *)
  unfold getPseudoLegalMoves in Hps. rewrite Htp in Hps.
  apply getPawnMoves_cases in Hps. cbv zeta in Hps. rewrite Hpos in Hps.
  cbn [row col] in Hps.
  assert (D : pawnDirection (color p) = 1 \/ pawnDirection (color p) = -1)
    by (destruct (color p); simpl; lia).
  destruct Hps as [(-> & _) | [(-> & _ & _ & Efwd & _) | [([-> | ->] & _) | Hep]]];
    cbn [row col] in *; try lia.

  2:{ apply getEnPassantMoves_spec in Hep as (lm & _ & (_ & _ & _ & _ & _ & Hrow) & ->).
      unfold squareBehind in Hrows. cbn [row col] in Hrows.
      rewrite Hpos in Hrow. cbn [row] in Hrow. lia. }
  (* the king would stand on the square that the pawn has passed over *)
  rewrite <- (findKing_transfer (currentTurn s) s' sim Alike) in Ek.
  apply findKing_Some in Ek as (kg & Ekg & _).
  rewrite Hkp in Ekg. unfold squareBehind, executedMove, m, plainMove in Ekg.
  cbn [row col to] in Ekg.
  rewrite (pawnDirection_opposite (color att) (color p)) in Ekg by congruence.
  replace (r + pawnDirection (color p) * 2 + - pawnDirection (color p))
    with (r + pawnDirection (color p)) in Ekg by lia.
  rewrite Bs' in Ekg. cbn [row col] in Ekg.
  rewrite !cell_setCell_other in Ekg
    by (try apply eightByEight_setCell; auto; lia).
  congruence.
Qed.

(** ** When [executeMove] throws *)

Lemma executeMoveH_no_piece (h : Heap) (st : loc) (move : MoveRef) (s : GameState)
    (m : Move) :
  snapState h st = Some s -> snapMove h move = Some m ->
  cell (board s) (row (from m)) (col (from m)) = None ->
  executeMoveH move st h = None.
Proof.
  intros Hs Hm Hfrom.
  destruct (snapMove_fields h move m Hm) as (Ff & _).
  unfold snapState in Hs.
  destruct (h !! st) as [[| | |o]|] eqn:Hst; try discriminate.
  unfold snapStateObj in Hs.
  destruct (snapBoard h (sboard o)) as [b|] eqn:Eb; [|discriminate].
  destruct (mapM (snapMove h) (smoveHistory o)); [|discriminate].
  destruct (snapPieces h (scapturedPieces o)); [|discriminate].
  destruct (snapLastMove h (slastMove o)); [|discriminate].
  injection Hs as <-. cbn [board] in Hfrom.
  assert (G : goodStore (length h) h).
  { split; [lia|]. intros x cs Hl Hcs. apply lookup_lt_Some in Hcs. lia. }
  unfold executeMoveH.
  erewrite bind_run by (unfold getState; rewrite Hst; reflexivity).
  destruct (copyBoard_spec (length h) h (sboard o) b G Eb) as (rows & e & Rc & _ & R & Sb).
  erewrite bind_run by exact Rc.
  erewrite bind_run by (apply (boardGet_spec (length h)); exact R).
  rewrite Ff.
  destruct (snapBoard_cell _ _ _ (row (from m)) (col (from m)) Sb) as [Ec Hp].
  rewrite Hfrom in Ec.
  destruct (cellLoc (h ++ e) rows (row (from m)) (col (from m))) as [x|] eqn:El;
    [|reflexivity].
  destruct (Hp x eq_refl) as [q Hq]. congruence.
Qed.

(** X7: on a valid board and for a destination row on the board,
    [executeMove] throws exactly when the source square holds no piece. *)
Theorem executeMove_throws_iff_source_empty (m : Move) (s : GameState) :
  isValidBoard (board s) = true -> 0 <= row (to m) <= 7 ->
  (executeMove m s = None <->
   cell (board s) (row (from m)) (col (from m)) = None).
Proof.
  intros V Hto. split.
  - intros H.
    destruct (cell (board s) (row (from m)) (col (from m))) as [p|] eqn:Ep;
      [|reflexivity].
    destruct (executeMove_total m s p (isValidBoard_length _ V) Ep Hto) as (s' & R & _).
    congruence.
  - intros Hfrom.
    destruct (loadState_spec [] s) as (st & e1 & R1 & S1).
    destruct (loadMove_spec ([] ++ e1) m) as (mv & e2 & R2 & S2).
    assert (S1' : snapState (([] ++ e1) ++ e2) st = Some s).
    { eapply snapState_extends; [apply extends_app | exact S1]. }
    unfold executeMove.
    erewrite bind_run by exact R1. erewrite bind_run by exact R2.
    unfold mbind, M_bind.
    rewrite (executeMoveH_no_piece _ st mv s m S1' S2 Hfrom). reflexivity.
Qed.

(** ** The opponent's ranking of the candidates *)

Section Ranking.

Variable Score : Type.
Variable searchScore : DifficultyMode -> nat -> GameState -> Score.
Variable scoreGt : Score -> Score -> bool.
Variable randomBelow : nat -> nat.

(** The comparison of two numbers by [b.score - a.score > 0]: if one score
    exceeds another the converse fails, and not exceeding is transitive. *)
Hypothesis scoreGt_asym : forall x y, scoreGt x y = true -> scoreGt y x = false.
Hypothesis scoreGt_trans : forall x y z,
  scoreGt x y = false -> scoreGt y z = false -> scoreGt x z = false.

Lemma insertByScore_Permutation (x : Move * Score) (l : list (Move * Score)) :
  Permutation (insertByScore Score scoreGt x l) (x :: l).
Proof.
  induction l as [|y l IH]; simpl; [reflexivity|].
  destruct (scoreGt (snd y) (snd x)); [|reflexivity].
  rewrite IH. apply perm_swap.
Qed.

Lemma insertByScore_sorted (x : Move * Score) (l : list (Move * Score)) :
  StronglySorted (fun a b => scoreGt (snd b) (snd a) = false) l ->
  StronglySorted (fun a b => scoreGt (snd b) (snd a) = false)
                 (insertByScore Score scoreGt x l).
Proof.
  induction 1 as [|y l Hs IH Hy]; simpl.
  - constructor; [constructor | constructor].
  - destruct (scoreGt (snd y) (snd x)) eqn:E.
    + constructor; [exact IH|].
      apply Forall_forall. intros z Hz.
      apply list_elem_of_In, insertByScore_In in Hz as [-> | Hz].
      * apply scoreGt_asym. exact E.
      * rewrite Forall_forall in Hy. apply Hy, list_elem_of_In. exact Hz.
    + constructor; [constructor; assumption|].
      constructor; [exact E|].
      eapply Forall_impl; [exact Hy|]. intros z Hz. simpl in Hz.
      eapply scoreGt_trans; eassumption.
Qed.

Lemma sortByScore_sorted (l : list (Move * Score)) :
  StronglySorted (fun a b => scoreGt (snd b) (snd a) = false)
                 (sortByScore Score scoreGt l).
Proof.
  unfold sortByScore. induction l as [|x l IH]; simpl; [constructor|].
  apply insertByScore_sorted. exact IH.
Qed.

(** X16: the ranking of the scored candidates is a rearrangement by
    decreasing score: the sorted list is a permutation of the scored list
    and no entry is followed by an entry with a greater score, whenever the
    comparison of scores is asymmetric and its complement transitive. *)
Theorem sortByScore_orders_by_score (l : list (Move * Score)) :
  Permutation (sortByScore Score scoreGt l) l /\
  StronglySorted (fun a b => scoreGt (snd b) (snd a) = false)
                 (sortByScore Score scoreGt l).
Proof.
  unfold sortByScore. induction l as [|x l [IHp IHs]]; simpl.
  - split; [reflexivity | constructor].
  - split.
    + rewrite insertByScore_Permutation. constructor. exact IHp.
    + apply insertByScore_sorted. exact IHs.
Qed.

Lemma sortByScore_head (l : list (Move * Score)) (best : Move * Score)
    (rest : list (Move * Score)) :
  sortByScore Score scoreGt l = best :: rest ->
  In best l /\ forall ms, In ms l -> scoreGt (snd ms) (snd best) = false \/ ms = best.
Proof.
  intros E. pose proof (sortByScore_sorted l) as Hs. rewrite E in Hs.
  split.
  - apply (proj1 (sortByScore_In Score scoreGt best l)). rewrite E. left; reflexivity.
  - intros ms Hin.
    apply (proj2 (sortByScore_In Score scoreGt ms l)) in Hin. rewrite E in Hin.
    destruct Hin as [<- | Hin]; [right; reflexivity|]. left.
    apply StronglySorted_inv in Hs as [_ Hall].
    rewrite Forall_forall in Hall. apply Hall, list_elem_of_In. exact Hin.
Qed.

(** X17: when the checkmate exclusion does not apply (hard mode from move 10
    on), the move that [generateMove] returns has a score that the score of
    no other candidate exceeds. *)
Theorem generateMove_returns_best_scored (s : GameState) (config : AIConfig)
    (move : Move) :
  exclusionApplies config s = false ->
  generateMove Score searchScore scoreGt randomBelow s config = Some move ->
  exists scored sc,
    scoreMoves Score searchScore (difficulty config) s 0 (getAllLegalMoves black s)
      = Some scored /\
    In (move, sc) scored /\
    forall m' sc', In (m', sc') scored -> scoreGt sc' sc = false.
Proof.
  unfold exclusionApplies, generateMove. intros Hex.
  destruct (length (getAllLegalMoves black s) =? 0)%nat eqn:Len; [discriminate|].
  destruct (scoreMoves Score searchScore (difficulty config) s 0
              (getAllLegalMoves black s)) as [scored|] eqn:Hsc; [|discriminate].
  assert (Hfst : map fst scored = getAllLegalMoves black s).
  { clear -Hsc. revert scored Hsc. generalize 0%nat.
    induction (getAllLegalMoves black s) as [|m l IH]; intros i scored H; simpl in H.
    - injection H as <-. reflexivity.
    - destruct (executeMove m s); [|discriminate].
      destruct (scoreMoves Score searchScore (difficulty config) s (S i) l) as [r|] eqn:Er;
        [|discriminate].
      injection H as <-. simpl. rewrite (IH _ _ Er). reflexivity. }
  assert (Cand : match sortByScore Score scoreGt scored with
                 | [] => getAllLegalMoves black s
                         !! randomBelow (length (getAllLegalMoves black s))
                 | best :: _ => Some (fst best)
                 end = Some move ->
                 exists sc, In (move, sc) scored /\
                            forall m' sc', In (m', sc') scored -> scoreGt sc' sc = false).
  { destruct (sortByScore Score scoreGt scored) as [|[mv sc] rest] eqn:Es.
    - exfalso. destruct scored as [|x scored].
      + simpl in Hfst. rewrite <- Hfst in Len. discriminate.
      + assert (Hx : In x (sortByScore Score scoreGt (x :: scored)))
          by (apply sortByScore_In; left; reflexivity).
        rewrite Es in Hx. destruct Hx.
    - intros [= <-]. exists sc.
      destruct (sortByScore_head scored (mv, sc) rest Es) as [Hin Hmax].
      split; [exact Hin|]. intros m' sc' Hin'.
      destruct (Hmax (m', sc') Hin') as [H | [= -> ->]]; [exact H|].
      simpl. destruct (scoreGt sc sc) eqn:E; [|reflexivity].
      rewrite (scoreGt_asym sc sc E) in E. discriminate. }
  destruct (difficulty config); [discriminate|].
  rewrite Hex. intros H. destruct (Cand H) as (sc & Hin & Hmax).
  exists scored, sc. auto.
Qed.

End Ranking.

(** ** Algebraic notation *)

Lemma indexOf_files (f : Ascii.ascii) :
  Algebraic.indexOf f Algebraic.files 0 = -1 \/
  (0 <= Algebraic.indexOf f Algebraic.files 0 <= 7 /\
   jsIndex Algebraic.files (Algebraic.indexOf f Algebraic.files 0) = Some f).
Proof.
  destruct f as [[] [] [] [] [] [] [] []]; vm_compute;
    first [left; reflexivity | right; split; [split; discriminate | reflexivity]].
Qed.

Lemma parseDigit_shown (k : Ascii.ascii) (d : Z) :
  Algebraic.parseDigit k = Some d -> 1 <= d <= 8 ->
  Algebraic.showNumber d = String.String k String.EmptyString.
Proof.
  destruct k as [[] [] [] [] [] [] [] []]; vm_compute; intros H;
    try discriminate H; injection H as <-; intros [H1 H2];
    first [reflexivity | exfalso; apply H1; reflexivity | exfalso; apply H2; reflexivity].
Qed.

(** X22: a string that [algebraicToPosition] accepts names a valid position,
    and [positionToAlgebraic] gives that string back for it. *)
Theorem algebraicToPosition_inverts (a : String.string) (pos : Position) :
  Algebraic.algebraicToPosition a = Some pos ->
  isValidPosition pos = true /\ Algebraic.positionToAlgebraic pos = a.
Proof.
  destruct a as [|f [|k [|]]]; try discriminate.
  unfold Algebraic.algebraicToPosition. cbv zeta.
  pose proof (indexOf_files f) as Hi. revert Hi.
  generalize (Algebraic.indexOf f Algebraic.files 0). intros ci Hi.
  destruct (Algebraic.parseDigit k) as [d|] eqn:Ed; [|discriminate].
  destruct ((ci =? -1) || (8 - d <? 0) || (8 - d >? 7)) eqn:Bad; [discriminate|].
  intros [= <-].
  apply orb_false_iff in Bad as [Bad B3]. apply orb_false_iff in Bad as [B1 B2].
  apply Z.eqb_neq in B1. apply Z.ltb_ge in B2.
  rewrite Z.gtb_ltb in B3. apply Z.ltb_ge in B3.
  destruct Hi as [E | [Hc Hf]]; [contradiction|].
  split.
  - apply isPositionOnBoard_iff. cbn [row col]. lia.
  - unfold Algebraic.positionToAlgebraic. cbn [row col]. rewrite Hf.
    replace (8 - (8 - d)) with d by lia.
    rewrite (parseDigit_shown k d Ed) by lia. reflexivity.
Qed.

(** X23: for a valid position, [algebraicToPosition] reads the string that
    [positionToAlgebraic] writes back into the same position. *)
Theorem algebraic_round_trip (pos : Position) :
  isValidPosition pos = true ->
  Algebraic.algebraicToPosition (Algebraic.positionToAlgebraic pos) = Some pos.
Proof.
  intros V. apply isPositionOnBoard_iff in V. destruct pos as [r c]. simpl in V.
  assert (Hr : r = 0 \/ r = 1 \/ r = 2 \/ r = 3 \/ r = 4 \/ r = 5 \/ r = 6 \/ r = 7) by lia.
  assert (Hc : c = 0 \/ c = 1 \/ c = 2 \/ c = 3 \/ c = 4 \/ c = 5 \/ c = 6 \/ c = 7) by lia.
  clear V.
  destruct Hr as [-> | [-> | [-> | [-> | [-> | [-> | [-> | ->]]]]]]];
    destruct Hc as [-> | [-> | [-> | [-> | [-> | [-> | [-> | ->]]]]]]];
    vm_compute; reflexivity.
Qed.

Lemma algebraicToPosition_inverts_witness :
  isValidPosition (mkPosition 4 4) = true /\
  Algebraic.positionToAlgebraic (mkPosition 4 4)
  = String.String (Ascii.ascii_of_nat 101)
      (String.String (Ascii.ascii_of_nat 52) String.EmptyString).
Proof.
  apply (algebraicToPosition_inverts
           (String.String (Ascii.ascii_of_nat 101)
              (String.String (Ascii.ascii_of_nat 52) String.EmptyString))
           (mkPosition 4 4)).
  vm_compute. reflexivity.
Defined.

Lemma algebraic_round_trip_witness :
  Algebraic.algebraicToPosition (Algebraic.positionToAlgebraic (mkPosition 0 7))
  = Some (mkPosition 0 7).
Proof.
  apply (algebraic_round_trip (mkPosition 0 7)). vm_compute. reflexivity.
Defined.

(** ** The search *)

(** A move that [getAllLegalMoves] lists can be executed as listed, and the
    state it leads to is well formed. *)
Lemma legal_move_executes (c : PieceColor) (s : GameState) (m : Move) :
  wellFormed s -> In m (getAllLegalMoves c s) ->
  exists s', executeMove m s = Some s' /\ wellFormed s'.
Proof.
  intros W Hin. pose proof W as (V & A & Hlm).
  apply getAllLegalMoves_In in Hin as (r & k & p & t & Hr & Hk & Ep & Hc & Ht & ->).
  pose proof (isValidBoard_eightByEight _ V) as E8.
  destruct (getValidMoves_pseudoLegal (mkPosition r k) s p t Ep Ht) as (_ & Hps & _).
  pose proof (A _ _ _ Ep) as Hpos.
  assert (On : isPositionOnBoard t = true).
  { pose proof (getPseudoLegalMoves_row p s _ Hps) as Hrow.
    destruct (getPseudoLegalMoves_target p s _ Hps) as [[On _] | [_ Hep]]; [exact On|].
    apply getEnPassantMoves_col in Hep as (lm & El & Ec).
    specialize (Hlm lm El). apply isPositionOnBoard_iff in Hlm.
    apply isPositionOnBoard_iff. rewrite Ec. tauto. }
  assert (Hne : row t <> r \/ col t <> k).
  { pose proof (getPseudoLegalMoves_away p s _ Hps) as D. rewrite Hpos in D. exact D. }
  exists (stateAfter (plainMove (mkPosition r k) t p) s p). split.
  - apply executeMove_exact; auto; discriminate.
  - apply wellFormed_stateAfter; assumption.
Qed.

(** The successors of a state by a list of moves. *)
Lemma legal_moves_execute (c : PieceColor) (s : GameState) (moves : list Move) :
  wellFormed s -> (forall m, In m moves -> In m (getAllLegalMoves c s)) ->
  Forall (fun m => exists s', executeMove m s = Some s' /\ wellFormed s') moves.
Proof.
  intros W H. apply List.Forall_forall. intros m Hm.
  eapply legal_move_executes; eauto.
Qed.

Section Prune.

Variable Score : Type.
Variable le : Score -> Score -> bool.
Variable join : Score -> Score -> Score.
Hypothesis le_refl : forall x, le x x = true.
Hypothesis le_trans : forall x y z, le x y = true -> le y z = true -> le x z = true.
Hypothesis le_total : forall x y, le x y = true \/ le y x = true.
Hypothesis join_l : forall x y, le x (join x y) = true.
Hypothesis join_r : forall x y, le y (join x y) = true.
Hypothesis join_lub : forall x y z, le x z = true -> le y z = true -> le (join x y) z = true.

Lemma lt_le (x y : Score) : le x y = false -> le y x = true.
Proof. intros H. destruct (le_total x y) as [E|E]; congruence. Qed.

Lemma fold_join_ge (us : list Score) (a : Score) : le a (fold_left join us a) = true.
Proof.
  revert a. induction us as [|u us IH]; intros a; simpl; [apply le_refl|].
  eapply le_trans; [apply join_l | apply IH].
Qed.

Lemma fold_join_mono (us : list Score) (a b : Score) :
  le a b = true -> le (fold_left join us a) (fold_left join us b) = true.
Proof.
  revert a b. induction us as [|u us IH]; intros a b H; simpl; [exact H|].
  apply IH. apply join_lub; [eapply le_trans; [exact H | apply join_l] | apply join_r].
Qed.

(** [fold_left join us a] is an upper bound of [us], and it is [a] or one
    of [us]. *)
Lemma fold_join_upper (us : list Score) (a u : Score) :
  In u us -> le u (fold_left join us a) = true.
Proof.
  revert a. induction us as [|x us IH]; intros a; simpl; [intros []|].
  intros [->|H].
  - eapply le_trans; [apply join_r | apply fold_join_ge].
  - apply IH, H.
Qed.

Lemma join_one_of (x y : Score) :
  le (join x y) x = true \/ le (join x y) y = true.
Proof.
  destruct (le_total x y) as [H|H].
  - right. apply join_lub; [exact H | apply le_refl].
  - left. apply join_lub; [apply le_refl | exact H].
Qed.

Lemma fold_join_attained (us : list Score) (a : Score) :
  le (fold_left join us a) a = true \/
  exists u, In u us /\ le (fold_left join us a) u = true.
Proof.
  revert a. induction us as [|x us IH]; intros a; simpl; [left; apply le_refl|].
  destruct (IH (join a x)) as [H | (u & Hu & H)].
  - destruct (join_one_of a x) as [J|J].
    + left. eapply le_trans; eassumption.
    + right. exists x. split; [auto|]. eapply le_trans; eassumption.
  - right. exists u. auto.
Qed.

Variable search : GameState -> Score -> Score -> option Score.
Variable state : GameState.
Variable bot : Score.
Variable top : Score.

Ltac ord n :=
  first
    [ assumption | apply le_refl | apply join_l | apply join_r
    | apply lt_le; assumption
    | lazymatch n with
      | S ?k =>
          first
            [ apply join_lub; [ord k | ord k]
            | match goal with
              | H : le ?a ?c = true |- le ?a _ = true =>
                  apply (le_trans _ c _ H); ord k
              | H : le ?c ?a = false |- le ?a _ = true =>
                  apply (le_trans _ c _ (lt_le _ _ H)); ord k
              | |- le ?a (join ?x ?y) = true =>
                  apply (le_trans _ x); [ord k | apply join_l]
              | |- le ?a (join ?x ?y) = true =>
                  apply (le_trans _ y); [ord k | apply join_r]
              | |- le (join ?x ?y) ?b = true => fail
              | |- le ?a ?b = true =>
                  match goal with
                  | H : le ?c b = true |- _ =>
                      apply (le_trans _ c _); [ord k | exact H]
                  | H : le b ?c = false |- _ =>
                      apply (le_trans _ c _); [ord k | exact (lt_le _ _ H)]
                  end
              end ]
      end ].

Ltac ordfalse :=
  exfalso;
  match goal with
  | H : le ?a ?b = false |- _ =>
      assert (le a b = true) by (ord 6%nat); congruence
  end.

(** The loop of the maximizing player, started after some of the moves:
    [up] is the largest full-window value of the successors already seen,
    [us] are the full-window values of the successors still to come. *)
Lemma maxLoop_window (moves : list Move) (us : list Score) :
  Forall2 (fun m u => exists s', executeMove m state = Some s' /\
             forall lo hi, le bot lo = true -> le hi lo = false -> le hi top = true ->
               exists w, search s' lo hi = Some w /\ withinWindow Score le lo hi u w)
          moves us ->
  forall lo0 hi best lo up,
    le bot lo0 = true -> le hi top = true -> le hi lo = false ->
    le lo0 lo = true -> le lo (join lo0 up) = true -> le (join lo0 up) lo = true ->
    (le up lo0 = true -> le best lo0 = true) ->
    (le up lo0 = false -> le best up = true /\ le up best = true) ->
    exists w, maxLoop Score join le search state moves best lo hi = Some w /\
              withinWindow Score le lo0 hi (fold_left join us up) w.
Proof.
  induction 1 as [|m u moves us (s' & Ex & Hchild) _ IH];
    intros lo0 hi best lo up Hbot Htop Hlt H0 H1 H2 Hlow Hin.
  - simpl. exists best. split; [reflexivity|]. split; [exact Hlow|]. split.
    + intros Hhi. ordfalse.
    + intros Hup _. destruct (Hin Hup). split; assumption.
  - simpl. rewrite Ex.
    assert (Hbl : le bot lo = true) by (ord 3%nat).
    destruct (Hchild lo hi Hbl Hlt Htop) as (e & -> & Ra & Rb & Rc).
    assert (Hbest : le best lo = true).
    { destruct (le up lo0) eqn:E.
      - specialize (Hlow eq_refl). ord 3%nat.
      - destruct (Hin eq_refl) as [B _]. ord 4%nat. }
    destruct (le u lo) eqn:Eu.
    + (* the successor fails low *)
      specialize (Ra eq_refl).
      destruct (le hi (join lo e)) eqn:Ecut.
      { exfalso. assert (le hi lo = true) by (ord 4%nat). congruence. }
      apply IH; auto.
      * ord 3%nat.
      * ord 6%nat.
      * ord 6%nat.
      * intros Hup. assert (le up lo0 = true) by (ord 4%nat).
        specialize (Hlow H). ord 6%nat.
      * intros Hup. destruct (le up lo0) eqn:E.
        { exfalso. assert (le (join up u) lo0 = true) by (ord 6%nat). congruence. }
        destruct (Hin eq_refl) as [B1 B2]. split; ord 6%nat.
    + destruct (le hi u) eqn:Eh.
      * (* the successor fails high: the loop stops *)
        specialize (Rb eq_refl).
        assert (Ecut : le hi (join lo e) = true) by (ord 3%nat).
        rewrite Ecut. eexists. split; [reflexivity|].
        assert (Hv : le hi (fold_left join us (join up u)) = true).
        { eapply le_trans; [|apply fold_join_ge]. ord 3%nat. }
        split; [|split].
        -- intros Hlo. exfalso.
           assert (le hi lo = true) by (ord 4%nat). congruence.
        -- intros _. ord 3%nat.
        -- intros _ Hh. congruence.
      * (* the successor's value lies inside the window *)
        destruct (Rc eq_refl eq_refl) as [Rc1 Rc2].
        destruct (le hi (join lo e)) eqn:Ecut.
        { exfalso. assert (le hi u = true) by (ord 6%nat). congruence. }
        assert (Hupu : le up u = true) by (ord 5%nat).
        apply IH; auto.
        -- ord 3%nat.
        -- ord 6%nat.
        -- ord 6%nat.
        -- intros Hup. exfalso.
           assert (le u lo = true) by (ord 5%nat). congruence.
        -- intros _. split; ord 6%nat.
Qed.

End Prune.

Lemma Forall_choose {A B : Type} (P : A -> B -> Prop) (l : list A) :
  Forall (fun a => exists b, P a b) l -> exists bs, Forall2 P l bs.
Proof.
  induction 1 as [|a l (b & Hb) _ (bs & IH)].
  - exists []. constructor.
  - exists (b :: bs). constructor; assumption.
Qed.

Lemma Forall2_In_left {A B : Type} (P : A -> B -> Prop) (l : list A) (bs : list B)
    (a : A) :
  Forall2 P l bs -> In a l -> exists b, In b bs /\ P a b.
Proof.
  induction 1 as [|x y l bs Hxy _ IH]; simpl; [intros []|].
  intros [->|H].
  - exists y. auto.
  - destruct (IH H) as (b & Hb & Pb). exists b. auto.
Qed.

Lemma Forall2_In_right {A B : Type} (P : A -> B -> Prop) (l : list A) (bs : list B)
    (b : B) :
  Forall2 P l bs -> In b bs -> exists a, In a l /\ P a b.
Proof.
  induction 1 as [|x y l bs Hxy _ IH]; simpl; [intros []|].
  intros [->|H].
  - exists x. auto.
  - destruct (IH H) as (a & Ha & Pa). exists a. auto.
Qed.

Section SearchProofs.

Variable Score : Type.
Variable evaluatePosition : GameState -> Score.
Variable negInfinity : Score.
Variable posInfinity : Score.
Variable lost : Score.
Variable won : Score.
Variable drawn : Score.
Variable scoreMax : Score -> Score -> Score.
Variable scoreMin : Score -> Score -> Score.
Variable scoreLe : Score -> Score -> bool.

Local Abbreviation minimax' :=
  (minimax Score evaluatePosition negInfinity posInfinity lost won drawn
           scoreMax scoreMin scoreLe).
Local Abbreviation finite := (finiteScore Score negInfinity posInfinity scoreLe).
Local Abbreviation window := (withinWindow Score scoreLe).
Local Abbreviation same := (sameScore Score scoreLe).
Local Abbreviation leaf := (leafScore Score evaluatePosition lost won drawn).

Lemma maxLoop_returns (search : GameState -> Score -> Score -> option Score)
    (s : GameState) (moves : list Move) :
  Forall (fun m => exists s', executeMove m s = Some s' /\
                     forall a b, exists w, search s' a b = Some w) moves ->
  forall best a b, exists w, maxLoop Score scoreMax scoreLe search s moves best a b = Some w.
Proof.
  induction 1 as [|m moves (s' & Ex & Hs) _ IH]; intros best a b; simpl.
  - eauto.
  - rewrite Ex. destruct (Hs a b) as (e & ->).
    destruct (scoreLe b (scoreMax a e)); eauto.
Qed.

Lemma minLoop_returns (search : GameState -> Score -> Score -> option Score)
    (s : GameState) (moves : list Move) :
  Forall (fun m => exists s', executeMove m s = Some s' /\
                     forall a b, exists w, search s' a b = Some w) moves ->
  forall best a b, exists w, minLoop Score scoreMin scoreLe search s moves best a b = Some w.
Proof.
  induction 1 as [|m moves (s' & Ex & Hs) _ IH]; intros best a b; simpl.
  - eauto.
  - rewrite Ex. destruct (Hs a b) as (e & ->).
    destruct (scoreLe (scoreMin b e) a); eauto.
Qed.

(** X19: started on a well-formed state, [minimax] returns a score for every
    depth, window and side: none of the calls of [executeMove] it makes on
    the moves of [getAllLegalMoves] throws, whatever the evaluation
    function and the arithmetic of scores are. *)
Theorem minimax_returns_on_well_formed (depth : nat) (s : GameState)
    (alpha beta : Score) (maximizingPlayer : bool) :
  wellFormed s -> exists v, minimax' depth s alpha beta maximizingPlayer = Some v.
Proof.
  revert s alpha beta maximizingPlayer.
  induction depth as [|d IH]; intros s alpha beta mp W; simpl; [eauto|].
  destruct (isCheckmate_flag s || isStalemate_flag s); [eauto|].
  set (c := if mp then black else white).
  destruct (length (getAllLegalMoves c s) =? 0)%nat.
  { destruct (isInCheck c s); eauto. }
  assert (F : forall b, Forall (fun m => exists s', executeMove m s = Some s' /\
                forall a b', exists w, minimax' d s' a b' b = Some w)
              (getAllLegalMoves c s)).
  { intros b. eapply Forall_impl; [apply (legal_moves_execute c s); auto|].
    intros m (s' & Ex & W'). exists s'. split; [exact Ex|]. intros a b'. apply IH, W'. }
  destruct mp.
  - apply (maxLoop_returns (fun s a b => minimax' d s a b false)), F.
  - apply (minLoop_returns (fun s a b => minimax' d s a b true)), F.
Qed.

(** The loop of the minimizing player is the loop of the maximizing player
    for the reversed order. *)
Lemma minLoop_dual (search : GameState -> Score -> Score -> option Score)
    (s : GameState) (moves : list Move) :
  forall best alpha beta,
    minLoop Score scoreMin scoreLe search s moves best alpha beta =
    maxLoop Score scoreMin (fun x y => scoreLe y x) (fun t lo hi => search t hi lo)
            s moves best beta alpha.
Proof.
  induction moves as [|m moves IH]; intros best alpha beta; simpl; [reflexivity|].
  destruct (executeMove m s) as [s'|]; [|reflexivity].
  destruct (search s' alpha beta) as [e|]; [|reflexivity].
  destruct (scoreLe (scoreMin beta e) alpha); [reflexivity|]. apply IH.
Qed.

Lemma withinWindow_refl (alpha beta v : Score) :
  scoreLe v v = true -> window alpha beta v v.
Proof. intros R. repeat split; auto. Qed.

Lemma withinWindow_dual (alpha beta v w : Score) :
  withinWindow Score (fun x y => scoreLe y x) beta alpha v w -> window alpha beta v w.
Proof.
  unfold withinWindow, sameScore. intros (A & B & C).
  split; [exact B|]. split; [exact A|]. intros H1 H2. destruct (C H2 H1). auto.
Qed.

Lemma withinWindow_dual' (alpha beta v w : Score) :
  window alpha beta v w -> withinWindow Score (fun x y => scoreLe y x) beta alpha v w.
Proof.
  unfold withinWindow, sameScore. intros (A & B & C).
  split; [exact B|]. split; [exact A|]. intros H1 H2. destruct (C H2 H1). auto.
Qed.

Hypothesis scoreLe_refl : forall x, scoreLe x x = true.
Hypothesis scoreLe_trans :
  forall x y z, scoreLe x y = true -> scoreLe y z = true -> scoreLe x z = true.
Hypothesis scoreLe_total : forall x y, scoreLe x y = true \/ scoreLe y x = true.
Hypothesis scoreMax_l : forall x y, scoreLe x (scoreMax x y) = true.
Hypothesis scoreMax_r : forall x y, scoreLe y (scoreMax x y) = true.
Hypothesis scoreMax_lub :
  forall x y z, scoreLe x z = true -> scoreLe y z = true -> scoreLe (scoreMax x y) z = true.
Hypothesis scoreMin_l : forall x y, scoreLe (scoreMin x y) x = true.
Hypothesis scoreMin_r : forall x y, scoreLe (scoreMin x y) y = true.
Hypothesis scoreMin_glb :
  forall x y z, scoreLe z x = true -> scoreLe z y = true -> scoreLe z (scoreMin x y) = true.
Hypothesis finite_lost : finite lost.
Hypothesis finite_won : finite won.
Hypothesis finite_drawn : finite drawn.
Hypothesis finite_evaluatePosition : forall s, finite (evaluatePosition s).

Lemma scoreLe_flip (x y : Score) : scoreLe x y = false -> scoreLe y x = true.
Proof. intros H. destruct (scoreLe_total x y); congruence. Qed.

Lemma withinWindow_same (alpha beta v v' w : Score) :
  same v v' -> window alpha beta v w -> window alpha beta v' w.
Proof.
  intros [S1 S2] (A & B & C). split; [|split].
  - intros H. apply A. eapply scoreLe_trans; eassumption.
  - intros H. apply B. eapply scoreLe_trans; eassumption.
  - intros H1 H2.
    assert (E1 : scoreLe v alpha = false).
    { destruct (scoreLe v alpha) eqn:E; [|reflexivity].
      rewrite <- H1. symmetry. eapply scoreLe_trans; eassumption. }
    assert (E2 : scoreLe beta v = false).
    { destruct (scoreLe beta v) eqn:E; [|reflexivity].
      rewrite <- H2. symmetry. eapply scoreLe_trans; eassumption. }
    destruct (C E1 E2) as [C1 C2]. split; eapply scoreLe_trans; eassumption.
Qed.

Lemma finite_same (v v' : Score) : same v v' -> finite v -> finite v'.
Proof.
  intros [S1 S2] [F1 F2]. split.
  - destruct (scoreLe v' negInfinity) eqn:E; [|reflexivity].
    rewrite <- F1. symmetry. eapply scoreLe_trans; eassumption.
  - destruct (scoreLe posInfinity v') eqn:E; [|reflexivity].
    rewrite <- F2. symmetry. eapply scoreLe_trans; eassumption.
Qed.

Lemma finite_leaf (s : GameState) (mp : bool) : finite (leaf s mp).
Proof.
  unfold leafScore.
  destruct (isCheckmate_flag s); [destruct mp; assumption|].
  destruct (isStalemate_flag s); [assumption | apply finite_evaluatePosition].
Qed.

Lemma infinities_apart : scoreLe posInfinity negInfinity = false.
Proof.
  destruct finite_drawn as [F1 F2].
  destruct (scoreLe posInfinity negInfinity) eqn:E; [|reflexivity].
  rewrite <- F2. symmetry.
  eapply scoreLe_trans; [exact E | apply scoreLe_flip, F1].
Qed.

(** What is known of a search from [s]: its value [v] for the full window
    is finite, and for every window the search returns a value that
    [withinWindow] relates to [v]. *)
Local Abbreviation searched d s mp v :=
  (minimax' d s negInfinity posInfinity mp = Some v /\ finite v /\
   forall alpha beta,
     scoreLe negInfinity alpha = true -> scoreLe beta alpha = false ->
     scoreLe beta posInfinity = true ->
     exists w, minimax' d s alpha beta mp = Some w /\ window alpha beta v w).

Lemma searched_leaf (d : nat) (s : GameState) (mp : bool) (v : Score) :
  finite v -> (forall alpha beta, minimax' d s alpha beta mp = Some v) ->
  searched d s mp v.
Proof.
  intros F H. split; [apply H|]. split; [exact F|].
  intros alpha beta _ _ _. exists v. split; [apply H|].
  apply withinWindow_refl, scoreLe_refl.
Qed.

(** The value of the largest of finitely many finite scores is finite. *)
Lemma finite_fold_max (us : list Score) :
  us <> [] -> Forall finite us -> finite (fold_left scoreMax us negInfinity).
Proof.
  intros Hne F. rewrite List.Forall_forall in F.
  destruct us as [|u0 us]; [congruence|].
  set (V := fold_left scoreMax (u0 :: us) negInfinity).
  assert (Hu0 : scoreLe u0 V = true).
  { apply (fold_join_upper Score scoreLe scoreMax scoreLe_refl scoreLe_trans
             scoreMax_l scoreMax_r); simpl; auto. }
  destruct (F u0 (or_introl eq_refl)) as [F1 F2].
  split.
  - destruct (scoreLe V negInfinity) eqn:E; [|reflexivity].
    rewrite <- F1. symmetry. eapply scoreLe_trans; eassumption.
  - destruct (fold_join_attained Score scoreLe scoreMax scoreLe_refl scoreLe_trans
                scoreLe_total scoreMax_lub (u0 :: us) negInfinity)
      as [H | (u & Hu & H)]; fold V in H.
    + exfalso. assert (scoreLe u0 negInfinity = true)
        by (eapply scoreLe_trans; eassumption). congruence.
    + destruct (F u Hu) as [_ G2].
      destruct (scoreLe posInfinity V) eqn:E; [|reflexivity].
      rewrite <- G2. symmetry. eapply scoreLe_trans; eassumption.
Qed.

Lemma flip_trans (x y z : Score) :
  scoreLe y x = true -> scoreLe z y = true -> scoreLe z x = true.
Proof. intros H1 H2. eapply scoreLe_trans; eassumption. Qed.

Lemma flip_total (x y : Score) : scoreLe y x = true \/ scoreLe x y = true.
Proof. destruct (scoreLe_total x y); auto. Qed.

Lemma finite_fold_min (us : list Score) :
  us <> [] -> Forall finite us -> finite (fold_left scoreMin us posInfinity).
Proof.
  intros Hne F. rewrite List.Forall_forall in F.
  destruct us as [|u0 us]; [congruence|].
  set (V := fold_left scoreMin (u0 :: us) posInfinity).
  assert (Hu0 : scoreLe V u0 = true).
  { apply (fold_join_upper Score (fun x y => scoreLe y x) scoreMin scoreLe_refl
             flip_trans scoreMin_l scoreMin_r (u0 :: us) posInfinity u0).
    simpl; auto. }
  destruct (F u0 (or_introl eq_refl)) as [F1 F2].
  split.
  - pose proof (fold_join_attained Score (fun x y => scoreLe y x) scoreMin
                  scoreLe_refl flip_trans flip_total scoreMin_glb
                  (u0 :: us) posInfinity) as H.
    cbv beta in H. fold V in H. destruct H as [H | (u & Hu & H)].
    + exfalso. assert (scoreLe posInfinity u0 = true)
        by (eapply scoreLe_trans; eassumption). congruence.
    + destruct (F u Hu) as [G1 _].
      destruct (scoreLe V negInfinity) eqn:E; [|reflexivity].
      rewrite <- G1. symmetry. eapply scoreLe_trans; eassumption.
  - destruct (scoreLe posInfinity V) eqn:E; [|reflexivity].
    rewrite <- F2. symmetry. eapply scoreLe_trans; eassumption.
Qed.

(** The loop of the maximizing player over successors that have been
    searched: its value for the full window is the largest of the
    successors' values. *)
Lemma maximizing_node (d : nat) (s : GameState) (moves : list Move) (us : list Score) :
  moves <> [] ->
  Forall2 (fun m u => exists s', executeMove m s = Some s' /\ searched d s' false u)
          moves us ->
  exists v, same (fold_left scoreMax us negInfinity) v /\ finite v /\
    maxLoop Score scoreMax scoreLe (fun t a b => minimax' d t a b false) s moves
            negInfinity negInfinity posInfinity = Some v /\
    forall alpha beta,
      scoreLe negInfinity alpha = true -> scoreLe beta alpha = false ->
      scoreLe beta posInfinity = true ->
      exists w, maxLoop Score scoreMax scoreLe (fun t a b => minimax' d t a b false)
                        s moves negInfinity alpha beta = Some w /\
                window alpha beta v w.
Proof.
  intros Hne F2.
  set (V := fold_left scoreMax us negInfinity).
  assert (FV : finite V).
  { apply finite_fold_max.
    - intros ->. inversion F2. congruence.
    - apply List.Forall_forall. intros u Hu.
      destruct (Forall2_In_right _ _ _ _ F2 Hu) as (m & _ & s' & _ & _ & Fu & _).
      exact Fu. }
  assert (Loop : forall alpha beta,
      scoreLe negInfinity alpha = true -> scoreLe beta alpha = false ->
      scoreLe beta posInfinity = true ->
      exists w, maxLoop Score scoreMax scoreLe (fun t a b => minimax' d t a b false)
                        s moves negInfinity alpha beta = Some w /\
                window alpha beta V w).
  { intros alpha beta Ha Hab Hb.
    apply (maxLoop_window Score scoreLe scoreMax scoreLe_refl scoreLe_trans
             scoreLe_total scoreMax_l scoreMax_r scoreMax_lub
             (fun t a b => minimax' d t a b false) s negInfinity posInfinity moves us);
      auto.
    - eapply Forall2_impl; [exact F2|].
      intros m u (s' & Ex & _ & _ & Hw). exists s'. split; [exact Ex|].
      intros lo hi H1 H2 H3. apply Hw; assumption. }
  destruct (Loop negInfinity posInfinity (scoreLe_refl _) infinities_apart
              (scoreLe_refl _)) as (v & Ev & _ & _ & Hv).
  destruct FV as [FV1 FV2]. specialize (Hv FV1 FV2).
  exists v. split; [exact Hv|]. split; [eapply finite_same; [exact Hv | split; assumption]|].
  split; [exact Ev|].
  intros alpha beta Ha Hab Hb. destruct (Loop alpha beta Ha Hab Hb) as (w & Ew & Hw).
  exists w. split; [exact Ew|]. eapply withinWindow_same; eassumption.
Qed.

Lemma minimizing_node (d : nat) (s : GameState) (moves : list Move) (us : list Score) :
  moves <> [] ->
  Forall2 (fun m u => exists s', executeMove m s = Some s' /\ searched d s' true u)
          moves us ->
  exists v, same (fold_left scoreMin us posInfinity) v /\ finite v /\
    minLoop Score scoreMin scoreLe (fun t a b => minimax' d t a b true) s moves
            posInfinity negInfinity posInfinity = Some v /\
    forall alpha beta,
      scoreLe negInfinity alpha = true -> scoreLe beta alpha = false ->
      scoreLe beta posInfinity = true ->
      exists w, minLoop Score scoreMin scoreLe (fun t a b => minimax' d t a b true)
                        s moves posInfinity alpha beta = Some w /\
                window alpha beta v w.
Proof.
  intros Hne F2.
  set (V := fold_left scoreMin us posInfinity).
  assert (FV : finite V).
  { apply finite_fold_min.
    - intros ->. inversion F2. congruence.
    - apply List.Forall_forall. intros u Hu.
      destruct (Forall2_In_right _ _ _ _ F2 Hu) as (m & _ & s' & _ & _ & Fu & _).
      exact Fu. }
  assert (Loop : forall alpha beta,
      scoreLe negInfinity alpha = true -> scoreLe beta alpha = false ->
      scoreLe beta posInfinity = true ->
      exists w, minLoop Score scoreMin scoreLe (fun t a b => minimax' d t a b true)
                        s moves posInfinity alpha beta = Some w /\
                window alpha beta V w).
  { intros alpha beta Ha Hab Hb. rewrite minLoop_dual.
    destruct (maxLoop_window Score (fun x y => scoreLe y x) scoreMin scoreLe_refl
                flip_trans flip_total scoreMin_l scoreMin_r scoreMin_glb
                (fun t lo hi => minimax' d t hi lo true) s posInfinity negInfinity
                moves us) with (lo0 := beta) (hi := alpha) (best := posInfinity)
                               (lo := beta) (up := posInfinity)
      as (w & Ew & Hw); auto.
    - eapply Forall2_impl; [exact F2|].
      intros m u (s' & Ex & _ & _ & Hw). exists s'. split; [exact Ex|].
      intros lo hi H1 H2 H3. destruct (Hw hi lo H3 H2 H1) as (w & Ew & Ww).
      exists w. split; [exact Ew|]. apply withinWindow_dual', Ww.
    - exists w. split; [exact Ew|]. apply withinWindow_dual, Hw. }
  destruct (Loop negInfinity posInfinity (scoreLe_refl _) infinities_apart
              (scoreLe_refl _)) as (v & Ev & _ & _ & Hv).
  destruct FV as [FV1 FV2]. specialize (Hv FV1 FV2).
  exists v. split; [exact Hv|]. split; [eapply finite_same; [exact Hv | split; assumption]|].
  split; [exact Ev|].
  intros alpha beta Ha Hab Hb. destruct (Loop alpha beta Ha Hab Hb) as (w & Ew & Hw).
  exists w. split; [exact Ew|]. eapply withinWindow_same; eassumption.
Qed.

Lemma length_zero_nil {A : Type} (l : list A) :
  (length l =? 0)%nat = false -> l <> [].
Proof. destruct l; [discriminate | discriminate]. Qed.

(** Every search from a well-formed state has a finite full-window value,
    and its value for any other window lies as [withinWindow] says. *)
Lemma minimax_searched (depth : nat) :
  forall (s : GameState) (mp : bool),
    wellFormed s -> exists v, searched depth s mp v.
Proof.
  induction depth as [|d IH]; intros s mp W.
  - exists (leaf s mp). apply searched_leaf; [apply finite_leaf | reflexivity].
  - destruct (isCheckmate_flag s || isStalemate_flag s) eqn:Over.
    { exists (leaf s mp). apply searched_leaf; [apply finite_leaf|].
      intros alpha beta. simpl. rewrite Over. reflexivity. }
    set (c := if mp then black else white).
    destruct (length (getAllLegalMoves c s) =? 0)%nat eqn:Len.
    { exists (if isInCheck c s then (if mp then lost else won) else drawn).
      apply searched_leaf.
      - destruct (isInCheck c s); [destruct mp|]; assumption.
      - intros alpha beta. simpl. rewrite Over. fold c. rewrite Len.
        destruct (isInCheck c s); reflexivity. }
    assert (Hne : getAllLegalMoves c s <> []) by (apply length_zero_nil, Len).
    assert (F : Forall (fun m => exists u s', executeMove m s = Some s' /\
                                   searched d s' (negb mp) u)
                       (getAllLegalMoves c s)).
    { eapply Forall_impl; [apply (legal_moves_execute c s); auto|].
      intros m (s' & Ex & W'). destruct (IH s' (negb mp) W') as (u & Hu).
      exists u, s'. auto. }
    apply Forall_choose in F as (us & F2).
    destruct mp.
    + destruct (maximizing_node d s (getAllLegalMoves c s) us Hne F2)
        as (v & _ & Fv & Ev & Hv).
      exists v. split; [|split; [exact Fv|]].
      * simpl. rewrite Over. fold c. rewrite Len. exact Ev.
      * intros alpha beta Ha Hab Hb. simpl. rewrite Over. fold c. rewrite Len.
        apply Hv; assumption.
    + destruct (minimizing_node d s (getAllLegalMoves c s) us Hne F2)
        as (v & _ & Fv & Ev & Hv).
      exists v. split; [|split; [exact Fv|]].
      * simpl. rewrite Over. fold c. rewrite Len. exact Ev.
      * intros alpha beta Ha Hab Hb. simpl. rewrite Over. fold c. rewrite Len.
        apply Hv; assumption.
Qed.

(** X20: pruning does not change the result of the search.  For scores
    that are linearly ordered by [<=], with [Math.max] and [Math.min] the
    larger and the smaller of two scores and every leaf score strictly
    between [-Infinity] and [Infinity], a search from a well-formed state
    with the window from [alpha] to [beta] returns a value [w] that stands
    to the value [v] of the search with the full window as follows: if [v]
    lies strictly inside the window then [w] compares equal to [v]; if
    [v <= alpha] then [w <= alpha]; if [beta <= v] then [beta <= w].  The
    value [v] is itself strictly between the two infinities. *)
Theorem minimax_window_agrees_with_full_search (depth : nat) (s : GameState)
    (maximizingPlayer : bool) (alpha beta : Score) :
  wellFormed s ->
  scoreLe negInfinity alpha = true -> scoreLe beta alpha = false ->
  scoreLe beta posInfinity = true ->
  exists v w,
    minimax' depth s negInfinity posInfinity maximizingPlayer = Some v /\
    minimax' depth s alpha beta maximizingPlayer = Some w /\
    finite v /\
    (scoreLe v alpha = true -> scoreLe w alpha = true) /\
    (scoreLe beta v = true -> scoreLe beta w = true) /\
    (scoreLe v alpha = false -> scoreLe beta v = false ->
     scoreLe v w = true /\ scoreLe w v = true).
Proof.
  intros W Ha Hab Hb.
  destruct (minimax_searched depth s maximizingPlayer W) as (v & Ev & Fv & Hv).
  destruct (Hv alpha beta Ha Hab Hb) as (w & Ew & Hlow & Hhigh & Hin).
  exists v, w.
  split; [exact Ev|]. split; [exact Ew|]. split; [exact Fv|].
  split; [exact Hlow|]. split; [exact Hhigh|].
  intros H1 H2. destruct (Hin H1 H2) as [S1 S2]. split; assumption.
Qed.

(** X21: the search with the full window computes the minimax value.  Under
    the same assumptions on the scores, at a well-formed state that is not
    flagged as checkmate or stalemate and where the side to search (black
    when maximizing, white when minimizing) has a legal move, the value of
    the search at depth [d + 1] is the best of the values that the search at
    depth [d] gives for the successors: no successor's value is better (for
    the maximizing player: greater; for the minimizing player: smaller),
    and some successor's value compares equal to it. *)
Theorem minimax_value_is_best_successor (d : nat) (s : GameState)
    (maximizingPlayer : bool) :
  wellFormed s ->
  isCheckmate_flag s = false -> isStalemate_flag s = false ->
  getAllLegalMoves (if maximizingPlayer then black else white) s <> [] ->
  exists v,
    minimax' (S d) s negInfinity posInfinity maximizingPlayer = Some v /\
    (forall m, In m (getAllLegalMoves (if maximizingPlayer then black else white) s) ->
       exists s' u,
         executeMove m s = Some s' /\
         minimax' d s' negInfinity posInfinity (negb maximizingPlayer) = Some u /\
         (if maximizingPlayer then scoreLe u v else scoreLe v u) = true) /\
    (exists m s' u,
       In m (getAllLegalMoves (if maximizingPlayer then black else white) s) /\
       executeMove m s = Some s' /\
       minimax' d s' negInfinity posInfinity (negb maximizingPlayer) = Some u /\
       scoreLe u v = true /\ scoreLe v u = true).
Proof.
  intros W Hm Hs Hne.
  set (c := if maximizingPlayer then black else white) in *.
  assert (Len : (length (getAllLegalMoves c s) =? 0)%nat = false).
  { destruct (getAllLegalMoves c s); [congruence | reflexivity]. }
  assert (F : Forall (fun m => exists u s', executeMove m s = Some s' /\
                                 searched d s' (negb maximizingPlayer) u)
                     (getAllLegalMoves c s)).
  { eapply Forall_impl; [apply (legal_moves_execute c s); auto|].
    intros m (s' & Ex & W').
    destruct (minimax_searched d s' (negb maximizingPlayer) W') as (u & Hu).
    exists u, s'. auto. }
  apply Forall_choose in F as (us & F2).
  destruct maximizingPlayer.
  - destruct (maximizing_node d s (getAllLegalMoves c s) us Hne F2)
      as (v & [V1 V2] & Fv & Ev & _).
    exists v. split; [|split].
    + simpl. rewrite Hm, Hs. simpl. fold c. rewrite Len. exact Ev.
    + intros m Hin.
      destruct (Forall2_In_left _ _ _ _ F2 Hin) as (u & Hu & s' & Ex & Eu & _).
      exists s', u. split; [exact Ex|]. split; [exact Eu|].
      eapply scoreLe_trans; [|exact V1].
      apply (fold_join_upper Score scoreLe scoreMax scoreLe_refl scoreLe_trans
               scoreMax_l scoreMax_r). exact Hu.
    + destruct (fold_join_attained Score scoreLe scoreMax scoreLe_refl scoreLe_trans
                  scoreLe_total scoreMax_lub us negInfinity) as [H | (u & Hu & H)].
      * exfalso. destruct Fv as [Fv _].
        assert (scoreLe v negInfinity = true) by (eapply scoreLe_trans; eassumption).
        congruence.
      * destruct (Forall2_In_right _ _ _ _ F2 Hu) as (m & Hin & s' & Ex & Eu & _).
        exists m, s', u. split; [exact Hin|]. split; [exact Ex|]. split; [exact Eu|].
        split.
        -- eapply scoreLe_trans; [|exact V1].
           apply (fold_join_upper Score scoreLe scoreMax scoreLe_refl scoreLe_trans
                    scoreMax_l scoreMax_r). exact Hu.
        -- eapply scoreLe_trans; eassumption.
  - destruct (minimizing_node d s (getAllLegalMoves c s) us Hne F2)
      as (v & [V1 V2] & Fv & Ev & _).
    exists v. split; [|split].
    + simpl. rewrite Hm, Hs. simpl. fold c. rewrite Len. exact Ev.
    + intros m Hin.
      destruct (Forall2_In_left _ _ _ _ F2 Hin) as (u & Hu & s' & Ex & Eu & _).
      exists s', u. split; [exact Ex|]. split; [exact Eu|].
      eapply scoreLe_trans; [exact V2|].
      apply (fold_join_upper Score (fun x y => scoreLe y x) scoreMin scoreLe_refl
               flip_trans scoreMin_l scoreMin_r us posInfinity u). exact Hu.
    + pose proof (fold_join_attained Score (fun x y => scoreLe y x) scoreMin
                    scoreLe_refl flip_trans flip_total scoreMin_glb us posInfinity) as H.
      cbv beta in H. destruct H as [H | (u & Hu & H)].
      * exfalso. destruct Fv as [_ Fv].
        assert (scoreLe posInfinity v = true) by (eapply scoreLe_trans; eassumption).
        congruence.
      * destruct (Forall2_In_right _ _ _ _ F2 Hu) as (m & Hin & s' & Ex & Eu & _).
        exists m, s', u. split; [exact Hin|]. split; [exact Ex|]. split; [exact Eu|].
        split.
        -- eapply scoreLe_trans; eassumption.
        -- eapply scoreLe_trans; [exact V2|].
           apply (fold_join_upper Score (fun x y => scoreLe y x) scoreMin scoreLe_refl
                    flip_trans scoreMin_l scoreMin_r us posInfinity u). exact Hu.
Qed.

End SearchProofs.

(** ** The controller *)

Lemma executed_flags (m : Move) (s s' : GameState) :
  executeMove m s = Some s' ->
  isCheckmate_flag s' = isCheckmate (currentTurn s') s' /\
  isStalemate_flag s' = isStalemate s'.
Proof.
  intros H. apply executeMove_inv in H as (h & st & mv & st' & h' & _ & _ & R & S').
  destruct (executeMoveH_flags h h' st st' mv s' R S') as (_ & B & C). auto.
Qed.

Lemma valid_move_executes (m : Move) (s : GameState) :
  wellFormed s -> isValidMove m s = true ->
  exists s', executeMove m s = Some s' /\ wellFormed s'.
Proof.
  intros W H.
  destruct (isValidMove_wellFormed m s W H)
    as (p & Ep & _ & _ & _ & On & Hne & Hep & Hcas).
  exists (stateAfter m s p). split.
  - apply executeMove_exact; auto. apply isValidBoard_eightByEight. apply W.
  - apply wellFormed_stateAfter; assumption.
Qed.

(** A move that [isValidMove] accepts is a move of the side to move, which
    therefore has a legal move. *)
Lemma valid_move_listed (m : Move) (s : GameState) :
  wellFormed s -> isValidMove m s = true ->
  getAllLegalMoves (currentTurn s) s <> [].
Proof.
  intros W H.
  destruct (isValidMove_wellFormed m s W H) as (p & Ep & Hc & _ & Hin & _).
  destruct W as (V & _ & _).
  destruct (cell_in_window _ _ _ _ V Ep) as [Hr Hk].
  intros E.
  assert (Hm : In (plainMove (mkPosition (row (from m)) (col (from m))) (to m) p)
                  (getAllLegalMoves (currentTurn s) s)).
  { apply getAllLegalMoves_In.
    exists (row (from m)), (col (from m)), p, (to m).
    destruct (from m) as [r k]. cbn [row col] in *.
    repeat split; auto; lia. }
  rewrite E in Hm. destruct Hm.
Qed.

Lemma flags_off_has_moves (s : GameState) :
  isCheckmate_flag s = isCheckmate (currentTurn s) s ->
  isStalemate_flag s = isStalemate s ->
  isCheckmate_flag s || isStalemate_flag s = false ->
  getAllLegalMoves (currentTurn s) s <> [].
Proof.
  intros -> -> H. apply orb_false_iff in H as [H1 H2].
  unfold isCheckmate, isStalemate in *. cbv zeta in H2.
  intros E. apply hasAnyLegalMoves_false_iff in E. rewrite E in *.
  destruct (isInCheck (currentTurn s) s); simpl in *; discriminate.
Qed.

Lemma flags_on_no_moves (s : GameState) :
  isCheckmate_flag s = isCheckmate (currentTurn s) s ->
  isStalemate_flag s = isStalemate s ->
  isCheckmate_flag s || isStalemate_flag s = true ->
  getAllLegalMoves (currentTurn s) s = [].
Proof.
  intros -> -> H. apply hasAnyLegalMoves_false_iff.
  unfold isCheckmate, isStalemate in *. cbv zeta in H.
  destruct (isInCheck (currentTurn s) s); simpl in *;
    destruct (hasAnyLegalMoves (currentTurn s) s); simpl in *; congruence.
Qed.

Ltac unfold_controller :=
  unfold Controller.notifyStateChange, Controller.setIsAIThinking,
    Controller.setGameState, Controller.fromEngine in *;
  cbn [Controller.gameState Controller.difficulty Controller.notified
       Controller.engineState Controller.isAIThinking Controller.status
       Controller.winner fst snd] in *.

Section ControllerProofs.

Variable Score : Type.
Variable searchScore : DifficultyMode -> nat -> GameState -> Score.
Variable scoreGt : Score -> Score -> bool.
Variable randomBelow : nat -> nat.

Local Abbreviation generateMove' := (generateMove Score searchScore scoreGt randomBelow).
Local Abbreviation requestAIMove' :=
  (Controller.requestAIMove Score searchScore scoreGt randomBelow).
Local Abbreviation handlePlayerMove' :=
  (Controller.handlePlayerMove Score searchScore scoreGt randomBelow).
Local Abbreviation inPlay' := (Controller.inPlay Score searchScore scoreGt randomBelow).

(** When black has a legal move, the opponent returns one of them. *)
Lemma generateMove_legal (s : GameState) (config : AIConfig) :
  isValidBoard (board s) = true -> getAllLegalMoves black s <> [] ->
  exists move, generateMove' s config = Some move /\
               In move (getAllLegalMoves black s).
Proof.
  intros V NE. unfold generateMove.
  assert (Ex : forall m, In m (getAllLegalMoves black s) ->
                         is_Some (executeMove m s)).
  { intros m Hm. eapply executeMove_legal; eassumption. }
  generalize dependent (getAllLegalMoves black s). intros legal NE Ex.
  assert (Len : (length legal =? 0)%nat = false).
  { destruct legal; [congruence | reflexivity]. }
  rewrite Len.
  destruct (scoreMoves_spec Score searchScore (difficulty config) s legal Ex 0%nat)
    as (scored & Hsc & Hfst).
  rewrite Hsc.
  set (sorted := sortByScore Score scoreGt scored).
  assert (Hsorted : forall ms, In ms sorted -> In (fst ms) legal).
  { intros ms H. unfold sorted in H. apply (proj1 (sortByScore_In _ _ _ _)) in H.
    eapply In_fst_scored; eassumption. }
  assert (Hne : sorted <> []).
  { intros E. destruct scored as [|x scored].
    - simpl in Hfst. congruence.
    - assert (Hx : In x sorted) by (apply sortByScore_In; left; reflexivity).
      rewrite E in Hx. destruct Hx. }
  assert (Pick : forall cands,
             cands <> [] -> (forall ms, In ms cands -> In ms sorted) ->
             exists move,
               match cands with
               | [] => legal !! randomBelow (length legal)
               | best :: _ => Some (fst best)
               end = Some move /\ In move legal).
  { intros [|best rest] Hc Hsub; [congruence|].
    exists (fst best). split; [reflexivity|]. apply Hsorted, Hsub. left; reflexivity. }
  assert (Hpred : forall ms, In ms sorted ->
                    is_Some (wouldResultInCheckmate (fst ms) s)).
  { intros ms H. unfold wouldResultInCheckmate.
    destruct (Ex (fst ms) (Hsorted ms H)) as [s' ->]. eauto. }
  destruct (filterNot_spec (fun ms => wouldResultInCheckmate (fst ms) s) sorted Hpred)
    as (nonCk & Hf & HnonCk).
  assert (Filtered :
    exists move,
      match (match withoutCheckmates Score s sorted with
             | Some nonCheckmate =>
                 Some (if (0 <? length nonCheckmate)%nat then nonCheckmate
                       else sorted)
             | None => None
             end) with
      | None => None
      | Some [] => legal !! randomBelow (length legal)
      | Some (best :: _) => Some (fst best)
      end = Some move /\ In move legal).
  { unfold withoutCheckmates. rewrite Hf.
    destruct nonCk as [|best rest] eqn:En.
    - simpl. apply Pick; auto.
    - simpl. apply (Pick (best :: rest)); [discriminate|].
      intros ms Hms. apply HnonCk, Hms. }
  destruct (difficulty config).
  - exact Filtered.
  - destruct (moveCount s <? 10); [exact Filtered|]. apply Pick; auto.
Qed.

(** The opponent's turn: when black is to move and has a legal move,
    [requestAIMove] plays one of black's legal moves. *)
Lemma requestAIMove_replies (c : Controller.GameController) :
  let g := Controller.gameState c in
  wellFormed (Controller.engineState g) ->
  getAllLegalMoves black (Controller.engineState g) <> [] ->
  exists aiMove s2,
    In aiMove (getAllLegalMoves black (Controller.engineState g)) /\
    executeMove aiMove (Controller.engineState g) = Some s2 /\
    wellFormed s2 /\
    requestAIMove' c =
      (Controller.fulfilled,
       Controller.mkGameController
         (Controller.mkGameStateObject s2 (Some false) None None)
         (Controller.difficulty c)
         (Controller.notified c ++
            [Controller.mkGameStateObject (Controller.engineState g) (Some true)
               (Controller.status g) (Controller.winner g);
             Controller.mkGameStateObject s2 (Some false) None None])).
Proof.
  intros g W NE. unfold Controller.requestAIMove. cbv zeta. unfold_controller. fold g.
  destruct (generateMove_legal (Controller.engineState g)
              (mkAIConfig (Controller.difficulty c)
                 match Controller.difficulty c with easy => 2000 | hard => 3000 end)
              (proj1 W) NE) as (aiMove & -> & Hin).
  destruct (legal_move_executes black _ aiMove W Hin) as (s2 & Ex & W2).
  exists aiMove, s2. rewrite Ex. unfold_controller.
  rewrite <- app_assoc. auto.
Qed.

(** X24: a valid move of the player is answered.  When the state that the
    controller holds is well formed, white is to move and the move count is
    at least 0 and stays below 2^53 after one more move (so that both
    additions of one are exact), a move that
    [isValidMove] accepts is executed; if the resulting state is flagged as
    checkmate or stalemate the promise is fulfilled with that state and one
    notification; otherwise the opponent finds a legal move of black, that
    move is executed too, and the promise is fulfilled with white to move
    again, two moves more on the count, [isAIThinking] cleared, and three
    notifications (the player's move, the opponent thinking, the
    opponent's move).  The state objects that [executeMove] returns carry no
    [status] and no [winner], whatever the controller's state held before. *)
Theorem handlePlayerMove_answers_valid_move (c : Controller.GameController)
    (move : Move) :
  wellFormed (Controller.engineState (Controller.gameState c)) ->
  currentTurn (Controller.engineState (Controller.gameState c)) = white ->
  isValidMove move (Controller.engineState (Controller.gameState c)) = true ->
  0 <= moveCount (Controller.engineState (Controller.gameState c)) ->
  moveCount (Controller.engineState (Controller.gameState c)) + 1 < 2 ^ 53 ->
  exists s1,
    executeMove move (Controller.engineState (Controller.gameState c)) = Some s1 /\
    if isCheckmate_flag s1 || isStalemate_flag s1 then
      handlePlayerMove' move c =
        (Controller.fulfilled,
         Controller.mkGameController (Controller.fromEngine s1) (Controller.difficulty c)
           (Controller.notified c ++ [Controller.fromEngine s1]))
    else
      exists aiMove s2,
        In aiMove (getAllLegalMoves black s1) /\
        executeMove aiMove s1 = Some s2 /\
        currentTurn s2 = white /\
        moveCount s2
          = moveCount (Controller.engineState (Controller.gameState c)) + 2 /\
        handlePlayerMove' move c =
          (Controller.fulfilled,
           Controller.mkGameController
             (Controller.mkGameStateObject s2 (Some false) None None)
             (Controller.difficulty c)
             (Controller.notified c ++
                [Controller.fromEngine s1;
                 Controller.mkGameStateObject s1 (Some true) None None;
                 Controller.mkGameStateObject s2 (Some false) None None])).
Proof.
  intros W Hturn Hvalid _ _.
  destruct (valid_move_executes move _ W Hvalid) as (s1 & Ex1 & W1).
  exists s1. split; [exact Ex1|].
  destruct (executeMove_turn_count _ _ _ Ex1) as [T1 N1].
  destruct (executed_flags _ _ _ Ex1) as [Fm Fs].
  unfold Controller.handlePlayerMove. rewrite Hvalid, Ex1. cbv zeta. simpl negb. cbv iota.
  destruct (isCheckmate_flag s1 || isStalemate_flag s1) eqn:Over.
  - unfold_controller. reflexivity.
  - rewrite Hturn in T1. simpl in T1.
    pose proof (flags_off_has_moves s1 Fm Fs Over) as NE. rewrite T1 in NE.
    destruct (requestAIMove_replies
                (Controller.notifyStateChange
                   (Controller.setGameState (Controller.fromEngine s1) c)))
      as (aiMove & s2 & Hin & Ex2 & W2 & R); [exact W1 | exact NE |].
    unfold_controller.
    destruct (executeMove_turn_count _ _ _ Ex2) as [T2 N2].
    exists aiMove, s2. split; [exact Hin|]. split; [exact Ex2|].
    split; [rewrite T2, T1; reflexivity|]. split; [lia|].
    rewrite R, <- app_assoc. reflexivity.
Qed.

(** X25: a controller in use always waits for the player.  For every
    controller obtained from a new one by [startNewGame],
    [handlePlayerMove], [requestAIMove] and [resignGame], the state it holds
    is well formed, its checkmate and stalemate flags are the detectors'
    values, white is to move unless one of these flags is set,
    [isAIThinking] is not left set, and the promise of [handlePlayerMove] is
    fulfilled for every move, valid or not. *)
Theorem controller_always_awaits_player (c : Controller.GameController) :
  inPlay' c ->
  Controller.awaitingPlayer (Controller.engineState (Controller.gameState c)) /\
  Controller.isAIThinking (Controller.gameState c) <> Some true /\
  forall move, fst (handlePlayerMove' move c) = Controller.fulfilled.
Proof.
  assert (Step : forall c0 move,
    Controller.awaitingPlayer (Controller.engineState (Controller.gameState c0)) ->
    Controller.isAIThinking (Controller.gameState c0) <> Some true ->
    fst (handlePlayerMove' move c0) = Controller.fulfilled /\
    Controller.awaitingPlayer
      (Controller.engineState (Controller.gameState (snd (handlePlayerMove' move c0)))) /\
    Controller.isAIThinking (Controller.gameState (snd (handlePlayerMove' move c0)))
      <> Some true).
  { intros c0 move I0 Th. pose proof I0 as (W & Fm & Fs & Turn).
    unfold Controller.handlePlayerMove.
    destruct (isValidMove move (Controller.engineState (Controller.gameState c0)))
      eqn:Hvalid; simpl negb; cbv iota.
    2:{ simpl. split; [reflexivity|]. split; [exact I0 | exact Th]. }
    pose proof (valid_move_listed move _ W Hvalid) as Listed.
    destruct Turn as [Hturn | Over0].
    2:{ exfalso. apply Listed. apply flags_on_no_moves; assumption. }
    destruct (valid_move_executes move _ W Hvalid) as (s1 & Ex1 & W1).
    destruct (executeMove_turn_count _ _ _ Ex1) as [T1 _].
    destruct (executed_flags _ _ _ Ex1) as [Fm1 Fs1].
    rewrite Ex1. cbv zeta.
    destruct (isCheckmate_flag s1 || isStalemate_flag s1) eqn:Over.
    - unfold_controller. split; [reflexivity|]. split; [|discriminate].
      split; [exact W1|]. split; [exact Fm1|]. split; [exact Fs1|]. right. exact Over.
    - rewrite Hturn in T1. simpl in T1.
      pose proof (flags_off_has_moves s1 Fm1 Fs1 Over) as NE. rewrite T1 in NE.
      destruct (requestAIMove_replies
                  (Controller.notifyStateChange
                     (Controller.setGameState (Controller.fromEngine s1) c0)))
        as (aiMove & s2 & Hin & Ex2 & W2 & R); [exact W1 | exact NE |].
      rewrite R. unfold_controller.
      destruct (executeMove_turn_count _ _ _ Ex2) as [T2 _].
      destruct (executed_flags _ _ _ Ex2) as [Fm2 Fs2].
      split; [reflexivity|]. split; [|discriminate].
      split; [exact W2|]. split; [exact Fm2|]. split; [exact Fs2|].
      left. rewrite T2, T1. reflexivity. }
  intros H.
  assert (Inv : Controller.awaitingPlayer
                  (Controller.engineState (Controller.gameState c)) /\
                Controller.isAIThinking (Controller.gameState c) <> Some true).
  { induction H as [|d c _ _|move c _ [IH1 IH2]|c _ [IH1 IH2]|c _ [IH1 IH2]].
    - split; [|discriminate]. simpl.
      split; [exact wellFormed_initializeGame|].
      split; [vm_compute; reflexivity|]. split; [vm_compute; reflexivity|].
      left. reflexivity.
    - split; [|discriminate]. simpl.
      split; [exact wellFormed_initializeGame|].
      split; [vm_compute; reflexivity|]. split; [vm_compute; reflexivity|].
      left. reflexivity.
    - destruct (Step c move IH1 IH2) as (_ & A & B). auto.
    - assert (NoMove : getAllLegalMoves black
                         (Controller.engineState (Controller.gameState c)) = []).
      { destruct IH1 as (_ & Fm & Fs & Turn).
        destruct Turn as [Turn | Over].
        - apply getAllLegalMoves_off_turn. rewrite Turn. discriminate.
        - pose proof (flags_on_no_moves _ Fm Fs Over) as E.
          destruct (currentTurn (Controller.engineState (Controller.gameState c)))
            eqn:T; [|exact E].
          apply getAllLegalMoves_off_turn. rewrite T. discriminate. }
      unfold Controller.requestAIMove. cbv zeta. unfold_controller.
      unfold generateMove. rewrite NoMove. simpl.
      split; [exact IH1 | discriminate].
    - unfold Controller.resignGame. cbv zeta. unfold_controller.
      split; [exact IH1 | exact IH2]. }
  destruct Inv as [I1 I2]. split; [exact I1|]. split; [exact I2|].
  intros move. apply (Step c move I1 I2).
Qed.

End ControllerProofs.

(** ** Listed moves, executed as listed *)

(** X26: the moves that [getAllLegalMoves] lists carry no flag and no
    promotion type, and [executeMove] treats them accordingly.  On a
    well-formed state, executing a listed move changes two squares only: the
    mover arrives on the destination with its own type (a pawn on the last
    rank stays a pawn), the source is emptied, and every other square is as
    before (no rook goes along with a king that steps two files, and no
    pawn beside the mover is taken off). *)
Theorem listed_moves_execute_unflagged (c : PieceColor) (s : GameState) (m : Move) :
  wellFormed s -> In m (getAllLegalMoves c s) ->
  isEnPassant m = false /\ isCastling m = false /\ promotionType m = None /\
  exists p s',
    cell (board s) (row (from m)) (col (from m)) = Some p /\
    executeMove m s = Some s' /\
    cell (board s') (row (to m)) (col (to m))
      = Some (mkPiece (type p) (color p) (to m) true) /\
    cell (board s') (row (from m)) (col (from m)) = None /\
    forall r k, (r <> row (from m) \/ k <> col (from m)) ->
                (r <> row (to m) \/ k <> col (to m)) ->
                cell (board s') r k = cell (board s) r k.
Proof.
  intros W Hin. pose proof W as (V & A & Hlm).
  apply getAllLegalMoves_In in Hin as (r & k & p & t & Hr & Hk & Ep & Hc & Ht & ->).
  pose proof (isValidBoard_eightByEight _ V) as E8.
  destruct (getValidMoves_pseudoLegal (mkPosition r k) s p t Ep Ht) as (_ & Hps & _).
  pose proof (A _ _ _ Ep) as Hpos.
  assert (On : isPositionOnBoard t = true).
  { pose proof (getPseudoLegalMoves_row p s _ Hps) as Hrow.
    destruct (getPseudoLegalMoves_target p s _ Hps) as [[On _] | [_ Hep]]; [exact On|].
    apply getEnPassantMoves_col in Hep as (lm & El & Ec).
    specialize (Hlm lm El). apply isPositionOnBoard_iff in Hlm.
    apply isPositionOnBoard_iff. rewrite Ec. tauto. }
  assert (Hne : row t <> r \/ col t <> k).
  { pose proof (getPseudoLegalMoves_away p s _ Hps) as D. rewrite Hpos in D. exact D. }
  split; [reflexivity|]. split; [reflexivity|]. split; [reflexivity|].
  exists p, (stateAfter (plainMove (mkPosition r k) t p) s p).
  cbn [from to plainMove row col].
  split; [exact Ep|]. split.
  { apply executeMove_exact; auto; discriminate. }
  rewrite board_stateAfter. unfold boardAfter, arrivedPiece.
  cbn [isEnPassant isCastling promotionType plainMove from to row col].
  split; [|split].
  - rewrite cell_setCell_other by (try apply eightByEight_setCell; auto).
    apply cell_setCell_same; [exact E8|]. destruct t; exact On.
  - apply cell_setCell_same; [apply eightByEight_setCell; exact E8|].
    apply isPositionOnBoard_iff. simpl. lia.
  - intros r' k' D1 D2.
    rewrite !cell_setCell_other by (try apply eightByEight_setCell; auto).
    reflexivity.
Qed.

(** ** Knights and kings *)

(** X27: a knight reaches exactly the squares of the board that lie one row
    and two columns, or two rows and one column, from its own and do not
    hold a piece of its colour, whatever stands in between; the basic moves
    of a king are exactly the adjacent squares of the board that do not hold
    a piece of its colour. *)
Theorem knight_and_king_patterns (p : Piece) (s : GameState) (x : Position) :
  (In x (getKnightMoves p s) <->
   isPositionOnBoard x = true /\
   (Z.abs (row x - row (position p)) = 1 /\ Z.abs (col x - col (position p)) = 2 \/
    Z.abs (row x - row (position p)) = 2 /\ Z.abs (col x - col (position p)) = 1) /\
   forall q, cell (board s) (row x) (col x) = Some q -> color q <> color p) /\
  (In x (getBasicKingMoves p s) <->
   isPositionOnBoard x = true /\
   Z.max (Z.abs (row x - row (position p))) (Z.abs (col x - col (position p))) = 1 /\
   forall q, cell (board s) (row x) (col x) = Some q -> color q <> color p).
Proof.
  unfold getKnightMoves, getBasicKingMoves. rewrite !offsetMoves_In_iff. split; split.
  - intros (o & Ho & -> & On & Hq). split; [exact On|]. split; [|exact Hq].
    cbn [row col]. unfold knightOffsets in Ho. simpl in Ho.
    destruct Ho as [<-|[<-|[<-|[<-|[<-|[<-|[<-|[<-|[]]]]]]]]]; simpl; lia.
  - intros (On & Hshape & Hq).
    exists (row x - row (position p), col x - col (position p)).
    assert (Ex : x = mkPosition (row (position p) + (row x - row (position p)))
                               (col (position p) + (col x - col (position p)))).
    { destruct x as [xr xc]. cbn [row col]. f_equal; lia. }
    split; [|split; [exact Ex|split; [exact On | exact Hq]]].
    unfold knightOffsets.
    assert (Hcases :
      (row x - row (position p) = -2 \/ row x - row (position p) = -1 \/
       row x - row (position p) = 1 \/ row x - row (position p) = 2) /\
      (col x - col (position p) = -2 \/ col x - col (position p) = -1 \/
       col x - col (position p) = 1 \/ col x - col (position p) = 2)) by lia.
    destruct Hcases as [[R|[R|[R|R]]] [C|[C|[C|C]]]]; rewrite R, C in *;
      simpl; first [lia | tauto].
  - intros (o & Ho & -> & On & Hq). split; [exact On|]. split; [|exact Hq].
    cbn [row col]. unfold kingOffsets in Ho. simpl in Ho.
    destruct Ho as [<-|[<-|[<-|[<-|[<-|[<-|[<-|[<-|[]]]]]]]]]; simpl; lia.
  - intros (On & Hshape & Hq).
    exists (row x - row (position p), col x - col (position p)).
    assert (Ex : x = mkPosition (row (position p) + (row x - row (position p)))
                               (col (position p) + (col x - col (position p)))).
    { destruct x as [xr xc]. cbn [row col]. f_equal; lia. }
    split; [|split; [exact Ex|split; [exact On | exact Hq]]].
    unfold kingOffsets.
    assert (Hcases :
      (row x - row (position p) = -1 \/ row x - row (position p) = 0 \/
       row x - row (position p) = 1) /\
      (col x - col (position p) = -1 \/ col x - col (position p) = 0 \/
       col x - col (position p) = 1)) by lia.
    destruct Hcases as [[R|[R|R]] [C|[C|C]]]; rewrite R, C in *;
      simpl; first [lia | tauto].
Qed.

(** ** The properties at work on concrete positions *)

Lemma sliding_moves_follow_open_rays_witness :
  In (mkPosition 7 4) (getSlidingMoves (pieceAt rook white 5 4 true) (1, 0) testPinnedRook) <->
  exists n, 1 <= n /\
    mkPosition 7 4 = rayStep (position (pieceAt rook white 5 4 true)) (1, 0) n /\
    isPositionOnBoard (mkPosition 7 4) = true /\
    (forall i, 1 <= i < n ->
       isPositionOnBoard (rayStep (position (pieceAt rook white 5 4 true)) (1, 0) i) = true /\
       cell (board testPinnedRook)
            (row (rayStep (position (pieceAt rook white 5 4 true)) (1, 0) i))
            (col (rayStep (position (pieceAt rook white 5 4 true)) (1, 0) i)) = None) /\
    (forall q, cell (board testPinnedRook) (row (mkPosition 7 4)) (col (mkPosition 7 4)) = Some q ->
               color q <> color (pieceAt rook white 5 4 true)).
Proof.
  apply (sliding_moves_follow_open_rays (pieceAt rook white 5 4 true) (1, 0)
           testPinnedRook (mkPosition 7 4)); simpl; lia.
Defined.

Lemma getValidMoves_on_board_witness :
  isPositionOnBoard (mkPosition 2 2) = true.
Proof.
  apply (getValidMoves_on_board (mkPosition 3 3) enPassantReady (mkPosition 2 2)).
  - intros lm H. vm_compute in H. injection H as <-. simpl. lia.
  - vm_compute. auto 10.
Defined.

Lemma getValidMoves_never_onto_own_piece_witness :
  (forall q, cell (board initializeGame) (row (mkPosition 5 2)) (col (mkPosition 5 2)) = Some q ->
             color q <> color (pieceAt knight white 7 1 false)) \/
  (type (pieceAt knight white 7 1 false) = pawn /\
   In (mkPosition 5 2) (getEnPassantMoves (pieceAt knight white 7 1 false) initializeGame)).
Proof.
  apply (getValidMoves_never_onto_own_piece (mkPosition 7 1) initializeGame
           (pieceAt knight white 7 1 false) (mkPosition 5 2)).
  - vm_compute. reflexivity.
  - vm_compute. auto 10.
Defined.

Lemma executeMove_flags_describe_result_witness :
  isCheck afterKingPawnTwo = isInCheck (currentTurn afterKingPawnTwo) afterKingPawnTwo /\
  isCheckmate_flag afterKingPawnTwo
    = isCheckmate (currentTurn afterKingPawnTwo) afterKingPawnTwo /\
  isStalemate_flag afterKingPawnTwo = isStalemate afterKingPawnTwo /\
  (isCheckmate_flag afterKingPawnTwo = true -> isCheck afterKingPawnTwo = true) /\
  (isStalemate_flag afterKingPawnTwo = true -> isCheck afterKingPawnTwo = false).
Proof.
  apply (executeMove_flags_describe_result kingPawnTwo initializeGame afterKingPawnTwo).
  vm_compute. reflexivity.
Defined.

Lemma executeMove_plain_move_witness :
  exists s',
    executeMove queenKnightOut initializeGame = Some s' /\
    cell (board s') (row (to queenKnightOut)) (col (to queenKnightOut))
      = Some (mkPiece (type (pieceAt knight white 7 1 false))
                      (color (pieceAt knight white 7 1 false)) (to queenKnightOut) true) /\
    cell (board s') (row (from queenKnightOut)) (col (from queenKnightOut)) = None /\
    (forall r c, (r <> row (from queenKnightOut) \/ c <> col (from queenKnightOut)) ->
                 (r <> row (to queenKnightOut) \/ c <> col (to queenKnightOut)) ->
                 cell (board s') r c = cell (board initializeGame) r c) /\
    capturedPieces s'
      = capturedPieces initializeGame
        ++ match cell (board initializeGame) (row (to queenKnightOut))
                      (col (to queenKnightOut)) with
           | Some q => [q]
           | None => []
           end.
Proof.
  apply (executeMove_plain_move queenKnightOut initializeGame
           (pieceAt knight white 7 1 false));
    try (vm_compute; reflexivity).
  simpl. lia.
Defined.

Lemma executeMove_en_passant_witness :
  exists s',
    executeMove enPassantCapture enPassantReady = Some s' /\
    cell (board s') (row (from enPassantCapture)) (col (to enPassantCapture)) = None /\
    cell (board s') (row (to enPassantCapture)) (col (to enPassantCapture))
      = Some (arrivedPiece enPassantCapture (pieceAt pawn white 3 3 true)) /\
    cell (board s') (row (from enPassantCapture)) (col (from enPassantCapture)) = None /\
    (forall r c, (r <> row (from enPassantCapture) \/
                  (c <> col (from enPassantCapture) /\ c <> col (to enPassantCapture))) ->
                 (r <> row (to enPassantCapture) \/ c <> col (to enPassantCapture)) ->
                 cell (board s') r c = cell (board enPassantReady) r c) /\
    capturedPieces s'
      = capturedPieces enPassantReady
        ++ match cell (board enPassantReady) (row (from enPassantCapture))
                      (col (to enPassantCapture)) with
           | Some q => [q]
           | None => []
           end.
Proof.
  apply (executeMove_en_passant enPassantCapture enPassantReady
           (pieceAt pawn white 3 3 true));
    try (vm_compute; reflexivity); simpl; lia.
Defined.

Lemma executeMove_castling_witness :
  exists s',
    executeMove castleShort castleReady = Some s' /\
    cell (board s') (row (to castleShort)) (col (to castleShort))
      = Some (arrivedPiece castleShort (pieceAt king white 7 4 false)) /\
    cell (board s') (backRankOf (color (pieceAt king white 7 4 false))) 5
      = Some (mkPiece (type (pieceAt rook white 7 7 false))
                      (color (pieceAt rook white 7 7 false))
                      (mkPosition (backRankOf (color (pieceAt king white 7 4 false))) 5)
                      true) /\
    cell (board s') (backRankOf (color (pieceAt king white 7 4 false))) 4 = None /\
    cell (board s') (backRankOf (color (pieceAt king white 7 4 false))) 7 = None /\
    (forall r c, (r <> backRankOf (color (pieceAt king white 7 4 false)) \/
                  (c <> 4 /\ c <> col (to castleShort) /\ c <> 7 /\ c <> 5)) ->
                 cell (board s') r c = cell (board castleReady) r c).
Proof.
  apply (executeMove_castling castleShort castleReady (pieceAt king white 7 4 false)
           (pieceAt rook white 7 7 false) 7 5);
    try (vm_compute; reflexivity).
  left. simpl. lia.
Defined.

Lemma executeMove_promotion_witness :
  exists s',
    executeMove promoteByCapture promotionReady = Some s' /\
    cell (board s') (row (to promoteByCapture)) (col (to promoteByCapture))
      = Some (mkPiece (promotedType promoQueen) (color (pieceAt pawn white 1 0 true))
                      (to promoteByCapture) true).
Proof.
  apply (executeMove_promotion promoteByCapture promotionReady
           (pieceAt pawn white 1 0 true) promoQueen);
    try (vm_compute; reflexivity).
  - simpl. lia.
  - discriminate.
Defined.

Lemma executeMove_records_move_witness :
  exists s',
    executeMove promoteByCapture promotionReady = Some s' /\
    moveHistory s'
      = moveHistory promotionReady ++ [executedMove promoteByCapture (board promotionReady)] /\
    lastMove s' = Some (executedMove promoteByCapture (board promotionReady)) /\
    capturedPiece (executedMove promoteByCapture (board promotionReady))
      = (if isEnPassant promoteByCapture
         then cell (board promotionReady) (row (from promoteByCapture))
                   (col (to promoteByCapture))
         else cell (board promotionReady) (row (to promoteByCapture))
                   (col (to promoteByCapture))) /\
    (moveCount promotionReady = Z.of_nat (length (moveHistory promotionReady)) ->
     moveCount s' = Z.of_nat (length (moveHistory s'))).
Proof.
  apply (executeMove_records_move promoteByCapture promotionReady
           (pieceAt pawn white 1 0 true));
    try (vm_compute; reflexivity).
  - simpl. lia.
  - discriminate.
  - discriminate.
Defined.

Lemma executeMove_keeps_state_well_formed_witness :
  exists s', executeMove kingPawnTwo initializeGame = Some s' /\ wellFormed s'.
Proof.
  apply (executeMove_keeps_state_well_formed kingPawnTwo initializeGame).
  - exact wellFormed_initializeGame.
  - vm_compute. reflexivity.
Defined.

Lemma reachable_states_invariants_witness :
  wellFormed afterKingPawnTwo /\
  moveCount afterKingPawnTwo = Z.of_nat (length (moveHistory afterKingPawnTwo)) /\
  currentTurn afterKingPawnTwo
    = (if Z.even (moveCount afterKingPawnTwo) then white else black) /\
  lastMove afterKingPawnTwo = last (moveHistory afterKingPawnTwo) /\
  isCheck afterKingPawnTwo = isInCheck (currentTurn afterKingPawnTwo) afterKingPawnTwo /\
  isCheckmate_flag afterKingPawnTwo
    = isCheckmate (currentTurn afterKingPawnTwo) afterKingPawnTwo /\
  isStalemate_flag afterKingPawnTwo = isStalemate afterKingPawnTwo.
Proof.
  apply (reachable_states_invariants afterKingPawnTwo).
  apply (reachable_step initializeGame kingPawnTwo afterKingPawnTwo).
  - exact reachable_start.
  - vm_compute. reflexivity.
  - vm_compute. reflexivity.
Defined.

Lemma legal_moves_keep_own_king_safe_witness :
  exists s', executeMove kingPawnTwo initializeGame = Some s' /\
             isInCheck (currentTurn initializeGame) s' = false.
Proof.
  apply (legal_moves_keep_own_king_safe initializeGame kingPawnTwo).
  - exact wellFormed_initializeGame.
  - vm_compute. repeat (try (left; reflexivity); right).
Defined.

Lemma executeMove_throws_iff_source_empty_witness :
  executeMove (plainMove (mkPosition 4 4) (mkPosition 3 4) (pieceAt pawn white 4 4 true))
              initializeGame = None <->
  cell (board initializeGame) 4 4 = None.
Proof.
  apply (executeMove_throws_iff_source_empty
           (plainMove (mkPosition 4 4) (mkPosition 3 4) (pieceAt pawn white 4 4 true))
           initializeGame).
  - vm_compute. reflexivity.
  - simpl. lia.
Defined.

Lemma sortByScore_orders_by_score_witness :
  Permutation (sortByScore Z Z.gtb [(kingPawnTwo, 1); (queenKnightOut, 3)])
              [(kingPawnTwo, 1); (queenKnightOut, 3)] /\
  StronglySorted (fun a b => Z.gtb (snd b) (snd a) = false)
                 (sortByScore Z Z.gtb [(kingPawnTwo, 1); (queenKnightOut, 3)]).
Proof.
  apply (sortByScore_orders_by_score Z Z.gtb).
  - intros x y. rewrite !Z.gtb_ltb, Z.ltb_lt, Z.ltb_ge. lia.
  - intros x y z. rewrite !Z.gtb_ltb, !Z.ltb_ge. lia.
Defined.

Ltac zorder :=
  intros; unfold finiteScore, boundedCount in *;
  rewrite ?Z.leb_le, ?Z.leb_gt in *;
  try split; rewrite ?Z.leb_le, ?Z.leb_gt; lia.

Lemma minimax_returns_on_well_formed_witness :
  wellFormed initializeGame /\
  exists v, minimax Z boundedCount (-1000000) 1000000 (-10000) 10000 0
                    Z.max Z.min Z.leb 3%nat initializeGame (-1000000) 1000000 false = Some v.
Proof.
  split; [exact wellFormed_initializeGame|].
  apply (minimax_returns_on_well_formed Z boundedCount (-1000000) 1000000 (-10000)
           10000 0 Z.max Z.min Z.leb 3%nat initializeGame (-1000000) 1000000 false).
  exact wellFormed_initializeGame.
Defined.

Lemma minimax_window_agrees_with_full_search_witness :
  exists v w,
    minimax Z boundedCount (-1000000) 1000000 (-10000) 10000 0
            Z.max Z.min Z.leb 2%nat initializeGame (-1000000) 1000000 false = Some v /\
    minimax Z boundedCount (-1000000) 1000000 (-10000) 10000 0
            Z.max Z.min Z.leb 2%nat initializeGame 1 5 false = Some w /\
    finiteScore Z (-1000000) 1000000 Z.leb v /\
    (Z.leb v 1 = true -> Z.leb w 1 = true) /\
    (Z.leb 5 v = true -> Z.leb 5 w = true) /\
    (Z.leb v 1 = false -> Z.leb 5 v = false -> Z.leb v w = true /\ Z.leb w v = true).
Proof.
  apply (minimax_window_agrees_with_full_search Z boundedCount (-1000000) 1000000
           (-10000) 10000 0 Z.max Z.min Z.leb); try zorder.
  exact wellFormed_initializeGame.
Defined.

Lemma minimax_value_is_best_successor_witness :
  exists v,
    minimax Z boundedCount (-1000000) 1000000 (-10000) 10000 0
            Z.max Z.min Z.leb 2%nat initializeGame (-1000000) 1000000 false = Some v /\
    (forall m, In m (getAllLegalMoves white initializeGame) ->
       exists s' u,
         executeMove m initializeGame = Some s' /\
         minimax Z boundedCount (-1000000) 1000000 (-10000) 10000 0
                 Z.max Z.min Z.leb 1%nat s' (-1000000) 1000000 true = Some u /\
         Z.leb v u = true) /\
    (exists m s' u,
       In m (getAllLegalMoves white initializeGame) /\
       executeMove m initializeGame = Some s' /\
       minimax Z boundedCount (-1000000) 1000000 (-10000) 10000 0
               Z.max Z.min Z.leb 1%nat s' (-1000000) 1000000 true = Some u /\
       Z.leb u v = true /\ Z.leb v u = true).
Proof.
  apply (minimax_value_is_best_successor Z boundedCount (-1000000) 1000000
           (-10000) 10000 0 Z.max Z.min Z.leb)
    with (d := 1%nat) (s := initializeGame) (maximizingPlayer := false); try zorder.
  - exact wellFormed_initializeGame.
  - vm_compute. discriminate.
Defined.

Lemma wouldResultInCheckmate_is_checkmate_flag_witness :
  exists s', executeMove kingPawnTwo initializeGame = Some s' /\
             false = isCheckmate_flag s'.
Proof.
  apply (wouldResultInCheckmate_is_checkmate_flag kingPawnTwo initializeGame false).
  - vm_compute. reflexivity.
  - reflexivity.
Defined.

Lemma generateMove_returns_best_scored_witness :
  exists move scored sc,
    generateMove Z (fun _ i _ => Z.of_nat i) Z.gtb (fun _ => 0%nat) lateMateInOne
                 (mkAIConfig hard 3000) = Some move /\
    scoreMoves Z (fun _ i _ => Z.of_nat i) hard lateMateInOne 0
               (getAllLegalMoves black lateMateInOne) = Some scored /\
    In (move, sc) scored /\
    forall m' sc', In (m', sc') scored -> Z.gtb sc' sc = false.
Proof.
  assert (G : exists move,
             generateMove Z (fun _ i _ => Z.of_nat i) Z.gtb (fun _ => 0%nat)
                          lateMateInOne (mkAIConfig hard 3000) = Some move)
    by (vm_compute; eexists; reflexivity).
  destruct G as [move G]. exists move.
  destruct (generateMove_returns_best_scored Z (fun _ i _ => Z.of_nat i) Z.gtb
              (fun _ => 0%nat)
              ltac:(intros x y; rewrite !Z.gtb_ltb, Z.ltb_lt, Z.ltb_ge; lia)
              ltac:(intros x y z; rewrite !Z.gtb_ltb, !Z.ltb_ge; lia)
              lateMateInOne (mkAIConfig hard 3000) move eq_refl G)
    as (scored & sc & Hs & Hin & Hmax).
  exists scored, sc. auto.
Defined.

Lemma handlePlayerMove_answers_valid_move_witness :
  exists s1,
    executeMove kingPawnTwo
      (Controller.engineState (Controller.gameState Controller.newController)) = Some s1 /\
    if isCheckmate_flag s1 || isStalemate_flag s1 then
      Controller.handlePlayerMove Z (fun _ i _ => Z.of_nat i) Z.gtb (fun _ => 0%nat)
        kingPawnTwo Controller.newController =
        (Controller.fulfilled,
         Controller.mkGameController (Controller.fromEngine s1)
           (Controller.difficulty Controller.newController)
           (Controller.notified Controller.newController ++ [Controller.fromEngine s1]))
    else
      exists aiMove s2,
        In aiMove (getAllLegalMoves black s1) /\
        executeMove aiMove s1 = Some s2 /\
        currentTurn s2 = white /\
        moveCount s2
          = moveCount (Controller.engineState
                         (Controller.gameState Controller.newController)) + 2 /\
        Controller.handlePlayerMove Z (fun _ i _ => Z.of_nat i) Z.gtb (fun _ => 0%nat)
          kingPawnTwo Controller.newController =
          (Controller.fulfilled,
           Controller.mkGameController
             (Controller.mkGameStateObject s2 (Some false) None None)
             (Controller.difficulty Controller.newController)
             (Controller.notified Controller.newController ++
                [Controller.fromEngine s1;
                 Controller.mkGameStateObject s1 (Some true) None None;
                 Controller.mkGameStateObject s2 (Some false) None None])).
Proof.
  apply (handlePlayerMove_answers_valid_move Z (fun _ i _ => Z.of_nat i) Z.gtb
           (fun _ => 0%nat) Controller.newController kingPawnTwo).
  - exact wellFormed_initializeGame.
  - reflexivity.
  - vm_compute. reflexivity.
  - simpl. lia.
  - simpl. lia.
Defined.

Lemma controller_always_awaits_player_witness :
  Controller.awaitingPlayer
    (Controller.engineState
       (Controller.gameState (Controller.startNewGame hard Controller.newController))) /\
  Controller.isAIThinking
    (Controller.gameState (Controller.startNewGame hard Controller.newController))
    <> Some true /\
  forall move,
    fst (Controller.handlePlayerMove Z (fun _ i _ => Z.of_nat i) Z.gtb (fun _ => 0%nat)
           move (Controller.startNewGame hard Controller.newController))
    = Controller.fulfilled.
Proof.
  apply (controller_always_awaits_player Z (fun _ i _ => Z.of_nat i) Z.gtb
           (fun _ => 0%nat) (Controller.startNewGame hard Controller.newController)).
  apply Controller.inPlay_startNewGame. apply Controller.inPlay_new.
Defined.

Lemma listed_moves_execute_unflagged_witness :
  isEnPassant kingTwoFiles = false /\ isCastling kingTwoFiles = false /\
  promotionType kingTwoFiles = None /\
  exists p s',
    cell (board castleReady) (row (from kingTwoFiles)) (col (from kingTwoFiles)) = Some p /\
    executeMove kingTwoFiles castleReady = Some s' /\
    cell (board s') (row (to kingTwoFiles)) (col (to kingTwoFiles))
      = Some (mkPiece (type p) (color p) (to kingTwoFiles) true) /\
    cell (board s') (row (from kingTwoFiles)) (col (from kingTwoFiles)) = None /\
    forall r k, (r <> row (from kingTwoFiles) \/ k <> col (from kingTwoFiles)) ->
                (r <> row (to kingTwoFiles) \/ k <> col (to kingTwoFiles)) ->
                cell (board s') r k = cell (board castleReady) r k.
Proof.
  apply (listed_moves_execute_unflagged white castleReady kingTwoFiles).
  - assert (V : isValidBoard (board castleReady) = true) by (vm_compute; reflexivity).
    split; [exact V|]. split; [|discriminate].
    apply positionsAgree_check; [apply isValidBoard_eightByEight; exact V|].
    vm_compute. reflexivity.
  - vm_compute. repeat (first [left; reflexivity | right]).
Defined.
